(** * canvas-react: the scene-graph engine

    A shallow embedding of [core/Matrix.ts], [core/Node.ts],
    [core/Container.ts], [shapes/Rect.ts], [shapes/Circle.ts],
    [shapes/Transformer.ts], of the bounds of [shapes/Line.ts] and of
    [shapes/Text.ts] (line wrapping, drawing, bounds and point test, with
    the host's [measureText] as a parameter); the properties the
    specification states about them, and further properties read from the
    code.

    JavaScript's [number] is an IEEE 754 binary64.  The matrix code only
    adds, subtracts, multiplies, divides and compares, so it is written
    once over an interface [Number] and read at two instances:
    [float64] (primitive binary64 floats: what the engine computes, and
    what evaluates here) and [real] (exact arithmetic, in which the
    algebraic laws are stated).  The scene graph calls [Math.cos],
    [Math.sin] and [Math.atan2], whose values ECMAScript leaves to the
    host; it is modelled over the reals.  A theorem over the reals is a
    statement in exact arithmetic: it says what the code computes when
    no operation rounds, overflows or underflows, and no number is NaN
    (so [x !== x] never holds).  In binary64 the laws of the matrices
    hold up to rounding only; [invert_float64_counterexample] evaluates
    one that fails there.

    Objects live in a store [gmap ref NodeObj]: a node is known by its
    reference, a container holds references to its children and a child
    holds a reference to its parent, so two containers can list the same
    node, as they can in the engine.

    The methods that walk the graph ([getGlobalTransform], [getSelfBounds],
    [hitTest], [render]) recurse on a bound [fuel] and return [option]:
    [None] is a walk that ran out of fuel or met a reference the store
    does not hold; the theorems that say a method returns a value give
    the fuel that is enough.

    The methods that change the scene ([requestRedraw], the accessors,
    [setProps], [add], [remove]) pass a [World]: the store and the log
    of the redraws requested.  [setProps] returns [option]: [None] is a
    call the model does not follow (a partial with a key that names a
    field or a method of the object, which [Object.assign] would
    overwrite; an [Image] given [src] or [image], which goes on to load
    it).  [requestRedraw] climbs the parents; a theorem about it assumes
    that the chain of parents ends ([lineage]), since on a chain that
    loops the engine does not return.

    A [Transformer] is the record of its own fields beside the object it
    is stored as; its [hitTest] is the function [Transformer_hitTest].
    [hitTest] and [render] are the walks of [Node] and [Container];
    [Scene_hitTest] and [Scene_render] walk a [Scene], the store with
    its Transformers, and tell the classes apart.

    Not modelled: [Transformer.render] and [drawInterface]
    ([Scene_render] answers [None] on a Transformer), the drawing of the
    shapes other than [Rect], [Circle] and the [fillText] calls of
    [Text] (such a shape enters the scene through [KOther] with its
    bounds and its point test), [shapes/Image.ts],
    [shapes/Path.ts] and [core/Assets.ts] (images, paths and promises of
    the host), the canvas context beyond the calls recorded in [CtxCall],
    and the React host. *)

From Stdlib Require Import Floats.
From Stdlib Require Import Reals Lra List Sorting.Sorted Sorting.Permutation.
From stdpp Require Import gmap strings.

Set Warnings "-inexact-float".

(** * Numbers *)

Class Number (num : Type) := {
  n0 : num;
  n1 : num;
  nadd : num -> num -> num;
  nsub : num -> num -> num;
  nmul : num -> num -> num;
  ndiv : num -> num -> num;
  nneg : num -> num;
  nabs : num -> num;
  (* [x === y] and [x <= y] *)
  neqb : num -> num -> bool;
  nleb : num -> num -> bool
}.

Definition Reqb (x y : R) : bool := if Req_dec_T x y then true else false.
Definition Rltb (x y : R) : bool := if Rlt_dec x y then true else false.
Definition Rleb (x y : R) : bool := if Rle_dec x y then true else false.

(** Exact arithmetic.  What is proved at this instance is what the code
    computes when no operation rounds; of the engine's binary64 numbers
    it holds up to rounding only. *)
#[export] Instance real : Number R := {
  n0 := 0%R; n1 := 1%R;
  nadd := Rplus; nsub := Rminus; nmul := Rmult; ndiv := Rdiv;
  nneg := Ropp; nabs := Rabs;
  neqb := Reqb; nleb := Rleb
}.

(** The engine's numbers: IEEE 754 binary64. *)
#[export] Instance float64 : Number float := {
  n0 := 0%float; n1 := 1%float;
  nadd := PrimFloat.add; nsub := PrimFloat.sub;
  nmul := PrimFloat.mul; ndiv := PrimFloat.div;
  nneg := PrimFloat.opp; nabs := PrimFloat.abs;
  neqb := PrimFloat.eqb; nleb := PrimFloat.leb
}.

(** * core/Matrix.ts *)

Record Point (num : Type) := mkPoint { px : num; py : num }.
Arguments mkPoint {num} _ _.
Arguments px {num} _.
Arguments py {num} _.

(** The six coefficients of
<<
    | a c e |
    | b d f |
    | 0 0 1 |
>> *)
Record Matrix2D (num : Type) := mkMatrix {
  ma : num; mb : num; mc : num; md : num; me : num; mf : num
}.
Arguments mkMatrix {num} _ _ _ _ _ _.
Arguments ma {num} _.
Arguments mb {num} _.
Arguments mc {num} _.
Arguments md {num} _.
Arguments me {num} _.
Arguments mf {num} _.

Section Matrix.
Context {num : Type} `{Number num}.

Local Infix "+" := nadd.
Local Infix "-" := nsub.
Local Infix "*" := nmul.
Local Infix "/" := ndiv.
Local Notation "- x" := (nneg x).

(** [new Matrix2D()]: every argument at its default. *)
Definition identity : Matrix2D num := mkMatrix n1 n0 n0 n1 n0 n0.

(** [this.multiply(matrix)] overwrites the receiver with [this * matrix]
    and returns it.  Every receiver in the engine is an object made for
    that call, so the value returned is all that is observed. *)
Definition multiply (this matrix : Matrix2D num) : Matrix2D num :=
  let a := ma this * ma matrix + mc this * mb matrix in
  let b := mb this * ma matrix + md this * mb matrix in
  let c := ma this * mc matrix + mc this * md matrix in
  let d := mb this * mc matrix + md this * md matrix in
  let e := ma this * me matrix + mc this * mf matrix + me this in
  let f := mb this * me matrix + md this * mf matrix + mf this in
  mkMatrix a b c d e f.

Definition translate (this : Matrix2D num) (x y : num) : Matrix2D num :=
  multiply this (mkMatrix n1 n0 n0 n1 x y).

Definition scale (this : Matrix2D num) (x y : num) : Matrix2D num :=
  multiply this (mkMatrix x n0 n0 y n0 n0).

(** The determinant [invert] computes first. *)
Definition det (this : Matrix2D num) : num :=
  ma this * md this - mb this * mc this.

Definition invert (this : Matrix2D num) : Matrix2D num :=
  let det := ma this * md this - mb this * mc this in
  if neqb det n0 then identity
  else
    let invDet := n1 / det in
    mkMatrix
      (md this * invDet)
      (- mb this * invDet)
      (- mc this * invDet)
      (ma this * invDet)
      ((mc this * mf this - md this * me this) * invDet)
      ((mb this * me this - ma this * mf this) * invDet).

Definition transformPoint (this : Matrix2D num) (point : Point num) : Point num :=
  mkPoint (ma this * px point + mc this * py point + me this)
          (mb this * px point + md this * py point + mf this).

(** [x] and [y] differ by at most [eps]. *)
Definition within (eps x y : num) : bool := nleb (nabs (x - y)) eps.

Definition matrix_within (eps : num) (m1 m2 : Matrix2D num) : bool :=
  within eps (ma m1) (ma m2) && within eps (mb m1) (mb m2) &&
  within eps (mc m1) (mc m2) && within eps (md m1) (md m2) &&
  within eps (me m1) (me m2) && within eps (mf m1) (mf m2).

Definition point_within (eps : num) (p q : Point num) : bool :=
  within eps (px p) (px q) && within eps (py p) (py q).

End Matrix.

(** ** The part of [Matrix2D] that needs [Math]: over the reals *)

Local Open Scope R_scope.

(** [Math.atan2(y, x)]: the angle of the vector [(x, y)], in (-PI, PI];
    0 at the origin. *)
Definition atan2 (y x : R) : R :=
  if Rltb 0 x then atan (y / x)
  else if Rltb x 0 then
    (if Rleb 0 y then atan (y / x) + PI else atan (y / x) - PI)
  else if Rltb 0 y then PI / 2
  else if Rltb y 0 then - (PI / 2)
  else 0.

Definition rotate (this : Matrix2D R) (angle : R) : Matrix2D R :=
  let cos := cos angle in
  let sin := sin angle in
  multiply this (mkMatrix cos sin (- sin) cos 0 0).

Record Decomposed := mkDecomposed {
  d_x : R; d_y : R; d_scaleX : R; d_scaleY : R;
  d_rotation : R; d_skewX : R; d_skewY : R
}.

Definition decompose (this : Matrix2D R) : Decomposed :=
  let a := ma this in
  let b := mb this in
  let c := mc this in
  let d := md this in
  let skewX := - atan2 (- c) d in
  let skewY := atan2 b a in
  let delta := Rabs (skewX + skewY) in
  if Rltb delta 0.00001 || Rltb (Rabs (PI * 2 - delta)) 0.00001 then
    let rotation := skewY in
    let rotation :=
      if Rltb a 0 && Rleb 0 d
      then rotation + (if Rleb rotation 0 then PI else - PI)
      else rotation in
    mkDecomposed (me this) (mf this)
      (sqrt (a * a + b * b)) (sqrt (c * c + d * d)) rotation skewX skewY
  else
    mkDecomposed (me this) (mf this) a d 0 skewX skewY.

(** * core/Node.ts: the data *)

(** An object reference: the identity [===] and [indexOf] compare. *)
Abbreviation ref := nat.

Record Rect := mkRect { rx : R; ry : R; rwidth : R; rheight : R }.

(** What a property bag holds under a key. *)
Inductive Value :=
| VNum (v : R)
| VBool (b : bool)
| VStr (s : string)
| VFun (handler : nat).

(** [NodeProps]: an object used as a map from property names to values;
    a key that is absent reads [undefined]. *)
Abbreviation Props := (gmap string Value).

(** [if (v)]: [undefined], [false], [0] and the empty string are falsy. *)
Definition truthy (v : option Value) : bool :=
  match v with
  | None => false
  | Some (VNum x) => negb (Reqb x 0)
  | Some (VBool b) => b
  | Some (VStr s) => negb (String.eqb s "")
  | Some (VFun _) => true
  end.

(** A numeric property with its default: [const { k = d } = props],
    [props.k !== undefined ? props.k : d] and, for [d = 0],
    [props.k || 0].  The bag is typed by [NodeProps]: under a numeric key
    it holds a number or nothing. *)
Definition numOr (v : option Value) (d : R) : R :=
  match v with Some (VNum x) => x | _ => d end.

(** [const { k = d } = props] for a string property. *)
Definition strOr (v : option Value) (d : string) : string :=
  match v with Some (VStr s) => s | _ => d end.

(** [props.k || d] for a string property: the empty string is falsy. *)
Definition strOrFalsy (v : option Value) (d : string) : string :=
  match v with
  | Some (VStr s) => if String.eqb s "" then d else s
  | _ => d
  end.

Record CanvasEvents := mkEvents {
  onClick : option Value;
  onMouseEnter : option Value;
  onMouseLeave : option Value;
  onDragStart : option Value;
  onDragMove : option Value;
  onDragEnd : option Value
}.

(** The class of an object, which selects its [getSelfBounds],
    [isPointInShape], [draw] and [hitTest].  [KOther] stands for any
    other leaf class, or an instance whose [getSelfBounds] and
    [isPointInShape] were replaced (as the engine's tests do). *)
Inductive Kind :=
| KNode
| KRect
| KCircle
| KOther (selfBounds : Rect) (inShape : R -> R -> bool)
| KContainer.

Record NodeObj := mkNodeObj {
  _x : R;
  _y : R;
  _rotation : R;
  _scaleX : R;
  _scaleY : R;
  _zIndex : R;
  _cursor : string;
  draggable : bool;
  parent : option ref;
  props : Props;
  events : CanvasEvents;
  kind : Kind;
  (* [Container.children]; empty in every other class *)
  children : list ref
}.

Definition with_x (v : R) (o : NodeObj) : NodeObj :=
  mkNodeObj v (_y o) (_rotation o) (_scaleX o) (_scaleY o) (_zIndex o) (_cursor o)
    (draggable o) (parent o) (props o) (events o) (kind o) (children o).
Definition with_y (v : R) (o : NodeObj) : NodeObj :=
  mkNodeObj (_x o) v (_rotation o) (_scaleX o) (_scaleY o) (_zIndex o) (_cursor o)
    (draggable o) (parent o) (props o) (events o) (kind o) (children o).
Definition with_rotation (v : R) (o : NodeObj) : NodeObj :=
  mkNodeObj (_x o) (_y o) v (_scaleX o) (_scaleY o) (_zIndex o) (_cursor o)
    (draggable o) (parent o) (props o) (events o) (kind o) (children o).
Definition with_scaleX (v : R) (o : NodeObj) : NodeObj :=
  mkNodeObj (_x o) (_y o) (_rotation o) v (_scaleY o) (_zIndex o) (_cursor o)
    (draggable o) (parent o) (props o) (events o) (kind o) (children o).
Definition with_scaleY (v : R) (o : NodeObj) : NodeObj :=
  mkNodeObj (_x o) (_y o) (_rotation o) (_scaleX o) v (_zIndex o) (_cursor o)
    (draggable o) (parent o) (props o) (events o) (kind o) (children o).
Definition with_zIndex (v : R) (o : NodeObj) : NodeObj :=
  mkNodeObj (_x o) (_y o) (_rotation o) (_scaleX o) (_scaleY o) v (_cursor o)
    (draggable o) (parent o) (props o) (events o) (kind o) (children o).
Definition with_cursor (v : string) (o : NodeObj) : NodeObj :=
  mkNodeObj (_x o) (_y o) (_rotation o) (_scaleX o) (_scaleY o) (_zIndex o) v
    (draggable o) (parent o) (props o) (events o) (kind o) (children o).
Definition with_draggable (v : bool) (o : NodeObj) : NodeObj :=
  mkNodeObj (_x o) (_y o) (_rotation o) (_scaleX o) (_scaleY o) (_zIndex o) (_cursor o)
    v (parent o) (props o) (events o) (kind o) (children o).
Definition with_parent (v : option ref) (o : NodeObj) : NodeObj :=
  mkNodeObj (_x o) (_y o) (_rotation o) (_scaleX o) (_scaleY o) (_zIndex o) (_cursor o)
    (draggable o) v (props o) (events o) (kind o) (children o).
Definition with_props (v : Props) (o : NodeObj) : NodeObj :=
  mkNodeObj (_x o) (_y o) (_rotation o) (_scaleX o) (_scaleY o) (_zIndex o) (_cursor o)
    (draggable o) (parent o) v (events o) (kind o) (children o).
Definition with_events (v : CanvasEvents) (o : NodeObj) : NodeObj :=
  mkNodeObj (_x o) (_y o) (_rotation o) (_scaleX o) (_scaleY o) (_zIndex o) (_cursor o)
    (draggable o) (parent o) (props o) v (kind o) (children o).
Definition with_children (v : list ref) (o : NodeObj) : NodeObj :=
  mkNodeObj (_x o) (_y o) (_rotation o) (_scaleX o) (_scaleY o) (_zIndex o) (_cursor o)
    (draggable o) (parent o) (props o) (events o) (kind o) v.

(** [updateEvents(props)] *)
Definition updateEvents (p : Props) (o : NodeObj) : NodeObj :=
  with_events
    (mkEvents (p !! "onClick") (p !! "onMouseEnter") (p !! "onMouseLeave")
              (p !! "onDragStart") (p !! "onDragMove") (p !! "onDragEnd")) o.

(** [new C(props)] for the class [k]: the object the constructor leaves. *)
Definition construct (k : Kind) (p : Props) : NodeObj :=
  updateEvents p
    (mkNodeObj
       (numOr (p !! "x") 0)
       (numOr (p !! "y") 0)
       (numOr (p !! "rotation") 0)
       (numOr (p !! "scaleX") 1)
       (numOr (p !! "scaleY") 1)
       (numOr (p !! "zIndex") 0)
       (strOrFalsy (p !! "cursor") "default")
       (truthy (p !! "draggable"))
       None
       p
       (mkEvents None None None None None None)
       k
       []).

(** * core/Node.ts, core/Container.ts: reading the scene *)

(** [getTransform()]: translate, then rotate, then scale. *)
Definition getTransform (o : NodeObj) : Matrix2D R :=
  let matrix := identity in
  let matrix := translate matrix (_x o) (_y o) in
  let matrix := rotate matrix (_rotation o) in
  let matrix := scale matrix (_scaleX o) (_scaleY o) in
  matrix.

(** The [while (parent)] loop of [getGlobalTransform]: one unit of fuel
    per ancestor; [None] when the fuel ends before the chain does. *)
Fixpoint getGlobalTransform_loop (fuel : nat) (h : gmap ref NodeObj)
    (matrix : Matrix2D R) (parent_ : option ref) : option (Matrix2D R) :=
  match parent_ with
  | None => Some matrix
  | Some p =>
    match fuel with
    | O => None
    | S f =>
      po ← h !! p;
      let parentMatrix := getTransform po in
      getGlobalTransform_loop f h (multiply parentMatrix matrix) (parent po)
    end
  end.

Definition getGlobalTransform (fuel : nat) (h : gmap ref NodeObj) (r : ref)
    : option (Matrix2D R) :=
  o ← h !! r;
  getGlobalTransform_loop fuel h (getTransform o) (parent o).

Definition zeroRect : Rect := mkRect 0 0 0 0.

(** [Math.min(...[a, b, c, d])] and [Math.max(...[a, b, c, d])] *)
Definition min4 (a b c d : R) : R := Rmin (Rmin (Rmin a b) c) d.
Definition max4 (a b c d : R) : R := Rmax (Rmax (Rmax a b) c) d.

(** The four corners of a box through a matrix, as both
    [Node.getGlobalBounds] and [Container.getSelfBounds] take them. *)
Definition corner1 (m : Matrix2D R) (b : Rect) : Point R :=
  transformPoint m (mkPoint (rx b) (ry b)).
Definition corner2 (m : Matrix2D R) (b : Rect) : Point R :=
  transformPoint m (mkPoint (rx b + rwidth b) (ry b)).
Definition corner3 (m : Matrix2D R) (b : Rect) : Point R :=
  transformPoint m (mkPoint (rx b) (ry b + rheight b)).
Definition corner4 (m : Matrix2D R) (b : Rect) : Point R :=
  transformPoint m (mkPoint (rx b + rwidth b) (ry b + rheight b)).

Definition cornersMinX (m : Matrix2D R) (b : Rect) : R :=
  min4 (px (corner1 m b)) (px (corner2 m b)) (px (corner3 m b)) (px (corner4 m b)).
Definition cornersMaxX (m : Matrix2D R) (b : Rect) : R :=
  max4 (px (corner1 m b)) (px (corner2 m b)) (px (corner3 m b)) (px (corner4 m b)).
Definition cornersMinY (m : Matrix2D R) (b : Rect) : R :=
  min4 (py (corner1 m b)) (py (corner2 m b)) (py (corner3 m b)) (py (corner4 m b)).
Definition cornersMaxY (m : Matrix2D R) (b : Rect) : R :=
  max4 (py (corner1 m b)) (py (corner2 m b)) (py (corner3 m b)) (py (corner4 m b)).

(** The box [{x: minX, y: minY, width: maxX - minX, height: maxY - minY}]
    around the corners. *)
Definition enclose (m : Matrix2D R) (b : Rect) : Rect :=
  mkRect (cornersMinX m b) (cornersMinY m b)
         (cornersMaxX m b - cornersMinX m b) (cornersMaxY m b - cornersMinY m b).

(** The running [minX, minY, maxX, maxY] of [Container.getSelfBounds].
    The source starts them at [Infinity] and [-Infinity]; [None] is that
    start, before the first child. *)
Record Extent := mkExtent { minX : R; minY : R; maxX : R; maxY : R }.

Definition extend (acc : option Extent) (m : Matrix2D R) (b : Rect) : Extent :=
  match acc with
  | None =>
    mkExtent (cornersMinX m b) (cornersMinY m b) (cornersMaxX m b) (cornersMaxY m b)
  | Some e =>
    mkExtent (Rmin (minX e) (cornersMinX m b)) (Rmin (minY e) (cornersMinY m b))
             (Rmax (maxX e) (cornersMaxX m b)) (Rmax (maxY e) (cornersMaxY m b))
  end.

(** [getSelfBounds()] of the leaf classes. *)
Definition leaf_getSelfBounds (o : NodeObj) : Rect :=
  match kind o with
  | KRect =>
    let width := numOr (props o !! "width") 100 in
    let height := numOr (props o !! "height") 100 in
    mkRect 0 0 width height
  | KCircle =>
    let radius := numOr (props o !! "radius") 50 in
    mkRect (- radius) (- radius) (radius * 2) (radius * 2)
  | KOther b _ => b
  | _ => zeroRect
  end.

(** [getSelfBounds()], by the class of [r].  A container asks each child
    for its own, one unit of fuel per level. *)
Fixpoint getSelfBounds (fuel : nat) (h : gmap ref NodeObj) (r : ref) : option Rect :=
  match fuel with
  | O => None
  | S f =>
    o ← h !! r;
    match kind o with
    | KContainer =>
      match children o with
      | [] => Some zeroRect
      | _ =>
        acc ← foldl
          (fun acc child =>
             a ← acc;
             childBounds ← getSelfBounds f h child;
             co ← h !! child;
             Some (Some (extend a (getTransform co) childBounds)))
          (Some None) (children o);
        Some (match acc with
              | Some e => mkRect (minX e) (minY e) (maxX e - minX e) (maxY e - minY e)
              | None => zeroRect
              end)
      end
    | _ => Some (leaf_getSelfBounds o)
    end
  end.

Definition getGlobalBounds (fuel : nat) (h : gmap ref NodeObj) (r : ref) : option Rect :=
  selfBounds ← getSelfBounds fuel h r;
  globalTransform ← getGlobalTransform fuel h r;
  Some (enclose globalTransform selfBounds).

(** [isPointInShape(x, y)] of the leaf classes. *)
Definition isPointInShape (o : NodeObj) (x y : R) : bool :=
  match kind o with
  | KRect =>
    let width := numOr (props o !! "width") 100 in
    let height := numOr (props o !! "height") 100 in
    Rleb 0 x && Rleb x width && Rleb 0 y && Rleb y height
  | KCircle =>
    let radius := numOr (props o !! "radius") 50 in
    Rleb (x * x + y * y) (radius * radius)
  | KOther _ inShape => inShape x y
  | _ => false
  end.

(** The point lies outside the box (a point on the edge is inside). *)
Definition pointOutside (p : Point R) (b : Rect) : bool :=
  Rltb (px p) (rx b) || Rltb (rx b + rwidth b) (px p) ||
  Rltb (py p) (ry b) || Rltb (ry b + rheight b) (py p).

(** [Node.hitTest(globalPoint)]; [Some None] is the answer [null]. *)
Definition Node_hitTest (fuel : nat) (h : gmap ref NodeObj) (r : ref) (o : NodeObj)
    (globalPoint : Point R) : option (option ref) :=
  globalBounds ← getGlobalBounds fuel h r;
  if Rltb 0 (rwidth globalBounds) && Rltb 0 (rheight globalBounds)
     && pointOutside globalPoint globalBounds
  then Some None
  else
    globalTransform ← getGlobalTransform fuel h r;
    let inverseMatrix := invert globalTransform in
    let localPoint := transformPoint inverseMatrix globalPoint in
    if isPointInShape o (px localPoint) (py localPoint) then Some (Some r)
    else Some None.

(** The clip rectangle of a container's property bag, with its defaults. *)
Definition clipRect (p : Props) : Rect :=
  mkRect (numOr (p !! "clipX") 0) (numOr (p !! "clipY") 0)
         (numOr (p !! "clipWidth") 100) (numOr (p !! "clipHeight") 100).

(** The first part of [Container.hitTest]: [Some true] when clipping is
    on and the point, taken to the container's own space, is outside the
    clip rectangle. *)
Definition clipRejects (fuel : nat) (h : gmap ref NodeObj) (r : ref) (o : NodeObj)
    (globalPoint : Point R) : option bool :=
  if truthy (props o !! "clip") then
    globalTransform ← getGlobalTransform fuel h r;
    let inverseMatrix := invert globalTransform in
    let localPoint := transformPoint inverseMatrix globalPoint in
    Some (pointOutside localPoint (clipRect (props o)))
  else Some false.

(** The loop [for (i = children.length - 1; i >= 0; i--)] over the
    children it meets, last first: the first answer that is not [null]. *)
Fixpoint firstHit (test : ref -> option (option ref)) (reversed : list ref)
    : option (option ref) :=
  match reversed with
  | [] => Some None
  | child :: rest =>
    hitNode ← test child;
    match hitNode with
    | Some n => Some (Some n)
    | None => firstHit test rest
    end
  end.

(** [Container.hitTest(globalPoint)], given its children's [hitTest]. *)
Definition Container_hitTest (test : ref -> option (option ref))
    (fuel : nat) (h : gmap ref NodeObj) (r : ref) (o : NodeObj)
    (globalPoint : Point R) : option (option ref) :=
  rejected ← clipRejects fuel h r o globalPoint;
  if (rejected : bool) then Some None
  else firstHit test (rev (children o)).

(** [hitTest(globalPoint)] as [Node] and [Container] define it, by the
    kind of [r].  An object that is a [Transformer] runs its own
    [hitTest]: the walk that dispatches to it is [Scene_hitTest], which
    is this one on a subtree without Transformer. *)
Fixpoint hitTest (fuel : nat) (h : gmap ref NodeObj) (r : ref) (globalPoint : Point R)
    : option (option ref) :=
  match fuel with
  | O => None
  | S f =>
    o ← h !! r;
    match kind o with
    | KContainer =>
      Container_hitTest (fun child => hitTest f h child globalPoint) f h r o globalPoint
    | _ => Node_hitTest f h r o globalPoint
    end
  end.

(** * Rendering *)

(** What the engine does to the drawing context, in order.  [Draw r] marks
    that [render] called the [draw] method of [r]. *)
Inductive CtxCall :=
| Save
| Restore
| SetFilter (v : string)
| SetShadowColor (v : string)
| SetShadowBlur (v : R)
| SetShadowOffsetX (v : R)
| SetShadowOffsetY (v : R)
| Transform (m : Matrix2D R)
| Draw (r : ref)
| BeginPath
| RectPath (x y w h : R)
| Clip
| SetFillStyle (v : string)
| FillRect (x y w h : R)
| Arc (x y radius startAngle endAngle : R)
| Fill
| ClosePath.

(** The culling test of [render]. *)
Definition isOutside (bounds viewport : Rect) : bool :=
  Rltb (rx viewport + rwidth viewport) (rx bounds) ||
  Rltb (rx bounds + rwidth bounds) (rx viewport) ||
  Rltb (ry viewport + rheight viewport) (ry bounds) ||
  Rltb (ry bounds + rheight bounds) (ry viewport).

(** The filter and shadow settings [render] makes after [save]. *)
Definition styleCalls (o : NodeObj) : list CtxCall :=
  (if truthy (props o !! "filter")
   then [SetFilter (strOr (props o !! "filter") "")] else []) ++
  (if truthy (props o !! "shadowColor")
   then [SetShadowColor (strOr (props o !! "shadowColor") "");
         SetShadowBlur (numOr (props o !! "shadowBlur") 0);
         SetShadowOffsetX (numOr (props o !! "shadowOffsetX") 0);
         SetShadowOffsetY (numOr (props o !! "shadowOffsetY") 0)]
   else []).

(** [draw(ctx)] of the leaf classes; [Node.draw] does nothing. *)
Definition leaf_draw (o : NodeObj) (ctx : list CtxCall) : list CtxCall :=
  match kind o with
  | KRect =>
    let width := numOr (props o !! "width") 100 in
    let height := numOr (props o !! "height") 100 in
    let fill := strOr (props o !! "fill") "black" in
    ctx ++ [SetFillStyle fill; FillRect 0 0 width height]
  | KCircle =>
    let radius := numOr (props o !! "radius") 50 in
    let fill := strOr (props o !! "fill") "black" in
    ctx ++ [BeginPath; Arc 0 0 radius 0 (PI * 2); SetFillStyle fill; Fill; ClosePath]
  | _ => ctx
  end.

(** [Container.draw(ctx, viewport)], given its children's [render]. *)
Definition Container_draw
    (renderChild : ref -> option Rect -> list CtxCall -> option (list CtxCall))
    (o : NodeObj) (viewport : option Rect) (ctx : list CtxCall)
    : option (list CtxCall) :=
  let ctx :=
    if truthy (props o !! "clip") then
      let c := clipRect (props o) in
      ctx ++ [BeginPath; RectPath (rx c) (ry c) (rwidth c) (rheight c); Clip]
    else ctx in
  foldl (fun acc child => c ← acc; renderChild child viewport c) (Some ctx) (children o).

(** [render(ctx, viewport)] as [Node] defines it, with the [draw] of
    the kind of [r]: the calls made on [ctx] are appended.  An object
    that is a [Transformer] runs its own [render]: the walk that tells
    the classes apart is [Scene_render], which is this one on a subtree
    without Transformer. *)
Fixpoint render (fuel : nat) (h : gmap ref NodeObj) (r : ref)
    (viewport : option Rect) (ctx : list CtxCall) : option (list CtxCall) :=
  match fuel with
  | O => None
  | S f =>
    o ← h !! r;
    culled ←
      match viewport with
      | Some vp =>
        bounds ← getGlobalBounds f h r;
        Some (Rltb 0 (rwidth bounds) && Rltb 0 (rheight bounds) && isOutside bounds vp)
      | None => Some false
      end;
    if (culled : bool) then Some ctx
    else
      let ctx := ctx ++ [Save] ++ styleCalls o ++ [Transform (getTransform o)] ++ [Draw r] in
      drawn ←
        match kind o with
        | KContainer => Container_draw (render f h) o viewport ctx
        | _ => Some (leaf_draw o ctx)
        end;
      Some (drawn ++ [Restore])
  end.

(** The nodes whose [draw] ran, in the order it ran. *)
Definition drawOrder (ctx : list CtxCall) : list ref :=
  flat_map (fun c => match c with Draw r => [r] | _ => [] end) ctx.

(** ** The context's transform *)

(** The part of the context's drawing state the engine changes: the
    current transform and the transforms [save] has stacked. *)
Record CtxState := mkCtxState { current : Matrix2D R; saved : list (Matrix2D R) }.

(** [save] stacks the current transform, [restore] takes the last one
    back (and does nothing on an empty stack), [transform(m)] multiplies
    the current transform by [m] on the right. *)
Definition ctxStep (s : CtxState) (c : CtxCall) : CtxState :=
  match c with
  | Save => mkCtxState (current s) (current s :: saved s)
  | Restore =>
    match saved s with
    | m :: stack => mkCtxState m stack
    | [] => s
    end
  | Transform m => mkCtxState (multiply (current s) m) (saved s)
  | _ => s
  end.

Definition ctxAfter (calls : list CtxCall) (s : CtxState) : CtxState :=
  foldl ctxStep s calls.

(** The nodes whose [draw] ran, each with the transform the context had
    at that moment. *)
Fixpoint drawnUnder (calls : list CtxCall) (s : CtxState) : list (ref * Matrix2D R) :=
  match calls with
  | [] => []
  | c :: rest =>
    match c with
    | Draw r => [(r, current s)]
    | _ => []
    end ++ drawnUnder rest (ctxStep s c)
  end.

(** * Changing the scene *)

(** The store, and the receivers of [requestRedraw()] so far, oldest
    first. *)
Record World := mkWorld { heap : gmap ref NodeObj; redraws : list ref }.

Definition store (r : ref) (o : NodeObj) (w : World) : World :=
  mkWorld (<[r := o]> (heap w)) (redraws w).

(** [requestRedraw()] on [r] calls [requestRedraw()] on its parent, and so
    on up to a node without parent (where the host hooks its dirty flag):
    the receivers, in order.  A parent chain without repetition is no
    longer than the store, which is the fuel [requestRedraw] gives.  On a
    chain that loops the engine's recursion has no end (the host throws a
    RangeError) while the list here stops at that length: the two agree
    where the chain of parents ends, which is what [lineage] says, and
    the theorems about redraws assume it. *)
Fixpoint requestRedraw_chain (fuel : nat) (h : gmap ref NodeObj) (r : ref) : list ref :=
  r ::
  match fuel with
  | O => []
  | S f =>
    match h !! r with
    | Some o =>
      match parent o with
      | Some p => requestRedraw_chain f h p
      | None => []
      end
    | None => []
    end
  end.

(** [requestRedraw()], where the chain of parents of [r] ends (it is
    then no longer than the store is large). *)
Definition requestRedraw (r : ref) (w : World) : World :=
  mkWorld (heap w) (redraws w ++ requestRedraw_chain (size (heap w)) (heap w) r).

(** The accessors [set x(val)], ..., with their dirty check. *)
Definition set_x (r : ref) (val : R) (w : World) : World :=
  match heap w !! r with
  | Some o =>
    if negb (Reqb (_x o) val) then requestRedraw r (store r (with_x val o) w) else w
  | None => w
  end.

Definition set_y (r : ref) (val : R) (w : World) : World :=
  match heap w !! r with
  | Some o =>
    if negb (Reqb (_y o) val) then requestRedraw r (store r (with_y val o) w) else w
  | None => w
  end.

Definition set_rotation (r : ref) (val : R) (w : World) : World :=
  match heap w !! r with
  | Some o =>
    if negb (Reqb (_rotation o) val)
    then requestRedraw r (store r (with_rotation val o) w) else w
  | None => w
  end.

Definition set_scaleX (r : ref) (val : R) (w : World) : World :=
  match heap w !! r with
  | Some o =>
    if negb (Reqb (_scaleX o) val)
    then requestRedraw r (store r (with_scaleX val o) w) else w
  | None => w
  end.

Definition set_scaleY (r : ref) (val : R) (w : World) : World :=
  match heap w !! r with
  | Some o =>
    if negb (Reqb (_scaleY o) val)
    then requestRedraw r (store r (with_scaleY val o) w) else w
  | None => w
  end.

Definition zIndexOf (h : gmap ref NodeObj) (r : ref) : R :=
  match h !! r with Some o => _zIndex o | None => 0 end.

(** [Array.prototype.sort(compare)] is stable, and with a consistent
    [compare] its result is the one stable rearrangement in [compare]
    order: the one insertion builds. *)
Fixpoint insertBy (compare : ref -> ref -> R) (x : ref) (l : list ref) : list ref :=
  match l with
  | [] => [x]
  | y :: l' => if Rleb (compare x y) 0 then x :: y :: l' else y :: insertBy compare x l'
  end.

Definition sortBy (compare : ref -> ref -> R) (l : list ref) : list ref :=
  foldr (insertBy compare) [] l.

(** [Container.sortChildren()] *)
Definition sortChildren (c : ref) (w : World) : World :=
  match heap w !! c with
  | Some o =>
    store c
      (with_children
         (sortBy (fun a b => zIndexOf (heap w) a - zIndexOf (heap w) b) (children o)) o)
      w
  | None => w
  end.

Definition set_zIndex (r : ref) (val : R) (w : World) : World :=
  match heap w !! r with
  | Some o =>
    if negb (Reqb (_zIndex o) val) then
      let w := requestRedraw r (store r (with_zIndex val o) w) in
      (* [this.parent && this.parent.sortChildren]: the parent is a container *)
      match parent o with
      | Some p =>
        match heap w !! p with
        | Some po => match kind po with KContainer => sortChildren p w | _ => w end
        | None => w
        end
      | None => w
      end
    else w
  | None => w
  end.

Definition set_cursor (r : ref) (val : string) (w : World) : World :=
  match heap w !! r with
  | Some o => store r (with_cursor val o) w
  | None => w
  end.

Definition set_draggable (r : ref) (val : bool) (w : World) : World :=
  match heap w !! r with
  | Some o => store r (with_draggable val o) w
  | None => w
  end.

Definition assignNum (key : string) (setter : ref -> R -> World -> World)
    (newProps : Props) (r : ref) (w : World) : World :=
  match newProps !! key with
  | Some (VNum v) => setter r v w
  | _ => w
  end.

(** The names under which the code of the classes reads an object: the
    fields and methods of [Node], [Container], the shapes and
    [Transformer], and those every object inherits.  [Object.assign]
    under such a key overwrites what the name stood for. *)
Definition memberNames : list string :=
  [ "_x"; "_y"; "_rotation"; "_scaleX"; "_scaleY"; "_zIndex"; "_cursor";
    "parent"; "props"; "events";
    "requestRedraw"; "setProps"; "updateEvents"; "update"; "render"; "draw";
    "getTransform"; "getGlobalTransform"; "getSelfBounds"; "getGlobalBounds";
    "hitTest"; "isPointInShape";
    "children"; "add"; "remove"; "sortChildren";
    "getLines"; "imageObj"; "updateImage";
    "target"; "activeAnchor"; "startX"; "startY"; "startWidth"; "startHeight";
    "startScaleX"; "startScaleY"; "startRotation"; "startXPos"; "startYPos";
    "attachTo"; "detach"; "drawInterface"; "getCursorForAnchor";
    "handleDragStart"; "handleDragMove"; "handleDragEnd";
    "constructor"; "__proto__"; "hasOwnProperty"; "isPrototypeOf";
    "propertyIsEnumerable"; "toLocaleString"; "toString"; "valueOf" ].

Definition absent (v : option Value) : bool :=
  match v with None => true | Some _ => false end.
Definition numberOrAbsent (v : option Value) : bool :=
  match v with None | Some (VNum _) => true | Some _ => false end.
Definition stringOrAbsent (v : option Value) : bool :=
  match v with None | Some (VStr _) => true | Some _ => false end.
Definition booleanOrAbsent (v : option Value) : bool :=
  match v with None | Some (VBool _) => true | Some _ => false end.

(** The partials [Object.assign(this, newProps)] is followed on: no key
    is a name of [memberNames], and the keys of the accessors and of
    [draggable] hold values of the type [NodeProps] declares for them. *)
Definition followed (newProps : Props) : bool :=
  forallb (fun key => absent (newProps !! key)) memberNames &&
  forallb (fun key => numberOrAbsent (newProps !! key))
    ["x"; "y"; "rotation"; "scaleX"; "scaleY"; "zIndex"] &&
  stringOrAbsent (newProps !! "cursor") &&
  booleanOrAbsent (newProps !! "draggable").

(** The assignments of [Object.assign(this, newProps)] that run an
    accessor or write the field [draggable].  The source makes them in
    the order of the keys of [newProps]; each changes a field of its
    own and requests its redraw from the same receivers, so the order
    does not show. *)
Definition assignAccessors (r : ref) (newProps : Props) (w : World) : World :=
  let w := assignNum "x" set_x newProps r w in
  let w := assignNum "y" set_y newProps r w in
  let w := assignNum "rotation" set_rotation newProps r w in
  let w := assignNum "scaleX" set_scaleX newProps r w in
  let w := assignNum "scaleY" set_scaleY newProps r w in
  let w := assignNum "zIndex" set_zIndex newProps r w in
  let w := match newProps !! "cursor" with
           | Some (VStr s) => set_cursor r s w
           | _ => w
           end in
  let w := match newProps !! "draggable" with
           | Some (VBool b) => set_draggable r b w
           | _ => w
           end in
  w.

(** [Object.assign(this, newProps)]: every key of [newProps] is assigned
    on the object.  A key that names an accessor runs it; [draggable] is
    a field; a key that is no name of [memberNames] becomes a property of
    the object that no code of the classes reads.  A key of
    [memberNames] overwrites a field or a method of the object ([parent],
    [_x], [children], [target], ...): that is outside the model, and the
    answer is [None]. *)
Definition Object_assign (r : ref) (newProps : Props) (w : World) : option World :=
  if followed newProps then Some (assignAccessors r newProps w) else None.

(** The statements of [setProps] after [Object.assign]:
    [this.props = { ...this.props, ...newProps }],
    [this.updateEvents(this.props)] and [this.requestRedraw()]. *)
Definition storeProps (r : ref) (newProps : Props) (w : World) : World :=
  match heap w !! r with
  | Some o =>
    let o := with_props (newProps ∪ props o) o in
    let o := updateEvents (props o) o in
    requestRedraw r (store r o w)
  | None => w
  end.

(** [Image.setProps] goes on to [updateImage], with the images of the
    host, when the partial has [src] or [image].  An Image is one of the
    classes [KOther] stands for. *)
Definition updatesImage (k : Kind) (newProps : Props) : bool :=
  match k with
  | KOther _ _ => negb (absent (newProps !! "src") && absent (newProps !! "image"))
  | _ => false
  end.

(** [setProps(newProps)]: [Node.setProps], which [Container.setProps]
    only calls and which every class inherits but [Image], whose own
    calls it first.  [None]: the store does not hold [r], the partial is
    not followed, or it is an update of an image. *)
Definition setProps (r : ref) (newProps : Props) (w : World) : option World :=
  this ← heap w !! r;
  if updatesImage (kind this) newProps then None
  else
    w ← Object_assign r newProps w;
    Some (storeProps r newProps w).

(** * core/Container.ts: the children *)

(** [children.indexOf(node)] *)
Fixpoint indexOf (node : ref) (l : list ref) : option nat :=
  match l with
  | [] => None
  | y :: l' => if decide (y = node) then Some O else S <$> indexOf node l'
  end.

(** [Container.add(node)] *)
Definition add (c node : ref) (w : World) : World :=
  let w := match heap w !! node with
           | Some no => store node (with_parent (Some c) no) w
           | None => w
           end in
  let w := match heap w !! c with
           | Some co => store c (with_children (children co ++ [node]) co) w
           | None => w
           end in
  let w := sortChildren c w in
  requestRedraw c w.

(** [Container.remove(node)] *)
Definition remove (c node : ref) (w : World) : World :=
  match heap w !! c with
  | Some co =>
    match indexOf node (children co) with
    | Some index =>
      let w := store c (with_children (delete index (children co)) co) w in
      let w := match heap w !! node with
               | Some no => store node (with_parent None no) w
               | None => w
               end in
      requestRedraw c w
    | None => w
    end
  | None => w
  end.

(** * shapes/Transformer.ts: the drag handlers *)

(** The fields a [Transformer] adds to its container: the target and the
    drag state.  [hitTest] sets [activeAnchor] to the name of the handle
    under the pointer. *)
Record Transformer := mkTransformer {
  target : option ref;
  activeAnchor : option string;
  startX : R;
  startY : R;
  startWidth : R;
  startHeight : R;
  startScaleX : R;
  startScaleY : R;
  startRotation : R;
  startXPos : R;
  startYPos : R
}.

(** The part of an [InteractionEvent] the handlers read. *)
Record InteractionEvent := mkEvent { globalX : R; globalY : R }.

(** [!this.activeAnchor]: [null] and the empty string. *)
Definition noAnchor (a : option string) : bool :=
  match a with
  | None => true
  | Some s => String.eqb s ""
  end.

(** [handleDragStart(e)] *)
Definition handleDragStart (t : Transformer) (e : InteractionEvent) (w : World)
    : Transformer :=
  match target t with
  | Some tg =>
    if noAnchor (activeAnchor t) then t
    else
      match heap w !! tg with
      | Some o =>
        mkTransformer (target t) (activeAnchor t)
          (globalX e) (globalY e)
          (numOr (props o !! "width") 0) (startHeight t)
          (_scaleX o) (_scaleY o) (_rotation o) (_x o) (_y o)
      | None => t
      end
  | None => t
  end.

(** [handleDragMove(e)]: the world it leaves. *)
Definition handleDragMove (fuel : nat) (t : Transformer) (e : InteractionEvent)
    (w : World) : option World :=
  match target t with
  | Some tg =>
    if noAnchor (activeAnchor t) then Some w
    else
      let dx := globalX e - startX t in
      let dy := globalY e - startY t in
      if decide (activeAnchor t = Some "bottom-right") then
        globalTransform ← getGlobalTransform fuel (heap w) tg;
        let rotation := d_rotation (decompose globalTransform) in
        let cos := cos (- rotation) in
        let sin := sin (- rotation) in
        let localDx := dx * cos - dy * sin in
        let localDy := dx * sin + dy * cos in
        bounds ← getSelfBounds fuel (heap w) tg;
        let w :=
          if Rltb 0 (rwidth bounds) then
            let newWidth := rwidth bounds * startScaleX t + localDx in
            set_scaleX tg (Rmax 0.1 (newWidth / rwidth bounds)) w
          else w in
        let w :=
          if Rltb 0 (rheight bounds) then
            let newHeight := rheight bounds * startScaleY t + localDy in
            set_scaleY tg (Rmax 0.1 (newHeight / rheight bounds)) w
          else w in
        Some w
      else if decide (activeAnchor t = Some "rotator") then
        bounds ← getGlobalBounds fuel (heap w) tg;
        let cx := rx bounds + rwidth bounds / 2 in
        let cy := ry bounds + rheight bounds / 2 in
        let angle := atan2 (globalY e - cy) (globalX e - cx) in
        Some (set_rotation tg (angle + PI / 2) w)
      else Some w
  | None => Some w
  end.

(** [handleDragEnd(e)] *)
Definition handleDragEnd (t : Transformer) : Transformer :=
  mkTransformer (target t) None (startX t) (startY t) (startWidth t) (startHeight t)
    (startScaleX t) (startScaleY t) (startRotation t) (startXPos t) (startYPos t).

(** * shapes/Transformer.ts: the handles *)

Record Handle := mkHandle { hx : R; hy : R; hname : string }.

(** The eight resize handles, in the order [hitTest] and [drawInterface]
    list them. *)
Definition handles (bounds : Rect) : list Handle :=
  [ mkHandle (rx bounds) (ry bounds) "top-left";
    mkHandle (rx bounds + rwidth bounds / 2) (ry bounds) "top-center";
    mkHandle (rx bounds + rwidth bounds) (ry bounds) "top-right";
    mkHandle (rx bounds + rwidth bounds) (ry bounds + rheight bounds / 2) "middle-right";
    mkHandle (rx bounds + rwidth bounds) (ry bounds + rheight bounds) "bottom-right";
    mkHandle (rx bounds + rwidth bounds / 2) (ry bounds + rheight bounds) "bottom-center";
    mkHandle (rx bounds) (ry bounds + rheight bounds) "bottom-left";
    mkHandle (rx bounds) (ry bounds + rheight bounds / 2) "middle-left" ].

(** The point is on the square of side [2 * half] centred at [(x, y)]. *)
Definition onHandle (localPoint : Point R) (half x y : R) : bool :=
  Rleb (x - half) (px localPoint) && Rleb (px localPoint) (x + half) &&
  Rleb (y - half) (py localPoint) && Rleb (py localPoint) (y + half).

Definition anchors : list string :=
  ["top-left"; "top-center"; "top-right"; "middle-right";
   "bottom-right"; "bottom-center"; "bottom-left"; "middle-left"].

Definition cursors : list string :=
  ["nw-resize"; "n-resize"; "ne-resize"; "e-resize";
   "se-resize"; "s-resize"; "sw-resize"; "w-resize"].

(** [anchors.indexOf(anchorName)]; [None] is [-1]. *)
Fixpoint indexOfName (name : string) (l : list string) : option nat :=
  match l with
  | [] => None
  | y :: l' => if String.eqb y name then Some O else S <$> indexOfName name l'
  end.

(** [Math.round(x)]: the nearest integer, a half going up. *)
Definition Math_round (x : R) : Z := Int_part (x + 0.5).

(** [array[i]] for an integer index; [None] is [undefined]. *)
Definition arrayAt (l : list string) (i : Z) : option string :=
  if (i <? 0)%Z then None else l !! Z.to_nat i.

(** [getCursorForAnchor(anchorName)].  [None]: the fuel ran out, or the
    index fell outside [cursors], where the source returns [undefined]. *)
Definition getCursorForAnchor (fuel : nat) (t : Transformer) (anchorName : string)
    (w : World) : option string :=
  if String.eqb anchorName "rotator" then Some "grab"
  else
    match indexOfName anchorName anchors with
    | None => Some "default"
    | Some index =>
      match target t with
      | None => cursors !! index
      | Some tg =>
        globalTransform ← getGlobalTransform fuel (heap w) tg;
        let rotation := d_rotation (decompose globalTransform) in
        let steps := Math_round (rotation / (PI / 4)) in
        let shiftedIndex := Z.rem (Z.of_nat index + steps) 8 in
        let finalIndex := Z.rem (shiftedIndex + 8) 8 in
        arrayAt cursors finalIndex
      end
    end.

Definition with_activeAnchor (a : option string) (t : Transformer) : Transformer :=
  mkTransformer (target t) a (startX t) (startY t) (startWidth t) (startHeight t)
    (startScaleX t) (startScaleY t) (startRotation t) (startXPos t) (startYPos t).

Definition with_target (tg : option ref) (t : Transformer) : Transformer :=
  mkTransformer tg (activeAnchor t) (startX t) (startY t) (startWidth t) (startHeight t)
    (startScaleX t) (startScaleY t) (startRotation t) (startXPos t) (startYPos t).

(** [attachTo(node)] and [detach()] on the transformer stored at [self]. *)
Definition attachTo (self node : ref) (t : Transformer) (w : World) : Transformer * World :=
  (with_target (Some node) t, requestRedraw self w).

Definition detach (self : ref) (t : Transformer) (w : World) : Transformer * World :=
  (with_target None t, requestRedraw self w).

(** [Transformer.hitTest(globalPoint)] on the transformer stored at
    [self]: the answer, the transformer's fields, and the store (the
    cursor of [self] is set). *)
Definition Transformer_hitTest (fuel : nat) (self : ref) (t : Transformer)
    (globalPoint : Point R) (w : World) : option (option ref * Transformer * World) :=
  match target t with
  | None => Some (None, t, w)
  | Some tg =>
    targetGlobal ← getGlobalTransform fuel (heap w) tg;
    let localPoint := transformPoint (invert targetGlobal) globalPoint in
    bounds ← getSelfBounds fuel (heap w) tg;
    this ← heap w !! self;
    let handleSize := numOr (props this !! "handleSize") 10 in
    let half := handleSize / 2 in
    match find (fun h => onHandle localPoint half (hx h) (hy h)) (handles bounds) with
    | Some h =>
      let t := with_activeAnchor (Some (hname h)) t in
      cursor ← getCursorForAnchor fuel t (hname h) w;
      Some (Some self, t, set_cursor self cursor w)
    | None =>
      let rotPosX := rx bounds + rwidth bounds / 2 in
      let rotPosY := ry bounds - 30 in
      if onHandle localPoint half rotPosX rotPosY then
        Some (Some self, with_activeAnchor (Some "rotator") t, set_cursor self "grab" w)
      else
        Some (None, t, set_cursor self "default" w)
    end
  end.

(** * The classes at work: a scene with its Transformers *)

(** The store together with the Transformers in it: [transformers sc]
    holds, under the reference of every object that is a [Transformer],
    the fields that class adds.  Such an object runs [Transformer.hitTest]
    and [Transformer.render] where the others run those of [Container]
    and [Node]. *)
Record Scene := mkScene { world : World; transformers : gmap ref Transformer }.

(** The loop of [Container.hitTest] over children whose [hitTest] may
    change the scene: the first answer that is not [null]. *)
Fixpoint firstHitIn (test : ref -> Scene -> option (option ref * Scene))
    (reversed : list ref) (sc : Scene) : option (option ref * Scene) :=
  match reversed with
  | [] => Some (None, sc)
  | child :: rest =>
    tested ← test child sc;
    match fst tested with
    | Some n => Some (Some n, snd tested)
    | None => firstHitIn test rest (snd tested)
    end
  end.

(** [hitTest(globalPoint)] on the object at [r], by its class:
    [Transformer.hitTest], which sets the transformer's anchor and
    cursor, [Container.hitTest] or [Node.hitTest]. *)
Fixpoint Scene_hitTest (fuel : nat) (sc : Scene) (r : ref) (globalPoint : Point R)
    : option (option ref * Scene) :=
  match fuel with
  | O => None
  | S f =>
    o ← heap (world sc) !! r;
    match transformers sc !! r with
    | Some t =>
      hit ← Transformer_hitTest f r t globalPoint (world sc);
      Some (fst (fst hit), mkScene (snd hit) (<[r := snd (fst hit)]> (transformers sc)))
    | None =>
      match kind o with
      | KContainer =>
        rejected ← clipRejects f (heap (world sc)) r o globalPoint;
        if (rejected : bool) then Some (None, sc)
        else firstHitIn (fun child sc => Scene_hitTest f sc child globalPoint)
               (rev (children o)) sc
      | _ =>
        answer ← Node_hitTest f (heap (world sc)) r o globalPoint;
        Some (answer, sc)
      end
    end
  end.

(** [render(ctx, viewport)] on the object at [r], by its class.
    [Transformer.render] draws the border and the handles around its
    target, with calls [CtxCall] does not record: the walk does not
    follow it, and meeting a Transformer it answers [None].  Every other
    object runs [Node.render], and a container's [draw] renders its
    children by their classes. *)
Fixpoint Scene_render (fuel : nat) (sc : Scene) (r : ref)
    (viewport : option Rect) (ctx : list CtxCall) : option (list CtxCall) :=
  match fuel with
  | O => None
  | S f =>
    o ← heap (world sc) !! r;
    match transformers sc !! r with
    | Some _ => None
    | None =>
      culled ←
        match viewport with
        | Some vp =>
          bounds ← getGlobalBounds f (heap (world sc)) r;
          Some (Rltb 0 (rwidth bounds) && Rltb 0 (rheight bounds) && isOutside bounds vp)
        | None => Some false
        end;
      if (culled : bool) then Some ctx
      else
        let ctx :=
          ctx ++ [Save] ++ styleCalls o ++ [Transform (getTransform o)] ++ [Draw r] in
        drawn ←
          match kind o with
          | KContainer => Container_draw (Scene_render f sc) o viewport ctx
          | _ => Some (leaf_draw o ctx)
          end;
        Some (drawn ++ [Restore])
    end
  end.

(** * shapes/Line.ts *)

(** The loop [for (i = 0; i < points.length; i += 2)] reads [points[i]]
    and [points[i + 1]]: the vertices.  With an odd number of coordinates
    the last [y] is [undefined], and [Math.min] and [Math.max] then give
    NaN, which is no real number: [None]. *)
Fixpoint vertices (points : list R) : option (list (R * R)) :=
  match points with
  | [] => Some []
  | x :: y :: rest => cons (x, y) <$> vertices rest
  | [_] => None
  end.

(** The running [minX, minY, maxX, maxY] over the vertices, started at
    [Infinity] and [-Infinity] ([None]). *)
Definition stretch (acc : option Extent) (v : R * R) : option Extent :=
  Some match acc with
       | None => mkExtent (fst v) (snd v) (fst v) (snd v)
       | Some e =>
         mkExtent (Rmin (minX e) (fst v)) (Rmin (minY e) (snd v))
                  (Rmax (maxX e) (fst v)) (Rmax (maxY e) (snd v))
       end.

(** [Line.getSelfBounds()], from the [points] and [lineWidth] of its
    property bag (defaults [[]] and [1]). *)
Definition Line_getSelfBounds (points : list R) (lineWidth : R) : option Rect :=
  if (length points <? 2)%nat then Some zeroRect
  else
    vs ← vertices points;
    match foldl stretch None vs with
    | Some e =>
      let halfWidth := lineWidth / 2 in
      Some (mkRect (minX e - halfWidth) (minY e - halfWidth)
                   (maxX e - minX e + lineWidth) (maxY e - minY e + lineWidth))
    | None => None
    end.

(** * shapes/Text.ts *)

(** [text.split(' ')]: the pieces between the spaces; never empty. *)
Fixpoint split_space (text : string) : list string :=
  match text with
  | EmptyString => [EmptyString]
  | String c rest =>
    if Ascii.eqb c Ascii.Space then EmptyString :: split_space rest
    else
      match split_space rest with
      | word :: words => String c word :: words
      | [] => [String c EmptyString]
      end
  end.

Section TextLines.

(** [ctx.measureText(s).width], which the host supplies. *)
Variable measureText : string -> R.

(** The loop of [getLines] over the words after the first. *)
Fixpoint wrapWords (words : list string) (currentLine : string) (maxWidth : R)
    : list string :=
  match words with
  | [] => [currentLine]
  | word :: rest =>
    let width := measureText (String.append currentLine (String Ascii.Space word)) in
    if Rltb width maxWidth
    then wrapWords rest (String.append currentLine (String Ascii.Space word)) maxWidth
    else currentLine :: wrapWords rest word maxWidth
  end.

(** [getLines(ctx, text, maxWidth)]; [maxWidth] is [None] when the
    [width] property is absent. *)
Definition getLines (text : string) (maxWidth : option R) : list string :=
  match maxWidth with
  | None => [text]
  | Some mw =>
    if Reqb mw 0 then [text]
    else
      match split_space text with
      | word :: words => wrapWords words word mw
      | [] => []
      end
  end.

End TextLines.

(** The [width] property of a Text; [None] is [undefined]. *)
Definition widthOf (p : Props) : option R :=
  match p !! "width" with
  | Some (VNum w) => Some w
  | _ => None
  end.

(** One call [ctx.fillText(line, x, y)]. *)
Record FillText := mkFillText { ft_line : string; ft_x : R; ft_y : R }.

Section TextBox.

(** [ctx.measureText(s).width] under the font [draw] and [getSelfBounds]
    both set, [fontSize]px [fontFamily]. *)
Variable measureText : string -> R.

(** [Text.draw(ctx)]: the calls of [fillText], one per line. *)
Definition Text_draw (p : Props) : list FillText :=
  let text := strOr (p !! "text") "" in
  let fontSize := numOr (p !! "fontSize") 16 in
  let width := widthOf p in
  let lineHeight := numOr (p !! "lineHeight") 1.2 in
  let align := strOr (p !! "align") "left" in
  let lines := getLines measureText text width in
  let lh := fontSize * lineHeight in
  imap
    (fun index line =>
       let x :=
         match width with
         | Some w =>
           if negb (Reqb w 0) && negb (String.eqb align "left") then
             let lineWidth := measureText line in
             if String.eqb align "center" then (w - lineWidth) / 2
             else if String.eqb align "right" then w - lineWidth
             else 0
           else 0
         | None => 0
         end in
       mkFillText line x (INR index * lh))
    lines.

(** The loop of [getSelfBounds] over the lines: the largest measure,
    started at 0. *)
Definition widest (lines : list string) : R :=
  foldl (fun maxWidth line =>
           let w := measureText line in
           if Rltb maxWidth w then w else maxWidth) 0 lines.

(** [Text.getSelfBounds()], with a measuring context at hand. *)
Definition Text_getSelfBounds (p : Props) : Rect :=
  let text := strOr (p !! "text") "" in
  let fontSize := numOr (p !! "fontSize") 16 in
  let width := widthOf p in
  let lineHeight := numOr (p !! "lineHeight") 1.2 in
  let lines := getLines measureText text width in
  let maxWidth :=
    match width with
    | Some w => if negb (Reqb w 0) then w else widest lines
    | None => widest lines
    end in
  let totalHeight := INR (length lines) * (fontSize * lineHeight) in
  mkRect 0 0 maxWidth totalHeight.

(** [Text.isPointInShape(x, y)] *)
Definition Text_isPointInShape (p : Props) (x y : R) : bool :=
  let bounds := Text_getSelfBounds p in
  Rleb (rx bounds) x && Rleb x (rx bounds + rwidth bounds) &&
  Rleb (ry bounds) y && Rleb y (ry bounds + rheight bounds).

End TextBox.


(** * The vocabulary of the properties *)

(** [ancestry h parent l]: [l] lists the objects met from [parent] up the
    parent references to a node without parent: nearest ancestor first,
    root last. *)
Inductive ancestry (h : gmap ref NodeObj) : option ref -> list NodeObj -> Prop :=
| ancestry_root : ancestry h None []
| ancestry_step (p : ref) (po : NodeObj) (l : list NodeObj) :
    h !! p = Some po -> ancestry h (parent po) l -> ancestry h (Some p) (po :: l).

(** [matrix] with the local transforms of [l] applied after it, one
    ancestor after the other: for [l = [p1; p2; root]] this is
    [T root * (T p2 * (T p1 * matrix))]. *)
Definition composeUp (l : list NodeObj) (matrix : Matrix2D R) : Matrix2D R :=
  foldl (fun acc po => multiply (getTransform po) acc) matrix l.

(** The point is in the box, edges included. *)
Definition inRect (q : Point R) (b : Rect) : Prop :=
  rx b <= px q <= rx b + rwidth b /\ ry b <= py q <= ry b + rheight b.


(** The culling test [isOutside] of [render], as a proposition. *)
Definition outsideViewport (bounds viewport : Rect) : Prop :=
  rx viewport + rwidth viewport < rx bounds \/
  rx bounds + rwidth bounds < rx viewport \/
  ry viewport + rheight viewport < ry bounds \/
  ry bounds + rheight bounds < ry viewport.

(** Two stores with the same parent links. *)
Definition sameLinks (h1 h2 : gmap ref NodeObj) : Prop :=
  forall k, (parent <$> h1 !! k) = (parent <$> h2 !! k).

(** From [w] to [w'] the log of redraw requests only grows and no object
    is lost. *)
Definition logGrows (w w' : World) : Prop :=
  (exists l, redraws w' = redraws w ++ l) /\
  (forall k, is_Some (heap w !! k) -> is_Some (heap w' !! k)).

(** Every transform field the partial supplies has the node's current
    value. *)
Definition suppliesCurrent (np : Props) (o : NodeObj) : Prop :=
  (forall v, np !! "x" = Some (VNum v) -> v = _x o) /\
  (forall v, np !! "y" = Some (VNum v) -> v = _y o) /\
  (forall v, np !! "rotation" = Some (VNum v) -> v = _rotation o) /\
  (forall v, np !! "scaleX" = Some (VNum v) -> v = _scaleX o) /\
  (forall v, np !! "scaleY" = Some (VNum v) -> v = _scaleY o) /\
  (forall v, np !! "zIndex" = Some (VNum v) -> v = _zIndex o).

(** The sequence [l] stands in ascending z-index order. *)
Definition childrenSorted (h : gmap ref NodeObj) (l : list ref) : Prop :=
  Sorted (fun a b => zIndexOf h a <= zIndexOf h b) l.

(** A node of the store that is not a container. *)
Definition isLeaf (h : gmap ref NodeObj) (x : ref) : Prop :=
  exists ox, h !! x = Some ox /\ kind ox <> KContainer.

(** The pointer's movement since the drag began, taken to the target's
    axes: rotated by minus [rotation]. *)
Definition projectedDx (t : Transformer) (e : InteractionEvent) (rotation : R) : R :=
  (globalX e - startX t) * cos (- rotation) - (globalY e - startY t) * sin (- rotation).
Definition projectedDy (t : Transformer) (e : InteractionEvent) (rotation : R) : R :=
  (globalX e - startX t) * sin (- rotation) + (globalY e - startY t) * cos (- rotation).


(** [x] lies between the two ends of a side, whichever is the lower. *)
Definition spans (x0 w x : R) : Prop := Rmin x0 (x0 + w) <= x <= Rmax x0 (x0 + w).

(** [n] is [r] or is met from [r] down the [children] lists. *)
Inductive descendant (h : gmap ref NodeObj) : ref -> ref -> Prop :=
| descendant_self (r : ref) : descendant h r r
| descendant_child (r c n : ref) (o : NodeObj) :
    h !! r = Some o -> In c (children o) -> descendant h c n -> descendant h r n.


(** The box [inner] lies within the box [outer]. *)
Definition withinRect (inner outer : Rect) : Prop :=
  rx outer <= rx inner /\ rx inner + rwidth inner <= rx outer + rwidth outer /\
  ry outer <= ry inner /\ ry inner + rheight inner <= ry outer + rheight outer.

(** The extent [e] reaches the corners of [b] through [m]. *)
Definition reaches (e : Extent) (m : Matrix2D R) (b : Rect) : Prop :=
  minX e <= cornersMinX m b /\ cornersMaxX m b <= maxX e /\
  minY e <= cornersMinY m b /\ cornersMaxY m b <= maxY e.

Definition extentGrows (e e' : Extent) : Prop :=
  minX e' <= minX e /\ maxX e <= maxX e' /\ minY e' <= minY e /\ maxY e <= maxY e'.

Definition extentOrdered (e : Extent) : Prop := minX e <= maxX e /\ minY e <= maxY e.


(** The depth of the context's state stack after [calls], started at
    depth [d]; [None] when a [restore] finds the stack empty. *)
Fixpoint stackDepth (calls : list CtxCall) (d : nat) : option nat :=
  match calls with
  | [] => Some d
  | Save :: rest => stackDepth rest (S d)
  | Restore :: rest =>
    match d with
    | O => None
    | S d' => stackDepth rest d'
    end
  | _ :: rest => stackDepth rest d
  end.

(** Neither [save] nor [restore]. *)
Definition keepsStack (c : CtxCall) : bool :=
  match c with Save | Restore => false | _ => true end.

(** Every reference of the subtree of [r] resolves, and the subtree is
    at most [d] levels deep. *)
Inductive subtreeWithin (h : gmap ref NodeObj) : nat -> ref -> Prop :=
| subtree_leaf (d : nat) (r : ref) (o : NodeObj) :
    h !! r = Some o -> kind o <> KContainer -> subtreeWithin h (S d) r
| subtree_container (d : nat) (r : ref) (o : NodeObj) :
    h !! r = Some o -> kind o = KContainer ->
    (forall c, In c (children o) -> subtreeWithin h d c) ->
    subtreeWithin h (S d) r.

(** The subtree of [r], depth first, a node before its children. *)
Fixpoint preorder (fuel : nat) (h : gmap ref NodeObj) (r : ref) : list ref :=
  match fuel with
  | O => []
  | S f =>
    match h !! r with
    | Some o =>
      r :: match kind o with
           | KContainer => flat_map (preorder f h) (children o)
           | _ => []
           end
    | None => []
    end
  end.


(** [lineage h r l]: [l] is [r] followed by its ancestors, nearest
    first, up to a node without parent. *)
Inductive lineage (h : gmap ref NodeObj) : ref -> list ref -> Prop :=
| lineage_root (r : ref) (o : NodeObj) :
    h !! r = Some o -> parent o = None -> lineage h r [r]
| lineage_step (r p : ref) (o : NodeObj) (l : list ref) :
    h !! r = Some o -> parent o = Some p -> lineage h p l -> lineage h r (r :: l).


(** Two objects that differ at most in the order of their children. *)
Definition sameFields (o1 o2 : NodeObj) : Prop :=
  _x o1 = _x o2 /\ _y o1 = _y o2 /\ _rotation o1 = _rotation o2 /\
  _scaleX o1 = _scaleX o2 /\ _scaleY o1 = _scaleY o2 /\ _zIndex o1 = _zIndex o2 /\
  _cursor o1 = _cursor o2 /\ draggable o1 = draggable o2 /\ parent o1 = parent o2 /\
  props o1 = props o2 /\ events o1 = events o2 /\ kind o1 = kind o2.

(** The accessor a transform key of a property bag runs, as the field it
    sets. *)
Definition transformField (key : string) : option (NodeObj -> R) :=
  if String.eqb key "x" then Some _x
  else if String.eqb key "y" then Some _y
  else if String.eqb key "rotation" then Some _rotation
  else if String.eqb key "scaleX" then Some _scaleX
  else if String.eqb key "scaleY" then Some _scaleY
  else if String.eqb key "zIndex" then Some _zIndex
  else None.

(** A field given a new value when the bag holds one of the right type
    under the key. *)
Definition optNum (c : option Value) (withField : R -> NodeObj -> NodeObj)
    (o : NodeObj) : NodeObj :=
  match c with Some (VNum v) => withField v o | _ => o end.
Definition optStr (c : option Value) (withField : string -> NodeObj -> NodeObj)
    (o : NodeObj) : NodeObj :=
  match c with Some (VStr v) => withField v o | _ => o end.
Definition optBool (c : option Value) (withField : bool -> NodeObj -> NodeObj)
    (o : NodeObj) : NodeObj :=
  match c with Some (VBool v) => withField v o | _ => o end.

(** What [Object.assign(this, newProps)] leaves in the fields of the
    object, its children aside. *)
Definition assigned (newProps : Props) (o : NodeObj) : NodeObj :=
  optBool (newProps !! "draggable") with_draggable
    (optStr (newProps !! "cursor") with_cursor
       (optNum (newProps !! "zIndex") with_zIndex
          (optNum (newProps !! "scaleY") with_scaleY
             (optNum (newProps !! "scaleX") with_scaleX
                (optNum (newProps !! "rotation") with_rotation
                   (optNum (newProps !! "y") with_y
                      (optNum (newProps !! "x") with_x o))))))).

(** The object stored at [r] after an operation, up to its children. *)
Definition leaves (r : ref) (w' : World) (o' : NodeObj) : Prop :=
  exists o1, heap w' !! r = Some o1 /\ sameFields o1 o'.

(** The scale a bottom-right drag gives on the two axes of a target
    turned by [theta], from the sizes [bw], [bh] of its box, the scale at
    the start of the drag and the pointer's movement. *)
Definition resizedX (bw startScale theta dx dy : R) : R :=
  Rmax 0.1 ((bw * startScale + (dx * cos theta + dy * sin theta)) / bw).
Definition resizedY (bh startScale theta dx dy : R) : R :=
  Rmax 0.1 ((bh * startScale + (dy * cos theta - dx * sin theta)) / bh).

(** The coordinates of a list of vertices, as [points] holds them. *)
Definition coordinates (vs : list (R * R)) : list R :=
  flat_map (fun v => [fst v; snd v]) vs.

(** [lines.join(' ')] *)
Fixpoint join_space (lines : list string) : string :=
  match lines with
  | [] => EmptyString
  | [line] => line
  | line :: rest => String.append line (String Ascii.Space (join_space rest))
  end.

(** Every child of a container names that container as its parent. *)
Definition parentsAgree (h : gmap ref NodeObj) : Prop :=
  forall r o c, h !! r = Some o -> In c (children o) ->
    exists co, h !! c = Some co /\ parent co = Some r.

(** Tested by itself, [m] answers null. *)
Definition answersNull (h : gmap ref NodeObj) (p : Point R) (m : ref) : Prop :=
  exists f, hitTest f h m p = Some None.

(** [m] lies in the subtree of a clipping container of the subtree of
    [r] whose clip rectangle leaves the point out. *)
Definition clippedAway (h : gmap ref NodeObj) (p : Point R) (r m : ref) : Prop :=
  exists c oc f,
    descendant h r c /\ descendant h c m /\
    h !! c = Some oc /\ kind oc = KContainer /\
    clipRejects f h c oc p = Some true.

(** The comparison [sortChildren] sorts by. *)
Definition byZIndex (h : gmap ref NodeObj) (a b : ref) : R := zIndexOf h a - zIndexOf h b.

(** [l'] holds the nodes of [l], and those of equal z-index stand in
    the order [l] has them: what a stable sort leaves. *)
Definition stableRearrangement (h : gmap ref NodeObj) (l l' : list ref) : Prop :=
  Permutation l' l /\
  forall z, List.filter (fun x => Reqb (zIndexOf h x) z) l'
            = List.filter (fun x => Reqb (zIndexOf h x) z) l.

(** Every container of the store has its children in ascending z-index
    order. *)
Definition allSorted (h : gmap ref NodeObj) : Prop :=
  forall c o, h !! c = Some o -> kind o = KContainer -> childrenSorted h (children o).

(** No object of the store lists [n] among its children. *)
Definition unlisted (h : gmap ref NodeObj) (n : ref) : Prop :=
  forall k o, h !! k = Some o -> ~ In n (children o).

(** The class, the parent and the children of an object are those of
    another. *)
Definition samePlace (o o' : NodeObj) : Prop :=
  kind o' = kind o /\ parent o' = parent o /\ children o' = children o.

(** From [w] to [w'] only the object at [n] is replaced, by one in the
    same place and with the same z-index. *)
Definition retouched (n : ref) (w w' : World) : Prop :=
  forall o, heap w !! n = Some o ->
    exists o', heap w' = <[n := o']> (heap w) /\ samePlace o o' /\ _zIndex o' = _zIndex o.

(** No object of the subtree of [r] is a Transformer. *)
Definition plainBelow (sc : Scene) (r : ref) : Prop :=
  forall n, descendant (heap (world sc)) r n -> transformers sc !! n = None.

(** From [sc] to [sc'] every object keeps its class: the Transformers are
    the same references, and the kinds are the same. *)
Definition sameClasses (sc sc' : Scene) : Prop :=
  (forall n : ref,
     is_Some (transformers sc' !! n) <-> is_Some (transformers sc !! n)) /\
  (forall n : ref,
     kind <$> (heap (world sc') !! n) = kind <$> (heap (world sc) !! n)).

(** The answer of a [hitTest] is [null], a Transformer, or a shape:
    neither a container nor a plain Node. *)
Definition answersByClass (sc : Scene) (answer : option ref) : Prop :=
  forall n, answer = Some n ->
    is_Some (transformers sc !! n) \/
    exists o, heap (world sc) !! n = Some o /\ kind o <> KContainer /\ kind o <> KNode.

(** A store without Transformers. *)
Definition plainScene (h : gmap ref NodeObj) : Scene := mkScene (mkWorld h []) ∅.

(** * Example matrices and scenes *)

(** A decimal literal denotes the nearest binary64, as it does in
    JavaScript. *)

(** An ordinary matrix whose determinant is small. *)
Definition M_illConditioned : Matrix2D float :=
  mkMatrix 0.1%float 0.3%float 0.2%float 0.6000000000001%float 7%float 3%float.

(** A translation far from the origin, and a point near it. *)
Definition M_far : Matrix2D float :=
  mkMatrix 1%float 0%float 0%float 1%float 1e20%float 0%float.
Definition p_near : Point float := mkPoint 5%float 0%float.

(** A shear with scaling and translation; its determinant is 8. *)
Definition M_sample : Matrix2D R := mkMatrix 2 1 0 4 3 (-5).

(** The scenes below are written as [add] leaves them: the child lists
    its parent, the parent lists its child. *)

(** A group at (10,10) holding a 20 by 20 rectangle at (5,5). *)
Definition group_at_10 : NodeObj :=
  with_children [1%nat] (construct KContainer {[ "x" := VNum 10; "y" := VNum 10 ]}).
Definition rect_at_5 : NodeObj :=
  with_parent (Some 0%nat)
    (construct KRect {[ "x" := VNum 5; "y" := VNum 5;
                        "width" := VNum 20; "height" := VNum 20 ]}).
Definition scene_nested : gmap ref NodeObj :=
  <[0%nat := group_at_10]> (<[1%nat := rect_at_5]> ∅).

(** The same group and rectangle before [group.add(rect)]. *)
Definition world_nested_fresh : World :=
  mkWorld
    (<[0%nat := construct KContainer {[ "x" := VNum 10; "y" := VNum 10 ]}]>
     (<[1%nat := construct KRect {[ "x" := VNum 5; "y" := VNum 5;
                                    "width" := VNum 20; "height" := VNum 20 ]}]> ∅))
    [].

(** The engine's culling test: a group at x = -500 holding a 50 by 50
    rectangle, and a viewport of 800 by 600 at the origin. *)
Definition group_far_left : NodeObj :=
  with_children [1%nat] (construct KContainer {[ "x" := VNum (-500) ]}).
Definition rect_50 : NodeObj :=
  with_parent (Some 0%nat)
    (construct KRect {[ "width" := VNum 50; "height" := VNum 50 ]}).
Definition scene_culled : gmap ref NodeObj :=
  <[0%nat := group_far_left]> (<[1%nat := rect_50]> ∅).
Definition viewport_800_600 : Rect := mkRect 0 0 800 600.

(** A group holding node 1; node 2 is the child of another group. *)
Definition world_apart : World :=
  mkWorld
    (<[0%nat := with_children [1%nat] (construct KContainer ∅)]>
     (<[1%nat := with_parent (Some 0%nat) (construct KRect ∅)]>
      (<[2%nat := with_parent (Some 3%nat) (construct KCircle ∅)]>
       (<[3%nat := with_children [2%nat] (construct KContainer ∅)]> ∅))))
    [].

(** A node at the origin, alone in the store. *)
Definition node_origin : NodeObj := construct KNode ∅.
Definition world_origin : World := mkWorld {[ 0%nat := node_origin ]} [].

(** The engine's z-index test: rectangles with z-indices 5, 10 and 20 in
    a group. *)
Definition group_of_three : NodeObj :=
  with_children [1%nat; 2%nat; 3%nat] (construct KContainer ∅).
Definition rect_z (z : R) : NodeObj :=
  with_parent (Some 0%nat) (construct KRect {[ "zIndex" := VNum z ]}).
Definition world_z : World :=
  mkWorld
    (<[0%nat := group_of_three]>
     (<[1%nat := rect_z 5]> (<[2%nat := rect_z 10]> (<[3%nat := rect_z 20]> ∅))))
    [].

(** Four objects as their constructors leave them: two groups and two
    rectangles with z-indices 10 and 20. *)
Definition group_A : NodeObj := construct KContainer ∅.
Definition group_B : NodeObj := construct KContainer ∅.
Definition rect_10 : NodeObj := construct KRect {[ "zIndex" := VNum 10 ]}.
Definition rect_20 : NodeObj := construct KRect {[ "zIndex" := VNum 20 ]}.
Definition world_fresh : World :=
  mkWorld (<[0%nat := group_A]> (<[1%nat := group_B]>
           (<[2%nat := rect_10]> (<[3%nat := rect_20]> ∅)))) [].

(** [A.add(n); A.add(m); B.add(n)]: [add] does not take [n] out of [A]. *)
Definition world_shared : World :=
  add 1%nat 2%nat (add 0%nat 3%nat (add 0%nat 2%nat world_fresh)).

(** Two overlapping 100 by 100 rectangles in a group: z-index 1 at the
    origin, z-index 2 at (50,50). *)
Definition group_of_two : NodeObj :=
  with_children [1%nat; 2%nat] (construct KContainer ∅).
Definition rect_below : NodeObj :=
  with_parent (Some 0%nat) (construct KRect {[ "zIndex" := VNum 1 ]}).
Definition rect_above : NodeObj :=
  with_parent (Some 0%nat)
    (construct KRect {[ "x" := VNum 50; "y" := VNum 50; "zIndex" := VNum 2 ]}).
Definition scene_overlap : gmap ref NodeObj :=
  <[0%nat := group_of_two]> (<[1%nat := rect_below]> (<[2%nat := rect_above]> ∅)).

(** A clipping group at the origin, clip rectangle {0,0,50,50}, holding a
    10 by 10 rectangle at (60,60). *)
Definition group_clip : NodeObj :=
  with_children [1%nat]
    (construct KContainer
       {[ "clip" := VBool true; "clipX" := VNum 0; "clipY" := VNum 0;
          "clipWidth" := VNum 50; "clipHeight" := VNum 50 ]}).
Definition rect_outside_clip : NodeObj :=
  with_parent (Some 0%nat)
    (construct KRect {[ "x" := VNum 60; "y" := VNum 60;
                        "width" := VNum 10; "height" := VNum 10 ]}).
Definition scene_clip : gmap ref NodeObj :=
  <[0%nat := group_clip]> (<[1%nat := rect_outside_clip]> ∅).

(** A 100 by 100 rectangle at (100,100), and a transformer on it whose
    [hitTest] found the handle [anchor]. *)
Definition rect_target : NodeObj :=
  construct KRect {[ "x" := VNum 100; "y" := VNum 100;
                      "width" := VNum 100; "height" := VNum 100 ]}.
Definition world_target : World := mkWorld {[ 0%nat := rect_target ]} [].
Definition transformer_on (anchor : string) : Transformer :=
  mkTransformer (Some 0%nat) (Some anchor) 0 0 0 0 1 1 0 0 0.

(** The same rectangle turned by a quarter. *)
Definition rect_quarter_turn : NodeObj :=
  construct KRect {[ "x" := VNum 100; "y" := VNum 100; "rotation" := VNum (PI / 2);
                      "width" := VNum 100; "height" := VNum 100 ]}.
Definition world_quarter_turn : World := mkWorld {[ 0%nat := rect_quarter_turn ]} [].

(** A rectangle at (500,500) scaled to nothing on both axes. *)
Definition rect_collapsed : NodeObj :=
  construct KRect {[ "x" := VNum 500; "y" := VNum 500;
                      "scaleX" := VNum 0; "scaleY" := VNum 0 ]}.
Definition scene_collapsed : gmap ref NodeObj := {[ 0%nat := rect_collapsed ]}.

(** The engine's culling test of a node that is partly inside: a 50 by 50
    rectangle at (-25,100). *)
Definition rect_partly_inside : NodeObj :=
  construct KRect {[ "x" := VNum (-25); "y" := VNum 100;
                      "width" := VNum 50; "height" := VNum 50 ]}.
Definition scene_partly_inside : gmap ref NodeObj := {[ 0%nat := rect_partly_inside ]}.

(** The engine's transformer test: the 100 by 100 rectangle at (100,100)
    and a transformer attached to it, stored at 1, its handles of size
    10. *)
Definition transformer_node : NodeObj :=
  with_draggable true (construct KContainer {[ "handleSize" := VNum 10 ]}).
Definition world_transformer : World :=
  mkWorld (<[0%nat := rect_target]> (<[1%nat := transformer_node]> ∅)) [].
Definition transformer_attached : Transformer :=
  mkTransformer (Some 0%nat) None 0 0 0 0 1 1 0 0 0.

(** A text without [width]: one line, whatever its length. *)
Definition text_plain : Props := {[ "text" := VStr "hello world" ]}.

(** A host that gives every character 8 units. *)
Definition measure_fixed (s : string) : R := INR (String.length s) * 8.

(** The two overlapping rectangles in their group, and a Transformer
    stored at 3 that is in no child list and has the lower rectangle as
    its target. *)
Definition scene_overlap_selected : Scene :=
  mkScene (mkWorld (<[3%nat := transformer_node]> scene_overlap) [])
          {[ 3%nat := mkTransformer (Some 1%nat) None 0 0 0 0 1 1 0 0 0 ]}.

(** The rectangle of the transformer test with its transformer. *)
Definition scene_transformer : Scene :=
  mkScene world_transformer {[ 1%nat := transformer_attached ]}.


(** * Comparisons on the reals *)

Lemma Rltb_true (x y : R) : x < y -> Rltb x y = true.
Proof. intros Hlt. unfold Rltb. destruct (Rlt_dec x y); [reflexivity | contradiction]. Qed.

Lemma Rltb_false (x y : R) : y <= x -> Rltb x y = false.
Proof. intros Hle. unfold Rltb. destruct (Rlt_dec x y); [lra | reflexivity]. Qed.

Lemma Rleb_true (x y : R) : x <= y -> Rleb x y = true.
Proof. intros Hle. unfold Rleb. destruct (Rle_dec x y); [reflexivity | contradiction]. Qed.

Lemma Rleb_false (x y : R) : y < x -> Rleb x y = false.
Proof. intros Hlt. unfold Rleb. destruct (Rle_dec x y); [lra | reflexivity]. Qed.

Lemma Reqb_true (x y : R) : x = y -> Reqb x y = true.
Proof. intros Heq. unfold Reqb. destruct (Req_dec_T x y); [reflexivity | contradiction]. Qed.

Lemma Reqb_false (x y : R) : x <> y -> Reqb x y = false.
Proof. intros Hne. unfold Reqb. destruct (Req_dec_T x y); [contradiction | reflexivity]. Qed.

Lemma Rltb_lt (x y : R) : Rltb x y = true -> x < y.
Proof. unfold Rltb. destruct (Rlt_dec x y); [trivial | discriminate]. Qed.

Lemma Rltb_ge (x y : R) : Rltb x y = false -> y <= x.
Proof. unfold Rltb. destruct (Rlt_dec x y); [discriminate | lra]. Qed.

Lemma Rleb_le (x y : R) : Rleb x y = true -> x <= y.
Proof. unfold Rleb. destruct (Rle_dec x y); [trivial | discriminate]. Qed.

Lemma Rleb_gt (x y : R) : Rleb x y = false -> y < x.
Proof. unfold Rleb. destruct (Rle_dec x y); [discriminate | lra]. Qed.

Lemma within_refl (eps x : R) : 0 <= eps -> within eps x x = true.
Proof.
  intros Heps. unfold within. cbn.
  apply Rleb_true. rewrite Rminus_diag, Rabs_R0. exact Heps.
Qed.

(** * Matrix2D: the inverse *)

Lemma invert_singular {num : Type} `{Number num} (M : Matrix2D num) :
  neqb (det M) n0 = true -> invert M = identity.
Proof. unfold invert, det. intros ->. reflexivity. Qed.

Lemma invert_regular (M : Matrix2D R) :
  det M <> 0 ->
  invert M =
  mkMatrix (md M * (1 / det M)) (- mb M * (1 / det M)) (- mc M * (1 / det M))
           (ma M * (1 / det M))
           ((mc M * mf M - md M * me M) * (1 / det M))
           ((mb M * me M - ma M * mf M) * (1 / det M)).
Proof.
  intros Hdet. unfold invert.
  change (neqb (nsub (nmul (ma M) (md M)) (nmul (mb M) (mc M))) n0)
    with (Reqb (det M) 0).
  rewrite (Reqb_false _ _ Hdet). reflexivity.
Qed.

Lemma invert_multiply (M : Matrix2D R) :
  det M <> 0 -> multiply (invert M) M = identity.
Proof.
  intros Hdet. rewrite (invert_regular M Hdet).
  unfold det in *. destruct M as [a b c d e f]. cbn in *.
  unfold multiply, identity. cbn. f_equal; field; exact Hdet.
Qed.

Lemma invert_transformPoint (M : Matrix2D R) (p : Point R) :
  det M <> 0 -> transformPoint (invert M) (transformPoint M p) = p.
Proof.
  intros Hdet. rewrite (invert_regular M Hdet).
  unfold det in *. destruct M as [a b c d e f]. destruct p as [x y]. cbn in *.
  unfold transformPoint. cbn. f_equal; field; exact Hdet.
Qed.

Lemma matrix_within_refl (eps : R) (M : Matrix2D R) :
  0 <= eps -> matrix_within eps M M = true.
Proof.
  intros Heps. unfold matrix_within. rewrite !within_refl by exact Heps. reflexivity.
Qed.

Lemma point_within_refl (eps : R) (p : Point R) :
  0 <= eps -> point_within eps p p = true.
Proof.
  intros Heps. unfold point_within. rewrite !within_refl by exact Heps. reflexivity.
Qed.

(** C1, as stated, fails on the engine's numbers: the determinant of
    [M_illConditioned] is not zero, yet [M.invert().multiply(M)] is not
    within 1e-6 of the identity; the determinant of [M_far] is 1, yet
    inverting the image of [p_near] does not give it back within 1e-6. *)
Lemma invert_float64_counterexample :
  neqb (det M_illConditioned) n0 = false /\
  matrix_within 1e-6%float (multiply (invert M_illConditioned) M_illConditioned) identity
    = false /\
  neqb (det M_far) n0 = false /\
  point_within 1e-6%float
    (transformPoint (invert M_far) (transformPoint M_far p_near)) p_near = false.
Proof. repeat split; vm_compute; reflexivity. Qed.

(** C1 (amended): in exact arithmetic, for every affine transform M with
    nonzero determinant, [M.invert().multiply(M)] is the identity (so
    within 1e-6 per coefficient) and [M.invert()] takes
    [M.transformPoint(p)] back to [p]; and in either arithmetic, when the
    determinant computed is exactly zero [invert()] returns the identity
    (1,0,0,1,0,0). *)
Theorem invert_exact (M : Matrix2D R) :
  (det M <> 0 ->
   multiply (invert M) M = identity /\
   matrix_within 1e-6 (multiply (invert M) M) identity = true /\
   forall p : Point R,
     transformPoint (invert M) (transformPoint M p) = p /\
     point_within 1e-6 (transformPoint (invert M) (transformPoint M p)) p = true) /\
  (forall (num : Type) (N : Number num) (M' : Matrix2D num),
     neqb (det M') n0 = true -> invert M' = mkMatrix n1 n0 n0 n1 n0 n0).
Proof.
  split.
  - intros Hdet. rewrite (invert_multiply M Hdet). split; [reflexivity |].
    split; [apply matrix_within_refl; lra |].
    intros p. rewrite (invert_transformPoint M p Hdet).
    split; [reflexivity | apply point_within_refl; lra].
  - intros num N M' Hzero. exact (invert_singular M' Hzero).
Qed.

Lemma invert_exact_witness :
  multiply (invert M_sample) M_sample = identity /\
  matrix_within 1e-6 (multiply (invert M_sample) M_sample) identity = true /\
  forall p : Point R,
    transformPoint (invert M_sample) (transformPoint M_sample p) = p /\
    point_within 1e-6 (transformPoint (invert M_sample) (transformPoint M_sample p)) p
      = true.
Proof.
  apply (proj1 (invert_exact M_sample)).
  unfold det, M_sample; cbn. lra.
Defined.

(** * Matrix2D over the reals: composition *)

Lemma matrix_eq (m1 m2 : Matrix2D R) :
  ma m1 = ma m2 -> mb m1 = mb m2 -> mc m1 = mc m2 ->
  md m1 = md m2 -> me m1 = me m2 -> mf m1 = mf m2 -> m1 = m2.
Proof. destruct m1, m2. cbn. intros; subst; reflexivity. Qed.

Ltac matrix_ring :=
  apply matrix_eq; unfold multiply, translate, scale, rotate, identity; cbn;
  try rewrite ?cos_0, ?sin_0; ring.

Lemma multiply_assoc (A B C : Matrix2D R) :
  multiply (multiply A B) C = multiply A (multiply B C).
Proof. matrix_ring. Qed.

Lemma multiply_identity_l (A : Matrix2D R) : multiply identity A = A.
Proof. destruct A. matrix_ring. Qed.

Lemma multiply_identity_r (A : Matrix2D R) : multiply A identity = A.
Proof. destruct A. matrix_ring. Qed.

Lemma translate_translate (x1 y1 x2 y2 : R) :
  multiply (translate identity x1 y1) (translate identity x2 y2)
  = translate identity (x1 + x2) (y1 + y2).
Proof. matrix_ring. Qed.

Lemma translate_coefficients (x y : R) : translate identity x y = mkMatrix 1 0 0 1 x y.
Proof. matrix_ring. Qed.

(** A node that is neither rotated nor scaled: its local transform is
    the translation by its position. *)
Lemma getTransform_translation (o : NodeObj) :
  _rotation o = 0 -> _scaleX o = 1 -> _scaleY o = 1 ->
  getTransform o = translate identity (_x o) (_y o).
Proof.
  intros Hr Hsx Hsy. unfold getTransform. rewrite Hr, Hsx, Hsy.
  apply matrix_eq; unfold multiply, translate, scale, rotate, identity; cbn;
    rewrite ?cos_0, ?sin_0; ring.
Qed.

(** * getGlobalTransform *)

(** The loop started from [matrix] gives what it gives started from the
    identity, applied after [matrix]. *)
Lemma getGlobalTransform_loop_from (fuel : nat) (h : gmap ref NodeObj) :
  forall (matrix : Matrix2D R) (par : option ref),
    getGlobalTransform_loop fuel h matrix par
    = (fun G => multiply G matrix) <$> getGlobalTransform_loop fuel h identity par.
Proof.
  induction fuel as [| f IH]; intros matrix [p |]; cbn.
  - reflexivity.
  - rewrite multiply_identity_l. reflexivity.
  - destruct (h !! p) as [po |]; cbn; [| reflexivity].
    rewrite (IH (multiply (getTransform po) matrix)).
    rewrite (IH (multiply (getTransform po) identity)).
    destruct (getGlobalTransform_loop f h identity (parent po)) as [G |]; cbn;
      [| reflexivity].
    rewrite multiply_identity_r, multiply_assoc. reflexivity.
  - rewrite multiply_identity_l. reflexivity.
Qed.

Lemma getGlobalTransform_root (fuel : nat) (h : gmap ref NodeObj) (n : ref) (o : NodeObj) :
  h !! n = Some o -> parent o = None ->
  getGlobalTransform fuel h n = Some (getTransform o).
Proof.
  intros Hn Hroot. unfold getGlobalTransform. rewrite Hn. cbn. rewrite Hroot.
  destruct fuel; reflexivity.
Qed.

Lemma getGlobalTransform_child (fuel : nat) (h : gmap ref NodeObj)
    (n p : ref) (o : NodeObj) (G : Matrix2D R) :
  h !! n = Some o -> parent o = Some p ->
  getGlobalTransform fuel h p = Some G ->
  getGlobalTransform (S fuel) h n = Some (multiply G (getTransform o)).
Proof.
  intros Hn Hpar HG. unfold getGlobalTransform in *. rewrite Hn. cbn. rewrite Hpar.
  destruct (h !! p) as [po |]; cbn in *; [| discriminate].
  rewrite getGlobalTransform_loop_from in HG.
  rewrite getGlobalTransform_loop_from.
  destruct (getGlobalTransform_loop fuel h identity (parent po)) as [G0 |]; cbn in *;
    [| discriminate].
  injection HG as <-. rewrite multiply_assoc. reflexivity.
Qed.

(** * Bounds *)

(** Reads the numeric properties of a literal bag. *)
Ltac read_props := simplify_map_eq; cbn [numOr strOr truthy].

Ltac Rminmax :=
  unfold min4, max4, Rmin, Rmax; repeat (destruct (Rle_dec _ _)); lra.

(** Through a translation a box with sides that are not negative moves
    by the offset. *)
Lemma enclose_translation (x y : R) (b : Rect) :
  0 <= rwidth b -> 0 <= rheight b ->
  enclose (translate identity x y) b
  = mkRect (rx b + x) (ry b + y) (rwidth b) (rheight b).
Proof.
  intros Hw Hh. rewrite translate_coefficients. destruct b as [bx by_ bw bh]. cbn in *.
  unfold enclose, cornersMinX, cornersMinY, cornersMaxX, cornersMaxY,
    corner1, corner2, corner3, corner4, transformPoint. cbn.
  f_equal; Rminmax.
Qed.

(** * C2: the global transform *)

Lemma getGlobalTransform_loop_ancestry (h : gmap ref NodeObj) (par : option ref)
    (l : list NodeObj) :
  ancestry h par l ->
  forall fuel matrix, (length l <= fuel)%nat ->
    getGlobalTransform_loop fuel h matrix par = Some (composeUp l matrix).
Proof.
  induction 1 as [| p po l Hp Hanc IH]; intros fuel matrix Hfuel.
  - destruct fuel; reflexivity.
  - destruct fuel as [| f]; cbn in Hfuel; [lia |].
    cbn. rewrite Hp. cbn. apply IH. lia.
Qed.

(** The ancestors' transforms compose among themselves, root first, and
    the product is applied after the node's own transform. *)
Lemma composeUp_product (l : list NodeObj) (matrix : Matrix2D R) :
  composeUp l matrix = multiply (composeUp l identity) matrix.
Proof.
  revert matrix. induction l as [| po l IH]; intros matrix; cbn.
  - rewrite multiply_identity_l. reflexivity.
  - unfold composeUp in *. cbn.
    rewrite (IH (multiply (getTransform po) matrix)),
      (IH (multiply (getTransform po) identity)).
    rewrite multiply_identity_r, multiply_assoc. reflexivity.
Qed.

(** C2: [getGlobalTransform] composes the local transforms of every
    ancestor in root-to-node order: with enough fuel for the chain of
    parents it returns the node's local transform with the ancestors'
    applied after it, nearest first and root last; so the global
    transform of a node is its parent's global transform applied after
    its own local one.  A node whose local transform is translate(5,5),
    under a parent without parent whose local transform is
    translate(10,10), has the global transform translate(15,15), and with
    self-bounds {0,0,20,20} the global bounds {15,15,20,20}. *)
Theorem getGlobalTransform_composes (h : gmap ref NodeObj) (n : ref) (o : NodeObj) :
  h !! n = Some o ->
  (forall l fuel,
     ancestry h (parent o) l -> (length l <= fuel)%nat ->
     getGlobalTransform fuel h n = Some (composeUp l (getTransform o)) /\
     composeUp l (getTransform o) = multiply (composeUp l identity) (getTransform o)) /\
  (forall fuel p G,
     parent o = Some p -> getGlobalTransform fuel h p = Some G ->
     getGlobalTransform (S fuel) h n = Some (multiply G (getTransform o))) /\
  (forall p po,
     parent o = Some p -> h !! p = Some po -> parent po = None ->
     getTransform o = translate identity 5 5 ->
     getTransform po = translate identity 10 10 ->
     forall fuel,
       getGlobalTransform (S fuel) h n = Some (translate identity 15 15) /\
       (getSelfBounds (S fuel) h n = Some (mkRect 0 0 20 20) ->
        getGlobalBounds (S fuel) h n = Some (mkRect 15 15 20 20))).
Proof.
  intros Hn. split; [| split].
  - intros l fuel Hanc Hfuel. split; [| apply composeUp_product].
    unfold getGlobalTransform. rewrite Hn. cbn.
    exact (getGlobalTransform_loop_ancestry h (parent o) l Hanc fuel _ Hfuel).
  - intros fuel p G Hpar HG. exact (getGlobalTransform_child fuel h n p o G Hn Hpar HG).
  - intros p po Hpar Hp Hroot Ho Hpo fuel.
    assert (HG : getGlobalTransform (S fuel) h n = Some (translate identity 15 15)).
    { rewrite (getGlobalTransform_child fuel h n p o (getTransform po) Hn Hpar
                 (getGlobalTransform_root fuel h p po Hp Hroot)).
      rewrite Ho, Hpo, translate_translate. do 2 f_equal; lra. }
    split; [exact HG |].
    intros Hbounds. unfold getGlobalBounds. rewrite Hbounds, HG. cbn.
    rewrite enclose_translation by (cbn; lra). cbn. do 2 f_equal; lra.
Qed.

Lemma getGlobalTransform_composes_witness :
  getGlobalTransform 1 scene_nested 1%nat = Some (translate identity 15 15) /\
  getGlobalBounds 1 scene_nested 1%nat = Some (mkRect 15 15 20 20).
Proof.
  pose proof (proj2 (proj2 (getGlobalTransform_composes scene_nested 1%nat
                              rect_at_5 eq_refl))
                0%nat group_at_10 eq_refl eq_refl eq_refl
                (getTransform_translation rect_at_5 eq_refl eq_refl eq_refl)
                (getTransform_translation group_at_10 eq_refl eq_refl eq_refl)
                0%nat) as [Ht Hb].
  split; [exact Ht | exact (Hb eq_refl)].
Defined.

(** * C3: culling *)

Lemma isOutside_true (bounds viewport : Rect) :
  outsideViewport bounds viewport -> isOutside bounds viewport = true.
Proof.
  unfold outsideViewport, isOutside. intros [H | [H | [H | H]]];
    rewrite (Rltb_true _ _ H); rewrite ?orb_true_r; reflexivity.
Qed.

(** What the test means: the two boxes have no point in common. *)
Lemma outsideViewport_disjoint (bounds viewport : Rect) :
  0 <= rwidth bounds -> 0 <= rheight bounds ->
  0 <= rwidth viewport -> 0 <= rheight viewport ->
  outsideViewport bounds viewport <->
  (forall q, inRect q bounds -> ~ inRect q viewport).
Proof.
  intros Hbw Hbh Hvw Hvh. unfold outsideViewport, inRect. split.
  - intros Hout q Hb Hv. lra.
  - intros Hdisj.
    destruct (Rlt_dec (rx viewport + rwidth viewport) (rx bounds)) as [| H1]; [auto |].
    destruct (Rlt_dec (rx bounds + rwidth bounds) (rx viewport)) as [| H2]; [auto |].
    destruct (Rlt_dec (ry viewport + rheight viewport) (ry bounds)) as [| H3]; [auto |].
    destruct (Rlt_dec (ry bounds + rheight bounds) (ry viewport)) as [| H4]; [auto |].
    exfalso.
    apply (Hdisj (mkPoint (Rmax (rx bounds) (rx viewport)) (Rmax (ry bounds) (ry viewport))));
      cbn; unfold Rmax; repeat (destruct (Rle_dec _ _)); lra.
Qed.

Lemma getSelfBounds_lookup (fuel : nat) (h : gmap ref NodeObj) (r : ref) (b : Rect) :
  getSelfBounds fuel h r = Some b -> exists o, h !! r = Some o.
Proof.
  destruct fuel as [| f]; cbn; [discriminate |].
  destruct (h !! r) as [o |]; [eauto | discriminate].
Qed.

Lemma getGlobalBounds_lookup (fuel : nat) (h : gmap ref NodeObj) (r : ref) (b : Rect) :
  getGlobalBounds fuel h r = Some b -> exists o, h !! r = Some o.
Proof.
  unfold getGlobalBounds. destruct (getSelfBounds fuel h r) as [sb |] eqn:Hsb;
    [| discriminate].
  intros _. exact (getSelfBounds_lookup fuel h r sb Hsb).
Qed.

(** C3: when a node is rendered with a viewport and its global bounds
    have positive width and positive height and lie entirely outside the
    viewport ([render]'s own test; for a viewport whose sides are not
    negative: the two boxes have no point in common), [render] returns at
    once: nothing is done to the context, so [draw] is not invoked; for a
    container, whose [draw] is what renders the children, no descendant
    is rendered or drawn either, whatever the descendants' own bounds
    are. *)
Theorem render_culls (fuel : nat) (h : gmap ref NodeObj) (r : ref)
    (bounds viewport : Rect) (ctx : list CtxCall) :
  getGlobalBounds fuel h r = Some bounds ->
  0 < rwidth bounds -> 0 < rheight bounds ->
  (outsideViewport bounds viewport \/
   (0 <= rwidth viewport /\ 0 <= rheight viewport /\
    forall q, inRect q bounds -> ~ inRect q viewport)) ->
  render (S fuel) h r (Some viewport) ctx = Some ctx /\
  (forall ctx', render (S fuel) h r (Some viewport) ctx = Some ctx' ->
     drawOrder ctx' = drawOrder ctx).
Proof.
  intros Hb Hw Hh Hout.
  assert (Hout' : outsideViewport bounds viewport).
  { destruct Hout as [Hout | (Hvw & Hvh & Hdisj)]; [exact Hout |].
    apply outsideViewport_disjoint; try assumption; lra. }
  assert (Hr : render (S fuel) h r (Some viewport) ctx = Some ctx).
  { destruct (getGlobalBounds_lookup fuel h r bounds Hb) as [o Ho].
    cbn. rewrite Ho. cbn. rewrite Hb. cbn.
    rewrite (Rltb_true _ _ Hw), (Rltb_true _ _ Hh), (isOutside_true _ _ Hout').
    reflexivity. }
  split; [exact Hr |].
  intros ctx' Hr'. rewrite Hr in Hr'. injection Hr' as <-. reflexivity.
Qed.

Lemma corners_translation (x y : R) (b : Rect) :
  0 <= rwidth b -> 0 <= rheight b ->
  cornersMinX (translate identity x y) b = rx b + x /\
  cornersMinY (translate identity x y) b = ry b + y /\
  cornersMaxX (translate identity x y) b = rx b + rwidth b + x /\
  cornersMaxY (translate identity x y) b = ry b + rheight b + y.
Proof.
  intros Hw Hh. rewrite translate_coefficients. destruct b as [bx by_ bw bh]. cbn in *.
  unfold cornersMinX, cornersMinY, cornersMaxX, cornersMaxY,
    corner1, corner2, corner3, corner4, transformPoint. cbn.
  repeat split; Rminmax.
Qed.

(** The self-bounds of a container with one child that is neither
    rotated nor scaled: the child's box, moved to the child's position. *)
Lemma getSelfBounds_one_child (fuel : nat) (h : gmap ref NodeObj)
    (c child : ref) (o co : NodeObj) (cb : Rect) :
  h !! c = Some o -> kind o = KContainer -> children o = [child] ->
  h !! child = Some co ->
  _rotation co = 0 -> _scaleX co = 1 -> _scaleY co = 1 ->
  getSelfBounds fuel h child = Some cb ->
  0 <= rwidth cb -> 0 <= rheight cb ->
  getSelfBounds (S fuel) h c
  = Some (mkRect (rx cb + _x co) (ry cb + _y co)
                 (rx cb + rwidth cb + _x co - (rx cb + _x co))
                 (ry cb + rheight cb + _y co - (ry cb + _y co))).
Proof.
  intros Hc Hk Hch Hchild Hr Hsx Hsy Hcb Hw Hh.
  cbn. rewrite Hc. cbn. rewrite Hk, Hch. cbn. rewrite Hcb. cbn. rewrite Hchild. cbn.
  rewrite (getTransform_translation co Hr Hsx Hsy).
  destruct (corners_translation (_x co) (_y co) cb Hw Hh) as (-> & -> & -> & ->).
  reflexivity.
Qed.

Lemma scene_culled_bounds :
  getGlobalBounds 2 scene_culled 0%nat = Some (mkRect (-500) 0 50 50).
Proof.
  unfold getGlobalBounds.
  rewrite (getSelfBounds_one_child 1 scene_culled 0%nat 1%nat group_far_left rect_50
             (mkRect 0 0 50 50) eq_refl eq_refl eq_refl eq_refl eq_refl eq_refl eq_refl
             eq_refl) by (cbn; lra).
  rewrite (getGlobalTransform_root 2 scene_culled 0%nat group_far_left eq_refl eq_refl).
  cbn.
  rewrite (getTransform_translation group_far_left eq_refl eq_refl eq_refl).
  rewrite enclose_translation by (cbn; lra).
  cbn. read_props. do 2 f_equal; lra.
Qed.

Lemma render_culls_witness :
  render 3 scene_culled 0%nat (Some viewport_800_600) [] = Some [] /\
  (forall ctx', render 3 scene_culled 0%nat (Some viewport_800_600) [] = Some ctx' ->
     drawOrder ctx' = drawOrder []).
Proof.
  apply (render_culls 2 scene_culled 0%nat (mkRect (-500) 0 50 50) viewport_800_600 []
           scene_culled_bounds).
  - cbn; lra.
  - cbn; lra.
  - left. unfold outsideViewport; cbn; lra.
Defined.

(** * C10: removing a node that is not a child *)

Lemma indexOf_absent (node : ref) (l : list ref) : ~ In node l -> indexOf node l = None.
Proof.
  induction l as [| y l IH]; cbn; [reflexivity |].
  intros Hnot. destruct (decide (y = node)) as [-> | Hne].
  - exfalso. apply Hnot. left. reflexivity.
  - rewrite IH; [reflexivity |]. intros Hin. apply Hnot. right. exact Hin.
Qed.

(** C10: for every container [c] and every node [n] that is not in its
    child list, [c.remove(n)] does nothing: the store (so the children of
    [c], and the parent reference of [n]) and the redraw requests are as
    before. *)
Theorem remove_absent (w : World) (c n : ref) (o : NodeObj) :
  heap w !! c = Some o -> ~ In n (children o) ->
  remove c n w = w /\
  (children <$> heap (remove c n w) !! c) = Some (children o) /\
  (parent <$> heap (remove c n w) !! n) = (parent <$> heap w !! n) /\
  redraws (remove c n w) = redraws w.
Proof.
  intros Hc Hnot.
  assert (Hsame : remove c n w = w).
  { unfold remove. rewrite Hc, (indexOf_absent n (children o) Hnot). reflexivity. }
  rewrite Hsame, Hc. auto.
Qed.

Lemma remove_absent_witness :
  remove 0%nat 2%nat world_apart = world_apart /\
  (children <$> heap (remove 0%nat 2%nat world_apart) !! 0%nat) = Some [1%nat] /\
  (parent <$> heap (remove 0%nat 2%nat world_apart) !! 2%nat)
    = (parent <$> heap world_apart !! 2%nat) /\
  redraws (remove 0%nat 2%nat world_apart) = redraws world_apart.
Proof.
  apply (remove_absent world_apart 0%nat 2%nat
           (with_children [1%nat] (construct KContainer ∅)) eq_refl).
  cbn. intros [Heq | []]. discriminate Heq.
Defined.

(** * Redraw requests *)

Lemma requestRedraw_chain_root (fuel : nat) (h : gmap ref NodeObj) (r : ref) (o : NodeObj) :
  h !! r = Some o -> parent o = None -> requestRedraw_chain fuel h r = [r].
Proof. intros Hr Hroot. destruct fuel; cbn; [| rewrite Hr, Hroot]; reflexivity. Qed.

Lemma requestRedraw_chain_sameLinks (h1 h2 : gmap ref NodeObj) :
  sameLinks h1 h2 ->
  forall fuel r, requestRedraw_chain fuel h1 r = requestRedraw_chain fuel h2 r.
Proof.
  intros Hlinks fuel. induction fuel as [| f IH]; intros r; cbn; [reflexivity |].
  specialize (Hlinks r).
  destruct (h1 !! r) as [o1 |], (h2 !! r) as [o2 |]; cbn in Hlinks; try discriminate.
  - injection Hlinks as ->. destruct (parent o2); [rewrite IH |]; reflexivity.
  - reflexivity.
Qed.

Lemma sameLinks_insert (h : gmap ref NodeObj) (r : ref) (o o' : NodeObj) :
  h !! r = Some o -> parent o' = parent o -> sameLinks (<[r := o']> h) h.
Proof.
  intros Hr Hpar k. destruct (decide (r = k)) as [<- | Hne].
  - rewrite lookup_insert_eq, Hr. cbn. rewrite Hpar. reflexivity.
  - rewrite lookup_insert_ne by exact Hne. reflexivity.
Qed.

Lemma size_insert_present (h : gmap ref NodeObj) (r : ref) (o o' : NodeObj) :
  h !! r = Some o -> size (<[r := o']> h) = size h.
Proof. intros Hr. apply map_size_insert_Some. rewrite Hr. eauto. Qed.

Lemma lineage_unique (h : gmap ref NodeObj) (r : ref) (l1 l2 : list ref) :
  lineage h r l1 -> lineage h r l2 -> l1 = l2.
Proof.
  intros H1. revert l2. induction H1 as [r o Hr Hroot | r p o l Hr Hpar Hl IH];
    intros l2 H2; inversion H2; subst; try congruence.
  f_equal. apply IH. congruence.
Qed.

Lemma lineage_suffix (h : gmap ref NodeObj) (r : ref) (l : list ref) :
  lineage h r l ->
  forall x, x ∈ l -> exists s, lineage h x s /\ (length s <= length l)%nat.
Proof.
  induction 1 as [r o Hr Hroot | r p o l Hr Hpar Hl IH]; intros x Hx.
  - apply list_elem_of_singleton in Hx as ->. exists [r]. split; [| reflexivity].
    exact (lineage_root h r o Hr Hroot).
  - apply elem_of_cons in Hx as [-> | Hx].
    + exists (r :: l). split; [| reflexivity]. exact (lineage_step h r p o l Hr Hpar Hl).
    + destruct (IH x Hx) as (s & Hs & Hlen). exists s. split; [exact Hs | cbn; lia].
Qed.

Lemma lineage_NoDup (h : gmap ref NodeObj) (r : ref) (l : list ref) :
  lineage h r l -> NoDup l.
Proof.
  induction 1 as [r o Hr Hroot | r p o l Hr Hpar Hl IH].
  - apply NoDup_singleton.
  - apply NoDup_cons. split; [| exact IH].
    intros Hin. destruct (lineage_suffix h p l Hl r Hin) as (s & Hs & Hlen).
    pose proof (lineage_unique h r _ _ Hs (lineage_step h r p o l Hr Hpar Hl)) as ->.
    cbn in Hlen. lia.
Qed.

Lemma lineage_stored (h : gmap ref NodeObj) (r : ref) (l : list ref) :
  lineage h r l -> forall x, x ∈ l -> is_Some (h !! x).
Proof.
  induction 1 as [r o Hr Hroot | r p o l Hr Hpar Hl IH]; intros x Hx.
  - apply list_elem_of_singleton in Hx as ->. eauto.
  - apply elem_of_cons in Hx as [-> | Hx]; [eauto | exact (IH x Hx)].
Qed.

(** A chain of parents that ends is no longer than the store is large. *)
Lemma lineage_length (h : gmap ref NodeObj) (r : ref) (l : list ref) :
  lineage h r l -> (length l <= size h)%nat.
Proof.
  intros Hl.
  rewrite <- (size_list_to_set (C := gset ref) l (lineage_NoDup h r l Hl)).
  rewrite <- (size_dom (D := gset ref) h).
  apply subseteq_size. intros x Hx. apply elem_of_list_to_set in Hx.
  apply elem_of_dom. exact (lineage_stored h r l Hl x Hx).
Qed.

Lemma requestRedraw_chain_lineage (h : gmap ref NodeObj) (r : ref) (l : list ref) :
  lineage h r l ->
  forall fuel, (length l <= S fuel)%nat -> requestRedraw_chain fuel h r = l.
Proof.
  induction 1 as [r o Hr Hroot | r p o l Hr Hpar Hl IH]; intros fuel Hfuel.
  - exact (requestRedraw_chain_root fuel h r o Hr Hroot).
  - destruct fuel as [| f]; cbn in Hfuel.
    + inversion Hl; subst; cbn in Hfuel; lia.
    + cbn. rewrite Hr, Hpar. f_equal. apply IH. lia.
Qed.

Lemma sameLinks_refl (h : gmap ref NodeObj) : sameLinks h h.
Proof. intros k. reflexivity. Qed.

Lemma sameLinks_trans (h1 h2 h3 : gmap ref NodeObj) :
  sameLinks h1 h2 -> sameLinks h2 h3 -> sameLinks h1 h3.
Proof. intros H12 H23 k. rewrite (H12 k). apply H23. Qed.

Lemma lineage_sameLinks (h h' : gmap ref NodeObj) (r : ref) (l : list ref) :
  sameLinks h' h -> lineage h r l -> lineage h' r l.
Proof.
  intros Hlinks. induction 1 as [r o Hr Hroot | r p o l Hr Hpar Hl IH].
  - specialize (Hlinks r). rewrite Hr in Hlinks.
    destruct (h' !! r) as [o' |] eqn:Hr'; [| discriminate].
    injection Hlinks as Hlinks. apply (lineage_root h' r o' Hr'). congruence.
  - specialize (Hlinks r). rewrite Hr in Hlinks.
    destruct (h' !! r) as [o' |] eqn:Hr'; [| discriminate].
    injection Hlinks as Hlinks.
    apply (lineage_step h' r p o' l Hr'); [congruence | exact IH].
Qed.

(** One request on a node whose chain of parents ends: the node, then
    each ancestor. *)
Lemma requestRedraw_lineage (w : World) (r : ref) (l : list ref) :
  lineage (heap w) r l -> redraws (requestRedraw r w) = redraws w ++ l.
Proof.
  intros Hl. unfold requestRedraw. cbn [redraws]. f_equal.
  apply requestRedraw_chain_lineage; [exact Hl |].
  pose proof (lineage_length (heap w) r l Hl). lia.
Qed.

Lemma sameLinks_store (w : World) (r : ref) (o o' : NodeObj) :
  heap w !! r = Some o -> parent o' = parent o -> sameLinks (heap (store r o' w)) (heap w).
Proof. intros Hr Hpar. exact (sameLinks_insert (heap w) r o o' Hr Hpar). Qed.

Lemma sameLinks_sortChildren (c : ref) (w : World) :
  sameLinks (heap (sortChildren c w)) (heap w).
Proof.
  unfold sortChildren. destruct (heap w !! c) as [o |] eqn:Hc; [| apply sameLinks_refl].
  apply (sameLinks_store w c o); [exact Hc | reflexivity].
Qed.

Ltac sameLinks_setter :=
  match goal with
  | |- sameLinks (heap (match heap ?w !! ?r with _ => _ end)) _ =>
    let Hr := fresh "Hr" in
    destruct (heap w !! r) eqn:Hr; [| apply sameLinks_refl];
    match goal with
    | |- sameLinks (heap (if ?b then _ else _)) _ =>
      destruct b; [| apply sameLinks_refl];
      eapply sameLinks_store; [exact Hr | reflexivity]
    end
  end.

Lemma sameLinks_set_x (r : ref) (v : R) (w : World) :
  sameLinks (heap (set_x r v w)) (heap w).
Proof. unfold set_x. sameLinks_setter. Qed.
Lemma sameLinks_set_y (r : ref) (v : R) (w : World) :
  sameLinks (heap (set_y r v w)) (heap w).
Proof. unfold set_y. sameLinks_setter. Qed.
Lemma sameLinks_set_rotation (r : ref) (v : R) (w : World) :
  sameLinks (heap (set_rotation r v w)) (heap w).
Proof. unfold set_rotation. sameLinks_setter. Qed.
Lemma sameLinks_set_scaleX (r : ref) (v : R) (w : World) :
  sameLinks (heap (set_scaleX r v w)) (heap w).
Proof. unfold set_scaleX. sameLinks_setter. Qed.
Lemma sameLinks_set_scaleY (r : ref) (v : R) (w : World) :
  sameLinks (heap (set_scaleY r v w)) (heap w).
Proof. unfold set_scaleY. sameLinks_setter. Qed.

Lemma sameLinks_set_zIndex (r : ref) (v : R) (w : World) :
  sameLinks (heap (set_zIndex r v w)) (heap w).
Proof.
  unfold set_zIndex. destruct (heap w !! r) as [o |] eqn:Hr; [| apply sameLinks_refl].
  destruct (negb (Reqb (_zIndex o) v)); [| apply sameLinks_refl]. cbv zeta.
  assert (Hstored : sameLinks (heap (requestRedraw r (store r (with_zIndex v o) w)))
                      (heap w))
    by (apply (sameLinks_store w r o); [exact Hr | reflexivity]).
  destruct (parent o) as [p |]; [| exact Hstored].
  destruct (heap (requestRedraw r (store r (with_zIndex v o) w)) !! p) as [po |];
    [| exact Hstored].
  destruct (kind po); try exact Hstored.
  eapply sameLinks_trans; [apply sameLinks_sortChildren | exact Hstored].
Qed.

Lemma sameLinks_set_cursor (r : ref) (v : string) (w : World) :
  sameLinks (heap (set_cursor r v w)) (heap w).
Proof.
  unfold set_cursor. destruct (heap w !! r) as [o |] eqn:Hr; [| apply sameLinks_refl].
  apply (sameLinks_store w r o); [exact Hr | reflexivity].
Qed.

Lemma sameLinks_set_draggable (r : ref) (v : bool) (w : World) :
  sameLinks (heap (set_draggable r v w)) (heap w).
Proof.
  unfold set_draggable. destruct (heap w !! r) as [o |] eqn:Hr; [| apply sameLinks_refl].
  apply (sameLinks_store w r o); [exact Hr | reflexivity].
Qed.

Lemma sameLinks_assignNum (key : string) (setter : ref -> R -> World -> World)
    (np : Props) (r : ref) (w : World) :
  (forall v w0, sameLinks (heap (setter r v w0)) (heap w0)) ->
  sameLinks (heap (assignNum key setter np r w)) (heap w).
Proof.
  intros Hs. unfold assignNum. destruct (np !! key) as [[v | | |] |];
    try apply sameLinks_refl. apply Hs.
Qed.

(** The assignments change no parent reference. *)
Lemma sameLinks_assignAccessors (r : ref) (np : Props) (w : World) :
  sameLinks (heap (assignAccessors r np w)) (heap w).
Proof.
  unfold assignAccessors. cbv zeta.
  eapply sameLinks_trans;
    [destruct (np !! "draggable") as [[| b | |] |];
       first [apply sameLinks_set_draggable | apply sameLinks_refl] |].
  eapply sameLinks_trans;
    [destruct (np !! "cursor") as [[| | c |] |];
       first [apply sameLinks_set_cursor | apply sameLinks_refl] |].
  eapply sameLinks_trans;
    [apply sameLinks_assignNum; intros; apply sameLinks_set_zIndex |].
  eapply sameLinks_trans;
    [apply sameLinks_assignNum; intros; apply sameLinks_set_scaleY |].
  eapply sameLinks_trans;
    [apply sameLinks_assignNum; intros; apply sameLinks_set_scaleX |].
  eapply sameLinks_trans;
    [apply sameLinks_assignNum; intros; apply sameLinks_set_rotation |].
  eapply sameLinks_trans;
    [apply sameLinks_assignNum; intros; apply sameLinks_set_y |].
  apply sameLinks_assignNum; intros; apply sameLinks_set_x.
Qed.

(** * C7: setProps and redraw requests *)

Section Accessors.
Variables (w : World) (r : ref) (o : NodeObj).
Hypothesis Hr : heap w !! r = Some o.

Lemma set_x_same : set_x r (_x o) w = w.
Proof. unfold set_x. rewrite Hr, Reqb_true by reflexivity. reflexivity. Qed.
Lemma set_y_same : set_y r (_y o) w = w.
Proof. unfold set_y. rewrite Hr, Reqb_true by reflexivity. reflexivity. Qed.
Lemma set_rotation_same : set_rotation r (_rotation o) w = w.
Proof. unfold set_rotation. rewrite Hr, Reqb_true by reflexivity. reflexivity. Qed.
Lemma set_scaleX_same : set_scaleX r (_scaleX o) w = w.
Proof. unfold set_scaleX. rewrite Hr, Reqb_true by reflexivity. reflexivity. Qed.
Lemma set_scaleY_same : set_scaleY r (_scaleY o) w = w.
Proof. unfold set_scaleY. rewrite Hr, Reqb_true by reflexivity. reflexivity. Qed.
Lemma set_zIndex_same : set_zIndex r (_zIndex o) w = w.
Proof. unfold set_zIndex. rewrite Hr, Reqb_true by reflexivity. reflexivity. Qed.

Lemma set_x_changed (v : R) :
  v <> _x o ->
  set_x r v w = requestRedraw r (store r (with_x v o) w).
Proof.
  intros Hne. unfold set_x. rewrite Hr, Reqb_false by congruence. reflexivity.
Qed.
Lemma set_y_changed (v : R) :
  v <> _y o ->
  set_y r v w = requestRedraw r (store r (with_y v o) w).
Proof.
  intros Hne. unfold set_y. rewrite Hr, Reqb_false by congruence. reflexivity.
Qed.
Lemma set_rotation_changed (v : R) :
  v <> _rotation o ->
  set_rotation r v w = requestRedraw r (store r (with_rotation v o) w).
Proof.
  intros Hne. unfold set_rotation. rewrite Hr, Reqb_false by congruence. reflexivity.
Qed.
Lemma set_scaleX_changed (v : R) :
  v <> _scaleX o ->
  set_scaleX r v w = requestRedraw r (store r (with_scaleX v o) w).
Proof.
  intros Hne. unfold set_scaleX. rewrite Hr, Reqb_false by congruence. reflexivity.
Qed.
Lemma set_scaleY_changed (v : R) :
  v <> _scaleY o ->
  set_scaleY r v w = requestRedraw r (store r (with_scaleY v o) w).
Proof.
  intros Hne. unfold set_scaleY. rewrite Hr, Reqb_false by congruence. reflexivity.
Qed.

(** A new z-index: the one request of the accessor; sorting the parent's
    children requests nothing. *)
Lemma redraws_set_zIndex (v : R) :
  v <> _zIndex o ->
  redraws (set_zIndex r v w) = redraws (requestRedraw r (store r (with_zIndex v o) w)).
Proof.
  intros Hne. unfold set_zIndex. rewrite Hr, Reqb_false by congruence. cbn [negb]. cbv zeta.
  destruct (parent o) as [p |]; [| reflexivity].
  match goal with |- context [heap ?w1 !! p] => destruct (heap w1 !! p) as [po |] end;
    [| reflexivity].
  destruct (kind po); try reflexivity.
  unfold sortChildren.
  match goal with |- context [heap ?w1 !! p] => destruct (heap w1 !! p) end; reflexivity.
Qed.

End Accessors.

Lemma logGrows_refl (w : World) : logGrows w w.
Proof. split; [exists []; rewrite app_nil_r; reflexivity | auto]. Qed.

Lemma logGrows_trans (w1 w2 w3 : World) :
  logGrows w1 w2 -> logGrows w2 w3 -> logGrows w1 w3.
Proof.
  intros [[l1 H1] K1] [[l2 H2] K2]. split.
  - exists (l1 ++ l2). rewrite H2, H1, app_assoc. reflexivity.
  - auto.
Qed.

Lemma logGrows_requestRedraw (r : ref) (w : World) : logGrows w (requestRedraw r w).
Proof. split; [eexists; reflexivity | auto]. Qed.

Lemma logGrows_store (r : ref) (o : NodeObj) (w : World) : logGrows w (store r o w).
Proof.
  split; [exists []; cbn; rewrite app_nil_r; reflexivity |].
  intros k Hk. cbn. apply lookup_insert_is_Some'. right. exact Hk.
Qed.

Lemma logGrows_sortChildren (c : ref) (w : World) : logGrows w (sortChildren c w).
Proof.
  unfold sortChildren. destruct (heap w !! c); [apply logGrows_store | apply logGrows_refl].
Qed.

Ltac logGrows_setter :=
  match goal with
  | |- logGrows ?w (match heap ?w !! ?r with _ => _ end) =>
    destruct (heap w !! r); [| apply logGrows_refl];
    match goal with
    | |- logGrows _ (if ?b then _ else _) =>
      destruct b; [| apply logGrows_refl];
      eapply logGrows_trans; [apply logGrows_store | apply logGrows_requestRedraw]
    end
  end.

Lemma logGrows_set_x (r : ref) (v : R) (w : World) : logGrows w (set_x r v w).
Proof. unfold set_x. logGrows_setter. Qed.
Lemma logGrows_set_y (r : ref) (v : R) (w : World) : logGrows w (set_y r v w).
Proof. unfold set_y. logGrows_setter. Qed.
Lemma logGrows_set_rotation (r : ref) (v : R) (w : World) : logGrows w (set_rotation r v w).
Proof. unfold set_rotation. logGrows_setter. Qed.
Lemma logGrows_set_scaleX (r : ref) (v : R) (w : World) : logGrows w (set_scaleX r v w).
Proof. unfold set_scaleX. logGrows_setter. Qed.
Lemma logGrows_set_scaleY (r : ref) (v : R) (w : World) : logGrows w (set_scaleY r v w).
Proof. unfold set_scaleY. logGrows_setter. Qed.

Lemma logGrows_set_zIndex (r : ref) (v : R) (w : World) : logGrows w (set_zIndex r v w).
Proof.
  unfold set_zIndex. destruct (heap w !! r) as [o |]; [| apply logGrows_refl].
  destruct (negb (Reqb (_zIndex o) v)); [| apply logGrows_refl].
  eapply logGrows_trans; [apply logGrows_store |].
  eapply logGrows_trans; [apply logGrows_requestRedraw |].
  destruct (parent o) as [p |]; [| apply logGrows_refl].
  match goal with |- logGrows ?w1 _ => destruct (heap w1 !! p) as [po |] end;
    [| apply logGrows_refl].
  destruct (kind po); try apply logGrows_refl. apply logGrows_sortChildren.
Qed.

Lemma logGrows_set_cursor (r : ref) (v : string) (w : World) : logGrows w (set_cursor r v w).
Proof.
  unfold set_cursor. destruct (heap w !! r); [apply logGrows_store | apply logGrows_refl].
Qed.

Lemma logGrows_set_draggable (r : ref) (v : bool) (w : World) :
  logGrows w (set_draggable r v w).
Proof.
  unfold set_draggable. destruct (heap w !! r); [apply logGrows_store | apply logGrows_refl].
Qed.

Lemma logGrows_assignNum (key : string) (setter : ref -> R -> World -> World)
    (np : Props) (r : ref) (w : World) :
  (forall v w0, logGrows w0 (setter r v w0)) -> logGrows w (assignNum key setter np r w).
Proof.
  intros Hs. unfold assignNum. destruct (np !! key) as [[v | | |] |];
    try apply logGrows_refl. apply Hs.
Qed.

Lemma logGrows_assignAccessors (r : ref) (np : Props) (w : World) :
  logGrows w (assignAccessors r np w).
Proof.
  unfold assignAccessors. cbv zeta.
  set (w1 := assignNum "x" set_x np r w).
  set (w2 := assignNum "y" set_y np r w1).
  set (w3 := assignNum "rotation" set_rotation np r w2).
  set (w4 := assignNum "scaleX" set_scaleX np r w3).
  set (w5 := assignNum "scaleY" set_scaleY np r w4).
  set (w6 := assignNum "zIndex" set_zIndex np r w5).
  set (w7 := match np !! "cursor" with Some (VStr s) => set_cursor r s w6 | _ => w6 end).
  assert (H1 : logGrows w w1)
    by (apply logGrows_assignNum; intros; apply logGrows_set_x).
  assert (H2 : logGrows w1 w2)
    by (apply logGrows_assignNum; intros; apply logGrows_set_y).
  assert (H3 : logGrows w2 w3)
    by (apply logGrows_assignNum; intros; apply logGrows_set_rotation).
  assert (H4 : logGrows w3 w4)
    by (apply logGrows_assignNum; intros; apply logGrows_set_scaleX).
  assert (H5 : logGrows w4 w5)
    by (apply logGrows_assignNum; intros; apply logGrows_set_scaleY).
  assert (H6 : logGrows w5 w6)
    by (apply logGrows_assignNum; intros; apply logGrows_set_zIndex).
  assert (H7 : logGrows w6 w7).
  { subst w7. destruct (np !! "cursor") as [[| | s |] |]; try apply logGrows_refl.
    apply logGrows_set_cursor. }
  assert (H8 : logGrows w w7)
    by (repeat (eapply logGrows_trans; [eassumption |]); apply logGrows_refl).
  apply (logGrows_trans _ _ _ H8).
  destruct (np !! "draggable") as [[| b | |] |]; try apply logGrows_refl.
  apply logGrows_set_draggable.
Qed.

Lemma store_store (r : ref) (o1 o2 : NodeObj) (w : World) :
  store r o2 (store r o1 w) = store r o2 w.
Proof. unfold store. cbn. rewrite insert_insert_eq. reflexivity. Qed.

Lemma lookup_store (r : ref) (o : NodeObj) (w : World) :
  heap (store r o w) !! r = Some o.
Proof. cbn. apply lookup_insert_eq. Qed.

(** Replacing an object by one with the same parent does not change where
    a redraw request goes. *)
Lemma redraws_requestRedraw_store (w : World) (r : ref) (o o' : NodeObj) :
  heap w !! r = Some o -> parent o' = parent o ->
  redraws (requestRedraw r (store r o' w)) = redraws (requestRedraw r w).
Proof.
  intros Hr Hpar. cbn.
  rewrite (size_insert_present (heap w) r o o' Hr).
  rewrite (requestRedraw_chain_sameLinks _ _ (sameLinks_insert (heap w) r o o' Hr Hpar)).
  reflexivity.
Qed.

Lemma assignNum_same (key : string) (setter : ref -> R -> World -> World)
    (np : Props) (r : ref) (w : World) :
  (forall v, np !! key = Some (VNum v) -> setter r v w = w) ->
  assignNum key setter np r w = w.
Proof.
  intros Hs. unfold assignNum. destruct (np !! key) as [[v | | |] |]; try reflexivity.
  apply Hs. reflexivity.
Qed.

(** With such a partial the accessors leave the transform alone and
    request nothing: the one request of [setProps] is its last line. *)
Lemma storeProps_suppliesCurrent (w : World) (r : ref) (o : NodeObj) (np : Props) :
  heap w !! r = Some o -> suppliesCurrent np o ->
  redraws (storeProps r np (assignAccessors r np w)) = redraws (requestRedraw r w).
Proof.
  intros Hr (Hx & Hy & Hrot & Hsx & Hsy & Hz).
  unfold storeProps, assignAccessors. cbv zeta.
  rewrite (assignNum_same "x" set_x)
    by (intros v Hv; rewrite (Hx v Hv); exact (set_x_same w r o Hr)).
  rewrite (assignNum_same "y" set_y)
    by (intros v Hv; rewrite (Hy v Hv); exact (set_y_same w r o Hr)).
  rewrite (assignNum_same "rotation" set_rotation)
    by (intros v Hv; rewrite (Hrot v Hv); exact (set_rotation_same w r o Hr)).
  rewrite (assignNum_same "scaleX" set_scaleX)
    by (intros v Hv; rewrite (Hsx v Hv); exact (set_scaleX_same w r o Hr)).
  rewrite (assignNum_same "scaleY" set_scaleY)
    by (intros v Hv; rewrite (Hsy v Hv); exact (set_scaleY_same w r o Hr)).
  rewrite (assignNum_same "zIndex" set_zIndex)
    by (intros v Hv; rewrite (Hz v Hv); exact (set_zIndex_same w r o Hr)).
  unfold set_cursor, set_draggable.
  destruct (np !! "cursor") as [[v1 | b1 | s1 | f1] |];
    destruct (np !! "draggable") as [[v2 | b2 | s2 | f2] |];
    rewrite ?Hr, ?lookup_store, ?store_store;
    apply (redraws_requestRedraw_store w r o); try exact Hr; reflexivity.
Qed.

(** A partial that is followed on an object that is no image being
    updated: [setProps] returns, with the world its statements leave. *)
Lemma setProps_followed (w : World) (r : ref) (o : NodeObj) (np : Props) :
  heap w !! r = Some o -> followed np = true -> updatesImage (kind o) np = false ->
  setProps r np w = Some (storeProps r np (assignAccessors r np w)).
Proof.
  intros Hr Hf Hi. unfold setProps, Object_assign. rewrite Hr. cbn [mbind option_bind].
  rewrite Hi, Hf. reflexivity.
Qed.

(** The last statement of [setProps] is received by the node and its
    ancestors. *)
Lemma redraws_storeProps (w : World) (r : ref) (o : NodeObj) (np : Props) (l : list ref) :
  heap w !! r = Some o -> lineage (heap w) r l ->
  redraws (storeProps r np w) = redraws w ++ l.
Proof.
  intros Hr Hl. unfold storeProps. rewrite Hr. cbv zeta.
  rewrite (redraws_requestRedraw_store w r o _ Hr) by reflexivity.
  exact (requestRedraw_lineage w r l Hl).
Qed.

(** C7, as stated, fails: the node's [x] is 0, the partial supplies
    [x: 0] and nothing else, and [setProps] requests a redraw. *)
Lemma setProps_same_value_counterexample :
  _x node_origin = 0 /\
  redraws world_origin = [] /\
  exists w',
    setProps 0%nat {[ "x" := VNum 0 ]} world_origin = Some w' /\
    redraws w' = [0%nat].
Proof.
  split; [reflexivity | split; [reflexivity |]].
  eexists. split.
  - exact (setProps_followed world_origin 0%nat node_origin {[ "x" := VNum 0 ]}
             eq_refl eq_refl eq_refl).
  - rewrite (storeProps_suppliesCurrent world_origin 0%nat node_origin).
    + cbn. rewrite (requestRedraw_chain_root _ _ 0%nat node_origin); reflexivity.
    + reflexivity.
    + unfold suppliesCurrent. repeat split; intros v Hv; simplify_map_eq; reflexivity.
Qed.

(** C7 (amended): on a node whose chain of parents ends, the accessors
    diff against the current value: assigning a transform field (x, y,
    rotation, scaleX, scaleY, zIndex) its current value changes nothing
    and requests no redraw, and assigning it another number stores it and
    requests one, which the node and then each of its ancestors receive.
    [setProps] itself ends with an unconditional redraw request.  So for
    a partial that holds numbers under the transform keys and has no key
    naming a field or a method of the node, and that is no [src] or
    [image] for an Image, every call requests a redraw: when a field
    changes, and also when every supplied field equals the node's current
    value, in which case that one request is all.  (The numbers are
    exact: none is NaN, which [!==] tells apart from itself.) *)
Theorem setProps_redraw (w : World) (r : ref) (o : NodeObj) (np : Props) (l : list ref) :
  heap w !! r = Some o -> lineage (heap w) r l ->
  (set_x r (_x o) w = w /\ set_y r (_y o) w = w /\
   set_rotation r (_rotation o) w = w /\
   set_scaleX r (_scaleX o) w = w /\ set_scaleY r (_scaleY o) w = w /\
   set_zIndex r (_zIndex o) w = w) /\
  (forall v,
     (v <> _x o -> set_x r v w = requestRedraw r (store r (with_x v o) w)) /\
     (v <> _y o -> set_y r v w = requestRedraw r (store r (with_y v o) w)) /\
     (v <> _rotation o ->
      set_rotation r v w = requestRedraw r (store r (with_rotation v o) w)) /\
     (v <> _scaleX o -> set_scaleX r v w = requestRedraw r (store r (with_scaleX v o) w)) /\
     (v <> _scaleY o -> set_scaleY r v w = requestRedraw r (store r (with_scaleY v o) w)) /\
     (v <> _zIndex o -> redraws (set_zIndex r v w) = redraws w ++ l)) /\
  (forall o', parent o' = parent o ->
     redraws (requestRedraw r (store r o' w)) = redraws w ++ l) /\
  (followed np = true -> updatesImage (kind o) np = false ->
   exists w',
     setProps r np w = Some w' /\
     (exists l1, redraws w' = redraws w ++ l1 ++ l) /\
     (suppliesCurrent np o -> redraws w' = redraws w ++ l)).
Proof.
  intros Hr Hl.
  assert (Hone : forall o', parent o' = parent o ->
            redraws (requestRedraw r (store r o' w)) = redraws w ++ l).
  { intros o' Hpar. rewrite (redraws_requestRedraw_store w r o o' Hr Hpar).
    exact (requestRedraw_lineage w r l Hl). }
  split; [| split; [| split; [exact Hone |]]].
  - repeat split.
    + exact (set_x_same w r o Hr).
    + exact (set_y_same w r o Hr).
    + exact (set_rotation_same w r o Hr).
    + exact (set_scaleX_same w r o Hr).
    + exact (set_scaleY_same w r o Hr).
    + exact (set_zIndex_same w r o Hr).
  - intros v. repeat split.
    + exact (set_x_changed w r o Hr v).
    + exact (set_y_changed w r o Hr v).
    + exact (set_rotation_changed w r o Hr v).
    + exact (set_scaleX_changed w r o Hr v).
    + exact (set_scaleY_changed w r o Hr v).
    + intros Hv. rewrite (redraws_set_zIndex w r o Hr v Hv).
      apply Hone. reflexivity.
  - intros Hf Hi. eexists. split; [exact (setProps_followed w r o np Hr Hf Hi) |].
    split.
    + destruct (logGrows_assignAccessors r np w) as [[l1 Hl1] Hkeep].
      destruct (Hkeep r) as [o1 Ho1]; [rewrite Hr; eauto |].
      exists l1.
      rewrite (redraws_storeProps _ r o1 np l Ho1), Hl1, app_assoc; [reflexivity |].
      exact (lineage_sameLinks _ _ r l (sameLinks_assignAccessors r np w) Hl).
    + intros Hsame. rewrite (storeProps_suppliesCurrent w r o np Hr Hsame).
      exact (requestRedraw_lineage w r l Hl).
Qed.

Lemma setProps_redraw_witness :
  exists w',
    setProps 0%nat {[ "y" := VNum 7 ]} world_origin = Some w' /\
    (exists l1, redraws w' = redraws world_origin ++ l1 ++ [0%nat]) /\
    (suppliesCurrent {[ "y" := VNum 7 ]} node_origin ->
     redraws w' = redraws world_origin ++ [0%nat]).
Proof.
  exact (proj2 (proj2 (proj2 (setProps_redraw world_origin 0%nat node_origin
                                {[ "y" := VNum 7 ]} [0%nat] eq_refl
                                (lineage_root (heap world_origin) 0%nat node_origin
                                   eq_refl eq_refl))))
           eq_refl eq_refl).
Defined.

(** * Sorting by z-index *)

Section SortByKey.
Variable z : ref -> R.

Lemma insertBy_perm (x : ref) (l : list ref) :
  Permutation (insertBy (fun a b => z a - z b) x l) (x :: l).
Proof.
  induction l as [| y l IH]; cbn; [reflexivity |].
  destruct (Rleb (z x - z y) 0); [reflexivity |].
  rewrite IH. apply perm_swap.
Qed.

Lemma sortBy_perm (l : list ref) : Permutation (sortBy (fun a b => z a - z b) l) l.
Proof.
  induction l as [| x l IH]; cbn; [reflexivity |].
  unfold sortBy in IH. rewrite insertBy_perm, IH. reflexivity.
Qed.

Lemma insertBy_HdRel (y x : ref) (l : list ref) :
  z y <= z x -> HdRel (fun a b => z a <= z b) y l ->
  HdRel (fun a b => z a <= z b) y (insertBy (fun a b => z a - z b) x l).
Proof.
  intros Hyx Hhd. destruct l as [| y' l]; cbn.
  - constructor. exact Hyx.
  - destruct (Rleb (z x - z y') 0); constructor; [exact Hyx |].
    inversion Hhd; assumption.
Qed.

Lemma insertBy_sorted (x : ref) (l : list ref) :
  Sorted (fun a b => z a <= z b) l ->
  Sorted (fun a b => z a <= z b) (insertBy (fun a b => z a - z b) x l).
Proof.
  induction 1 as [| y l Hs IH Hhd]; cbn.
  - repeat constructor.
  - destruct (Rleb (z x - z y) 0) eqn:Hcmp.
    + apply Rleb_le in Hcmp. constructor; [constructor; assumption |].
      constructor. lra.
    + apply Rleb_gt in Hcmp. constructor; [exact IH |].
      apply insertBy_HdRel; [lra | exact Hhd].
Qed.

Lemma sortBy_sorted (l : list ref) :
  Sorted (fun a b => z a <= z b) (sortBy (fun a b => z a - z b) l).
Proof.
  induction l as [| x l IH]; cbn; [constructor |].
  apply insertBy_sorted. exact IH.
Qed.

End SortByKey.

Lemma insertBy_ext (c1 c2 : ref -> ref -> R) (x : ref) (l : list ref) :
  (forall a b, c1 a b = c2 a b) -> insertBy c1 x l = insertBy c2 x l.
Proof.
  intros Hext. induction l as [| y l IH]; cbn; [reflexivity |].
  rewrite Hext, IH. reflexivity.
Qed.

Lemma sortBy_ext (c1 c2 : ref -> ref -> R) (l : list ref) :
  (forall a b, c1 a b = c2 a b) -> sortBy c1 l = sortBy c2 l.
Proof.
  intros Hext. induction l as [| x l IH]; cbn; [reflexivity |].
  unfold sortBy in IH. rewrite IH. apply insertBy_ext. exact Hext.
Qed.

Lemma Sorted_weaken (R1 R2 : ref -> ref -> Prop) (l : list ref) :
  (forall a b, R1 a b -> R2 a b) -> Sorted R1 l -> Sorted R2 l.
Proof.
  intros Himp. induction 1 as [| x l Hs IH Hhd]; constructor; [exact IH |].
  destruct Hhd; constructor. apply Himp. assumption.
Qed.

Lemma zIndexOf_insert_same (h : gmap ref NodeObj) (r : ref) (o o' : NodeObj) :
  h !! r = Some o -> _zIndex o' = _zIndex o ->
  forall k, zIndexOf (<[r := o']> h) k = zIndexOf h k.
Proof.
  intros Hr Hz k. unfold zIndexOf. destruct (decide (r = k)) as [<- | Hne].
  - rewrite lookup_insert_eq, Hr. exact Hz.
  - rewrite lookup_insert_ne by exact Hne. reflexivity.
Qed.

Lemma zIndexOf_insert_ne (h : gmap ref NodeObj) (r k : ref) (o' : NodeObj) :
  r <> k -> zIndexOf (<[r := o']> h) k = zIndexOf h k.
Proof. intros Hne. unfold zIndexOf. rewrite lookup_insert_ne by exact Hne. reflexivity. Qed.

Lemma zIndexOf_insert_eq (h : gmap ref NodeObj) (r : ref) (o' : NodeObj) :
  zIndexOf (<[r := o']> h) r = _zIndex o'.
Proof. unfold zIndexOf. rewrite lookup_insert_eq. reflexivity. Qed.

(** [sortChildren] on a container of the store. *)
Lemma sortChildren_heap (w : World) (c : ref) (o : NodeObj) :
  heap w !! c = Some o ->
  heap (sortChildren c w)
  = <[c := with_children
             (sortBy (fun a b => zIndexOf (heap w) a - zIndexOf (heap w) b) (children o))
             o]> (heap w).
Proof. intros Hc. unfold sortChildren. rewrite Hc. reflexivity. Qed.

Lemma sortChildren_zIndexOf (w : World) (c : ref) :
  forall k, zIndexOf (heap (sortChildren c w)) k = zIndexOf (heap w) k.
Proof.
  intros k. unfold sortChildren. destruct (heap w !! c) as [o |] eqn:Hc; [| reflexivity].
  cbn. apply (zIndexOf_insert_same (heap w) c o); [exact Hc | reflexivity].
Qed.

(** After [sortChildren] the children are the same nodes, in ascending
    z-index order. *)
Lemma sortChildren_sorted (w : World) (c : ref) (o : NodeObj) :
  heap w !! c = Some o ->
  exists o',
    heap (sortChildren c w) !! c = Some o' /\
    kind o' = kind o /\
    children o'
    = sortBy (fun a b => zIndexOf (heap (sortChildren c w)) a
                         - zIndexOf (heap (sortChildren c w)) b) (children o) /\
    Permutation (children o') (children o) /\
    childrenSorted (heap (sortChildren c w)) (children o').
Proof.
  intros Hc. rewrite (sortChildren_heap w c o Hc). eexists.
  split; [apply lookup_insert_eq |]. split; [reflexivity |].
  assert (Hsame : forall k,
            zIndexOf (<[c := with_children
                             (sortBy (fun a b => zIndexOf (heap w) a - zIndexOf (heap w) b)
                                (children o)) o]> (heap w)) k
            = zIndexOf (heap w) k)
    by (apply (zIndexOf_insert_same (heap w) c o); [exact Hc | reflexivity]).
  cbn [children with_children].
  split; [| split].
  - apply sortBy_ext. intros a b. rewrite !Hsame. reflexivity.
  - apply sortBy_perm.
  - unfold childrenSorted.
    eapply Sorted_weaken; [| apply (sortBy_sorted (zIndexOf (heap w)))].
    intros a b. cbn. rewrite !Hsame. tauto.
Qed.

(** * Container.add and the z-index accessor keep the children sorted *)

Lemma add_sorts (w : World) (c n : ref) (o : NodeObj) :
  heap w !! c = Some o ->
  exists o',
    heap (add c n w) !! c = Some o' /\
    kind o' = kind o /\
    children o'
    = sortBy (fun a b => zIndexOf (heap (add c n w)) a - zIndexOf (heap (add c n w)) b)
        (children o ++ [n]) /\
    Permutation (children o') (children o ++ [n]) /\
    childrenSorted (heap (add c n w)) (children o').
Proof.
  intros Hc. unfold add. cbv zeta.
  set (w1 := match heap w !! n with
             | Some no => store n (with_parent (Some c) no) w
             | None => w
             end).
  assert (H1 : exists co1, heap w1 !! c = Some co1 /\ kind co1 = kind o /\
                           children co1 = children o).
  { subst w1. destruct (heap w !! n) as [no |] eqn:Hn; [| eauto].
    destruct (decide (n = c)) as [-> | Hne].
    - rewrite lookup_store. rewrite Hc in Hn. injection Hn as <-. eauto.
    - cbn. rewrite lookup_insert_ne by exact Hne. eauto. }
  destruct H1 as (co1 & Hco1 & Hk1 & Hch1). rewrite Hco1.
  set (w2 := store c (with_children (children co1 ++ [n]) co1) w1).
  destruct (sortChildren_sorted w2 c (with_children (children co1 ++ [n]) co1)
              (lookup_store _ _ _)) as (o' & Ho' & Hk' & Heq & Hperm & Hsorted).
  cbn [children with_children kind] in Hk', Heq, Hperm. rewrite Hch1 in Heq, Hperm.
  exists o'. change (heap (requestRedraw c (sortChildren c w2))) with (heap (sortChildren c w2)).
  rewrite Hk', Hk1. auto.
Qed.

Lemma set_zIndex_sorts (w : World) (n p : ref) (o po : NodeObj) (v : R) :
  heap w !! n = Some o -> v <> _zIndex o ->
  parent o = Some p -> heap w !! p = Some po -> kind po = KContainer ->
  exists o' po',
    heap (set_zIndex n v w) !! n = Some o' /\
    _zIndex o' = v /\ kind o' = kind o /\ props o' = props o /\
    heap (set_zIndex n v w) !! p = Some po' /\
    kind po' = KContainer /\
    children po'
    = sortBy (fun a b => zIndexOf (heap (set_zIndex n v w)) a
                         - zIndexOf (heap (set_zIndex n v w)) b) (children po) /\
    Permutation (children po') (children po) /\
    childrenSorted (heap (set_zIndex n v w)) (children po') /\
    (forall k, k <> n -> k <> p -> heap (set_zIndex n v w) !! k = heap w !! k) /\
    (forall k, k <> n -> zIndexOf (heap (set_zIndex n v w)) k = zIndexOf (heap w) k).
Proof.
  intros Hn Hv Hpar Hp Hkind.
  unfold set_zIndex. rewrite Hn, Reqb_false by congruence. cbn [negb]. cbv zeta.
  rewrite Hpar.
  set (w1 := requestRedraw n (store n (with_zIndex v o) w)).
  assert (Hn1 : heap w1 !! n = Some (with_zIndex v o)) by apply lookup_insert_eq.
  destruct (decide (p = n)) as [-> | Hne].
  - (* the node is its own parent *)
    assert (po = o) as -> by congruence.
    rewrite Hn1. cbn [kind with_zIndex]. rewrite Hkind.
    destruct (sortChildren_sorted w1 n (with_zIndex v o) Hn1)
      as (o' & Ho' & Hk' & Heq & Hperm & Hsorted).
    pose proof Ho' as Hexp. rewrite (sortChildren_heap w1 n _ Hn1), lookup_insert_eq in Hexp.
    injection Hexp as Hexp.
    exists o', o'. rewrite <- Hexp at 2 3 4. cbn [_zIndex kind props with_children with_zIndex].
    rewrite Hk'. cbn [kind with_zIndex].
    repeat split; try assumption; try reflexivity.
    + intros k Hk _. rewrite (sortChildren_heap w1 n _ Hn1).
      rewrite lookup_insert_ne by congruence. cbn. apply lookup_insert_ne. congruence.
    + intros k Hk. rewrite sortChildren_zIndexOf. cbn. apply zIndexOf_insert_ne. congruence.
  - assert (Hp1 : heap w1 !! p = Some po)
      by (cbn; rewrite lookup_insert_ne by congruence; exact Hp).
    rewrite Hp1, Hkind.
    destruct (sortChildren_sorted w1 p po Hp1) as (po' & Hpo' & Hk' & Heq & Hperm & Hsorted).
    exists (with_zIndex v o), po'.
    repeat split; try assumption; try reflexivity.
    + rewrite (sortChildren_heap w1 p _ Hp1). rewrite lookup_insert_ne by exact Hne.
      exact Hn1.
    + congruence.
    + intros k Hk1 Hk2. rewrite (sortChildren_heap w1 p _ Hp1).
      rewrite lookup_insert_ne by congruence. cbn. apply lookup_insert_ne. congruence.
    + intros k Hk. rewrite sortChildren_zIndexOf. cbn. apply zIndexOf_insert_ne. congruence.
Qed.

Lemma add_heap (w : World) (c n : ref) (co no : NodeObj) :
  heap w !! c = Some co -> heap w !! n = Some no -> c <> n ->
  heap (add c n w)
  = <[c := with_children
             (sortBy (fun a b => zIndexOf (heap w) a - zIndexOf (heap w) b)
                (children co ++ [n])) co]>
      (<[n := with_parent (Some c) no]> (heap w)).
Proof.
  intros Hc Hn Hne. unfold add. cbv zeta. rewrite Hn.
  assert (Hc1 : heap (store n (with_parent (Some c) no) w) !! c = Some co)
    by (cbn; rewrite lookup_insert_ne by congruence; exact Hc).
  rewrite Hc1.
  change (heap (requestRedraw c ?x)) with (heap x).
  rewrite (sortChildren_heap _ c _ (lookup_store _ _ _)).
  cbn [heap store children with_children]. rewrite insert_insert_eq.
  f_equal.
  change (with_children ?l (with_children ?l' co)) with (with_children l co).
  f_equal. apply sortBy_ext. intros a b.
  rewrite !(zIndexOf_insert_same _ c co) by
    (first [rewrite lookup_insert_ne by congruence; exact Hc | reflexivity]).
  rewrite !(zIndexOf_insert_same _ n no) by (first [exact Hn | reflexivity]).
  reflexivity.
Qed.

(** The first child of an empty container. *)
Lemma add_first_child (w : World) (c n : ref) (co no : NodeObj) :
  heap w !! c = Some co -> heap w !! n = Some no -> c <> n -> children co = [] ->
  heap (add c n w)
  = <[c := with_children [n] co]> (<[n := with_parent (Some c) no]> (heap w)).
Proof.
  intros Hc Hn Hne Hch. rewrite (add_heap w c n co no Hc Hn Hne), Hch. reflexivity.
Qed.

(** The example scenes are what [add] builds from constructed objects:
    [scene_nested] is the store after [group.add(rect)]. *)
Lemma scene_nested_built : scene_nested = heap (add 0%nat 1%nat world_nested_fresh).
Proof.
  rewrite (add_first_child world_nested_fresh 0%nat 1%nat
             (construct KContainer {[ "x" := VNum 10; "y" := VNum 10 ]})
             (construct KRect {[ "x" := VNum 5; "y" := VNum 5;
                                 "width" := VNum 20; "height" := VNum 20 ]})
             eq_refl eq_refl) by (discriminate || reflexivity).
  apply map_eq. intros k.
  unfold scene_nested, group_at_10, rect_at_5, world_nested_fresh. cbn [heap].
  destruct (decide (0%nat = k)) as [<- | H0]; [rewrite !lookup_insert_eq; reflexivity |].
  rewrite !(lookup_insert_ne _ 0%nat k) by exact H0.
  destruct (decide (1%nat = k)) as [<- | H1]; [rewrite !lookup_insert_eq; reflexivity |].
  rewrite !(lookup_insert_ne _ 1%nat k) by exact H1.
  rewrite !(lookup_insert_ne _ 0%nat k) by exact H0.
  rewrite !(lookup_insert_ne _ 1%nat k) by exact H1. reflexivity.
Qed.

(** * Paint order *)

Lemma drawOrder_app (a b : list CtxCall) : drawOrder (a ++ b) = drawOrder a ++ drawOrder b.
Proof. unfold drawOrder. apply flat_map_app. Qed.

Lemma drawOrder_styleCalls (o : NodeObj) : drawOrder (styleCalls o) = [].
Proof.
  unfold styleCalls.
  destruct (truthy (props o !! "filter")), (truthy (props o !! "shadowColor")); reflexivity.
Qed.

Lemma drawOrder_leaf_draw (o : NodeObj) (ctx : list CtxCall) :
  drawOrder (leaf_draw o ctx) = drawOrder ctx.
Proof.
  unfold leaf_draw. destruct (kind o); rewrite ?drawOrder_app; cbn;
    rewrite ?app_nil_r; reflexivity.
Qed.

Lemma render_S (fuel : nat) (h : gmap ref NodeObj) (r : ref)
    (viewport : option Rect) (ctx : list CtxCall) :
  render (S fuel) h r viewport ctx
  = (o ← h !! r;
     culled ←
       match viewport with
       | Some vp =>
         bounds ← getGlobalBounds fuel h r;
         Some (Rltb 0 (rwidth bounds) && Rltb 0 (rheight bounds) && isOutside bounds vp)
       | None => Some false
       end;
     if (culled : bool) then Some ctx
     else
       let ctx1 := ctx ++ [Save] ++ styleCalls o ++ [Transform (getTransform o)]
                       ++ [Draw r] in
       drawn ←
         match kind o with
         | KContainer => Container_draw (render fuel h) o viewport ctx1
         | _ => Some (leaf_draw o ctx1)
         end;
       Some (drawn ++ [Restore])).
Proof. reflexivity. Qed.

Lemma drawOrder_prologue (o : NodeObj) (r : ref) (ctx : list CtxCall) :
  drawOrder (ctx ++ [Save] ++ styleCalls o ++ [Transform (getTransform o)] ++ [Draw r])
  = drawOrder ctx ++ [r].
Proof. rewrite !drawOrder_app, drawOrder_styleCalls. reflexivity. Qed.

(** Without a viewport a leaf is drawn. *)
Lemma render_leaf (fuel : nat) (h : gmap ref NodeObj) (x : ref) (ctx : list CtxCall) :
  isLeaf h x ->
  exists ctx', render (S fuel) h x None ctx = Some ctx' /\
               drawOrder ctx' = drawOrder ctx ++ [x].
Proof.
  intros (ox & Hx & Hk). rewrite render_S, Hx. cbn [mbind option_bind]. cbv zeta.
  assert (Hleaf : match kind ox with
                  | KContainer =>
                    Container_draw (render fuel h) ox None
                      (ctx ++ [Save] ++ styleCalls ox ++ [Transform (getTransform ox)]
                           ++ [Draw x])
                  | _ => Some (leaf_draw ox
                      (ctx ++ [Save] ++ styleCalls ox ++ [Transform (getTransform ox)]
                           ++ [Draw x]))
                  end
                  = Some (leaf_draw ox
                      (ctx ++ [Save] ++ styleCalls ox ++ [Transform (getTransform ox)]
                           ++ [Draw x])))
    by (destruct (kind ox); congruence).
  rewrite Hleaf. cbn [mbind option_bind]. eexists. split; [reflexivity |].
  rewrite drawOrder_app, drawOrder_leaf_draw, drawOrder_prologue. cbn.
  rewrite app_nil_r. reflexivity.
Qed.

Lemma render_leaves (fuel : nat) (h : gmap ref NodeObj) (l : list ref) :
  (forall x, In x l -> isLeaf h x) ->
  forall ctx,
  exists ctx',
    foldl (fun acc child => c ← acc; render (S fuel) h child None c) (Some ctx) l
    = Some ctx' /\
    drawOrder ctx' = drawOrder ctx ++ l.
Proof.
  induction l as [| x l IH]; intros Hleaves ctx; cbn [foldl].
  - exists ctx. rewrite app_nil_r. auto.
  - destruct (render_leaf fuel h x ctx (Hleaves x (or_introl eq_refl)))
      as (ctx1 & Hr1 & Hd1).
    change (Some ctx ≫= _) with (render (S fuel) h x None ctx). rewrite Hr1.
    destruct (IH (fun y Hy => Hleaves y (or_intror Hy)) ctx1) as (ctx' & Hf & Hd).
    exists ctx'. split; [exact Hf |].
    rewrite Hd, Hd1, <- app_assoc. reflexivity.
Qed.

(** A container whose children are leaves paints them in the order of its
    child sequence. *)
Lemma render_paints_in_sequence (fuel : nat) (h : gmap ref NodeObj) (c : ref)
    (o : NodeObj) (ctx : list CtxCall) :
  h !! c = Some o -> kind o = KContainer ->
  (forall x, In x (children o) -> isLeaf h x) ->
  exists ctx', render (S (S fuel)) h c None ctx = Some ctx' /\
               drawOrder ctx' = drawOrder ctx ++ c :: children o.
Proof.
  intros Hc Hk Hleaves.
  rewrite render_S, Hc. cbn [mbind option_bind]. cbv zeta. rewrite Hk.
  unfold Container_draw.
  match goal with
  | |- context [foldl _ (Some ?c0) (children o)] =>
    destruct (render_leaves fuel h (children o) Hleaves c0) as (ctx' & Hf & Hd)
  end.
  rewrite Hf. cbn [mbind option_bind]. eexists. split; [reflexivity |].
  rewrite drawOrder_app, Hd. cbn [drawOrder flat_map]. rewrite app_nil_r.
  destruct (truthy (props o !! "clip")).
  - rewrite (drawOrder_app _ [BeginPath; _; Clip]), drawOrder_prologue. cbn.
    rewrite app_nil_r, <- app_assoc. reflexivity.
  - rewrite drawOrder_prologue, <- app_assoc. reflexivity.
Qed.

(** * C4: z-order *)

Lemma zIndexOf_lookup (h : gmap ref NodeObj) (k : ref) (o : NodeObj) :
  h !! k = Some o -> zIndexOf h k = _zIndex o.
Proof. intros Hk. unfold zIndexOf. rewrite Hk. reflexivity. Qed.

Lemma container_or_not (k : Kind) : k = KContainer \/ k <> KContainer.
Proof. destruct k; first [left; reflexivity | right; discriminate]. Qed.

(** ** Stable order *)

Lemma insertBy_filter (h : gmap ref NodeObj) (z : R) (x : ref) (l : list ref) :
  List.filter (fun y => Reqb (zIndexOf h y) z) (insertBy (byZIndex h) x l)
  = List.filter (fun y => Reqb (zIndexOf h y) z) (x :: l).
Proof.
  induction l as [| y l IH]; [reflexivity |].
  cbn [insertBy]. unfold byZIndex at 1.
  destruct (Rleb (zIndexOf h x - zIndexOf h y) 0) eqn:Hcmp; [reflexivity |].
  apply Rleb_gt in Hcmp.
  cbn [List.filter] in *. rewrite IH.
  destruct (Req_dec_T (zIndexOf h x) z) as [Hx | Hx].
  - rewrite (Reqb_true _ _ Hx), (Reqb_false (zIndexOf h y) z) by lra. reflexivity.
  - rewrite (Reqb_false _ _ Hx). reflexivity.
Qed.

Lemma sortBy_stable (h : gmap ref NodeObj) (l : list ref) :
  stableRearrangement h l (sortBy (byZIndex h) l).
Proof.
  split; [exact (sortBy_perm (zIndexOf h) l) |].
  intros z. induction l as [| x l IH]; [reflexivity |].
  change (sortBy (byZIndex h) (x :: l)) with (insertBy (byZIndex h) x (sortBy (byZIndex h) l)).
  rewrite insertBy_filter. cbn [List.filter]. rewrite IH. reflexivity.
Qed.

(** The z-indices that decide the order are those of the nodes listed. *)
Lemma insertBy_ext_in (c1 c2 : ref -> ref -> R) (x : ref) (l : list ref) :
  (forall b, In b l -> c1 x b = c2 x b) -> insertBy c1 x l = insertBy c2 x l.
Proof.
  intros Hext. induction l as [| y l IH]; cbn; [reflexivity |].
  rewrite (Hext y (or_introl eq_refl)), IH; [reflexivity |].
  intros b Hb. apply Hext. right. exact Hb.
Qed.

Lemma Sorted_ext_in (R1 R2 : ref -> ref -> Prop) (l : list ref) :
  (forall a b, In a l -> In b l -> R1 a b -> R2 a b) -> Sorted R1 l -> Sorted R2 l.
Proof.
  intros Himp Hs. induction Hs as [| x l Hs IH Hhd]; constructor.
  - apply IH. intros a b Ha Hb. apply Himp; right; assumption.
  - destruct Hhd as [| y l' Hxy]; constructor.
    apply Himp; [left; reflexivity | right; left; reflexivity | exact Hxy].
Qed.

Lemma childrenSorted_ext (h h' : gmap ref NodeObj) (l : list ref) :
  (forall k, In k l -> zIndexOf h' k = zIndexOf h k) ->
  childrenSorted h l -> childrenSorted h' l.
Proof.
  intros Hz. unfold childrenSorted. apply Sorted_ext_in.
  intros a b Ha Hb. rewrite (Hz a Ha), (Hz b Hb). tauto.
Qed.

(** ** What the accessors leave in the store *)

Lemma with_zIndex_same (o : NodeObj) : with_zIndex (_zIndex o) o = o.
Proof. destruct o. reflexivity. Qed.

Lemma samePlace_refl (o : NodeObj) : samePlace o o.
Proof. unfold samePlace. auto. Qed.

Lemma samePlace_trans (o1 o2 o3 : NodeObj) :
  samePlace o1 o2 -> samePlace o2 o3 -> samePlace o1 o3.
Proof. unfold samePlace. intuition congruence. Qed.

Lemma retouched_refl (n : ref) (w : World) : retouched n w w.
Proof.
  intros o Ho. exists o. split; [symmetry; apply insert_id; exact Ho |].
  split; [apply samePlace_refl | reflexivity].
Qed.

Lemma retouched_trans (n : ref) (w1 w2 w3 : World) :
  retouched n w1 w2 -> retouched n w2 w3 -> retouched n w1 w3.
Proof.
  intros H12 H23 o Ho. destruct (H12 o Ho) as (o2 & Hh2 & Hp2 & Hz2).
  assert (Ho2 : heap w2 !! n = Some o2) by (rewrite Hh2; apply lookup_insert_eq).
  destruct (H23 o2 Ho2) as (o3 & Hh3 & Hp3 & Hz3).
  exists o3. split; [rewrite Hh3, Hh2; apply insert_insert_eq |].
  split; [exact (samePlace_trans _ _ _ Hp2 Hp3) | congruence].
Qed.

Lemma retouched_store (n : ref) (w : World) (o o' : NodeObj) :
  heap w !! n = Some o -> samePlace o o' -> _zIndex o' = _zIndex o ->
  retouched n w (store n o' w).
Proof.
  intros Hn Hp Hz o0 Ho0. rewrite Hn in Ho0. injection Ho0 as <-.
  exists o'. split; [reflexivity | split; assumption].
Qed.

Lemma retouched_redrawn (n : ref) (w : World) (o o' : NodeObj) :
  heap w !! n = Some o -> samePlace o o' -> _zIndex o' = _zIndex o ->
  retouched n w (requestRedraw n (store n o' w)).
Proof. exact (retouched_store n w o o'). Qed.

Ltac retouched_setter :=
  match goal with
  | |- retouched ?n ?w (match heap ?w !! ?n with _ => _ end) =>
    let Hn := fresh "Hn" in
    destruct (heap w !! n) eqn:Hn; [| apply retouched_refl];
    match goal with
    | |- retouched _ _ (if ?b then _ else _) =>
      destruct b; [| apply retouched_refl];
      apply (retouched_redrawn _ _ _ _ Hn); [repeat split | reflexivity]
    | |- retouched _ _ (store _ _ _) =>
      apply (retouched_store _ _ _ _ Hn); [repeat split | reflexivity]
    end
  end.

Lemma retouched_set_x (n : ref) (v : R) (w : World) : retouched n w (set_x n v w).
Proof. unfold set_x. retouched_setter. Qed.
Lemma retouched_set_y (n : ref) (v : R) (w : World) : retouched n w (set_y n v w).
Proof. unfold set_y. retouched_setter. Qed.
Lemma retouched_set_rotation (n : ref) (v : R) (w : World) :
  retouched n w (set_rotation n v w).
Proof. unfold set_rotation. retouched_setter. Qed.
Lemma retouched_set_scaleX (n : ref) (v : R) (w : World) :
  retouched n w (set_scaleX n v w).
Proof. unfold set_scaleX. retouched_setter. Qed.
Lemma retouched_set_scaleY (n : ref) (v : R) (w : World) :
  retouched n w (set_scaleY n v w).
Proof. unfold set_scaleY. retouched_setter. Qed.
Lemma retouched_set_cursor (n : ref) (v : string) (w : World) :
  retouched n w (set_cursor n v w).
Proof. unfold set_cursor. retouched_setter. Qed.
Lemma retouched_set_draggable (n : ref) (v : bool) (w : World) :
  retouched n w (set_draggable n v w).
Proof. unfold set_draggable. retouched_setter. Qed.

Lemma retouched_assignNum (key : string) (setter : ref -> R -> World -> World)
    (np : Props) (n : ref) (w : World) :
  (forall v w0, retouched n w0 (setter n v w0)) ->
  retouched n w (assignNum key setter np n w).
Proof.
  intros Hs. unfold assignNum. destruct (np !! key) as [[v | | |] |];
    try apply retouched_refl. apply Hs.
Qed.

Lemma retouched_storeProps (n : ref) (np : Props) (w : World) :
  retouched n w (storeProps n np w).
Proof.
  unfold storeProps. destruct (heap w !! n) as [o |] eqn:Hn; [| apply retouched_refl].
  cbv zeta. apply (retouched_redrawn n w o _ Hn); [repeat split | reflexivity].
Qed.

(** [set zIndex(val)] on a node that is not its own parent: the node
    holds the new z-index, and a parent that is a container has its
    children sorted again, by the z-indices of the store with the new
    one in. *)
Lemma set_zIndex_shape (w : World) (n : ref) (o : NodeObj) (v : R) :
  heap w !! n = Some o -> parent o <> Some n ->
  (heap (set_zIndex n v w) = <[n := with_zIndex v o]> (heap w) /\
   (v = _zIndex o \/
    forall p po, parent o = Some p -> heap w !! p = Some po -> kind po <> KContainer))
  \/
  (v <> _zIndex o /\
   exists p po,
     parent o = Some p /\ heap w !! p = Some po /\ kind po = KContainer /\
     heap (set_zIndex n v w)
     = <[p := with_children
                (sortBy (byZIndex (<[n := with_zIndex v o]> (heap w))) (children po)) po]>
         (<[n := with_zIndex v o]> (heap w))).
Proof.
  intros Hn Hself. unfold set_zIndex. rewrite Hn.
  destruct (Req_dec_T (_zIndex o) v) as [Heq | Hne].
  - rewrite (Reqb_true _ _ Heq). cbn [negb]. left. subst v.
    rewrite with_zIndex_same, insert_id by exact Hn. auto.
  - rewrite (Reqb_false _ _ Hne). cbn [negb]. cbv zeta.
    destruct (parent o) as [p |] eqn:Hpar; [| left; split; [reflexivity | right; intros; congruence]].
    assert (Hpn : n <> p) by congruence.
    change (heap (requestRedraw n (store n (with_zIndex v o) w)))
      with (<[n := with_zIndex v o]> (heap w)).
    rewrite (lookup_insert_ne _ n p) by exact Hpn.
    destruct (heap w !! p) as [po |] eqn:Hp;
      [| left; split; [reflexivity | right; intros; congruence]].
    destruct (container_or_not (kind po)) as [Hk | Hk].
    + right. split; [congruence |]. exists p, po. repeat split; try assumption.
      rewrite Hk. unfold sortChildren.
      change (heap (requestRedraw n (store n (with_zIndex v o) w)))
        with (<[n := with_zIndex v o]> (heap w)).
      rewrite (lookup_insert_ne _ n p) by exact Hpn. rewrite Hp. reflexivity.
    + left. split.
      * destruct (kind po); first [reflexivity | congruence].
      * right. intros p' po' [= <-] Hp'. congruence.
Qed.

(** What a followed [setProps] leaves in the store, on a node that is
    not its own parent: the node's object is replaced, in its place; and
    when its z-index changed and its parent is a container, that
    container's children are sorted again. *)
Lemma storeProps_shape (w : World) (n : ref) (o : NodeObj) (np : Props) :
  heap w !! n = Some o -> parent o <> Some n ->
  exists o',
    samePlace o o' /\
    _zIndex o' = match np !! "zIndex" with Some (VNum v) => v | _ => _zIndex o end /\
    ((heap (storeProps n np (assignAccessors n np w)) = <[n := o']> (heap w) /\
      (_zIndex o' = _zIndex o \/
       forall p po, parent o = Some p -> heap w !! p = Some po -> kind po <> KContainer))
     \/
     (_zIndex o' <> _zIndex o /\
      exists p po,
        parent o = Some p /\ heap w !! p = Some po /\ kind po = KContainer /\
        heap (storeProps n np (assignAccessors n np w))
        = <[n := o']>
            (<[p := with_children
                      (sortBy (byZIndex (heap (storeProps n np (assignAccessors n np w))))
                         (children po)) po]>
               (heap w)))).
Proof.
  intros Hn Hself. unfold assignAccessors. cbv zeta.
  set (w1 := assignNum "x" set_x np n w).
  set (w2 := assignNum "y" set_y np n w1).
  set (w3 := assignNum "rotation" set_rotation np n w2).
  set (w4 := assignNum "scaleX" set_scaleX np n w3).
  set (w5 := assignNum "scaleY" set_scaleY np n w4).
  set (w6 := assignNum "zIndex" set_zIndex np n w5).
  set (w7 := match np !! "cursor" with Some (VStr s) => set_cursor n s w6 | _ => w6 end).
  set (w8 := match np !! "draggable" with
             | Some (VBool b) => set_draggable n b w7 | _ => w7 end).
  assert (H5 : retouched n w w5).
  { eapply retouched_trans; [| apply retouched_assignNum; intros; apply retouched_set_scaleY].
    eapply retouched_trans; [| apply retouched_assignNum; intros; apply retouched_set_scaleX].
    eapply retouched_trans;
      [| apply retouched_assignNum; intros; apply retouched_set_rotation].
    eapply retouched_trans; [| apply retouched_assignNum; intros; apply retouched_set_y].
    apply retouched_assignNum; intros; apply retouched_set_x. }
  assert (H68 : retouched n w6 (storeProps n np w8)).
  { eapply retouched_trans; [| apply retouched_storeProps].
    eapply retouched_trans with (w2 := w7).
    - subst w7. destruct (np !! "cursor") as [[| | s |] |];
        first [apply retouched_set_cursor | apply retouched_refl].
    - subst w8. destruct (np !! "draggable") as [[| b | |] |];
        first [apply retouched_set_draggable | apply retouched_refl]. }
  destruct (H5 o Hn) as (o5 & Hh5 & (Hk5 & Hp5 & Hc5) & Hz5).
  assert (Hn5 : heap w5 !! n = Some o5) by (rewrite Hh5; apply lookup_insert_eq).
  assert (Hself5 : parent o5 <> Some n) by congruence.
  (* the z-index step *)
  assert (H6 : exists o6,
            samePlace o o6 /\
            _zIndex o6 = match np !! "zIndex" with Some (VNum v) => v | _ => _zIndex o end /\
            heap w6 !! n = Some o6 /\
            ((heap w6 = <[n := o6]> (heap w) /\
              (_zIndex o6 = _zIndex o \/
               forall p po, parent o = Some p -> heap w !! p = Some po ->
                            kind po <> KContainer))
             \/
             (_zIndex o6 <> _zIndex o /\
              exists p po,
                parent o = Some p /\ heap w !! p = Some po /\ kind po = KContainer /\
                n <> p /\
                heap w6
                = <[p := with_children
                           (sortBy (byZIndex (<[n := o6]> (heap w))) (children po)) po]>
                    (<[n := o6]> (heap w))))).
  { subst w6. unfold assignNum.
    assert (Hkeep : exists o6,
              samePlace o o6 /\ _zIndex o6 = _zIndex o /\ heap w5 !! n = Some o6 /\
              heap w5 = <[n := o6]> (heap w))
      by (exists o5; unfold samePlace; auto).
    destruct (np !! "zIndex") as [[v | | |] |];
      try (destruct Hkeep as (o6 & H1 & H2 & H3 & H4); exists o6; auto 10; fail).
    destruct (set_zIndex_shape w5 n o5 v Hn5 Hself5) as [[Hh6 Hwhy] | (Hv & p & po & Hpar & Hp & Hk & Hh6)].
    - exists (with_zIndex v o5). split; [unfold samePlace; cbn; auto |].
      split; [reflexivity |]. split; [rewrite Hh6; apply lookup_insert_eq |].
      left. split; [rewrite Hh6, Hh5; apply insert_insert_eq |].
      destruct Hwhy as [-> | Hnone]; [left; exact Hz5 | right].
      intros p po Hpar Hp. apply (Hnone p po); [congruence |].
      rewrite Hh5, lookup_insert_ne by congruence. exact Hp.
    - assert (Hnp : n <> p) by congruence.
      exists (with_zIndex v o5). split; [unfold samePlace; cbn; auto |].
      split; [reflexivity |].
      split; [rewrite Hh6, lookup_insert_ne by congruence; apply lookup_insert_eq |].
      right. split; [cbn; congruence |]. exists p, po.
      rewrite Hh5, lookup_insert_ne in Hp by exact Hnp.
      repeat split; try assumption; try congruence.
      rewrite Hh6, Hh5, insert_insert_eq. reflexivity. }
  destruct H6 as (o6 & Hplace6 & Hz6 & Hn6 & Hshape6).
  destruct (H68 o6 Hn6) as (o' & Hh' & Hplace' & Hz').
  exists o'. split; [exact (samePlace_trans _ _ _ Hplace6 Hplace') |].
  split; [congruence |].
  destruct Hshape6 as [[Hh6 Hwhy] | (Hv & p & po & Hpar & Hp & Hk & Hnp & Hh6)].
  - left. split; [rewrite Hh', Hh6; apply insert_insert_eq |].
    rewrite Hz'. exact Hwhy.
  - right. split; [congruence |]. exists p, po. repeat split; try assumption.
    rewrite Hh' at 1. rewrite Hh6.
    assert (Hzs : forall k, zIndexOf (heap (storeProps n np w8)) k
                            = zIndexOf (<[n := o6]> (heap w)) k).
    { intros k. rewrite Hh', Hh6. unfold zIndexOf.
      destruct (decide (n = k)) as [<- | Hnk]; [rewrite !lookup_insert_eq; exact Hz' |].
      rewrite (lookup_insert_ne _ n k) by exact Hnk.
      destruct (decide (p = k)) as [<- | Hpk].
      - rewrite lookup_insert_eq, lookup_insert_ne, Hp by exact Hnp. reflexivity.
      - rewrite lookup_insert_ne by exact Hpk. reflexivity. }
    rewrite (sortBy_ext (byZIndex (heap (storeProps n np w8)))
               (byZIndex (<[n := o6]> (heap w))))
      by (intros a b; unfold byZIndex; rewrite !Hzs; reflexivity).
    apply map_eq. intros k.
    destruct (decide (n = k)) as [<- | Hnk]; [rewrite !lookup_insert_eq; reflexivity |].
    rewrite !(lookup_insert_ne _ n k) by exact Hnk.
    destruct (decide (p = k)) as [<- | Hpk]; [rewrite !lookup_insert_eq; reflexivity |].
    rewrite !(lookup_insert_ne _ p k) by exact Hpk.
    rewrite (lookup_insert_ne _ n k) by exact Hnk. reflexivity.
Qed.

Lemma lineage_not_self (h : gmap ref NodeObj) (n : ref) (o : NodeObj) (l : list ref) :
  lineage h n l -> h !! n = Some o -> parent o <> Some n.
Proof.
  intros Hl Hn Hpar. pose proof (lineage_NoDup h n l Hl) as Hnd.
  inversion Hl as [r o0 Hr Hroot | r p o0 l' Hr Hp Hl']; subst; [congruence |].
  assert (p = n) as -> by congruence.
  pose proof (lineage_unique h n _ _ Hl Hl') as Heq.
  apply (f_equal (@length ref)) in Heq. cbn in Heq. lia.
Qed.

Lemma sortBy_sorted_byZIndex (h : gmap ref NodeObj) (l : list ref) :
  childrenSorted h (sortBy (byZIndex h) l).
Proof. exact (sortBy_sorted (zIndexOf h) l). Qed.

(** A followed [setProps] that changes the z-index of a child of a
    container. *)
Lemma storeProps_resorts (w : World) (n p : ref) (o po : NodeObj) (np : Props) (v : R) :
  heap w !! n = Some o -> parent o <> Some n ->
  parent o = Some p -> heap w !! p = Some po -> kind po = KContainer ->
  np !! "zIndex" = Some (VNum v) -> v <> _zIndex o ->
  exists o',
    samePlace o o' /\ _zIndex o' = v /\ n <> p /\
    heap (storeProps n np (assignAccessors n np w))
    = <[n := o']>
        (<[p := with_children
                  (sortBy (byZIndex (heap (storeProps n np (assignAccessors n np w))))
                     (children po)) po]>
           (heap w)) /\
    forall k, k <> n ->
      zIndexOf (heap (storeProps n np (assignAccessors n np w))) k = zIndexOf (heap w) k.
Proof.
  intros Hn Hself Hpar Hp Hk Hkey Hv.
  destruct (storeProps_shape w n o np Hn Hself)
    as (o' & Hplace & Hz & [[Hh Hwhy] | (Hzne & p' & po' & Hpar' & Hp' & Hk' & Hh)]);
    rewrite Hkey in Hz.
  - exfalso. destruct Hwhy as [Hsame | Hnone]; [congruence |].
    exact (Hnone p po Hpar Hp Hk).
  - assert (p' = p) as -> by congruence. assert (po' = po) as -> by congruence.
    assert (Hnp : n <> p) by congruence.
    exists o'. repeat split; try apply Hplace; try assumption.
    intros k Hkn. rewrite Hh. unfold zIndexOf.
    rewrite lookup_insert_ne by congruence.
    destruct (decide (p = k)) as [<- | Hpk].
    + rewrite lookup_insert_eq, Hp. reflexivity.
    + rewrite lookup_insert_ne by exact Hpk. reflexivity.
Qed.

(** In a store whose children name their containers as parents, a
    followed [setProps] keeps that and keeps every container sorted. *)
Lemma storeProps_keeps_sorted (w : World) (n : ref) (o : NodeObj) (np : Props) :
  heap w !! n = Some o -> parent o <> Some n ->
  parentsAgree (heap w) -> allSorted (heap w) ->
  parentsAgree (heap (storeProps n np (assignAccessors n np w))) /\
  allSorted (heap (storeProps n np (assignAccessors n np w))).
Proof.
  intros Hn Hself Hagree Hsorted.
  assert (Hnot_own : ~ In n (children o)).
  { intros Hin. destruct (Hagree n o n Hn Hin) as (co & Hco & Hpar). congruence. }
  destruct (storeProps_shape w n o np Hn Hself)
    as (o' & (Hk' & Hp' & Hc') & Hz & [[Hh Hwhy] | (Hzne & p & po & Hpar & Hp & Hk & Hh)]);
    set (h' := heap (storeProps n np (assignAccessors n np w))) in *.
  - (* the object is replaced and no container is sorted again *)
    assert (Hother : forall k, k <> n -> h' !! k = heap w !! k)
      by (intros k Hkn; rewrite Hh, lookup_insert_ne by congruence; reflexivity).
    assert (Hn' : h' !! n = Some o') by (rewrite Hh; apply lookup_insert_eq).
    assert (Hzk : forall k, k <> n -> zIndexOf h' k = zIndexOf (heap w) k)
      by (intros k Hkn; unfold zIndexOf; rewrite (Hother k Hkn); reflexivity).
    assert (Hlists : forall c oc, heap w !! c = Some oc -> kind oc = KContainer ->
                       In n (children oc) -> _zIndex o' = _zIndex o).
    { intros c oc Hc Hkc Hin. destruct Hwhy as [Hsame | Hnone]; [exact Hsame |].
      destruct (Hagree c oc n Hc Hin) as (co & Hco & Hparc).
      assert (co = o) as -> by congruence.
      exfalso. exact (Hnone c oc Hparc Hc Hkc). }
    split.
    + intros r or c Hr Hin.
      assert (Hold : exists or0, heap w !! r = Some or0 /\ children or0 = children or).
      { destruct (decide (r = n)) as [-> | Hrn].
        - rewrite Hn' in Hr. injection Hr as <-. eauto.
        - rewrite (Hother r Hrn) in Hr. eauto. }
      destruct Hold as (or0 & Hr0 & Hch0). rewrite <- Hch0 in Hin.
      destruct (Hagree r or0 c Hr0 Hin) as (co & Hco & Hparc).
      destruct (decide (c = n)) as [-> | Hcn].
      * exists o'. split; [exact Hn' | congruence].
      * exists co. rewrite (Hother c Hcn). auto.
    + intros c oc' Hc Hkc.
      destruct (decide (c = n)) as [-> | Hcn].
      * rewrite Hn' in Hc. injection Hc as <-. rewrite Hc'.
        apply (childrenSorted_ext (heap w)); [| apply (Hsorted n o Hn); congruence].
        intros k Hin. apply Hzk. intros ->. exact (Hnot_own Hin).
      * rewrite (Hother c Hcn) in Hc.
        apply (childrenSorted_ext (heap w)); [| exact (Hsorted c oc' Hc Hkc)].
        intros k Hin. destruct (decide (k = n)) as [-> | Hkn]; [| exact (Hzk k Hkn)].
        unfold zIndexOf. rewrite Hn', Hn. exact (Hlists c oc' Hc Hkc Hin).
  - (* the parent is sorted again *)
    assert (Hnp : n <> p) by congruence.
    set (po' := with_children (sortBy (byZIndex h') (children po)) po) in *.
    assert (Hn' : h' !! n = Some o') by (rewrite Hh; apply lookup_insert_eq).
    assert (Hp'' : h' !! p = Some po')
      by (rewrite Hh, lookup_insert_ne by exact Hnp; apply lookup_insert_eq).
    assert (Hother : forall k, k <> n -> k <> p -> h' !! k = heap w !! k).
    { intros k Hkn Hkp. rewrite Hh, !lookup_insert_ne by congruence. reflexivity. }
    assert (Hzk : forall k, k <> n -> zIndexOf h' k = zIndexOf (heap w) k).
    { intros k Hkn. unfold zIndexOf. destruct (decide (k = p)) as [-> | Hkp].
      - rewrite Hp'', Hp. reflexivity.
      - rewrite (Hother k Hkn Hkp). reflexivity. }
    assert (Honly : forall c oc, heap w !! c = Some oc -> In n (children oc) -> c = p).
    { intros c oc Hc Hin. destruct (Hagree c oc n Hc Hin) as (co & Hco & Hparc). congruence. }
    split.
    + intros r or c Hr Hin.
      assert (Hold : exists or0, heap w !! r = Some or0 /\ In c (children or0)).
      { destruct (decide (r = n)) as [-> | Hrn].
        - rewrite Hn' in Hr. injection Hr as <-. rewrite Hc' in Hin. eauto.
        - destruct (decide (r = p)) as [-> | Hrp].
          + rewrite Hp'' in Hr. injection Hr as <-. exists po. split; [exact Hp |].
            cbn [children with_children po'] in Hin.
            exact (Permutation_in c (sortBy_perm (zIndexOf h') (children po)) Hin).
          + rewrite (Hother r Hrn Hrp) in Hr. eauto. }
      destruct Hold as (or0 & Hr0 & Hin0).
      destruct (Hagree r or0 c Hr0 Hin0) as (co & Hco & Hparc).
      destruct (decide (c = n)) as [-> | Hcn]; [exists o'; split; [exact Hn' | congruence] |].
      destruct (decide (c = p)) as [-> | Hcp].
      * exists po'. split; [exact Hp'' |]. cbn. congruence.
      * exists co. rewrite (Hother c Hcn Hcp). auto.
    + intros c oc' Hc Hkc.
      destruct (decide (c = n)) as [-> | Hcn].
      * rewrite Hn' in Hc. injection Hc as <-. rewrite Hc'.
        apply (childrenSorted_ext (heap w)); [| apply (Hsorted n o Hn); congruence].
        intros k Hin. apply Hzk. intros ->. exact (Hnot_own Hin).
      * destruct (decide (c = p)) as [-> | Hcp].
        -- rewrite Hp'' in Hc. injection Hc as <-. apply sortBy_sorted_byZIndex.
        -- rewrite (Hother c Hcn Hcp) in Hc.
           apply (childrenSorted_ext (heap w)); [| exact (Hsorted c oc' Hc Hkc)].
           intros k Hin. apply Hzk. intros ->. exact (Hcp (Honly c oc' Hc Hin)).
Qed.

(** ** Container.add *)

Lemma lineage_agree (h h' : gmap ref NodeObj) (r : ref) (l : list ref) :
  (forall x, In x l -> (parent <$> h' !! x) = (parent <$> h !! x)) ->
  lineage h r l -> lineage h' r l.
Proof.
  intros Hsame Hl. induction Hl as [r o Hr Hroot | r p o l Hr Hpar Hl IH].
  - pose proof (Hsame r (or_introl eq_refl)) as Hx. rewrite Hr in Hx.
    destruct (h' !! r) as [o' |] eqn:Hr'; [| discriminate].
    injection Hx as Hx. apply (lineage_root h' r o' Hr'). congruence.
  - pose proof (Hsame r (or_introl eq_refl)) as Hx. rewrite Hr in Hx.
    destruct (h' !! r) as [o' |] eqn:Hr'; [| discriminate].
    injection Hx as Hx. apply (lineage_step h' r p o' l Hr'); [congruence |].
    apply IH. intros x Hin. apply Hsame. right. exact Hin.
Qed.

(** [add] of a node that is neither the container nor one of its
    ancestors: the one request is received by the container and its
    ancestors. *)
Lemma add_redraws (w : World) (c n : ref) (co no : NodeObj) (l : list ref) :
  heap w !! c = Some co -> heap w !! n = Some no ->
  lineage (heap w) c l -> ~ In n l ->
  redraws (add c n w) = redraws w ++ l.
Proof.
  intros Hc Hn Hl Hnot.
  assert (Hne : c <> n).
  { intros ->. apply Hnot. inversion Hl; subst; left; reflexivity. }
  assert (Hl' : lineage (heap (add c n w)) c l).
  { apply (lineage_agree (heap w)); [| exact Hl].
    intros x Hin. rewrite (add_heap w c n co no Hc Hn Hne).
    destruct (decide (c = x)) as [<- | Hcx]; [rewrite lookup_insert_eq, Hc; reflexivity |].
    rewrite lookup_insert_ne by exact Hcx.
    rewrite lookup_insert_ne by (intros ->; exact (Hnot Hin)). reflexivity. }
  unfold add in *. cbv zeta in *.
  match goal with
  | |- redraws (requestRedraw c ?w3) = _ =>
    rewrite (requestRedraw_lineage w3 c l Hl'); f_equal
  end.
  rewrite Hn. cbn [store heap]. rewrite lookup_insert_ne by congruence. rewrite Hc.
  unfold sortChildren. cbn [store heap redraws].
  rewrite lookup_insert_eq. reflexivity.
Qed.

Lemma add_keeps_sorted (w : World) (c n : ref) (co no : NodeObj) :
  heap w !! c = Some co -> heap w !! n = Some no -> c <> n ->
  unlisted (heap w) n -> parentsAgree (heap w) -> allSorted (heap w) ->
  parentsAgree (heap (add c n w)) /\ allSorted (heap (add c n w)).
Proof.
  intros Hc Hn Hne Hun Hagree Hsorted.
  rewrite (add_heap w c n co no Hc Hn Hne).
  set (co' := with_children _ co). set (no' := with_parent (Some c) no).
  set (h' := <[c := co']> (<[n := no']> (heap w))).
  assert (Hc' : h' !! c = Some co') by apply lookup_insert_eq.
  assert (Hn' : h' !! n = Some no')
    by (unfold h'; rewrite lookup_insert_ne by exact Hne; apply lookup_insert_eq).
  assert (Hother : forall k, k <> c -> k <> n -> h' !! k = heap w !! k)
    by (intros k Hkc Hkn; unfold h'; rewrite !lookup_insert_ne by congruence; reflexivity).
  assert (Hz : forall k, zIndexOf h' k = zIndexOf (heap w) k).
  { intros k. unfold zIndexOf.
    destruct (decide (k = c)) as [-> | Hkc]; [rewrite Hc', Hc; reflexivity |].
    destruct (decide (k = n)) as [-> | Hkn]; [rewrite Hn', Hn; reflexivity |].
    rewrite (Hother k Hkc Hkn). reflexivity. }
  assert (Hlookup : forall x cx r, heap w !! x = Some cx -> parent cx = Some r -> x <> n ->
                      exists cx', h' !! x = Some cx' /\ parent cx' = Some r).
  { intros x cx r Hx Hpar Hxn. destruct (decide (x = c)) as [-> | Hxc].
    - exists co'. split; [exact Hc' |]. cbn. congruence.
    - exists cx. rewrite (Hother x Hxc Hxn). auto. }
  split.
  - intros r or x Hr Hin.
    destruct (decide (r = c)) as [-> | Hrc].
    + rewrite Hc' in Hr. injection Hr as <-. cbn [children with_children co'] in Hin.
      apply (Permutation_in x (sortBy_perm (zIndexOf (heap w)) (children co ++ [n]))) in Hin.
      apply in_app_or in Hin as [Hin | [<- | []]].
      * destruct (Hagree c co x Hc Hin) as (cx & Hx & Hpar).
        apply (Hlookup x cx c Hx Hpar). intros ->. exact (Hun c co Hc Hin).
      * exists no'. split; [exact Hn' | reflexivity].
    + assert (Hold : exists or0, heap w !! r = Some or0 /\ children or0 = children or).
      { destruct (decide (r = n)) as [-> | Hrn].
        - rewrite Hn' in Hr. injection Hr as <-. eauto.
        - rewrite (Hother r Hrc Hrn) in Hr. eauto. }
      destruct Hold as (or0 & Hr0 & Hch). rewrite <- Hch in Hin.
      destruct (Hagree r or0 x Hr0 Hin) as (cx & Hx & Hpar).
      apply (Hlookup x cx r Hx Hpar). intros ->. exact (Hun r or0 Hr0 Hin).
  - intros k ok Hk Hkind.
    destruct (decide (k = c)) as [-> | Hkc].
    + rewrite Hc' in Hk. injection Hk as <-.
      apply (childrenSorted_ext (heap w)); [intros; apply Hz |].
      apply sortBy_sorted_byZIndex.
    + assert (Hold : exists ok0, heap w !! k = Some ok0 /\ children ok0 = children ok /\
                                 kind ok0 = kind ok).
      { destruct (decide (k = n)) as [-> | Hkn].
        - rewrite Hn' in Hk. injection Hk as <-. eauto.
        - rewrite (Hother k Hkc Hkn) in Hk. eauto. }
      destruct Hold as (ok0 & Hk0 & Hch & Hkd). rewrite <- Hch.
      apply (childrenSorted_ext (heap w)); [intros; apply Hz |].
      apply (Hsorted k ok0 Hk0). congruence.
Qed.

(** ** The example of the claim *)

(** Three leaves with z-indices 5, 10 and 20 under a container; the
    middle one is given the z-index 30 through [setProps]; the container
    is then rendered. *)
Lemma foldl_render_ext (f g : ref -> option Rect -> list CtxCall -> option (list CtxCall))
    (viewport : option Rect) (l : list ref) :
  (forall c ctx, In c l -> f c viewport ctx = g c viewport ctx) ->
  forall acc,
    foldl (fun acc child => c ← acc; f child viewport c) acc l
    = foldl (fun acc child => c ← acc; g child viewport c) acc l.
Proof.
  induction l as [| x l IH]; intros Hext acc; [reflexivity |].
  cbn [foldl]. rewrite IH by (intros c ctx Hc; apply Hext; right; exact Hc).
  f_equal. destruct acc as [c |]; [| reflexivity]. cbn.
  apply Hext. left. reflexivity.
Qed.

Lemma Scene_render_leaf (fuel : nat) (sc : Scene) (x : ref) (ox : NodeObj)
    (viewport : option Rect) (ctx : list CtxCall) :
  heap (world sc) !! x = Some ox -> kind ox <> KContainer ->
  transformers sc !! x = None ->
  Scene_render fuel sc x viewport ctx = render fuel (heap (world sc)) x viewport ctx.
Proof.
  intros Hx Hk Ht. destruct fuel as [| f]; [reflexivity |].
  cbn [Scene_render]. rewrite render_S, Hx. cbn [mbind option_bind]. rewrite Ht.
  destruct (match viewport with
            | Some vp =>
              bounds ← getGlobalBounds f (heap (world sc)) x;
              Some (Rltb 0 (rwidth bounds) && Rltb 0 (rheight bounds) && isOutside bounds vp)
            | None => Some false
            end) as [[|] |]; cbn [mbind option_bind]; try reflexivity.
  cbv zeta. destruct (kind ox); first [congruence | reflexivity].
Qed.

(** On an object that is no Transformer and whose children are shapes
    that are no Transformers, [render] by the classes is [Node.render]. *)
Lemma Scene_render_flat (fuel : nat) (sc : Scene) (c : ref) (o : NodeObj)
    (viewport : option Rect) (ctx : list CtxCall) :
  heap (world sc) !! c = Some o -> transformers sc !! c = None ->
  (forall x, In x (children o) ->
     isLeaf (heap (world sc)) x /\ transformers sc !! x = None) ->
  Scene_render (S fuel) sc c viewport ctx
  = render (S fuel) (heap (world sc)) c viewport ctx.
Proof.
  intros Hc Ht Hleaves. cbn [Scene_render]. rewrite render_S, Hc.
  cbn [mbind option_bind]. rewrite Ht.
  destruct (match viewport with
            | Some vp =>
              bounds ← getGlobalBounds fuel (heap (world sc)) c;
              Some (Rltb 0 (rwidth bounds) && Rltb 0 (rheight bounds) && isOutside bounds vp)
            | None => Some false
            end) as [[|] |]; cbn [mbind option_bind]; try reflexivity.
  cbv zeta. destruct (container_or_not (kind o)) as [Hk | Hk].
  - rewrite Hk. unfold Container_draw. cbv zeta.
    rewrite (foldl_render_ext (Scene_render fuel sc) (render fuel (heap (world sc)))
               viewport (children o)); [reflexivity |].
    intros x ctx0 Hx. destruct (Hleaves x Hx) as [(ox & Hox & Hkx) Htx].
    exact (Scene_render_leaf fuel sc x ox viewport ctx0 Hox Hkx Htx).
  - destruct (kind o); first [congruence | reflexivity].
Qed.

Lemma zIndex_change_repaints (w : World) (ts : gmap ref Transformer) (p a b d : ref)
    (po oa ob od : NodeObj) :
  heap w !! p = Some po -> kind po = KContainer -> children po = [a; b; d] ->
  heap w !! a = Some oa -> heap w !! b = Some ob -> heap w !! d = Some od ->
  kind oa <> KContainer -> kind ob <> KContainer -> kind od <> KContainer ->
  _zIndex oa = 5 -> _zIndex ob = 10 -> _zIndex od = 20 ->
  parent ob = Some p ->
  ts !! p = None -> ts !! a = None -> ts !! b = None -> ts !! d = None ->
  let w' := storeProps b {[ "zIndex" := VNum 30 ]}
              (assignAccessors b {[ "zIndex" := VNum 30 ]} w) in
  (children <$> heap w' !! p) = Some [a; d; b] /\
  map (zIndexOf (heap w')) [a; d; b] = [5; 20; 30] /\
  exists ctx',
    Scene_render 2 (mkScene w' ts) p None [] = Some ctx' /\
    drawOrder ctx' = [p; a; d; b].
Proof.
  intros Hp Hkp Hch Ha Hb Hd Hka Hkb Hkd Hza Hzb Hzd Hpar Htp Hta Htb Htd w'.
  assert (Hab : a <> b) by (intros ->; rewrite Ha in Hb; injection Hb as ->; lra).
  assert (Hdb : d <> b) by (intros ->; rewrite Hd in Hb; injection Hb as ->; lra).
  assert (Hap : a <> p) by (intros ->; congruence).
  assert (Hdp : d <> p) by (intros ->; congruence).
  assert (Hbp : b <> p) by (intros ->; congruence).
  destruct (storeProps_resorts w b p ob po {[ "zIndex" := VNum 30 ]} 30 Hb
              ltac:(congruence) Hpar Hp Hkp eq_refl ltac:(rewrite Hzb; lra))
    as (o' & (Hk' & _ & _) & Hz' & _ & Hh & Hzother).
  fold w' in Hh, Hzother.
  assert (Hb' : heap w' !! b = Some o') by (rewrite Hh; apply lookup_insert_eq).
  assert (Hp' : heap w' !! p
                = Some (with_children (sortBy (byZIndex (heap w')) (children po)) po))
    by (rewrite Hh at 1; rewrite lookup_insert_ne by exact Hbp; apply lookup_insert_eq).
  assert (Hother : forall k, k <> b -> k <> p -> heap w' !! k = heap w !! k)
    by (intros k Hkb' Hkp'; rewrite Hh, !lookup_insert_ne by congruence; reflexivity).
  assert (Hz'a : zIndexOf (heap w') a = 5)
    by (rewrite (Hzother a Hab), (zIndexOf_lookup _ a oa Ha); exact Hza).
  assert (Hz'd : zIndexOf (heap w') d = 20)
    by (rewrite (Hzother d Hdb), (zIndexOf_lookup _ d od Hd); exact Hzd).
  assert (Hz'b : zIndexOf (heap w') b = 30)
    by (rewrite (zIndexOf_lookup _ b o' Hb'); exact Hz').
  assert (Hsorted : sortBy (byZIndex (heap w')) (children po) = [a; d; b]).
  { rewrite Hch. unfold sortBy, byZIndex. cbn [foldr insertBy].
    rewrite Hz'b, Hz'd, (Rleb_false (30 - 20) 0) by lra. cbn [insertBy].
    rewrite Hz'a, Hz'd, (Rleb_true (5 - 20) 0) by lra. reflexivity. }
  rewrite Hsorted in Hp'.
  split; [rewrite Hp'; reflexivity |].
  split; [cbn [map]; rewrite Hz'a, Hz'd, Hz'b; reflexivity |].
  assert (Hleaves : forall x, In x [a; d; b] -> isLeaf (heap w') x).
  { intros x [<- | [<- | [<- | []]]].
    - exists oa. rewrite (Hother a Hab Hap). auto.
    - exists od. rewrite (Hother d Hdb Hdp). auto.
    - exists o'. split; [exact Hb' | congruence]. }
  destruct (render_paints_in_sequence 0 (heap w') p _ [] Hp' Hkp Hleaves)
    as (ctx' & Hr & Ho).
  exists ctx'. split; [| exact Ho].
  rewrite (Scene_render_flat 1 (mkScene w' ts) p _ None [] Hp' Htp); [exact Hr |].
  intros x Hx. split; [exact (Hleaves x Hx) |].
  destruct Hx as [<- | [<- | [<- | []]]]; assumption.
Qed.

Lemma updatesImage_zIndex (k : Kind) (v : R) :
  updatesImage k {[ "zIndex" := VNum v ]} = false.
Proof. destruct k; reflexivity. Qed.

(** C4 (amended): [add] of a node that is neither the container nor one
    of its ancestors, and every change of a node's z-index through
    [setProps] or the accessor, on a node whose chain of parents ends,
    at once sorts the child sequence of the container, respectively of
    the node's parent, by ascending z-index: the same nodes, those of
    equal z-index in the order they had.  A container that is no
    Transformer paints its children in the order of its child sequence
    (shown for children that are shapes).  After
    setProperties({zIndex: 30}) on a child previously at z-index 10 among
    siblings at z-indices 5 and 20, the children draw in z-index order 5,
    20, 30.  In a store where every listed child names its container as
    parent, every container stays sorted under [setProps] and under
    [add] of a node that is listed nowhere.  (A container that lists a
    node whose parent reference points elsewhere is not sorted again
    when that node's z-index changes.) *)
Theorem children_sorted_on_change (w : World) :
  (forall c n co no l,
     heap w !! c = Some co -> heap w !! n = Some no ->
     lineage (heap w) c l -> ~ In n l ->
     exists co',
       heap (add c n w) !! c = Some co' /\
       children co' = sortBy (byZIndex (heap (add c n w))) (children co ++ [n]) /\
       stableRearrangement (heap (add c n w)) (children co ++ [n]) (children co') /\
       childrenSorted (heap (add c n w)) (children co') /\
       redraws (add c n w) = redraws w ++ l) /\
  (forall n p o po np v l,
     heap w !! n = Some o -> lineage (heap w) n l ->
     parent o = Some p -> heap w !! p = Some po -> kind po = KContainer ->
     followed np = true -> updatesImage (kind o) np = false ->
     np !! "zIndex" = Some (VNum v) -> v <> _zIndex o ->
     exists w' po',
       setProps n np w = Some w' /\
       heap w' !! p = Some po' /\
       children po' = sortBy (byZIndex (heap w')) (children po) /\
       stableRearrangement (heap w') (children po) (children po') /\
       childrenSorted (heap w') (children po') /\
       zIndexOf (heap w') n = v /\
       (forall k, k <> n -> zIndexOf (heap w') k = zIndexOf (heap w) k)) /\
  (forall n p o po v l,
     heap w !! n = Some o -> lineage (heap w) n l ->
     parent o = Some p -> heap w !! p = Some po -> kind po = KContainer ->
     v <> _zIndex o ->
     exists po',
       heap (set_zIndex n v w) !! p = Some po' /\
       children po' = sortBy (byZIndex (heap (set_zIndex n v w))) (children po) /\
       stableRearrangement (heap (set_zIndex n v w)) (children po) (children po') /\
       childrenSorted (heap (set_zIndex n v w)) (children po') /\
       zIndexOf (heap (set_zIndex n v w)) n = v) /\
  (forall ts c o fuel ctx,
     heap w !! c = Some o -> kind o = KContainer ->
     (forall x, In x (children o) -> isLeaf (heap w) x /\ ts !! x = None) ->
     ts !! c = None ->
     exists ctx',
       Scene_render (S (S fuel)) (mkScene w ts) c None ctx = Some ctx' /\
       drawOrder ctx' = drawOrder ctx ++ c :: children o) /\
  (forall ts p a b d po oa ob od,
     heap w !! p = Some po -> kind po = KContainer -> parent po = None ->
     children po = [a; b; d] ->
     heap w !! a = Some oa -> heap w !! b = Some ob -> heap w !! d = Some od ->
     kind oa <> KContainer -> kind ob <> KContainer -> kind od <> KContainer ->
     _zIndex oa = 5 -> _zIndex ob = 10 -> _zIndex od = 20 ->
     parent ob = Some p ->
     ts !! p = None -> ts !! a = None -> ts !! b = None -> ts !! d = None ->
     exists w',
       setProps b {[ "zIndex" := VNum 30 ]} w = Some w' /\
       (children <$> heap w' !! p) = Some [a; d; b] /\
       map (zIndexOf (heap w')) [a; d; b] = [5; 20; 30] /\
       exists ctx',
         Scene_render 2 (mkScene w' ts) p None [] = Some ctx' /\
         drawOrder ctx' = [p; a; d; b]) /\
  (parentsAgree (heap w) -> allSorted (heap w) ->
   (forall n o np l,
      heap w !! n = Some o -> lineage (heap w) n l ->
      followed np = true -> updatesImage (kind o) np = false ->
      exists w',
        setProps n np w = Some w' /\ parentsAgree (heap w') /\ allSorted (heap w')) /\
   (forall c n co no l,
      heap w !! c = Some co -> heap w !! n = Some no ->
      lineage (heap w) c l -> ~ In n l -> unlisted (heap w) n ->
      parentsAgree (heap (add c n w)) /\ allSorted (heap (add c n w)))).
Proof.
  split; [| split; [| split; [| split; [| split]]]].
  - intros c n co no l Hc Hn Hl Hnot.
    destruct (add_sorts w c n co Hc) as (co' & Hco' & _ & Heq & _ & Hsorted).
    exists co'. split; [exact Hco' |]. split; [exact Heq |].
    split; [rewrite Heq; apply sortBy_stable |]. split; [exact Hsorted |].
    exact (add_redraws w c n co no l Hc Hn Hl Hnot).
  - intros n p o po np v l Hn Hl Hpar Hp Hk Hf Hi Hkey Hv.
    pose proof (lineage_not_self (heap w) n o l Hl Hn) as Hself.
    destruct (storeProps_resorts w n p o po np v Hn Hself Hpar Hp Hk Hkey Hv)
      as (o' & _ & Hz' & Hnp & Hh & Hzother).
    eexists. eexists. split; [exact (setProps_followed w n o np Hn Hf Hi) |].
    split; [rewrite Hh at 1; rewrite lookup_insert_ne by exact Hnp; apply lookup_insert_eq |].
    cbn [children with_children].
    split; [reflexivity |]. split; [apply sortBy_stable |].
    split; [apply sortBy_sorted_byZIndex |]. split; [| exact Hzother].
    unfold zIndexOf. rewrite Hh at 1. rewrite lookup_insert_eq. exact Hz'.
  - intros n p o po v l Hn Hl Hpar Hp Hk Hv.
    destruct (set_zIndex_sorts w n p o po v Hn Hv Hpar Hp Hk)
      as (o' & po' & Hn' & Hz' & _ & _ & Hp' & _ & Heq & _ & Hsorted & _ & _).
    exists po'. split; [exact Hp' |]. split; [exact Heq |].
    split; [rewrite Heq; apply sortBy_stable |]. split; [exact Hsorted |].
    rewrite (zIndexOf_lookup _ n o' Hn'). exact Hz'.
  - intros ts c o fuel ctx Hc Hk Hleaves Htc.
    rewrite (Scene_render_flat (S fuel) (mkScene w ts) c o None ctx Hc Htc Hleaves).
    apply (render_paints_in_sequence fuel (heap w) c o ctx Hc Hk).
    intros x Hx. exact (proj1 (Hleaves x Hx)).
  - intros ts p a b d po oa ob od Hp Hkp Hroot Hch Ha Hb Hd Hka Hkb Hkd Hza Hzb Hzd Hpar
      Htp Hta Htb Htd.
    eexists. split.
    + exact (setProps_followed w b ob {[ "zIndex" := VNum 30 ]} Hb eq_refl
               (updatesImage_zIndex (kind ob) 30)).
    + exact (zIndex_change_repaints w ts p a b d po oa ob od Hp Hkp Hch Ha Hb Hd
               Hka Hkb Hkd Hza Hzb Hzd Hpar Htp Hta Htb Htd).
  - intros Hagree Hsorted. split.
    + intros n o np l Hn Hl Hf Hi.
      pose proof (lineage_not_self (heap w) n o l Hl Hn) as Hself.
      eexists. split; [exact (setProps_followed w n o np Hn Hf Hi) |].
      exact (storeProps_keeps_sorted w n o np Hn Hself Hagree Hsorted).
    + intros c n co no l Hc Hn Hl Hnot Hun.
      apply (add_keeps_sorted w c n co no Hc Hn); try assumption.
      intros ->. apply Hnot. inversion Hl; subst; left; reflexivity.
Qed.

Lemma children_sorted_on_change_witness :
  exists w',
    setProps 2%nat {[ "zIndex" := VNum 30 ]} world_z = Some w' /\
    (children <$> heap w' !! 0%nat) = Some [1%nat; 3%nat; 2%nat] /\
    map (zIndexOf (heap w')) [1%nat; 3%nat; 2%nat] = [5; 20; 30] /\
    exists ctx',
      Scene_render 2 (mkScene w' ∅) 0%nat None [] = Some ctx' /\
      drawOrder ctx' = [0%nat; 1%nat; 3%nat; 2%nat].
Proof.
  apply (proj1 (proj2 (proj2 (proj2 (proj2 (children_sorted_on_change world_z)))))
           ∅ 0%nat 1%nat 2%nat 3%nat group_of_three (rect_z 5) (rect_z 10) (rect_z 20));
    try reflexivity; discriminate.
Defined.

Lemma world_shared_heap :
  heap world_shared
  = <[1%nat := with_children [2%nat] group_B]>
    (<[2%nat := with_parent (Some 1%nat) (with_parent (Some 0%nat) rect_10)]>
    (<[0%nat := with_children [2%nat; 3%nat] group_A]>
    (<[3%nat := with_parent (Some 0%nat) rect_20]>
    (<[0%nat := with_children [2%nat] group_A]>
    (<[2%nat := with_parent (Some 0%nat) rect_10]> (heap world_fresh)))))).
Proof.
  unfold world_shared.
  assert (H1 : heap (add 0%nat 2%nat world_fresh)
               = <[0%nat := with_children [2%nat] group_A]>
                 (<[2%nat := with_parent (Some 0%nat) rect_10]> (heap world_fresh))).
  { rewrite (add_heap world_fresh 0%nat 2%nat group_A rect_10 eq_refl eq_refl)
      by discriminate.
    reflexivity. }
  assert (H2 : heap (add 0%nat 3%nat (add 0%nat 2%nat world_fresh))
               = <[0%nat := with_children [2%nat; 3%nat] group_A]>
                 (<[3%nat := with_parent (Some 0%nat) rect_20]>
                    (heap (add 0%nat 2%nat world_fresh)))).
  { rewrite (add_heap (add 0%nat 2%nat world_fresh) 0%nat 3%nat
               (with_children [2%nat] group_A) rect_20)
      by (first [rewrite H1; reflexivity | discriminate]).
    f_equal. unfold sortBy. cbn [children with_children app foldr insertBy].
    rewrite (zIndexOf_lookup _ 2%nat (with_parent (Some 0%nat) rect_10))
      by (rewrite H1; reflexivity).
    rewrite (zIndexOf_lookup _ 3%nat rect_20) by (rewrite H1; reflexivity).
    change (_zIndex (with_parent (Some 0%nat) rect_10)) with 10.
    change (_zIndex rect_20) with 20.
    rewrite (Rleb_true (10 - 20) 0) by lra. reflexivity. }
  rewrite (add_heap _ 1%nat 2%nat group_B (with_parent (Some 0%nat) rect_10))
    by (first [rewrite H2, H1; reflexivity | discriminate]).
  rewrite H2, H1. reflexivity.
Qed.

(** C4, as stated, fails: after [A.add(n); A.add(m); B.add(n)] and
    [n.setProps({zIndex: 30})], the child sequence of [A] is [n, m], with
    z-indices 30 and 20. *)
Lemma children_unsorted_counterexample :
  exists w',
    setProps 2%nat {[ "zIndex" := VNum 30 ]} world_shared = Some w' /\
    (children <$> heap w' !! 0%nat) = Some [2%nat; 3%nat] /\
    map (zIndexOf (heap w')) [2%nat; 3%nat] = [30; 20].
Proof.
  assert (H2 : heap world_shared !! 2%nat
               = Some (with_parent (Some 1%nat) (with_parent (Some 0%nat) rect_10)))
    by (rewrite world_shared_heap; reflexivity).
  eexists. split.
  - exact (setProps_followed world_shared 2%nat _ {[ "zIndex" := VNum 30 ]} H2
             eq_refl eq_refl).
  - destruct (storeProps_resorts world_shared 2%nat 1%nat
                (with_parent (Some 1%nat) (with_parent (Some 0%nat) rect_10))
                (with_children [2%nat] group_B) {[ "zIndex" := VNum 30 ]} 30 H2)
      as (o' & _ & Hz' & _ & Hh & Hzother);
      try (rewrite world_shared_heap; reflexivity); try reflexivity; try discriminate.
    + change (_zIndex _) with 10. lra.
    + split.
      * rewrite Hh at 1. rewrite !lookup_insert_ne by discriminate.
        rewrite world_shared_heap. reflexivity.
      * cbn [map]. rewrite (Hzother 3%nat) by discriminate.
        rewrite (zIndexOf_lookup _ 3%nat (with_parent (Some 0%nat) rect_20))
          by (rewrite world_shared_heap; reflexivity).
        unfold zIndexOf at 1. rewrite Hh at 1. rewrite lookup_insert_eq, Hz'.
        reflexivity.
Qed.

(** * Hit testing *)

Lemma hitTest_S (fuel : nat) (h : gmap ref NodeObj) (r : ref) (p : Point R) :
  hitTest (S fuel) h r p
  = (o ← h !! r;
     match kind o with
     | KContainer =>
       Container_hitTest (fun child => hitTest fuel h child p) fuel h r o p
     | _ => Node_hitTest fuel h r o p
     end).
Proof. reflexivity. Qed.

Lemma hitTest_container (fuel : nat) (h : gmap ref NodeObj) (c : ref) (o : NodeObj)
    (p : Point R) :
  h !! c = Some o -> kind o = KContainer ->
  hitTest (S fuel) h c p
  = Container_hitTest (fun child => hitTest fuel h child p) fuel h c o p.
Proof. intros Hc Hk. rewrite hitTest_S, Hc. cbn [mbind option_bind]. rewrite Hk. reflexivity. Qed.

(** The loop returns the answer of the last child that has one. *)
Lemma firstHit_rev (test : ref -> option (option ref)) (lo hi : list ref) (t n : ref) :
  (forall x, In x hi -> test x = Some None) ->
  test t = Some (Some n) ->
  firstHit test (rev (lo ++ t :: hi)) = Some (Some n).
Proof.
  intros Hhi Ht. rewrite rev_app_distr. cbn [rev]. rewrite <- app_assoc. cbn [app].
  assert (Hloop : forall l rest,
            (forall x, In x l -> test x = Some None) ->
            firstHit test (l ++ rest) = firstHit test rest).
  { induction l as [| y l IH]; intros rest Hl; cbn; [reflexivity |].
    rewrite (Hl y (or_introl eq_refl)). cbn. apply IH.
    intros x Hx. apply Hl. right. exact Hx. }
  rewrite Hloop by (intros x Hx; apply Hhi; apply in_rev; exact Hx).
  cbn. rewrite Ht. reflexivity.
Qed.

Lemma firstHit_none (test : ref -> option (option ref)) (l : list ref) :
  (forall x, In x l -> test x = Some None) -> firstHit test l = Some None.
Proof.
  induction l as [| y l IH]; intros Hl; cbn; [reflexivity |].
  rewrite (Hl y (or_introl eq_refl)). cbn. apply IH.
  intros x Hx. apply Hl. right. exact Hx.
Qed.

(** In a sorted child sequence the nodes met before [t], going backwards,
    have z-indices at least that of [t]. *)
Lemma childrenSorted_after (h : gmap ref NodeObj) (lo hi : list ref) (t : ref) :
  childrenSorted h (lo ++ t :: hi) ->
  forall x, In x hi -> zIndexOf h t <= zIndexOf h x.
Proof.
  unfold childrenSorted. intros Hs x Hx.
  apply Sorted_StronglySorted in Hs; [| intros u v z0 Huv Hvz; lra].
  induction lo as [| y lo IH]; cbn in Hs.
  - apply StronglySorted_inv in Hs as [_ Hall].
    rewrite List.Forall_forall in Hall. apply Hall. exact Hx.
  - apply StronglySorted_inv in Hs as [Hs _]. apply IH. exact Hs.
Qed.

Lemma hitTest_two_siblings (fuel : nat) (h : gmap ref NodeObj) (c : ref) (o : NodeObj)
    (p : Point R) (a b : ref) :
  h !! c = Some o -> kind o = KContainer ->
  clipRejects fuel h c o p = Some false ->
  Permutation (children o) [a; b] -> childrenSorted h (children o) ->
  zIndexOf h a = 1 -> zIndexOf h b = 2 ->
  hitTest fuel h a p = Some (Some a) -> hitTest fuel h b p = Some (Some b) ->
  hitTest (S fuel) h c p = Some (Some b).
Proof.
  intros Hc Hk Hclip Hperm Hsorted Hza Hzb Ha Hb.
  assert (Hch : children o = [a; b]).
  { apply Permutation_sym, Permutation_length_2_inv in Hperm as [Hch | Hch];
      [exact Hch |].
    exfalso. rewrite Hch in Hsorted. unfold childrenSorted in Hsorted.
    apply Sorted_inv in Hsorted as [_ Hhd]. apply HdRel_inv in Hhd. lra. }
  rewrite (hitTest_container fuel h c o p Hc Hk). unfold Container_hitTest.
  rewrite Hclip. cbn [mbind option_bind]. rewrite Hch.
  apply (firstHit_rev _ [a] [] b b); [intros x [] | exact Hb].
Qed.

Lemma add_zIndexOf (w : World) (c n : ref) :
  forall k, zIndexOf (heap (add c n w)) k = zIndexOf (heap w) k.
Proof.
  intros k. unfold add. cbv zeta.
  change (heap (requestRedraw c ?x)) with (heap x).
  rewrite sortChildren_zIndexOf.
  set (w1 := match heap w !! n with
             | Some no => store n (with_parent (Some c) no) w
             | None => w
             end).
  assert (H1 : zIndexOf (heap w1) k = zIndexOf (heap w) k).
  { subst w1. destruct (heap w !! n) as [no |] eqn:Hn; [| reflexivity].
    cbn. apply (zIndexOf_insert_same _ n no); [exact Hn | reflexivity]. }
  destruct (heap w1 !! c) as [co |] eqn:Hc; [| exact H1].
  cbn. rewrite (zIndexOf_insert_same _ c co _ Hc) by reflexivity. exact H1.
Qed.

(** Two nodes with z-indices 1 and 2 added to an empty container, in
    either order: the container lists the one with z-index 1 first. *)
Lemma add_two_children (w : World) (c a b : ref) (oc : NodeObj) :
  heap w !! c = Some oc -> children oc = [] ->
  zIndexOf (heap w) a = 1 -> zIndexOf (heap w) b = 2 ->
  forall w', w' = add c b (add c a w) \/ w' = add c a (add c b w) ->
  exists o', heap w' !! c = Some o' /\ kind o' = kind oc /\ children o' = [a; b].
Proof.
  intros Hc Hch Hza Hzb w' [-> | ->].
  - destruct (add_sorts w c a oc Hc) as (o1 & Ho1 & Hk1 & Hch1 & _ & _).
    rewrite Hch in Hch1. cbn in Hch1.
    destruct (add_sorts (add c a w) c b o1 Ho1) as (o2 & Ho2 & Hk2 & Hch2 & _ & _).
    exists o2. split; [exact Ho2 |]. split; [congruence |].
    rewrite Hch2, Hch1. unfold sortBy. cbn [app foldr insertBy].
    rewrite !add_zIndexOf, Hza, Hzb, (Rleb_true (1 - 2) 0) by lra. reflexivity.
  - destruct (add_sorts w c b oc Hc) as (o1 & Ho1 & Hk1 & Hch1 & _ & _).
    rewrite Hch in Hch1. cbn in Hch1.
    destruct (add_sorts (add c b w) c a o1 Ho1) as (o2 & Ho2 & Hk2 & Hch2 & _ & _).
    exists o2. split; [exact Ho2 |]. split; [congruence |].
    rewrite Hch2, Hch1. unfold sortBy. cbn [app foldr insertBy].
    rewrite !add_zIndexOf, Hza, Hzb, (Rleb_false (2 - 1) 0) by lra. reflexivity.
Qed.

(** C5: [Container.hitTest], once past its clip gate, goes through the
    children from the last of the sequence to the first and returns the
    first answer that is not null, which is the node the child's own
    [hitTest] found (so the deepest one, for a nested container); with
    the sequence sorted by z-index, as [add] and the z-index accessor
    leave it, that is descending z-index order.  For two overlapping
    siblings with z-indices 1 and 2, whichever was added first, and a
    point inside both, the answer is the node with z-index 2. *)
Theorem hitTest_topmost_first (fuel : nat) (p : Point R) :
  (forall (h : gmap ref NodeObj) c o,
     h !! c = Some o -> kind o = KContainer ->
     clipRejects fuel h c o p = Some false ->
     (forall lo t hi n,
        children o = lo ++ t :: hi ->
        (forall x, In x hi -> hitTest fuel h x p = Some None) ->
        hitTest fuel h t p = Some (Some n) ->
        hitTest (S fuel) h c p = Some (Some n)) /\
     ((forall x, In x (children o) -> hitTest fuel h x p = Some None) ->
      hitTest (S fuel) h c p = Some None) /\
     (childrenSorted h (children o) ->
      forall lo t hi, children o = lo ++ t :: hi ->
      forall x, In x hi -> zIndexOf h t <= zIndexOf h x) /\
     (forall a b,
        Permutation (children o) [a; b] -> childrenSorted h (children o) ->
        zIndexOf h a = 1 -> zIndexOf h b = 2 ->
        hitTest fuel h a p = Some (Some a) -> hitTest fuel h b p = Some (Some b) ->
        hitTest (S fuel) h c p = Some (Some b))) /\
  (forall w c a b oc w' o',
     heap w !! c = Some oc -> kind oc = KContainer -> children oc = [] ->
     zIndexOf (heap w) a = 1 -> zIndexOf (heap w) b = 2 ->
     w' = add c b (add c a w) \/ w' = add c a (add c b w) ->
     heap w' !! c = Some o' ->
     clipRejects fuel (heap w') c o' p = Some false ->
     hitTest fuel (heap w') a p = Some (Some a) ->
     hitTest fuel (heap w') b p = Some (Some b) ->
     hitTest (S fuel) (heap w') c p = Some (Some b)).
Proof.
  split.
  - intros h c o Hc Hk Hclip. split; [| split; [| split]].
    + intros lo t hi n Hch Hhi Ht.
      rewrite (hitTest_container fuel h c o p Hc Hk). unfold Container_hitTest.
      rewrite Hclip. cbn [mbind option_bind]. rewrite Hch.
      apply firstHit_rev; assumption.
    + intros Hnone.
      rewrite (hitTest_container fuel h c o p Hc Hk). unfold Container_hitTest.
      rewrite Hclip. cbn [mbind option_bind].
      apply firstHit_none. intros x Hx. apply Hnone. apply in_rev. exact Hx.
    + intros Hsorted lo t hi Hch. rewrite Hch in Hsorted.
      exact (childrenSorted_after h lo hi t Hsorted).
    + intros a b. apply hitTest_two_siblings; assumption.
  - intros w c a b oc w' o' Hc Hk Hch Hza Hzb Hw' Ho' Hclip Ha Hb.
    destruct (add_two_children w c a b oc Hc Hch Hza Hzb w' Hw')
      as (o2 & Ho2 & Hk2 & Hch2).
    assert (o' = o2) as -> by congruence.
    rewrite (hitTest_container fuel (heap w') c o2 p Ho2 ltac:(congruence)).
    unfold Container_hitTest. rewrite Hclip. cbn [mbind option_bind]. rewrite Hch2.
    apply (firstHit_rev _ [a] [] b b); [intros x [] | exact Hb].
Qed.

(** ** Leaves under a translation *)


Lemma pointOutside_false (q : Point R) (b : Rect) :
  inRect q b -> pointOutside q b = false.
Proof.
  unfold inRect, pointOutside. intros [[H1 H2] [H3 H4]].
  rewrite !Rltb_false by lra. reflexivity.
Qed.

Lemma invert_translation (tx ty : R) (p : Point R) :
  transformPoint (invert (translate identity tx ty)) p = mkPoint (px p - tx) (py p - ty).
Proof.
  rewrite translate_coefficients.
  rewrite invert_regular by (unfold det; cbn; lra).
  unfold transformPoint, det. destruct p as [x y]. cbn. f_equal; field; lra.
Qed.


Lemma getSelfBounds_leaf (fuel : nat) (h : gmap ref NodeObj) (r : ref) (o : NodeObj) :
  h !! r = Some o -> kind o <> KContainer ->
  getSelfBounds (S fuel) h r = Some (leaf_getSelfBounds o).
Proof.
  intros Hr Hk. cbn. rewrite Hr. cbn. destruct (kind o); congruence.
Qed.

(** [hitTest] on a leaf that the scene only translates. *)
Lemma hitTest_leaf_translated (fuel : nat) (h : gmap ref NodeObj) (r : ref) (o : NodeObj)
    (p : Point R) (tx ty : R) :
  h !! r = Some o -> kind o <> KContainer ->
  getGlobalTransform (S fuel) h r = Some (translate identity tx ty) ->
  0 <= rwidth (leaf_getSelfBounds o) -> 0 <= rheight (leaf_getSelfBounds o) ->
  inRect (mkPoint (px p - tx) (py p - ty)) (leaf_getSelfBounds o) ->
  isPointInShape o (px p - tx) (py p - ty) = true ->
  hitTest (S (S fuel)) h r p = Some (Some r).
Proof.
  intros Hr Hk Hg Hw Hh Hin Hshape.
  rewrite hitTest_S, Hr. cbn [mbind option_bind].
  assert (Hnode : match kind o with
                  | KContainer =>
                    Container_hitTest (fun child => hitTest (S fuel) h child p)
                      (S fuel) h r o p
                  | _ => Node_hitTest (S fuel) h r o p
                  end = Node_hitTest (S fuel) h r o p)
    by (destruct (kind o); congruence).
  rewrite Hnode. unfold Node_hitTest, getGlobalBounds.
  rewrite (getSelfBounds_leaf fuel h r o Hr Hk), Hg. cbn [mbind option_bind].
  rewrite (enclose_translation tx ty _ Hw Hh).
  rewrite pointOutside_false, andb_false_r.
  - cbn [mbind option_bind]. rewrite invert_translation. cbn [px py].
    rewrite Hshape. reflexivity.
  - unfold inRect in *. cbn in *. lra.
Qed.

Lemma isPointInShape_rect (o : NodeObj) (x y : R) :
  kind o = KRect ->
  0 <= x <= numOr (props o !! "width") 100 ->
  0 <= y <= numOr (props o !! "height") 100 ->
  isPointInShape o x y = true.
Proof.
  intros Hk [Hx1 Hx2] [Hy1 Hy2]. unfold isPointInShape. rewrite Hk.
  rewrite !Rleb_true by assumption. reflexivity.
Qed.

(** The global transform of an unrotated, unscaled child of an unrotated,
    unscaled root. *)
Lemma getGlobalTransform_translations (fuel : nat) (h : gmap ref NodeObj)
    (n p : ref) (o po : NodeObj) :
  h !! n = Some o -> parent o = Some p -> h !! p = Some po -> parent po = None ->
  _rotation o = 0 -> _scaleX o = 1 -> _scaleY o = 1 ->
  _rotation po = 0 -> _scaleX po = 1 -> _scaleY po = 1 ->
  getGlobalTransform (S fuel) h n
  = Some (translate identity (_x po + _x o) (_y po + _y o)).
Proof.
  intros Hn Hpar Hp Hroot Hr Hsx Hsy Hpr Hpsx Hpsy.
  rewrite (getGlobalTransform_child fuel h n p o (getTransform po) Hn Hpar
             (getGlobalTransform_root fuel h p po Hp Hroot)).
  rewrite (getTransform_translation o Hr Hsx Hsy),
    (getTransform_translation po Hpr Hpsx Hpsy), translate_translate.
  reflexivity.
Qed.

Lemma scene_overlap_hits (r : ref) (o : NodeObj) :
  scene_overlap !! r = Some o -> o = rect_below \/ o = rect_above ->
  hitTest 2 scene_overlap r (mkPoint 75 75) = Some (Some r).
Proof.
  intros Hr Ho.
  apply (hitTest_leaf_translated 0 scene_overlap r o (mkPoint 75 75)
           (_x group_of_two + _x o) (_y group_of_two + _y o) Hr).
  - destruct Ho as [-> | ->]; discriminate.
  - apply (getGlobalTransform_translations 0 scene_overlap r 0%nat o group_of_two Hr);
      destruct Ho as [-> | ->]; reflexivity.
  - destruct Ho as [-> | ->]; cbn; read_props; lra.
  - destruct Ho as [-> | ->]; cbn; read_props; lra.
  - destruct Ho as [-> | ->]; unfold inRect; cbn; read_props; lra.
  - apply isPointInShape_rect; destruct Ho as [-> | ->];
      first [reflexivity | cbn; read_props; lra].
Qed.

Lemma hitTest_topmost_first_witness :
  hitTest 3 scene_overlap 0%nat (mkPoint 75 75) = Some (Some 2%nat).
Proof.
  apply (proj2 (proj2 (proj2 (proj1 (hitTest_topmost_first 2 (mkPoint 75 75))
                                scene_overlap 0%nat group_of_two
                                eq_refl eq_refl eq_refl)))
           1%nat 2%nat).
  - reflexivity.
  - unfold childrenSorted. repeat constructor. cbn.
    rewrite (zIndexOf_lookup scene_overlap 1%nat rect_below eq_refl).
    rewrite (zIndexOf_lookup scene_overlap 2%nat rect_above eq_refl).
    cbn. read_props. lra.
  - reflexivity.
  - reflexivity.
  - apply (scene_overlap_hits 1%nat rect_below eq_refl). left. reflexivity.
  - apply (scene_overlap_hits 2%nat rect_above eq_refl). right. reflexivity.
Defined.

(** * C6: the clip gate *)




(** The child alone contains the point (65,65). *)
Lemma scene_clip_child_hit :
  hitTest 2 scene_clip 1%nat (mkPoint 65 65) = Some (Some 1%nat).
Proof.
  apply (hitTest_leaf_translated 0 scene_clip 1%nat rect_outside_clip (mkPoint 65 65)
           (_x group_clip + _x rect_outside_clip) (_y group_clip + _y rect_outside_clip)
           eq_refl).
  - discriminate.
  - apply (getGlobalTransform_translations 0 scene_clip 1%nat 0%nat rect_outside_clip
             group_clip); reflexivity.
  - cbn; read_props; lra.
  - cbn; read_props; lra.
  - unfold inRect; cbn; read_props; lra.
  - apply isPointInShape_rect; first [reflexivity | cbn; read_props; lra].
Qed.


(** * The Transformer's drag *)

Lemma atan2_0_pos (x : R) : 0 < x -> atan2 0 x = 0.
Proof.
  intros Hx. unfold atan2. rewrite (Rltb_true 0 x Hx).
  unfold Rdiv. rewrite Rmult_0_l. exact atan_0.
Qed.

(** A matrix without rotation, skew or mirroring decomposes to the
    rotation 0. *)
Lemma decompose_translation (x y : R) :
  d_rotation (decompose (translate identity x y)) = 0.
Proof.
  rewrite translate_coefficients. unfold decompose. cbn [ma mb mc md me mf].
  rewrite Ropp_0, (atan2_0_pos 1) by lra.
  rewrite Ropp_0, Rplus_0_l, Rabs_R0.
  rewrite (Rltb_true 0 0.00001) by lra. cbn [orb].
  rewrite (Rltb_false 1 0) by lra. reflexivity.
Qed.

Lemma set_scaleX_lookup (w : World) (r : ref) (o : NodeObj) (v : R) :
  heap w !! r = Some o ->
  exists o', heap (set_scaleX r v w) !! r = Some o' /\
             _scaleX o' = v /\ _scaleY o' = _scaleY o /\ _rotation o' = _rotation o.
Proof.
  intros Hr. unfold set_scaleX. rewrite Hr.
  destruct (Req_dec_T (_scaleX o) v) as [Heq | Hne].
  - rewrite (Reqb_true _ _ Heq). cbn. eauto.
  - rewrite (Reqb_false _ _ Hne). cbn. rewrite lookup_insert_eq. eauto.
Qed.

Lemma set_scaleY_lookup (w : World) (r : ref) (o : NodeObj) (v : R) :
  heap w !! r = Some o ->
  exists o', heap (set_scaleY r v w) !! r = Some o' /\
             _scaleY o' = v /\ _scaleX o' = _scaleX o /\ _rotation o' = _rotation o.
Proof.
  intros Hr. unfold set_scaleY. rewrite Hr.
  destruct (Req_dec_T (_scaleY o) v) as [Heq | Hne].
  - rewrite (Reqb_true _ _ Heq). cbn. eauto.
  - rewrite (Reqb_false _ _ Hne). cbn. rewrite lookup_insert_eq. eauto.
Qed.

Lemma set_rotation_lookup (w : World) (r : ref) (o : NodeObj) (v : R) :
  heap w !! r = Some o ->
  exists o', heap (set_rotation r v w) !! r = Some o' /\
             _rotation o' = v /\ _scaleX o' = _scaleX o /\ _scaleY o' = _scaleY o.
Proof.
  intros Hr. unfold set_rotation. rewrite Hr.
  destruct (Req_dec_T (_rotation o) v) as [Heq | Hne].
  - rewrite (Reqb_true _ _ Heq). cbn. eauto.
  - rewrite (Reqb_false _ _ Hne). cbn. rewrite lookup_insert_eq. eauto.
Qed.

Lemma handleDragMove_bottom_right (fuel : nat) (t : Transformer) (e : InteractionEvent)
    (w : World) (tg : ref) (o : NodeObj) (g : Matrix2D R) (b : Rect) :
  target t = Some tg -> activeAnchor t = Some "bottom-right" ->
  heap w !! tg = Some o ->
  getGlobalTransform fuel (heap w) tg = Some g ->
  getSelfBounds fuel (heap w) tg = Some b ->
  exists w' o',
    handleDragMove fuel t e w = Some w' /\ heap w' !! tg = Some o' /\
    (0 < rwidth b ->
     _scaleX o'
     = Rmax 0.1 ((rwidth b * startScaleX t + projectedDx t e (d_rotation (decompose g)))
                 / rwidth b)) /\
    (rwidth b <= 0 -> _scaleX o' = _scaleX o) /\
    (0 < rheight b ->
     _scaleY o'
     = Rmax 0.1 ((rheight b * startScaleY t + projectedDy t e (d_rotation (decompose g)))
                 / rheight b)) /\
    (rheight b <= 0 -> _scaleY o' = _scaleY o).
Proof.
  intros Ht Ha Ho Hg Hb.
  unfold handleDragMove. rewrite Ht, Ha. cbn [noAnchor String.eqb Ascii.eqb Bool.eqb].
  destruct (decide (Some "bottom-right" = Some "bottom-right")) as [_ | Hne];
    [| congruence].
  rewrite Hg, Hb. cbn [mbind option_bind]. cbv zeta.
  fold (projectedDx t e (d_rotation (decompose g))).
  fold (projectedDy t e (d_rotation (decompose g))).
  set (vx := Rmax 0.1 ((rwidth b * startScaleX t
                        + projectedDx t e (d_rotation (decompose g))) / rwidth b)).
  set (vy := Rmax 0.1 ((rheight b * startScaleY t
                        + projectedDy t e (d_rotation (decompose g))) / rheight b)).
  set (w1 := if Rltb 0 (rwidth b) then set_scaleX tg vx w else w).
  assert (H1 : exists o1, heap w1 !! tg = Some o1 /\
                          (0 < rwidth b -> _scaleX o1 = vx) /\
                          (rwidth b <= 0 -> _scaleX o1 = _scaleX o) /\
                          _scaleY o1 = _scaleY o).
  { subst w1. destruct (Rltb 0 (rwidth b)) eqn:Ew.
    - apply Rltb_lt in Ew.
      destruct (set_scaleX_lookup w tg o vx Ho) as (o1 & Ho1 & Hsx1 & Hsy1 & _).
      exists o1. split; [exact Ho1 |]. split; [intros _; exact Hsx1 |].
      split; [intros; lra | exact Hsy1].
    - apply Rltb_ge in Ew. exists o. split; [exact Ho |]. split; [intros; lra |].
      split; reflexivity. }
  destruct H1 as (o1 & Ho1 & Hx1 & Hx1' & Hsy1).
  destruct (Rltb 0 (rheight b)) eqn:Eh.
  - apply Rltb_lt in Eh.
    destruct (set_scaleY_lookup w1 tg o1 vy Ho1) as (o2 & Ho2 & Hsy2 & Hsx2 & _).
    eexists _, o2. split; [reflexivity |]. split; [exact Ho2 |].
    rewrite Hsx2. split; [exact Hx1 |]. split; [exact Hx1' |].
    split; [intros _; exact Hsy2 | intros; lra].
  - apply Rltb_ge in Eh. eexists _, o1. split; [reflexivity |]. split; [exact Ho1 |].
    split; [exact Hx1 |]. split; [exact Hx1' |].
    split; [intros; lra | intros _; exact Hsy1].
Qed.

Lemma handleDragMove_other_anchor (fuel : nat) (t : Transformer) (e : InteractionEvent)
    (w : World) (a : string) :
  activeAnchor t = Some a -> a <> "bottom-right" -> a <> "rotator" ->
  handleDragMove fuel t e w = Some w.
Proof.
  intros Ha Hbr Hrot. unfold handleDragMove. destruct (target t) as [tg |]; [| reflexivity].
  rewrite Ha. destruct (noAnchor (Some a)); [reflexivity |].
  destruct (decide (Some a = Some "bottom-right")) as [Heq | _]; [congruence |].
  destruct (decide (Some a = Some "rotator")) as [Heq | _]; [congruence |].
  reflexivity.
Qed.

(** C8, as stated, fails for the corner anchor "top-left": the drag from
    (100,100) to (90,90) leaves the target's scale at 1. *)
Lemma dragMove_top_left_counterexample :
  handleDragMove 1
    (handleDragStart (transformer_on "top-left") (mkEvent 100 100) world_target)
    (mkEvent 90 90) world_target
  = Some world_target /\
  (_scaleX <$> heap world_target !! 0%nat) = Some 1 /\
  (_scaleY <$> heap world_target !! 0%nat) = Some 1.
Proof.
  split; [| split; reflexivity].
  apply (handleDragMove_other_anchor _ _ _ _ "top-left"); [reflexivity | |]; discriminate.
Qed.

(** A target turned by a quarter: the same drag shrinks it along its own
    y axis. *)
Lemma getTransform_quarter_turn :
  getTransform rect_quarter_turn = mkMatrix 0 1 (-1) 0 100 100.
Proof.
  apply matrix_eq; unfold getTransform, multiply, translate, scale, rotate, identity;
    cbn; read_props; rewrite ?cos_PI2, ?sin_PI2; ring.
Qed.

Lemma decompose_quarter_turn :
  d_rotation (decompose (mkMatrix 0 1 (-1) 0 100 100)) = PI / 2.
Proof.
  pose proof PI_RGT_0 as Hpi.
  assert (Hatan : atan2 1 0 = PI / 2).
  { unfold atan2. rewrite (Rltb_false 0 0), (Rltb_true 0 1) by lra. reflexivity. }
  unfold decompose. cbn [ma mb mc md me mf]. cbv zeta.
  replace (- -1) with 1 by lra. rewrite Hatan.
  replace (- (PI / 2) + PI / 2) with 0 by lra. rewrite Rabs_R0.
  rewrite (Rltb_true 0 0.00001) by lra. cbn [orb].
  rewrite (Rltb_false 0 0) by lra. reflexivity.
Qed.

Lemma dragMove_quarter_turn :
  exists w' o',
    handleDragMove 1
      (handleDragStart (transformer_on "bottom-right") (mkEvent 200 200)
         world_quarter_turn)
      (mkEvent 210 210) world_quarter_turn = Some w' /\
    heap w' !! 0%nat = Some o' /\ _scaleX o' = 1.1 /\ _scaleY o' = 0.9.
Proof.
  destruct (handleDragMove_bottom_right 1
              (handleDragStart (transformer_on "bottom-right") (mkEvent 200 200)
                 world_quarter_turn)
              (mkEvent 210 210) world_quarter_turn 0%nat rect_quarter_turn
              (mkMatrix 0 1 (-1) 0 100 100) (mkRect 0 0 100 100)
              eq_refl eq_refl eq_refl)
    as (w' & o' & Hmove & Ho' & Hsx & _ & Hsy & _).
  - rewrite (getGlobalTransform_root 1 (heap world_quarter_turn) 0%nat rect_quarter_turn
               eq_refl eq_refl).
    rewrite getTransform_quarter_turn. reflexivity.
  - reflexivity.
  - exists w', o'. split; [exact Hmove |]. split; [exact Ho' |].
    rewrite Hsx, Hsy by (cbn; lra).
    rewrite decompose_quarter_turn. unfold projectedDx, projectedDy.
    replace (handleDragStart (transformer_on "bottom-right") (mkEvent 200 200)
               world_quarter_turn)
      with (mkTransformer (Some 0%nat) (Some "bottom-right") 200 200
              (numOr (props rect_quarter_turn !! "width") 0) 0
              (_scaleX rect_quarter_turn) (_scaleY rect_quarter_turn)
              (_rotation rect_quarter_turn) (_x rect_quarter_turn)
              (_y rect_quarter_turn)) by reflexivity.
    cbn [startX startY startScaleX startScaleY globalX globalY rwidth rheight].
    assert (Hsx0 : _scaleX rect_quarter_turn = 1)
      by (unfold rect_quarter_turn, construct; cbn; read_props; reflexivity).
    assert (Hsy0 : _scaleY rect_quarter_turn = 1)
      by (unfold rect_quarter_turn, construct; cbn; read_props; reflexivity).
    rewrite Hsx0, Hsy0, cos_neg, sin_neg, cos_PI2, sin_PI2.
    split; unfold Rmax; destruct (Rle_dec _ _); lra.
Qed.

(** C8 (amended): during a Transformer drag on the "bottom-right" anchor,
    each dragMove rotates the pointer's delta since drag start by the
    negative of the rotation the target's global transform decomposes
    to, and sets the target's scale on each axis whose self-bounds
    dimension is positive to (selfBoundsDimension x startScale +
    projectedDelta) / selfBoundsDimension, clamped to a minimum of 0.1
    (an axis whose dimension is not positive keeps its scale); on the
    other corner and edge anchors dragMove leaves the target as it is.
    For an unrotated target with 100 by 100 self-bounds at scale 1,
    dragging "bottom-right" from (200,200) to (210,210) gives scaleX =
    scaleY = 1.1. *)
Theorem dragMove_resize (fuel : nat) (t : Transformer) (e : InteractionEvent)
    (w : World) (tg : ref) (o : NodeObj) (g : Matrix2D R) (b : Rect) :
  target t = Some tg -> heap w !! tg = Some o ->
  getGlobalTransform fuel (heap w) tg = Some g ->
  getSelfBounds fuel (heap w) tg = Some b ->
  (activeAnchor t = Some "bottom-right" ->
   exists w' o',
     handleDragMove fuel t e w = Some w' /\ heap w' !! tg = Some o' /\
     (0 < rwidth b ->
      _scaleX o'
      = Rmax 0.1 ((rwidth b * startScaleX t + projectedDx t e (d_rotation (decompose g)))
                  / rwidth b)) /\
     (rwidth b <= 0 -> _scaleX o' = _scaleX o) /\
     (0 < rheight b ->
      _scaleY o'
      = Rmax 0.1 ((rheight b * startScaleY t + projectedDy t e (d_rotation (decompose g)))
                  / rheight b)) /\
     (rheight b <= 0 -> _scaleY o' = _scaleY o)) /\
  (forall a, activeAnchor t = Some a -> a <> "bottom-right" -> a <> "rotator" ->
     handleDragMove fuel t e w = Some w) /\
  (activeAnchor t = Some "bottom-right" ->
   rwidth b = 100 -> rheight b = 100 -> _scaleX o = 1 -> _scaleY o = 1 ->
   d_rotation (decompose g) = 0 ->
   exists w' o',
     handleDragMove fuel (handleDragStart t (mkEvent 200 200) w) (mkEvent 210 210) w
       = Some w' /\
     heap w' !! tg = Some o' /\ _scaleX o' = 1.1 /\ _scaleY o' = 1.1).
Proof.
  intros Ht Ho Hg Hb. split; [| split].
  - intros Ha. exact (handleDragMove_bottom_right fuel t e w tg o g b Ht Ha Ho Hg Hb).
  - intros a Ha Hbr Hrot. exact (handleDragMove_other_anchor fuel t e w a Ha Hbr Hrot).
  - intros Ha Hw Hh Hsx Hsy Hrot.
    set (t1 := handleDragStart t (mkEvent 200 200) w).
    assert (Ht1 : t1 = mkTransformer (Some tg) (Some "bottom-right") 200 200
                         (numOr (props o !! "width") 0) (startHeight t)
                         (_scaleX o) (_scaleY o) (_rotation o) (_x o) (_y o)).
    { subst t1. unfold handleDragStart. rewrite Ht, Ha. cbn. rewrite Ho. reflexivity. }
    destruct (handleDragMove_bottom_right fuel t1 (mkEvent 210 210) w tg o g b)
      as (w' & o' & Hmove & Ho' & Hsx' & _ & Hsy' & _);
      try (rewrite Ht1; reflexivity); try assumption.
    exists w', o'. split; [exact Hmove |]. split; [exact Ho' |].
    rewrite Hsx', Hsy' by lra. rewrite Hrot, Hw, Hh, Ht1. unfold projectedDx, projectedDy.
    cbn [startX startY startScaleX startScaleY globalX globalY].
    rewrite Hsx, Hsy, Ropp_0, cos_0, sin_0.
    split; unfold Rmax; destruct (Rle_dec _ _); lra.
Qed.

Lemma world_target_transform :
  getGlobalTransform 1 (heap world_target) 0%nat = Some (translate identity 100 100).
Proof.
  rewrite (getGlobalTransform_root 1 (heap world_target) 0%nat rect_target eq_refl eq_refl).
  rewrite (getTransform_translation rect_target eq_refl eq_refl eq_refl). reflexivity.
Qed.

Lemma dragMove_resize_witness :
  exists w' o',
    handleDragMove 1
      (handleDragStart (transformer_on "bottom-right") (mkEvent 200 200) world_target)
      (mkEvent 210 210) world_target = Some w' /\
    heap w' !! 0%nat = Some o' /\ _scaleX o' = 1.1 /\ _scaleY o' = 1.1.
Proof.
  apply (proj2 (proj2 (dragMove_resize 1 (transformer_on "bottom-right") (mkEvent 0 0)
                         world_target 0%nat rect_target (translate identity 100 100)
                         (mkRect 0 0 100 100) eq_refl eq_refl world_target_transform
                         eq_refl)));
    try reflexivity.
  apply decompose_translation.
Defined.

(** * C9: the rotate anchor *)

Lemma handleDragMove_rotator (fuel : nat) (t : Transformer) (e : InteractionEvent)
    (w : World) (tg : ref) (o : NodeObj) (b : Rect) :
  target t = Some tg -> activeAnchor t = Some "rotator" ->
  heap w !! tg = Some o ->
  getGlobalBounds fuel (heap w) tg = Some b ->
  exists w' o',
    handleDragMove fuel t e w = Some w' /\ heap w' !! tg = Some o' /\
    _rotation o'
    = atan2 (globalY e - (ry b + rheight b / 2)) (globalX e - (rx b + rwidth b / 2))
      + PI / 2.
Proof.
  intros Ht Ha Ho Hb.
  unfold handleDragMove. rewrite Ht, Ha. cbn [noAnchor String.eqb Ascii.eqb Bool.eqb].
  destruct (decide (Some "rotator" = Some "bottom-right")) as [Heq | _];
    [discriminate Heq |].
  destruct (decide (Some "rotator" = Some "rotator")) as [_ | Hne]; [| congruence].
  rewrite Hb. cbn [mbind option_bind]. cbv zeta.
  destruct (set_rotation_lookup w tg o
              (atan2 (globalY e - (ry b + rheight b / 2))
                     (globalX e - (rx b + rwidth b / 2)) + PI / 2) Ho)
    as (o' & Ho' & Hrot & _ & _).
  eexists _, o'. split; [reflexivity |]. split; [exact Ho' | exact Hrot].
Qed.

(** C9: during a Transformer drag on the rotate anchor, each dragMove
    sets the target's rotation to atan2 of the vector from the center of
    the target's global bounds to the pointer, plus PI/2, whatever the
    rotation was at the start of the drag or before the move; with the
    center at (150,150), dragging to (230,150) sets the rotation to
    PI/2. *)
Theorem dragMove_rotate (fuel : nat) (t : Transformer) (e : InteractionEvent)
    (w : World) (tg : ref) (o : NodeObj) (b : Rect) :
  target t = Some tg -> activeAnchor t = Some "rotator" ->
  heap w !! tg = Some o ->
  getGlobalBounds fuel (heap w) tg = Some b ->
  (exists w' o',
     handleDragMove fuel t e w = Some w' /\ heap w' !! tg = Some o' /\
     _rotation o'
     = atan2 (globalY e - (ry b + rheight b / 2)) (globalX e - (rx b + rwidth b / 2))
       + PI / 2) /\
  (rx b + rwidth b / 2 = 150 -> ry b + rheight b / 2 = 150 ->
   globalX e = 230 -> globalY e = 150 ->
   exists w' o',
     handleDragMove fuel t e w = Some w' /\ heap w' !! tg = Some o' /\
     _rotation o' = PI / 2).
Proof.
  intros Ht Ha Ho Hb.
  destruct (handleDragMove_rotator fuel t e w tg o b Ht Ha Ho Hb)
    as (w' & o' & Hmove & Ho' & Hrot).
  split; [eauto |].
  intros Hcx Hcy Hx Hy. exists w', o'. split; [exact Hmove |]. split; [exact Ho' |].
  rewrite Hrot, Hcx, Hcy, Hx, Hy.
  replace (150 - 150) with 0 by lra. rewrite atan2_0_pos by lra. lra.
Qed.

Lemma world_target_bounds :
  getGlobalBounds 1 (heap world_target) 0%nat = Some (mkRect 100 100 100 100).
Proof.
  unfold getGlobalBounds.
  rewrite (getSelfBounds_leaf 0 (heap world_target) 0%nat rect_target eq_refl)
    by discriminate.
  rewrite world_target_transform. cbn [mbind option_bind].
  rewrite enclose_translation by (cbn; read_props; lra).
  cbn. read_props. do 2 f_equal; lra.
Qed.

Lemma dragMove_rotate_witness :
  exists w' o',
    handleDragMove 1
      (handleDragStart (transformer_on "rotator") (mkEvent 150 70) world_target)
      (mkEvent 230 150) world_target = Some w' /\
    heap w' !! 0%nat = Some o' /\ _rotation o' = PI / 2.
Proof.
  apply (proj2 (dragMove_rotate 1
                  (handleDragStart (transformer_on "rotator") (mkEvent 150 70) world_target)
                  (mkEvent 230 150) world_target 0%nat rect_target
                  (mkRect 100 100 100 100) eq_refl eq_refl eq_refl world_target_bounds));
    cbn; lra.
Defined.

(** * Matrix2D: how the operations compose *)


(** X1: in exact arithmetic, applying the product of two matrices to a
    point is applying the right factor and then the left one; [multiply]
    is associative, and the identity matrix is neutral on both sides. *)
Theorem multiply_composes (A B C : Matrix2D R) (p : Point R) :
  transformPoint (multiply A B) p = transformPoint A (transformPoint B p) /\
  multiply (multiply A B) C = multiply A (multiply B C) /\
  multiply identity A = A /\ multiply A identity = A.
Proof.
  split; [| split; [| split]].
  - destruct p as [x y]. unfold transformPoint, multiply. cbn. f_equal; ring.
  - apply multiply_assoc.
  - apply multiply_identity_l.
  - apply multiply_identity_r.
Qed.

Lemma det_multiply (A B : Matrix2D R) : det (multiply A B) = det A * det B.
Proof. unfold det, multiply. cbn. ring. Qed.

Lemma multiply_invert (M : Matrix2D R) :
  det M <> 0 -> multiply M (invert M) = identity.
Proof.
  intros Hdet. rewrite (invert_regular M Hdet).
  unfold det in *. destruct M as [a b c d e f]. cbn in *.
  unfold multiply, identity. cbn. f_equal; field; exact Hdet.
Qed.

Lemma det_invert (M : Matrix2D R) : det M <> 0 -> det (invert M) = / det M.
Proof.
  intros Hdet. rewrite (invert_regular M Hdet).
  unfold det in *. destruct M as [a b c d e f]. cbn in *. field. exact Hdet.
Qed.

(** X2: in exact arithmetic, for matrices whose determinant is not zero,
    the determinant of a product is the product of the determinants, the
    inverse of a product is the product of the inverses in the reverse
    order, a matrix times its inverse is the identity, and inverting
    twice gives the matrix back.  (In binary64 these hold up to rounding
    only.) *)
Theorem invert_product (A B : Matrix2D R) :
  det A <> 0 -> det B <> 0 ->
  det (multiply A B) = det A * det B /\
  invert (multiply A B) = multiply (invert B) (invert A) /\
  multiply A (invert A) = identity /\
  invert (invert A) = A.
Proof.
  intros HA HB.
  assert (HAB : det (multiply A B) <> 0).
  { rewrite det_multiply. apply Rmult_integral_contrapositive_currified; assumption. }
  split; [apply det_multiply |]. split; [| split].
  - rewrite (invert_regular _ HAB), (invert_regular A HA), (invert_regular B HB).
    rewrite det_multiply.
    unfold det in *. destruct A as [a b c d e f]. destruct B as [a' b' c' d' e' f'].
    cbn in *. unfold multiply. cbn. f_equal; field; split; assumption.
  - apply multiply_invert. exact HA.
  - assert (HI : det (invert A) <> 0).
    { rewrite det_invert by exact HA. apply Rinv_neq_0_compat. exact HA. }
    rewrite (invert_regular _ HI). rewrite det_invert by exact HA.
    rewrite (invert_regular A HA).
    unfold det in *. destruct A as [a b c d e f]. cbn in *.
    f_equal; field; exact HA.
Qed.

Lemma invert_product_witness :
  invert (multiply M_sample M_sample) = multiply (invert M_sample) (invert M_sample).
Proof.
  assert (H : det M_sample <> 0) by (unfold det, M_sample; cbn; lra).
  exact (proj1 (proj2 (invert_product M_sample M_sample H H))).
Defined.


(** X3: in exact arithmetic, [translate], [scale] and [rotate] compose:
    two translations add their offsets, two scalings multiply their
    factors, two rotations add their angles and a rotation by 0 changes
    nothing; [translate] and [rotate] keep the determinant, and [scale]
    by (x, y) multiplies it by x * y.  (In binary64 these hold up to
    rounding only.) *)
Theorem builders_compose (M : Matrix2D R) (x1 y1 x2 y2 a b : R) :
  translate (translate M x1 y1) x2 y2 = translate M (x1 + x2) (y1 + y2) /\
  scale (scale M x1 y1) x2 y2 = scale M (x1 * x2) (y1 * y2) /\
  rotate (rotate M a) b = rotate M (a + b) /\
  rotate M 0 = M /\
  det (translate M x1 y1) = det M /\
  det (rotate M a) = det M /\
  det (scale M x1 y1) = det M * (x1 * y1).
Proof.
  repeat split.
  - matrix_ring.
  - matrix_ring.
  - apply matrix_eq; unfold multiply, rotate; cbn; rewrite ?cos_plus, ?sin_plus; ring.
  - destruct M. matrix_ring.
  - unfold translate. rewrite det_multiply. unfold det at 2. cbn. ring.
  - unfold rotate. cbv zeta. rewrite det_multiply. unfold det at 2. cbn.
    pose proof (sin2_cos2 a) as Hsc. unfold Rsqr in Hsc.
    replace (cos a * cos a - sin a * - sin a) with (sin a * sin a + cos a * cos a) by ring.
    rewrite Hsc. ring.
  - unfold scale. rewrite det_multiply. unfold det at 2. cbn. ring.
Qed.

Lemma getTransform_coefficients (o : NodeObj) :
  getTransform o
  = mkMatrix (cos (_rotation o) * _scaleX o) (sin (_rotation o) * _scaleX o)
             (- sin (_rotation o) * _scaleY o) (cos (_rotation o) * _scaleY o)
             (_x o) (_y o).
Proof.
  apply matrix_eq; unfold getTransform, multiply, translate, scale, rotate, identity;
    cbn; ring.
Qed.

Lemma det_getTransform (o : NodeObj) : det (getTransform o) = _scaleX o * _scaleY o.
Proof.
  rewrite getTransform_coefficients. unfold det. cbn.
  pose proof (sin2_cos2 (_rotation o)) as Hsc. unfold Rsqr in Hsc.
  replace (cos (_rotation o) * _scaleX o * (cos (_rotation o) * _scaleY o) -
           sin (_rotation o) * _scaleX o * (- sin (_rotation o) * _scaleY o))
    with ((sin (_rotation o) * sin (_rotation o) + cos (_rotation o) * cos (_rotation o))
          * (_scaleX o * _scaleY o)) by ring.
  rewrite Hsc. ring.
Qed.

Lemma det_composeUp (l : list NodeObj) (matrix : Matrix2D R) :
  det (composeUp l matrix)
  = det matrix * fold_right Rmult 1 (map (fun po => _scaleX po * _scaleY po) l).
Proof.
  revert matrix. induction l as [| po l IH]; intros matrix.
  - cbn. ring.
  - change (composeUp (po :: l) matrix)
      with (composeUp l (multiply (getTransform po) matrix)).
    rewrite IH, det_multiply, det_getTransform. cbn. ring.
Qed.

Lemma product_nonzero (l : list R) :
  fold_right Rmult 1 l <> 0 <-> Forall (fun x => x <> 0) l.
Proof.
  induction l as [| x l IH]; cbn.
  - split; [constructor | lra].
  - split.
    + intros Hp. constructor.
      * intros ->. apply Hp. ring.
      * apply IH. intros Hz. apply Hp. rewrite Hz. ring.
    + intros Hall. inversion Hall as [| ? ? Hx Hl]; subst.
      apply Rmult_integral_contrapositive_currified; [exact Hx | apply IH, Hl].
Qed.

(** X5: in exact arithmetic, the determinant of a node's global
    transform is the product of scaleX * scaleY over the node and its
    ancestors; it is not zero (the transform can be inverted) exactly
    when no node of that chain has a zero scale.  (In binary64 the
    determinant is that product up to rounding only, and it can
    underflow to 0 though no scale is 0.) *)
Theorem global_transform_regular (h : gmap ref NodeObj) (n : ref) (o : NodeObj)
    (l : list NodeObj) (fuel : nat) :
  h !! n = Some o -> ancestry h (parent o) l -> (length l <= fuel)%nat ->
  exists g,
    getGlobalTransform fuel h n = Some g /\
    det g = fold_right Rmult 1 (map (fun po => _scaleX po * _scaleY po) (o :: l)) /\
    (det g <> 0 <->
     Forall (fun po => _scaleX po <> 0 /\ _scaleY po <> 0) (o :: l)).
Proof.
  intros Hn Hanc Hfuel.
  exists (composeUp l (getTransform o)).
  assert (Hdet : det (composeUp l (getTransform o))
                 = fold_right Rmult 1
                     (map (fun po => _scaleX po * _scaleY po) (o :: l))).
  { rewrite det_composeUp, det_getTransform. cbn. ring. }
  split; [| split].
  - unfold getGlobalTransform. rewrite Hn. cbn.
    apply getGlobalTransform_loop_ancestry; assumption.
  - exact Hdet.
  - rewrite Hdet, product_nonzero, Forall_map.
    apply Forall_iff. intros po. cbn. split.
    + intros Hp. split; intros Hz; apply Hp; rewrite Hz; ring.
    + intros [Hx Hy]. apply Rmult_integral_contrapositive_currified; assumption.
Qed.

Lemma global_transform_regular_witness :
  exists g, getGlobalTransform 1 scene_nested 1%nat = Some g /\ det g <> 0.
Proof.
  destruct (global_transform_regular scene_nested 1%nat rect_at_5 [group_at_10] 1
              eq_refl
              (ancestry_step scene_nested 0%nat group_at_10 [] eq_refl
                 (ancestry_root scene_nested))
              (le_n 1))
    as (g & Hg & _ & Hreg).
  exists g. split; [exact Hg |]. apply Hreg.
  repeat constructor; change (1 <> 0); lra.
Defined.


(** * decompose reads getTransform back *)

(** The sign of the cosine tells the quadrant. *)
Lemma cos_pos_range (t : R) : - PI < t <= PI -> 0 < cos t -> - PI / 2 < t < PI / 2.
Proof.
  intros [Hlo Hhi] Hc. pose proof PI_RGT_0 as Hpi. split.
  - destruct (Rlt_dec (- PI / 2) t) as [Hlt | Hge]; [exact Hlt | exfalso].
    assert (H : cos (- t) <= 0) by (apply cos_le_0; lra).
    rewrite cos_neg in H. lra.
  - destruct (Rlt_dec t (PI / 2)) as [Hlt | Hge]; [exact Hlt | exfalso].
    assert (H : cos t <= 0) by (apply cos_le_0; lra). lra.
Qed.

Lemma cos_neg_range (t : R) :
  - PI < t <= PI -> cos t < 0 -> (PI / 2 < t <= PI) \/ (- PI < t < - PI / 2).
Proof.
  intros [Hlo Hhi] Hc. pose proof PI_RGT_0 as Hpi.
  destruct (Rlt_dec (PI / 2) t) as [Hlt | Hge]; [left; lra |].
  destruct (Rlt_dec t (- PI / 2)) as [Hlt' | Hge']; [right; lra | exfalso].
  assert (H : 0 <= cos t) by (apply cos_ge_0; lra). lra.
Qed.

Lemma cos_zero_range (t : R) : - PI < t <= PI -> cos t = 0 -> t = PI / 2 \/ t = - PI / 2.
Proof.
  intros [Hlo Hhi] Hc. pose proof PI_RGT_0 as Hpi.
  destruct (Rtotal_order t (PI / 2)) as [Hlt | [Heq | Hgt]]; [| left; exact Heq |].
  - destruct (Rtotal_order t (- PI / 2)) as [Hlt' | [Heq' | Hgt']];
      [| right; exact Heq' |]; exfalso.
    + assert (H : cos (- t) < 0) by (apply cos_lt_0; lra). rewrite cos_neg in H. lra.
    + assert (H : 0 < cos t) by (apply cos_gt_0; lra). lra.
  - exfalso. assert (H : cos t < 0) by (apply cos_lt_0; lra). lra.
Qed.

Lemma atan_shift (t : R) : - PI / 2 < t < PI / 2 -> atan (tan t) = t.
Proof. intros Ht. apply atan_tan. lra. Qed.

(** [Math.atan2] reads the angle of a vector back. *)
Lemma atan2_polar (r t : R) :
  0 < r -> - PI < t <= PI -> atan2 (r * sin t) (r * cos t) = t.
Proof.
  intros Hr Ht. pose proof PI_RGT_0 as Hpi. unfold atan2.
  destruct (Rtotal_order (cos t) 0) as [Hneg | [Hzero | Hpos]].
  - assert (Hx : r * cos t < 0) by nra.
    rewrite (Rltb_false 0 (r * cos t)), (Rltb_true (r * cos t) 0) by lra.
    assert (Hq : r * sin t / (r * cos t) = tan t) by (unfold tan; field; lra).
    rewrite Hq.
    destruct (cos_neg_range t Ht Hneg) as [Hup | Hdown].
    + assert (Hs : 0 <= sin t) by (apply sin_ge_0; lra).
      rewrite (Rleb_true 0 (r * sin t)) by nra.
      assert (Htan : tan t = tan (t - PI)).
      { unfold tan. replace (t - PI) with (- (PI - t)) by ring.
        rewrite sin_neg, cos_neg.
        replace (PI - t) with (- t + PI) by ring.
        rewrite neg_sin, neg_cos, sin_neg, cos_neg. field. lra. }
      rewrite Htan, atan_shift by lra. ring.
    + assert (Hs : sin t < 0) by (apply sin_lt_0_var; lra).
      rewrite (Rleb_false 0 (r * sin t)) by nra.
      assert (Htan : tan t = tan (t + PI)).
      { unfold tan. rewrite neg_sin, neg_cos. field. lra. }
      rewrite Htan, atan_shift by lra. ring.
  - rewrite Hzero, Rmult_0_r. rewrite (Rltb_false 0 0) by lra.
    destruct (cos_zero_range t Ht Hzero) as [-> | ->].
    + rewrite sin_PI2, Rmult_1_r, (Rltb_true 0 r) by lra. reflexivity.
    + replace (- PI / 2) with (- (PI / 2)) by lra.
      assert (Hs : sin (- (PI / 2)) = -1) by (rewrite sin_neg, sin_PI2; lra).
      rewrite Hs, (Rltb_false 0 (r * -1)), (Rltb_true (r * -1) 0) by lra. lra.
  - assert (Hx : 0 < r * cos t) by nra.
    rewrite (Rltb_true 0 (r * cos t)) by lra.
    assert (Hq : r * sin t / (r * cos t) = tan t) by (unfold tan; field; lra).
    rewrite Hq. apply atan_shift. apply cos_pos_range; assumption.
Qed.

(** [decompose] undoes [getTransform] for a node with positive scales and a
    rotation in (-PI, PI]. *)
Lemma decompose_getTransform (o : NodeObj) :
  0 < _scaleX o -> 0 < _scaleY o -> - PI < _rotation o <= PI ->
  decompose (getTransform o)
  = mkDecomposed (_x o) (_y o) (_scaleX o) (_scaleY o) (_rotation o)
      (- _rotation o) (_rotation o).
Proof.
  intros Hsx Hsy Hrot. pose proof PI_RGT_0 as Hpi.
  set (t := _rotation o) in *. set (sx := _scaleX o) in *. set (sy := _scaleY o) in *.
  rewrite getTransform_coefficients. fold t sx sy.
  unfold decompose. cbn [ma mb mc md me mf]. cbv zeta.
  assert (HskewY : atan2 (sin t * sx) (cos t * sx) = t).
  { rewrite (Rmult_comm (sin t)), (Rmult_comm (cos t)). apply atan2_polar; assumption. }
  assert (HskewX : atan2 (- (- sin t * sy)) (cos t * sy) = t).
  { replace (- (- sin t * sy)) with (sy * sin t) by ring.
    rewrite (Rmult_comm (cos t)). apply atan2_polar; assumption. }
  rewrite HskewX, HskewY.
  replace (- t + t) with 0 by ring. rewrite Rabs_R0.
  rewrite (Rltb_true 0 0.00001) by lra. cbn [orb].
  assert (Hguard : Rltb (cos t * sx) 0 && Rleb 0 (cos t * sy) = false).
  { destruct (Rlt_dec (cos t * sx) 0) as [Hlt | Hge].
    - rewrite (Rleb_false 0 (cos t * sy)) by nra. apply andb_false_r.
    - rewrite (Rltb_false (cos t * sx) 0) by lra. reflexivity. }
  rewrite Hguard.
  pose proof (sin2_cos2 t) as Hsc. unfold Rsqr in Hsc.
  f_equal.
  - replace (cos t * sx * (cos t * sx) + sin t * sx * (sin t * sx))
      with ((sin t * sin t + cos t * cos t) * (sx * sx)) by ring.
    rewrite Hsc, Rmult_1_l. apply sqrt_square. lra.
  - replace (- sin t * sy * (- sin t * sy) + cos t * sy * (cos t * sy))
      with ((sin t * sin t + cos t * cos t) * (sy * sy)) by ring.
    rewrite Hsc, Rmult_1_l. apply sqrt_square. lra.
Qed.

(** X4: in exact arithmetic, for a node with positive scaleX and scaleY
    and a rotation in (-PI, PI], [decompose] of its local transform
    returns the node's x, y, scaleX, scaleY and rotation, and the
    transform built again from these values is the local transform.  (In
    binary64 the scales and the rotation come back up to rounding only,
    and a scale whose square underflows comes back as 0.) *)
Theorem decompose_round_trip (o : NodeObj) :
  0 < _scaleX o -> 0 < _scaleY o -> - PI < _rotation o <= PI ->
  d_x (decompose (getTransform o)) = _x o /\
  d_y (decompose (getTransform o)) = _y o /\
  d_scaleX (decompose (getTransform o)) = _scaleX o /\
  d_scaleY (decompose (getTransform o)) = _scaleY o /\
  d_rotation (decompose (getTransform o)) = _rotation o /\
  scale
    (rotate
       (translate identity (d_x (decompose (getTransform o)))
          (d_y (decompose (getTransform o))))
       (d_rotation (decompose (getTransform o))))
    (d_scaleX (decompose (getTransform o))) (d_scaleY (decompose (getTransform o)))
  = getTransform o.
Proof.
  intros Hsx Hsy Hrot. rewrite (decompose_getTransform o Hsx Hsy Hrot).
  cbn [d_x d_y d_scaleX d_scaleY d_rotation]. repeat split; reflexivity.
Qed.

Lemma decompose_round_trip_witness :
  d_rotation (decompose (getTransform rect_quarter_turn)) = PI / 2.
Proof.
  assert (Hrot : - PI < PI / 2 <= PI) by (pose proof PI_RGT_0; lra).
  exact (proj1 (proj2 (proj2 (proj2 (proj2
           (decompose_round_trip rect_quarter_turn Rlt_0_1 Rlt_0_1 Hrot)))))).
Defined.


(** * The walk by classes *)

Lemma plainBelow_child (sc : Scene) (r c : ref) (o : NodeObj) :
  heap (world sc) !! r = Some o -> In c (children o) ->
  plainBelow sc r -> plainBelow sc c.
Proof.
  intros Hr Hc Hplain n Hn. apply Hplain.
  exact (descendant_child _ r c n o Hr Hc Hn).
Qed.

Lemma firstHitIn_plain (test : ref -> Scene -> option (option ref * Scene))
    (test0 : ref -> option (option ref)) (sc : Scene) (l : list ref) :
  (forall c, In c l -> test c sc = (a ← test0 c; Some (a, sc))) ->
  firstHitIn test l sc = (a ← firstHit test0 l; Some (a, sc)).
Proof.
  induction l as [| c l IH]; intros Hl; [reflexivity |].
  cbn [firstHitIn firstHit]. rewrite (Hl c (or_introl eq_refl)).
  destruct (test0 c) as [[n |] |]; cbn; try reflexivity.
  apply IH. intros x Hx. apply Hl. right. exact Hx.
Qed.

(** Below an object whose subtree holds no Transformer, [hitTest] by the
    classes is the walk of [Node.hitTest] and [Container.hitTest], and
    the scene is as it was. *)
Lemma Scene_hitTest_plain (fuel : nat) (sc : Scene) (r : ref) (p : Point R) :
  plainBelow sc r ->
  Scene_hitTest fuel sc r p = (a ← hitTest fuel (heap (world sc)) r p; Some (a, sc)).
Proof.
  revert r. induction fuel as [| f IH]; intros r Hplain; [reflexivity |].
  cbn [Scene_hitTest]. rewrite hitTest_S.
  destruct (heap (world sc) !! r) as [o |] eqn:Hr; [| reflexivity].
  cbn [mbind option_bind]. rewrite (Hplain r (descendant_self _ r)).
  destruct (container_or_not (kind o)) as [Hk | Hk].
  - rewrite Hk. unfold Container_hitTest.
    destruct (clipRejects f (heap (world sc)) r o p) as [[|] |]; cbn [mbind option_bind];
      try reflexivity.
    apply firstHitIn_plain. intros c Hc. apply IH.
    apply (plainBelow_child sc r c o Hr); [apply in_rev; exact Hc | exact Hplain].
  - destruct (kind o); first [congruence | reflexivity].
Qed.

(** Below an object whose subtree holds no Transformer, [render] by the
    classes is [Node.render] all the way down. *)
Lemma Scene_render_plain (fuel : nat) (sc : Scene) (r : ref) :
  plainBelow sc r ->
  forall viewport ctx,
    Scene_render fuel sc r viewport ctx = render fuel (heap (world sc)) r viewport ctx.
Proof.
  revert r. induction fuel as [| f IH]; intros r Hplain viewport ctx; [reflexivity |].
  cbn [Scene_render]. rewrite render_S.
  destruct (heap (world sc) !! r) as [o |] eqn:Hr; [| reflexivity].
  cbn [mbind option_bind]. rewrite (Hplain r (descendant_self _ r)).
  destruct (match viewport with
            | Some vp =>
              bounds ← getGlobalBounds f (heap (world sc)) r;
              Some (Rltb 0 (rwidth bounds) && Rltb 0 (rheight bounds) && isOutside bounds vp)
            | None => Some false
            end) as [[|] |]; cbn [mbind option_bind]; try reflexivity.
  cbv zeta. destruct (container_or_not (kind o)) as [Hk | Hk].
  - rewrite Hk. unfold Container_draw. cbv zeta.
    rewrite (foldl_render_ext (Scene_render f sc) (render f (heap (world sc))) viewport
               (children o)); [reflexivity |].
    intros c ctx0 Hc. apply IH. exact (plainBelow_child sc r c o Hr Hc Hplain).
  - destruct (kind o); first [congruence | reflexivity].
Qed.

Lemma plainScene_plain (h : gmap ref NodeObj) (r : ref) : plainBelow (plainScene h) r.
Proof. intros n _. apply lookup_empty. Qed.

Lemma descendant_of_leaf (h : gmap ref NodeObj) (r n : ref) (o : NodeObj) :
  h !! r = Some o -> children o = [] -> descendant h r n -> n = r.
Proof.
  intros Hr Hch Hd. inversion Hd as [| r0 c n0 o0 Hr0 Hin _]; subst; [reflexivity |].
  rewrite Hr in Hr0. injection Hr0 as <-. rewrite Hch in Hin. destruct Hin.
Qed.

Lemma scene_overlap_selected_plain : plainBelow scene_overlap_selected 0%nat.
Proof.
  intros n Hd.
  assert (Hn : n = 0%nat \/ n = 1%nat \/ n = 2%nat).
  { inversion Hd as [| r0 c n0 o0 Hr0 Hin Hc]; subst; [left; reflexivity |].
    injection Hr0 as <-. destruct Hin as [<- | [<- | []]].
    - right. left.
      exact (descendant_of_leaf (heap (world scene_overlap_selected)) 1%nat n rect_below
               eq_refl eq_refl Hc).
    - right. right.
      exact (descendant_of_leaf (heap (world scene_overlap_selected)) 2%nat n rect_above
               eq_refl eq_refl Hc). }
  destruct Hn as [-> | [-> | ->]]; reflexivity.
Qed.

Lemma scene_overlap_selected_subtree :
  subtreeWithin (heap (world scene_overlap_selected)) 2 0%nat.
Proof.
  apply (subtree_container (heap (world scene_overlap_selected)) 1 0%nat group_of_two
           eq_refl eq_refl).
  intros c [<- | [<- | []]].
  - exact (subtree_leaf (heap (world scene_overlap_selected)) 0 1%nat rect_below eq_refl
             ltac:(discriminate)).
  - exact (subtree_leaf (heap (world scene_overlap_selected)) 0 2%nat rect_above eq_refl
             ltac:(discriminate)).
Qed.

Lemma scene_overlap_selected_parents :
  parentsAgree (heap (world scene_overlap_selected)).
Proof.
  intros r o c Hr Hc. cbn [heap world scene_overlap_selected] in Hr. unfold scene_overlap in Hr.
  apply lookup_insert_Some in Hr as [[<- <-] | [_ Hr]]; [destruct Hc |].
  apply lookup_insert_Some in Hr as [[<- <-] | [_ Hr]].
  - destruct Hc as [<- | [<- | []]]; eexists; split; reflexivity.
  - apply lookup_insert_Some in Hr as [[<- <-] | [_ Hr]]; [destruct Hc |].
    apply lookup_insert_Some in Hr as [[<- <-] | [_ Hr]]; [destruct Hc |].
    rewrite lookup_empty in Hr. discriminate.
Qed.

(** * Bounds and hit testing of shapes *)

Lemma min4_le (a b c d : R) :
  min4 a b c d <= a /\ min4 a b c d <= b /\ min4 a b c d <= c /\ min4 a b c d <= d.
Proof.
  unfold min4.
  pose proof (Rmin_l (Rmin (Rmin a b) c) d). pose proof (Rmin_r (Rmin (Rmin a b) c) d).
  pose proof (Rmin_l (Rmin a b) c). pose proof (Rmin_r (Rmin a b) c).
  pose proof (Rmin_l a b). pose proof (Rmin_r a b). lra.
Qed.

Lemma max4_ge (a b c d : R) :
  a <= max4 a b c d /\ b <= max4 a b c d /\ c <= max4 a b c d /\ d <= max4 a b c d.
Proof.
  unfold max4.
  pose proof (Rmax_l (Rmax (Rmax a b) c) d). pose proof (Rmax_r (Rmax (Rmax a b) c) d).
  pose proof (Rmax_l (Rmax a b) c). pose proof (Rmax_r (Rmax a b) c).
  pose proof (Rmax_l a b). pose proof (Rmax_r a b). lra.
Qed.

(** An affine function on an interval stays between its values at the
    ends. *)
Lemma affine_between (k m t0 t1 t : R) :
  Rmin t0 t1 <= t <= Rmax t0 t1 ->
  Rmin (k * t0 + m) (k * t1 + m) <= k * t + m <= Rmax (k * t0 + m) (k * t1 + m).
Proof.
  unfold Rmin, Rmax. destruct (Rle_dec 0 k) as [Hk | Hk];
    destruct (Rle_dec t0 t1); destruct (Rle_dec (k * t0 + m) (k * t1 + m)); nra.
Qed.

Lemma bilinear_between (a c e x0 w y0 h x y : R) :
  spans x0 w x -> spans y0 h y ->
  min4 (a * x0 + c * y0 + e) (a * (x0 + w) + c * y0 + e)
       (a * x0 + c * (y0 + h) + e) (a * (x0 + w) + c * (y0 + h) + e)
  <= a * x + c * y + e
  <= max4 (a * x0 + c * y0 + e) (a * (x0 + w) + c * y0 + e)
          (a * x0 + c * (y0 + h) + e) (a * (x0 + w) + c * (y0 + h) + e).
Proof.
  unfold spans. intros Hx Hy.
  pose proof (affine_between a (c * y + e) x0 (x0 + w) x Hx) as Hax.
  pose proof (affine_between c (a * x0 + e) y0 (y0 + h) y Hy) as Hc0.
  pose proof (affine_between c (a * (x0 + w) + e) y0 (y0 + h) y Hy) as Hc1.
  set (f00 := a * x0 + c * y0 + e). set (f10 := a * (x0 + w) + c * y0 + e).
  set (f01 := a * x0 + c * (y0 + h) + e). set (f11 := a * (x0 + w) + c * (y0 + h) + e).
  replace (c * y0 + (a * x0 + e)) with f00 in Hc0 by (unfold f00; ring).
  replace (c * (y0 + h) + (a * x0 + e)) with f01 in Hc0 by (unfold f01; ring).
  replace (c * y0 + (a * (x0 + w) + e)) with f10 in Hc1 by (unfold f10; ring).
  replace (c * (y0 + h) + (a * (x0 + w) + e)) with f11 in Hc1 by (unfold f11; ring).
  set (fx0 := c * y + (a * x0 + e)) in *. set (fx1 := c * y + (a * (x0 + w) + e)) in *.
  replace (a * x0 + (c * y + e)) with fx0 in Hax by (unfold fx0; ring).
  replace (a * (x0 + w) + (c * y + e)) with fx1 in Hax by (unfold fx1; ring).
  replace (a * x + c * y + e) with (a * x + (c * y + e)) by ring.
  set (v := a * x + (c * y + e)) in *.
  destruct (min4_le f00 f10 f01 f11) as (? & ? & ? & ?).
  destruct (max4_ge f00 f10 f01 f11) as (? & ? & ? & ?).
  clearbody f00 f10 f01 f11 fx0 fx1 v.
  unfold Rmin, Rmax in Hax, Hc0, Hc1.
  destruct (Rle_dec fx0 fx1); destruct (Rle_dec f00 f01); destruct (Rle_dec f10 f11); lra.
Qed.

(** The box around the corners holds the image of every point of the
    box. *)
Lemma enclose_image (m : Matrix2D R) (b : Rect) (q : Point R) :
  spans (rx b) (rwidth b) (px q) -> spans (ry b) (rheight b) (py q) ->
  inRect (transformPoint m q) (enclose m b).
Proof.
  intros Hx Hy. unfold inRect, enclose. cbn [rx ry rwidth rheight].
  unfold cornersMinX, cornersMaxX, cornersMinY, cornersMaxY,
    corner1, corner2, corner3, corner4, transformPoint. cbn [px py nadd nmul real].
  pose proof (bilinear_between (ma m) (mc m) (me m) _ _ _ _ _ _ Hx Hy) as HX.
  pose proof (bilinear_between (mb m) (md m) (mf m) _ _ _ _ _ _ Hx Hy) as HY.
  split; lra.
Qed.

Lemma spans_inRect (q : Point R) (b : Rect) :
  0 <= rwidth b -> 0 <= rheight b -> inRect q b ->
  spans (rx b) (rwidth b) (px q) /\ spans (ry b) (rheight b) (py q).
Proof.
  unfold inRect, spans. intros Hw Hh [Hx Hy].
  rewrite !Rmin_left, !Rmax_right by lra. split; assumption.
Qed.

Lemma enclose_nonneg (m : Matrix2D R) (b : Rect) :
  0 <= rwidth (enclose m b) /\ 0 <= rheight (enclose m b).
Proof.
  unfold enclose, cornersMinX, cornersMaxX, cornersMinY, cornersMaxY.
  cbn [rwidth rheight].
  split.
  - destruct (min4_le (px (corner1 m b)) (px (corner2 m b)) (px (corner3 m b))
                (px (corner4 m b))) as (? & _).
    destruct (max4_ge (px (corner1 m b)) (px (corner2 m b)) (px (corner3 m b))
                (px (corner4 m b))) as (? & _). lra.
  - destruct (min4_le (py (corner1 m b)) (py (corner2 m b)) (py (corner3 m b))
                (py (corner4 m b))) as (? & _).
    destruct (max4_ge (py (corner1 m b)) (py (corner2 m b)) (py (corner3 m b))
                (py (corner4 m b))) as (? & _). lra.
Qed.

(** X6: for self-bounds whose width and height are not negative,
    [getGlobalBounds] returns a box whose width and height are not
    negative and which holds the image, under the global transform, of
    every point of the self-bounds. *)
Theorem getGlobalBounds_encloses (fuel : nat) (h : gmap ref NodeObj) (r : ref)
    (b : Rect) (g : Matrix2D R) :
  getSelfBounds fuel h r = Some b -> getGlobalTransform fuel h r = Some g ->
  0 <= rwidth b -> 0 <= rheight b ->
  exists gb,
    getGlobalBounds fuel h r = Some gb /\
    0 <= rwidth gb /\ 0 <= rheight gb /\
    forall q, inRect q b -> inRect (transformPoint g q) gb.
Proof.
  intros Hb Hg Hw Hh. exists (enclose g b).
  split; [unfold getGlobalBounds; rewrite Hb, Hg; reflexivity |].
  destruct (enclose_nonneg g b) as [Hew Heh].
  split; [exact Hew |]. split; [exact Heh |].
  intros q Hq. destruct (spans_inRect q b Hw Hh Hq) as [Hx Hy].
  apply enclose_image; assumption.
Qed.

Lemma getGlobalBounds_encloses_witness :
  exists gb,
    getGlobalBounds 1 (heap world_target) 0%nat = Some gb /\
    0 <= rwidth gb /\ 0 <= rheight gb /\
    forall q, inRect q (mkRect 0 0 100 100) ->
      inRect (transformPoint (getTransform rect_target) q) gb.
Proof.
  assert (H100 : 0 <= 100) by lra.
  exact (getGlobalBounds_encloses 1 (heap world_target) 0%nat (mkRect 0 0 100 100)
           (getTransform rect_target) eq_refl
           (getGlobalTransform_root 1 (heap world_target) 0%nat rect_target
              eq_refl eq_refl)
           H100 H100).
Defined.

Lemma transformPoint_invert (M : Matrix2D R) (p : Point R) :
  det M <> 0 -> transformPoint M (transformPoint (invert M) p) = p.
Proof.
  intros Hdet. rewrite (invert_regular M Hdet).
  unfold det in *. destruct M as [a b c d e f]. destruct p as [x y]. cbn in *.
  unfold transformPoint. cbn. f_equal; field; exact Hdet.
Qed.

(** A point of a rectangle or a circle lies within the sides of its
    bounds. *)
Lemma isPointInShape_spans (o : NodeObj) (x y : R) :
  kind o = KRect \/ kind o = KCircle ->
  isPointInShape o x y = true ->
  spans (rx (leaf_getSelfBounds o)) (rwidth (leaf_getSelfBounds o)) x /\
  spans (ry (leaf_getSelfBounds o)) (rheight (leaf_getSelfBounds o)) y.
Proof.
  unfold isPointInShape, leaf_getSelfBounds, spans.
  intros [Hk | Hk]; rewrite Hk; cbv zeta; cbn [rx ry rwidth rheight].
  - intros Hin. apply andb_prop in Hin as [Hin Hy2]. apply andb_prop in Hin as [Hin Hy1].
    apply andb_prop in Hin as [Hx1 Hx2].
    apply Rleb_le in Hx1, Hx2, Hy1, Hy2.
    rewrite !Rmin_left, !Rmax_right by lra. lra.
  - intros Hin. apply Rleb_le in Hin.
    set (rad := numOr (props o !! "radius") 50) in *.
    unfold Rmin, Rmax.
    destruct (Rle_dec (- rad) (- rad + rad * 2)); nra.
Qed.

(** X7: for a Rect or a Circle whose global transform can be inverted,
    [hitTest] returns the node exactly when the point, taken into the
    node's own space, is in the shape: the quick test on the bounding box
    never rejects a point the shape contains. *)
Theorem hitTest_shape_exact (fuel : nat) (h : gmap ref NodeObj) (r : ref) (o : NodeObj)
    (g : Matrix2D R) (p : Point R) :
  h !! r = Some o -> kind o = KRect \/ kind o = KCircle ->
  getGlobalTransform (S fuel) h r = Some g -> det g <> 0 ->
  hitTest (S (S fuel)) h r p
  = Some (if isPointInShape o (px (transformPoint (invert g) p))
                            (py (transformPoint (invert g) p))
          then Some r else None).
Proof.
  intros Hr Hk Hg Hdet.
  assert (Hleaf : kind o <> KContainer) by (destruct Hk as [Hk | Hk]; rewrite Hk; discriminate).
  rewrite hitTest_S, Hr. cbn [mbind option_bind].
  assert (Hnode : match kind o with
                  | KContainer =>
                    Container_hitTest (fun child => hitTest (S fuel) h child p)
                      (S fuel) h r o p
                  | _ => Node_hitTest (S fuel) h r o p
                  end = Node_hitTest (S fuel) h r o p)
    by (destruct (kind o); congruence).
  rewrite Hnode. unfold Node_hitTest, getGlobalBounds.
  rewrite (getSelfBounds_leaf fuel h r o Hr Hleaf), Hg. cbn [mbind option_bind].
  set (lp := transformPoint (invert g) p).
  destruct (isPointInShape o (px lp) (py lp)) eqn:Hshape.
  - destruct (isPointInShape_spans o (px lp) (py lp) Hk Hshape) as [Hx Hy].
    pose proof (enclose_image g (leaf_getSelfBounds o) lp Hx Hy) as Hin.
    unfold lp in Hin. rewrite (transformPoint_invert g p Hdet) in Hin.
    rewrite (pointOutside_false _ _ Hin), andb_false_r. reflexivity.
  - destruct (Rltb 0 (rwidth (enclose g (leaf_getSelfBounds o))) &&
              Rltb 0 (rheight (enclose g (leaf_getSelfBounds o))) &&
              pointOutside p (enclose g (leaf_getSelfBounds o))); reflexivity.
Qed.

Lemma rect_target_regular : det (getTransform rect_target) <> 0.
Proof. rewrite det_getTransform. change (1 * 1 <> 0). lra. Qed.

Lemma hitTest_shape_exact_witness :
  hitTest 2 (heap world_target) 0%nat (mkPoint 150 150)
  = Some (if isPointInShape rect_target
               (px (transformPoint (invert (getTransform rect_target)) (mkPoint 150 150)))
               (py (transformPoint (invert (getTransform rect_target)) (mkPoint 150 150)))
          then Some 0%nat else None).
Proof.
  exact (hitTest_shape_exact 0 (heap world_target) 0%nat rect_target
           (getTransform rect_target) (mkPoint 150 150) eq_refl (or_introl eq_refl)
           (getGlobalTransform_root 1 (heap world_target) 0%nat rect_target
              eq_refl eq_refl)
           rect_target_regular).
Defined.

Lemma firstHit_found (test : ref -> option (option ref)) (l : list ref) (n : ref) :
  firstHit test l = Some (Some n) -> exists c, In c l /\ test c = Some (Some n).
Proof.
  induction l as [| c l IH]; cbn; [discriminate |].
  destruct (test c) as [[m |] |] eqn:Hc; cbn.
  - intros [= <-]. exists c. split; [left; reflexivity | exact Hc].
  - intros Hrest. destruct (IH Hrest) as (c' & Hin & Hc'). exists c'. split; [right |]; assumption.
  - discriminate.
Qed.

(** What the walk of [Node.hitTest] and [Container.hitTest] answers. *)
Lemma hitTest_finds_shape (fuel : nat) (h : gmap ref NodeObj) (r n : ref)
    (p : Point R) :
  hitTest fuel h r p = Some (Some n) ->
  descendant h r n /\
  exists o f g,
    h !! n = Some o /\ kind o <> KContainer /\ kind o <> KNode /\
    getGlobalTransform f h n = Some g /\
    isPointInShape o (px (transformPoint (invert g) p))
                     (py (transformPoint (invert g) p)) = true.
Proof.
  revert r. induction fuel as [| f IH]; intros r; [discriminate |].
  rewrite hitTest_S. destruct (h !! r) as [o |] eqn:Hr; [| discriminate].
  cbn [mbind option_bind].
  assert (Hleaf : kind o <> KContainer ->
                  Node_hitTest f h r o p = Some (Some n) ->
                  descendant h r n /\
                  exists o f g,
                    h !! n = Some o /\ kind o <> KContainer /\ kind o <> KNode /\
                    getGlobalTransform f h n = Some g /\
                    isPointInShape o (px (transformPoint (invert g) p))
                      (py (transformPoint (invert g) p)) = true).
  { intros Hnc. unfold Node_hitTest.
    destruct (getGlobalBounds f h r) as [gb |]; [| discriminate]. cbn [mbind option_bind].
    destruct (Rltb 0 (rwidth gb) && Rltb 0 (rheight gb) && pointOutside p gb);
      [discriminate |].
    destruct (getGlobalTransform f h r) as [g |] eqn:Hg; [| discriminate].
    cbn [mbind option_bind].
    destruct (isPointInShape o (px (transformPoint (invert g) p))
                (py (transformPoint (invert g) p))) eqn:Hshape; [| discriminate].
    intros [= <-]. split; [constructor |].
    exists o, f, g. split; [exact Hr |]. split; [exact Hnc |].
    split; [| split; [exact Hg | exact Hshape]].
    intros Hk. unfold isPointInShape in Hshape. rewrite Hk in Hshape. discriminate. }
  destruct (kind o) eqn:Hk; try (apply Hleaf; discriminate).
  - unfold Container_hitTest.
    destruct (clipRejects f h r o p) as [[|] |]; cbn [mbind option_bind]; try discriminate.
    intros Hfirst. apply firstHit_found in Hfirst as (c & Hin & Hc).
    apply in_rev in Hin.
    destruct (IH c Hc) as [Hdesc Hrest]. split; [| exact Hrest].
    exact (descendant_child h r c n o Hr Hin Hdesc).
Qed.

Lemma scene_transformer_plain : plainBelow scene_transformer 0%nat.
Proof.
  intros n Hd.
  rewrite (descendant_of_leaf (heap (world scene_transformer)) 0%nat n rect_target
             eq_refl eq_refl Hd).
  reflexivity.
Qed.

Lemma scene_transformer_hit :
  Scene_hitTest 2 scene_transformer 0%nat (mkPoint 150 150)
  = Some (Some 0%nat, scene_transformer).
Proof.
  rewrite (Scene_hitTest_plain 2 scene_transformer 0%nat _ scene_transformer_plain).
  assert (Hhit : hitTest 2 (heap (world scene_transformer)) 0%nat (mkPoint 150 150)
                 = Some (Some 0%nat)).
  { apply (hitTest_leaf_translated 0 (heap (world scene_transformer)) 0%nat rect_target
             (mkPoint 150 150) 100 100 eq_refl).
    - discriminate.
    - rewrite (getGlobalTransform_root 1 (heap (world scene_transformer)) 0%nat rect_target
                 eq_refl eq_refl).
      rewrite (getTransform_translation rect_target eq_refl eq_refl eq_refl). reflexivity.
    - change (0 <= 100). lra.
    - change (0 <= 100). lra.
    - unfold inRect. cbn. read_props. lra.
    - apply isPointInShape_rect; [reflexivity | |]; cbn; read_props; lra. }
  rewrite Hhit. reflexivity.
Qed.

Lemma sameClasses_refl (sc : Scene) : sameClasses sc sc.
Proof. split; intros n; reflexivity. Qed.

Lemma sameClasses_trans (sc1 sc2 sc3 : Scene) :
  sameClasses sc1 sc2 -> sameClasses sc2 sc3 -> sameClasses sc1 sc3.
Proof.
  intros [Ht1 Hk1] [Ht2 Hk2]. split; intros n.
  - rewrite Ht2. apply Ht1.
  - rewrite Hk2. apply Hk1.
Qed.

Lemma answersByClass_back (sc sc' : Scene) (a : option ref) :
  sameClasses sc sc' -> answersByClass sc' a -> answersByClass sc a.
Proof.
  intros [Ht Hk] Ha n Hn. destruct (Ha n Hn) as [Hs | (o & Ho & Hc & Hn')].
  - left. apply Ht. exact Hs.
  - right. specialize (Hk n). rewrite Ho in Hk. cbn in Hk.
    destruct (heap (world sc) !! n) as [o0 |]; [| discriminate].
    injection Hk as Hk. exists o0. rewrite <- Hk. repeat split; assumption.
Qed.

Lemma set_cursor_kinds (r : ref) (c : string) (w : World) (n : ref) :
  kind <$> heap (set_cursor r c w) !! n = kind <$> heap w !! n.
Proof.
  unfold set_cursor. destruct (heap w !! r) as [o |] eqn:Hr; [| reflexivity].
  cbn [heap store]. destruct (decide (n = r)) as [-> | Hne].
  - rewrite lookup_insert_eq, Hr. reflexivity.
  - rewrite lookup_insert_ne by congruence. reflexivity.
Qed.

(** [Transformer.hitTest] answers [null] or the transformer itself, and
    changes the transformer's cursor only. *)
Lemma Transformer_hitTest_answer (fuel : nat) (self : ref) (t t' : Transformer)
    (p : Point R) (w w' : World) (a : option ref) :
  Transformer_hitTest fuel self t p w = Some (a, t', w') ->
  (a = None \/ a = Some self) /\
  forall n, kind <$> heap w' !! n = kind <$> heap w !! n.
Proof.
  unfold Transformer_hitTest. destruct (target t) as [tg |].
  2:{ intros [= <- <- <-]. split; [left |]; reflexivity. }
  destruct (getGlobalTransform fuel (heap w) tg) as [g |]; [| discriminate].
  cbn [mbind option_bind].
  destruct (getSelfBounds fuel (heap w) tg) as [bounds |]; [| discriminate].
  cbn [mbind option_bind].
  destruct (heap w !! self) as [this |]; [| discriminate]. cbn [mbind option_bind].
  destruct (find _ (handles bounds)) as [hd |].
  - destruct (getCursorForAnchor fuel _ (hname hd) w) as [c |]; [| discriminate].
    cbn [mbind option_bind]. intros [= <- <- <-].
    split; [right; reflexivity | apply set_cursor_kinds].
  - destruct (onHandle _ _ _ _); intros [= <- <- <-];
      (split; [first [left; reflexivity | right; reflexivity] | apply set_cursor_kinds]).
Qed.

Lemma firstHitIn_classes (test : ref -> Scene -> option (option ref * Scene))
    (l : list ref) :
  (forall c sc a sc', test c sc = Some (a, sc') ->
     sameClasses sc sc' /\ answersByClass sc a) ->
  forall sc a sc', firstHitIn test l sc = Some (a, sc') ->
    sameClasses sc sc' /\ answersByClass sc a.
Proof.
  intros Htest. induction l as [| c l IH]; intros sc a sc'; cbn [firstHitIn].
  - intros [= <- <-]. split; [apply sameClasses_refl | intros n; discriminate].
  - destruct (test c sc) as [[a1 sc1] |] eqn:Hc; [| discriminate].
    cbn [mbind option_bind fst snd].
    destruct (Htest c sc a1 sc1 Hc) as [Hsame Hans].
    destruct a1 as [m |].
    + intros [= <- <-]. split; assumption.
    + intros Hrest. destruct (IH sc1 a sc' Hrest) as [Hsame' Hans'].
      split; [exact (sameClasses_trans _ _ _ Hsame Hsame') |].
      exact (answersByClass_back sc sc1 a Hsame Hans').
Qed.

(** In any scene [hitTest] by the classes keeps every object's class, and
    what it answers is a Transformer or a shape. *)
Lemma Scene_hitTest_classes (fuel : nat) (p : Point R) (r : ref) (sc sc' : Scene)
    (a : option ref) :
  Scene_hitTest fuel sc r p = Some (a, sc') ->
  sameClasses sc sc' /\ answersByClass sc a.
Proof.
  revert r sc sc' a. induction fuel as [| f IH]; intros r sc sc' a; [discriminate |].
  cbn [Scene_hitTest].
  destruct (heap (world sc) !! r) as [o |] eqn:Hr; [| discriminate].
  cbn [mbind option_bind].
  destruct (transformers sc !! r) as [t |] eqn:Ht.
  - destruct (Transformer_hitTest f r t p (world sc)) as [[[a1 t1] w1] |] eqn:Hhit;
      [| discriminate].
    cbn [mbind option_bind fst snd]. intros [= <- <-].
    destruct (Transformer_hitTest_answer f r t t1 p (world sc) w1 a1 Hhit) as [Ha Hk].
    split.
    + split; [| exact Hk]. intros n. cbn [transformers].
      destruct (decide (n = r)) as [-> | Hne].
      * rewrite lookup_insert_eq, Ht. split; intros _; eexists; reflexivity.
      * rewrite lookup_insert_ne by congruence. reflexivity.
    + intros n Hn. left. destruct Ha as [-> | ->]; [discriminate |].
      injection Hn as <-. rewrite Ht. eexists; reflexivity.
  - destruct (container_or_not (kind o)) as [Hk | Hk].
    + rewrite Hk.
      destruct (clipRejects f (heap (world sc)) r o p) as [[|] |];
        cbn [mbind option_bind]; try discriminate.
      * intros [= <- <-]. split; [apply sameClasses_refl | intros n; discriminate].
      * apply firstHitIn_classes. intros c sc1 a1 sc2. apply IH.
    + assert (Hleaf : (a0 ← Node_hitTest f (heap (world sc)) r o p; Some (a0, sc))
                      = Some (a, sc') ->
                      sameClasses sc sc' /\ answersByClass sc a).
      { destruct (Node_hitTest f (heap (world sc)) r o p) as [a0 |] eqn:Hnode;
          [| discriminate].
        cbn [mbind option_bind]. intros [= <- <-].
        split; [apply sameClasses_refl |]. intros n ->. right.
        unfold Node_hitTest in Hnode.
        destruct (getGlobalBounds f (heap (world sc)) r) as [gb |]; [| discriminate].
        cbn [mbind option_bind] in Hnode.
        destruct (Rltb 0 (rwidth gb) && Rltb 0 (rheight gb) && pointOutside p gb);
          [discriminate |].
        destruct (getGlobalTransform f (heap (world sc)) r) as [g |]; [| discriminate].
        cbn [mbind option_bind] in Hnode.
        destruct (isPointInShape o (px (transformPoint (invert g) p))
                    (py (transformPoint (invert g) p))) eqn:Hshape; [| discriminate].
        injection Hnode as <-. exists o. split; [exact Hr |]. split; [exact Hk |].
        intros Hn. unfold isPointInShape in Hshape. rewrite Hn in Hshape. discriminate. }
      destruct (kind o); first [congruence | exact Hleaf].
Qed.

(** X8: in a scene, the node [hitTest] answers is a Transformer or a
    shape (neither a container nor a plain Node); a Transformer answers
    itself or [null]; and on an object whose subtree holds no Transformer
    [hitTest] leaves the scene as it was, and the node it returns is the
    receiver or one of its descendants through the children lists, whose
    shape contains the point taken into its own space. *)
Theorem hitTest_answers_shape (fuel : nat) (sc sc' : Scene) (r n : ref) (p : Point R) :
  Scene_hitTest fuel sc r p = Some (Some n, sc') ->
  (is_Some (transformers sc !! n) \/
   exists o, heap (world sc) !! n = Some o /\ kind o <> KContainer /\ kind o <> KNode) /\
  (is_Some (transformers sc !! r) -> n = r) /\
  (plainBelow sc r ->
   sc' = sc /\
   descendant (heap (world sc)) r n /\
   exists o f g,
     heap (world sc) !! n = Some o /\ kind o <> KContainer /\ kind o <> KNode /\
     getGlobalTransform f (heap (world sc)) n = Some g /\
     isPointInShape o (px (transformPoint (invert g) p))
                      (py (transformPoint (invert g) p)) = true).
Proof.
  intros Hhit. split; [| split].
  - destruct (Scene_hitTest_classes fuel p r sc sc' (Some n) Hhit) as [_ Hans].
    exact (Hans n eq_refl).
  - intros [t Ht]. destruct fuel as [| f]; [discriminate |].
    cbn [Scene_hitTest] in Hhit.
    destruct (heap (world sc) !! r) as [o |]; [| discriminate].
    cbn [mbind option_bind] in Hhit. rewrite Ht in Hhit.
    destruct (Transformer_hitTest f r t p (world sc)) as [[[a1 t1] w1] |] eqn:Hself;
      [| discriminate].
    cbn [mbind option_bind fst snd] in Hhit. injection Hhit as -> _.
    destruct (Transformer_hitTest_answer f r t t1 p (world sc) w1 (Some n) Hself)
      as [[Ha | Ha] _]; congruence.
  - intros Hplain. rewrite (Scene_hitTest_plain fuel sc r p Hplain) in Hhit.
    destruct (hitTest fuel (heap (world sc)) r p) as [a |] eqn:Hwalk; [| discriminate].
    cbn [mbind option_bind] in Hhit. injection Hhit as -> <-. split; [reflexivity |].
    exact (hitTest_finds_shape fuel (heap (world sc)) r n p Hwalk).
Qed.

Lemma hitTest_answers_shape_witness :
  scene_transformer = scene_transformer /\
  descendant (heap (world scene_transformer)) 0%nat 0%nat /\
  exists o f g,
    heap (world scene_transformer) !! 0%nat = Some o /\
    kind o <> KContainer /\ kind o <> KNode /\
    getGlobalTransform f (heap (world scene_transformer)) 0%nat = Some g /\
    isPointInShape o (px (transformPoint (invert g) (mkPoint 150 150)))
                     (py (transformPoint (invert g) (mkPoint 150 150))) = true.
Proof.
  exact (proj2 (proj2 (hitTest_answers_shape 2 scene_transformer scene_transformer
                         0%nat 0%nat (mkPoint 150 150) scene_transformer_hit))
           scene_transformer_plain).
Defined.



(** X9: a node that is not a container, whose global transform has
    determinant zero and whose global bounds have no width or no height,
    is tested against the global point itself, since [invert] falls back
    to the identity: a rectangle at (500,500) with scaleX = scaleY = 0 is
    hit at (10,10). *)
Theorem hitTest_collapsed (fuel : nat) (h : gmap ref NodeObj) (r : ref) (o : NodeObj)
    (g : Matrix2D R) (gb : Rect) (p : Point R) :
  h !! r = Some o -> kind o <> KContainer ->
  getGlobalTransform (S fuel) h r = Some g -> det g = 0 ->
  getGlobalBounds (S fuel) h r = Some gb ->
  rwidth gb <= 0 \/ rheight gb <= 0 ->
  hitTest (S (S fuel)) h r p
  = Some (if isPointInShape o (px p) (py p) then Some r else None).
Proof.
  intros Hr Hk Hg Hdet Hgb Hflat.
  rewrite hitTest_S, Hr. cbn [mbind option_bind].
  assert (Hnode : match kind o with
                  | KContainer =>
                    Container_hitTest (fun child => hitTest (S fuel) h child p)
                      (S fuel) h r o p
                  | _ => Node_hitTest (S fuel) h r o p
                  end = Node_hitTest (S fuel) h r o p)
    by (destruct (kind o); congruence).
  rewrite Hnode. unfold Node_hitTest. rewrite Hgb, Hg. cbn [mbind option_bind].
  assert (Hskip : Rltb 0 (rwidth gb) && Rltb 0 (rheight gb) && pointOutside p gb = false).
  { destruct Hflat as [Hw | Hh].
    - rewrite (Rltb_false 0 (rwidth gb)) by lra. reflexivity.
    - rewrite (Rltb_false 0 (rheight gb)) by lra. rewrite andb_false_r. reflexivity. }
  rewrite Hskip.
  rewrite (invert_singular g) by (cbn; apply Reqb_true; exact Hdet).
  assert (Hid : transformPoint identity p = p).
  { destruct p as [x y]. unfold transformPoint, identity. cbn. f_equal; ring. }
  rewrite Hid. destruct (isPointInShape o (px p) (py p)); reflexivity.
Qed.

(** A shape scaled to nothing on both axes: every corner of its box
    falls on its position. *)
Lemma enclose_collapsed (o : NodeObj) (b : Rect) :
  _scaleX o = 0 -> _scaleY o = 0 ->
  enclose (getTransform o) b = mkRect (_x o) (_y o) (_x o - _x o) (_y o - _y o).
Proof.
  intros Hsx Hsy.
  assert (Hg : getTransform o = mkMatrix 0 0 0 0 (_x o) (_y o)).
  { apply matrix_eq; unfold getTransform, multiply, translate, scale, rotate, identity;
      cbn; rewrite ?Hsx, ?Hsy; ring. }
  rewrite Hg. unfold enclose, cornersMinX, cornersMinY, cornersMaxX, cornersMaxY,
    corner1, corner2, corner3, corner4, transformPoint. cbn.
  f_equal; Rminmax.
Qed.

Lemma scene_collapsed_bounds :
  getGlobalBounds 1 scene_collapsed 0%nat = Some (mkRect 500 500 (500 - 500) (500 - 500)).
Proof.
  unfold getGlobalBounds.
  rewrite (getSelfBounds_leaf 0 scene_collapsed 0%nat rect_collapsed eq_refl)
    by discriminate.
  rewrite (getGlobalTransform_root 1 scene_collapsed 0%nat rect_collapsed eq_refl eq_refl).
  cbn [mbind option_bind].
  rewrite (enclose_collapsed rect_collapsed _ eq_refl eq_refl). reflexivity.
Qed.

Lemma hitTest_collapsed_witness :
  hitTest 2 scene_collapsed 0%nat (mkPoint 10 10)
  = Some (if isPointInShape rect_collapsed 10 10 then Some 0%nat else None) /\
  isPointInShape rect_collapsed 10 10 = true.
Proof.
  split.
  - apply (hitTest_collapsed 0 scene_collapsed 0%nat rect_collapsed
             (getTransform rect_collapsed) (mkRect 500 500 (500 - 500) (500 - 500))
             (mkPoint 10 10) eq_refl).
    + discriminate.
    + exact (getGlobalTransform_root 1 scene_collapsed 0%nat rect_collapsed
               eq_refl eq_refl).
    + rewrite det_getTransform. change (0 * 0 = 0). lra.
    + exact scene_collapsed_bounds.
    + left. cbn. lra.
  - apply isPointInShape_rect; [reflexivity | |]; cbn; read_props; lra.
Defined.


(** * Hit testing and the paint order *)

Lemma firstHit_front (test : ref -> option (option ref)) (l : list ref) (n : ref) :
  firstHit test l = Some (Some n) ->
  exists a t b, l = a ++ t :: b /\ (forall x, In x a -> test x = Some None) /\
                test t = Some (Some n).
Proof.
  induction l as [| c l IH]; cbn; [discriminate |].
  destruct (test c) as [[m |] |] eqn:Hc; cbn.
  - intros [= <-]. exists [], c, l. split; [reflexivity |]. split; [intros x [] | exact Hc].
  - intros Hrest. destruct (IH Hrest) as (a & t & b & -> & Ha & Ht).
    exists (c :: a), t, b. split; [reflexivity |]. split; [| exact Ht].
    intros x [<- | Hx]; [exact Hc | exact (Ha x Hx)].
  - discriminate.
Qed.

Lemma firstHit_all_null (test : ref -> option (option ref)) (l : list ref) :
  firstHit test l = Some None -> forall x, In x l -> test x = Some None.
Proof.
  induction l as [| c l IH]; cbn; [intros _ x [] |].
  destruct (test c) as [[m |] |] eqn:Hc; cbn; try discriminate.
  intros Hrest x [<- | Hx]; [exact Hc | exact (IH Hrest x Hx)].
Qed.

(** The loop over the children, read backwards: the child that answered
    and the later children, which all answered null. *)
Lemma firstHit_rev_found (test : ref -> option (option ref)) (l : list ref) (n : ref) :
  firstHit test (rev l) = Some (Some n) ->
  exists lo t hi, l = lo ++ t :: hi /\ test t = Some (Some n) /\
                  forall x, In x hi -> test x = Some None.
Proof.
  intros Hhit. destruct (firstHit_front test (rev l) n Hhit) as (a & t & b & Hl & Ha & Ht).
  exists (rev b), t, (rev a). split; [| split; [exact Ht |]].
  - rewrite <- (rev_involutive l), Hl, rev_app_distr. cbn [rev].
    rewrite <- app_assoc. reflexivity.
  - intros x Hx. apply Ha, in_rev. exact Hx.
Qed.

Lemma preorder_descendant (h : gmap ref NodeObj) (fuel : nat) (r m : ref) :
  In m (preorder fuel h r) -> descendant h r m.
Proof.
  revert r. induction fuel as [| f IH]; intros r; cbn [preorder]; [intros [] |].
  destruct (h !! r) as [o |] eqn:Hr; [| intros []].
  intros [<- | Hin]; [apply descendant_self |].
  destruct (kind o); try (destruct Hin; fail).
  apply in_flat_map in Hin as (c & Hc & Hm).
  exact (descendant_child h r c m o Hr Hc (IH c Hm)).
Qed.

Lemma clippedAway_child (h : gmap ref NodeObj) (p : Point R) (r c m : ref) (o : NodeObj) :
  h !! r = Some o -> In c (children o) -> clippedAway h p c m -> clippedAway h p r m.
Proof.
  intros Hr Hc (k & ok & f & Hck & Hkm & Hk & Hkind & Hclip).
  exists k, ok, f. split; [exact (descendant_child h r c k o Hr Hc Hck) | auto].
Qed.

(** A subtree that answers null: each of its nodes answers null by
    itself or is clipped away. *)
Lemma hitTest_null_subtree (h : gmap ref NodeObj) (p : Point R) (fuel : nat) (r : ref) :
  hitTest fuel h r p = Some None ->
  forall m, In m (preorder fuel h r) -> answersNull h p m \/ clippedAway h p r m.
Proof.
  revert r. induction fuel as [| f IH]; intros r; [discriminate |].
  intros Hnull m. cbn [preorder].
  destruct (h !! r) as [o |] eqn:Hr; [| intros []].
  destruct (container_or_not (kind o)) as [Hk | Hk].
  - rewrite (hitTest_container f h r o p Hr Hk) in Hnull.
    unfold Container_hitTest in Hnull.
    destruct (clipRejects f h r o p) as [[|] |] eqn:Hclip; cbn in Hnull; [| | discriminate].
    + intros Hin. right. exists r, o, f.
      split; [apply descendant_self |]. split; [| auto].
      apply (preorder_descendant h (S f)). cbn [preorder]. rewrite Hr. exact Hin.
    + intros [<- | Hin].
      * left. exists (S f). rewrite (hitTest_container f h r o p Hr Hk).
        unfold Container_hitTest. rewrite Hclip. exact Hnull.
      * rewrite Hk in Hin. apply in_flat_map in Hin as (c & Hc & Hm).
        assert (Hcnull : hitTest f h c p = Some None)
          by (apply (firstHit_all_null _ _ Hnull), in_rev; rewrite rev_involutive; exact Hc).
        destruct (IH c Hcnull m Hm) as [Hn | Hn]; [left; exact Hn | right].
        exact (clippedAway_child h p r c m o Hr Hc Hn).
  - intros [<- | Hin]; [left; exists (S f); exact Hnull |].
    destruct (kind o); try (destruct Hin; fail). congruence.
Qed.

Lemma hitTest_last_painted (h : gmap ref NodeObj) (p : Point R) (fuel : nat)
    (r n : ref) :
  hitTest fuel h r p = Some (Some n) ->
  exists before after,
    preorder fuel h r = before ++ n :: after /\
    forall m, In m after -> answersNull h p m \/ clippedAway h p r m.
Proof.
  revert r. induction fuel as [| f IH]; intros r; [discriminate |].
  intros Hhit. cbn [preorder]. pose proof Hhit as Hhit'.
  rewrite hitTest_S in Hhit. destruct (h !! r) as [o |] eqn:Hr; [| discriminate].
  cbn [mbind option_bind] in Hhit.
  destruct (container_or_not (kind o)) as [Hk | Hk].
  - rewrite Hk in Hhit |- *. unfold Container_hitTest in Hhit.
    destruct (clipRejects f h r o p) as [[|] |]; cbn in Hhit; try discriminate.
    destruct (firstHit_rev_found _ _ _ Hhit) as (lo & t & hi & Hch & Ht & Hhi).
    destruct (IH t Ht) as (before & after & Hpre & Hafter).
    exists (r :: flat_map (preorder f h) lo ++ before),
           (after ++ flat_map (preorder f h) hi).
    split.
    + rewrite Hch, flat_map_app. cbn [flat_map]. rewrite Hpre.
      cbn [app]. rewrite <- !app_assoc. reflexivity.
    + assert (Hin_t : In t (children o)) by (rewrite Hch; apply in_elt).
      intros m Hm. apply in_app_or in Hm as [Hm | Hm].
      * destruct (Hafter m Hm) as [Hn | Hn]; [left; exact Hn | right].
        exact (clippedAway_child h p r t m o Hr Hin_t Hn).
      * apply in_flat_map in Hm as (c & Hc & Hm).
        assert (Hin_c : In c (children o))
          by (rewrite Hch; apply in_or_app; right; right; exact Hc).
        destruct (hitTest_null_subtree h p f c (Hhi c Hc) m Hm) as [Hn | Hn];
          [left; exact Hn | right].
        exact (clippedAway_child h p r c m o Hr Hin_c Hn).
  - assert (Hnode : Node_hitTest f h r o p = Some (Some n))
      by (destruct (kind o); congruence).
    assert (n = r) as ->.
    { unfold Node_hitTest in Hnode.
      destruct (getGlobalBounds f h r); cbn in Hnode; [| discriminate].
      destruct (_ && _ && _); [discriminate |].
      destruct (getGlobalTransform f h r); cbn in Hnode; [| discriminate].
      cbv zeta in Hnode.
      destruct (isPointInShape _ _ _); [injection Hnode as <-; reflexivity | discriminate]. }
    exists [], []. split; [| intros m []].
    destruct (kind o); first [reflexivity | congruence].
Qed.

(** X27: the node [hitTest] returns is the last painted one under the
    point.  In the order [render] paints the subtree (a node before its
    children, the children in the order of the list), every node that
    comes after the returned one answers null when tested by itself, or
    lies in a clipping container whose clip rectangle leaves the point
    out; and when [hitTest] returns null that holds for every node of the
    subtree. *)
Theorem hitTest_topmost_painted (h : gmap ref NodeObj) (p : Point R) (fuel : nat)
    (r : ref) (answer : option ref) :
  hitTest fuel h r p = Some answer ->
  match answer with
  | Some n =>
    exists before after,
      preorder fuel h r = before ++ n :: after /\
      forall m, In m after -> answersNull h p m \/ clippedAway h p r m
  | None =>
    forall m, In m (preorder fuel h r) -> answersNull h p m \/ clippedAway h p r m
  end.
Proof.
  destruct answer as [n |]; intros Hhit.
  - destruct (hitTest_last_painted h p fuel r n Hhit) as (before & after & Hpre & Hafter).
    exists before, after. split; [exact Hpre | exact Hafter].
  - intros m Hm. exact (hitTest_null_subtree h p fuel r Hhit m Hm).
Qed.

Lemma scene_overlap_top :
  hitTest 3 scene_overlap 0%nat (mkPoint 75 75) = Some (Some 2%nat).
Proof.
  rewrite (hitTest_container 2 scene_overlap 0%nat group_of_two _ eq_refl eq_refl).
  unfold Container_hitTest.
  change (clipRejects 2 scene_overlap 0%nat group_of_two (mkPoint 75 75)) with (Some false).
  cbn [mbind option_bind].
  apply (firstHit_rev _ [1%nat] [] 2%nat 2%nat); [intros x [] |].
  apply (scene_overlap_hits 2%nat rect_above eq_refl). right. reflexivity.
Qed.

Lemma hitTest_topmost_painted_witness :
  exists before after,
    preorder 3 scene_overlap 0%nat = before ++ 2%nat :: after /\
    forall m, In m after ->
      answersNull scene_overlap (mkPoint 75 75) m \/
      clippedAway scene_overlap (mkPoint 75 75) 0%nat m.
Proof.
  exact (hitTest_topmost_painted scene_overlap (mkPoint 75 75) 3 0%nat (Some 2%nat)
           scene_overlap_top).
Defined.

(** * Rendering: the state stack and the paint order *)

Lemma stackDepth_app (a b : list CtxCall) (d : nat) :
  stackDepth (a ++ b) d = stackDepth a d ≫= stackDepth b.
Proof.
  revert d. induction a as [| c a IH]; intros d; [reflexivity |].
  destruct c; cbn; try apply IH. destruct d; [reflexivity | apply IH].
Qed.

Lemma stackDepth_shift (a : list CtxCall) (k : nat) :
  forall d d', stackDepth a d = Some d' -> stackDepth a (k + d) = Some (k + d')%nat.
Proof.
  induction a as [| c a IH]; intros d d'; cbn.
  - intros [= <-]. reflexivity.
  - destruct c; try apply IH.
    + intros Ha. replace (S (k + d)) with (k + S d)%nat by lia. apply (IH (S d) d' Ha).
    + destruct d as [| d0]; [discriminate |]. intros Ha.
      rewrite Nat.add_succ_r. apply (IH d0 d' Ha).
Qed.

Lemma stackDepth_keeps (a : list CtxCall) (d : nat) :
  forallb keepsStack a = true -> stackDepth a d = Some d.
Proof.
  induction a as [| c a IH]; cbn; [reflexivity |].
  intros Hall. apply andb_prop in Hall as [Hc Ha].
  destruct c; try discriminate; apply IH; exact Ha.
Qed.

Lemma styleCalls_keeps (o : NodeObj) : forallb keepsStack (styleCalls o) = true.
Proof.
  unfold styleCalls.
  destruct (truthy (props o !! "filter")), (truthy (props o !! "shadowColor")); reflexivity.
Qed.

Lemma leaf_draw_appends (o : NodeObj) (ctx : list CtxCall) :
  exists calls, leaf_draw o ctx = ctx ++ calls /\ forallb keepsStack calls = true /\
                drawOrder calls = [].
Proof.
  unfold leaf_draw. destruct (kind o).
  - exists []. rewrite app_nil_r. auto.
  - eexists. split; [reflexivity |]. split; reflexivity.
  - eexists. split; [reflexivity |]. split; reflexivity.
  - exists []. rewrite app_nil_r. auto.
  - exists []. rewrite app_nil_r. auto.
Qed.

Lemma foldl_render_None (f : ref -> list CtxCall -> option (list CtxCall)) (l : list ref) :
  foldl (fun acc child => c ← acc; f child c) None l = None.
Proof. induction l as [| x l IH]; [reflexivity | exact IH]. Qed.

(** The calls one node's [render] wraps around what its [draw] does. *)
Lemma stackDepth_wrapped (o : NodeObj) (r : ref) (inner : list CtxCall) :
  stackDepth inner 0 = Some 0%nat ->
  stackDepth ([Save] ++ styleCalls o ++ [Transform (getTransform o)] ++ [Draw r]
                ++ inner ++ [Restore]) 0 = Some 0%nat.
Proof.
  intros Hinner. cbn [app stackDepth].
  rewrite stackDepth_app, (stackDepth_keeps _ 1 (styleCalls_keeps o)).
  cbn [mbind option_bind stackDepth].
  rewrite stackDepth_app.
  change (stackDepth inner 1) with (stackDepth inner (1 + 0)).
  rewrite (stackDepth_shift inner 1 0 0 Hinner). reflexivity.
Qed.

(** X10: whatever [render] returns, it has only appended calls to the
    context, and these calls are balanced: every [restore] closes a [save]
    of the same [render] call, and the state stack ends at the depth it
    started from. *)
Theorem render_balanced (fuel : nat) (h : gmap ref NodeObj) (r : ref)
    (viewport : option Rect) (ctx ctx' : list CtxCall) :
  render fuel h r viewport ctx = Some ctx' ->
  exists calls, ctx' = ctx ++ calls /\ stackDepth calls 0 = Some 0%nat.
Proof.
  revert r ctx ctx'. induction fuel as [| f IH]; intros r ctx ctx'; [discriminate |].
  rewrite render_S. destruct (h !! r) as [o |]; [| discriminate].
  cbn [mbind option_bind].
  destruct (match viewport with
            | Some vp =>
              bounds ← getGlobalBounds f h r;
              Some (Rltb 0 (rwidth bounds) && Rltb 0 (rheight bounds)
                    && isOutside bounds vp)
            | None => Some false
            end) as [[|] |]; cbn [mbind option_bind]; [| | discriminate].
  { intros [= <-]. exists []. rewrite app_nil_r. auto. }
  cbv zeta.
  set (ctx1 := ctx ++ [Save] ++ styleCalls o ++ [Transform (getTransform o)] ++ [Draw r]).
  assert (Hchildren : forall l c0 c',
             foldl (fun acc child => c ← acc; render f h child viewport c) (Some c0) l
             = Some c' ->
             exists calls, c' = c0 ++ calls /\ stackDepth calls 0 = Some 0%nat).
  { induction l as [| x l IHl]; intros c0 c'; cbn [foldl].
    - intros [= <-]. exists []. rewrite app_nil_r. auto.
    - change (Some c0 ≫= _) with (render f h x viewport c0).
      destruct (render f h x viewport c0) as [c1 |] eqn:Hx;
        [| rewrite foldl_render_None; discriminate].
      intros Hrest. destruct (IH x c0 c1 Hx) as (k1 & -> & Hk1).
      destruct (IHl _ _ Hrest) as (k2 & -> & Hk2).
      exists (k1 ++ k2). rewrite app_assoc. split; [reflexivity |].
      rewrite stackDepth_app, Hk1. exact Hk2. }
  assert (Hinner : forall drawn,
             match kind o with
             | KContainer => Container_draw (render f h) o viewport ctx1
             | _ => Some (leaf_draw o ctx1)
             end = Some drawn ->
             exists inner, drawn = ctx1 ++ inner /\ stackDepth inner 0 = Some 0%nat).
  { intros drawn Hdrawn.
    assert (Hleaf : Some (leaf_draw o ctx1) = Some drawn ->
                    exists inner, drawn = ctx1 ++ inner /\
                                  stackDepth inner 0 = Some 0%nat).
    { intros [= <-]. destruct (leaf_draw_appends o ctx1) as (calls & -> & Hkeep & _).
      exists calls. split; [reflexivity | apply stackDepth_keeps, Hkeep]. }
    destruct (kind o); try (apply Hleaf; exact Hdrawn).
    unfold Container_draw in Hdrawn.
    destruct (truthy (props o !! "clip")).
    - destruct (Hchildren _ _ _ Hdrawn) as (k & -> & Hk).
      eexists. rewrite <- app_assoc. split; [reflexivity |].
      cbn [app stackDepth]. exact Hk.
    - exact (Hchildren _ _ _ Hdrawn). }
  destruct (match kind o with
            | KContainer => Container_draw (render f h) o viewport ctx1
            | _ => Some (leaf_draw o ctx1)
            end) as [drawn |] eqn:Hdrawn; [| discriminate].
  cbn [mbind option_bind]. intros [= <-].
  destruct (Hinner drawn eq_refl) as (inner & -> & Hin).
  exists ([Save] ++ styleCalls o ++ [Transform (getTransform o)] ++ [Draw r]
            ++ inner ++ [Restore]).
  split; [| apply stackDepth_wrapped, Hin].
  unfold ctx1. rewrite <- !app_assoc. reflexivity.
Qed.

Lemma render_balanced_witness :
  exists ctx' calls,
    render 1 (heap world_target) 0%nat None [] = Some ctx' /\
    ctx' = [] ++ calls /\ stackDepth calls 0 = Some 0%nat.
Proof.
  destruct (render_leaf 0 (heap world_target) 0%nat []) as (ctx' & Hrender & _).
  { exists rect_target. split; [reflexivity | discriminate]. }
  destruct (render_balanced 1 (heap world_target) 0%nat None [] ctx' Hrender)
    as (calls & Happ & Hdepth).
  exists ctx', calls. auto.
Defined.

(** [Node.render] and [Container.draw] over a subtree that resolves. *)
Lemma render_paints_preorder (d : nat) (h : gmap ref NodeObj) (r : ref) :
  subtreeWithin h d r ->
  forall ctx,
  exists ctx', render d h r None ctx = Some ctx' /\
               drawOrder ctx' = drawOrder ctx ++ preorder d h r.
Proof.
  induction 1 as [d r o Hr Hk | d r o Hr Hk Hsub IH]; intros ctx.
  - rewrite render_S, Hr. cbn [mbind option_bind]. cbv zeta.
    assert (Hleaf : match kind o with
                    | KContainer =>
                      Container_draw (render d h) o None
                        (ctx ++ [Save] ++ styleCalls o ++ [Transform (getTransform o)]
                             ++ [Draw r])
                    | _ => Some (leaf_draw o
                        (ctx ++ [Save] ++ styleCalls o ++ [Transform (getTransform o)]
                             ++ [Draw r]))
                    end
                    = Some (leaf_draw o
                        (ctx ++ [Save] ++ styleCalls o ++ [Transform (getTransform o)]
                             ++ [Draw r])))
      by (destruct (kind o); congruence).
    rewrite Hleaf. cbn [mbind option_bind]. eexists. split; [reflexivity |].
    rewrite drawOrder_app, drawOrder_leaf_draw, drawOrder_prologue.
    cbn [preorder]. rewrite Hr.
    assert (Hnone : match kind o with
                    | KContainer => flat_map (preorder d h) (children o)
                    | _ => []
                    end = []) by (destruct (kind o); congruence).
    rewrite Hnone. cbn. rewrite app_nil_r. reflexivity.
  - rewrite render_S, Hr. cbn [mbind option_bind]. cbv zeta. rewrite Hk.
    unfold Container_draw.
    assert (Hchildren : forall l, (forall c, In c l -> In c (children o)) ->
               forall c0, exists c',
                 foldl (fun acc child => c ← acc; render d h child None c) (Some c0) l
                 = Some c' /\
                 drawOrder c' = drawOrder c0 ++ flat_map (preorder d h) l).
    { induction l as [| x l IHl]; intros Hin c0; cbn [foldl flat_map].
      - exists c0. rewrite app_nil_r. auto.
      - destruct (IH x (Hin x (or_introl eq_refl)) c0) as (c1 & Hx & Hd1).
        change (Some c0 ≫= _) with (render d h x None c0). rewrite Hx.
        destruct (IHl (fun c Hc => Hin c (or_intror Hc)) c1) as (c' & Hf & Hd).
        exists c'. split; [exact Hf |]. rewrite Hd, Hd1, <- app_assoc. reflexivity. }
    match goal with
    | |- context [foldl _ (Some ?c0) (children o)] =>
      destruct (Hchildren (children o) (fun c Hc => Hc) c0) as (c' & Hf & Hd)
    end.
    rewrite Hf. cbn [mbind option_bind]. eexists. split; [reflexivity |].
    rewrite drawOrder_app, Hd. cbn [drawOrder flat_map]. rewrite app_nil_r.
    cbn [preorder]. rewrite Hr, Hk.
    destruct (truthy (props o !! "clip")).
    + rewrite (drawOrder_app _ [BeginPath; _; Clip]), drawOrder_prologue. cbn.
      rewrite app_nil_r, <- app_assoc. reflexivity.
    + rewrite drawOrder_prologue, <- app_assoc. reflexivity.
Qed.

Lemma scene_overlap_subtree : subtreeWithin scene_overlap 2 0%nat.
Proof.
  apply (subtree_container scene_overlap 1 0%nat group_of_two eq_refl eq_refl).
  intros c [<- | [<- | []]].
  - exact (subtree_leaf scene_overlap 0 1%nat rect_below eq_refl
             ltac:(discriminate)).
  - exact (subtree_leaf scene_overlap 0 2%nat rect_above eq_refl
             ltac:(discriminate)).
Qed.

(** X11: without a viewport, [render] of a subtree whose references all
    resolve and which holds no Transformer returns, and calls [draw] on
    every node of the subtree once, depth first: a container before its
    children, the children in the order of the child sequence. *)
Theorem render_paints_subtree (d : nat) (sc : Scene) (r : ref) :
  subtreeWithin (heap (world sc)) d r -> plainBelow sc r ->
  forall ctx,
  exists ctx', Scene_render d sc r None ctx = Some ctx' /\
               drawOrder ctx' = drawOrder ctx ++ preorder d (heap (world sc)) r.
Proof.
  intros Hsub Hplain ctx.
  rewrite (Scene_render_plain d sc r Hplain None ctx).
  exact (render_paints_preorder d (heap (world sc)) r Hsub ctx).
Qed.

Lemma render_paints_subtree_witness :
  exists ctx', Scene_render 2 scene_overlap_selected 0%nat None [] = Some ctx' /\
               drawOrder ctx' = [0%nat; 1%nat; 2%nat].
Proof.
  exact (render_paints_subtree 2 scene_overlap_selected 0%nat
           scene_overlap_selected_subtree scene_overlap_selected_plain []).
Defined.

Lemma isOutside_false (bounds viewport : Rect) (q : Point R) :
  inRect q bounds -> inRect q viewport -> isOutside bounds viewport = false.
Proof.
  unfold inRect, isOutside. intros [Hbx Hby] [Hvx Hvy].
  rewrite !Rltb_false by lra. reflexivity.
Qed.

(** X12: with a viewport, a node that is not a container and whose global
    bounds share a point with the viewport, or have no width or no height,
    is always drawn: [render] calls its [draw] once. *)
Theorem render_keeps_visible (fuel : nat) (h : gmap ref NodeObj) (r : ref) (o : NodeObj)
    (bounds viewport : Rect) (ctx : list CtxCall) :
  h !! r = Some o -> kind o <> KContainer ->
  getGlobalBounds fuel h r = Some bounds ->
  rwidth bounds <= 0 \/ rheight bounds <= 0 \/
  (exists q, inRect q bounds /\ inRect q viewport) ->
  exists calls,
    render (S fuel) h r (Some viewport) ctx = Some (ctx ++ calls) /\
    drawOrder calls = [r].
Proof.
  intros Hr Hk Hb Hvis. rewrite render_S, Hr. cbn [mbind option_bind]. rewrite Hb.
  cbn [mbind option_bind].
  assert (Hcull : Rltb 0 (rwidth bounds) && Rltb 0 (rheight bounds)
                  && isOutside bounds viewport = false).
  { destruct Hvis as [Hw | [Hh | (q & Hqb & Hqv)]].
    - rewrite (Rltb_false 0 (rwidth bounds)) by lra. reflexivity.
    - rewrite (Rltb_false 0 (rheight bounds)) by lra. rewrite andb_false_r. reflexivity.
    - rewrite (isOutside_false _ _ q Hqb Hqv). apply andb_false_r. }
  rewrite Hcull. cbv zeta.
  assert (Hleaf : match kind o with
                  | KContainer =>
                    Container_draw (render fuel h) o (Some viewport)
                      (ctx ++ [Save] ++ styleCalls o ++ [Transform (getTransform o)]
                           ++ [Draw r])
                  | _ => Some (leaf_draw o
                      (ctx ++ [Save] ++ styleCalls o ++ [Transform (getTransform o)]
                           ++ [Draw r]))
                  end
                  = Some (leaf_draw o
                      (ctx ++ [Save] ++ styleCalls o ++ [Transform (getTransform o)]
                           ++ [Draw r])))
    by (destruct (kind o); congruence).
  rewrite Hleaf. cbn [mbind option_bind].
  destruct (leaf_draw_appends o
              (ctx ++ [Save] ++ styleCalls o ++ [Transform (getTransform o)] ++ [Draw r]))
    as (calls & -> & _ & Hd).
  exists ([Save] ++ styleCalls o ++ [Transform (getTransform o)] ++ [Draw r]
            ++ calls ++ [Restore]).
  split.
  - rewrite <- !app_assoc. reflexivity.
  - rewrite !drawOrder_app, drawOrder_styleCalls, Hd. reflexivity.
Qed.

Lemma scene_partly_inside_bounds :
  getGlobalBounds 1 scene_partly_inside 0%nat = Some (mkRect (-25) 100 50 50).
Proof.
  unfold getGlobalBounds.
  rewrite (getSelfBounds_leaf 0 scene_partly_inside 0%nat rect_partly_inside eq_refl)
    by discriminate.
  rewrite (getGlobalTransform_root 1 scene_partly_inside 0%nat rect_partly_inside
             eq_refl eq_refl).
  cbn [mbind option_bind].
  rewrite (getTransform_translation rect_partly_inside eq_refl eq_refl eq_refl).
  rewrite enclose_translation by (cbn; read_props; lra).
  cbn. read_props. do 2 f_equal; lra.
Qed.

Lemma render_keeps_visible_witness :
  exists calls,
    render 2 scene_partly_inside 0%nat (Some viewport_800_600) [] = Some ([] ++ calls) /\
    drawOrder calls = [0%nat].
Proof.
  apply (render_keeps_visible 1 scene_partly_inside 0%nat rect_partly_inside
           (mkRect (-25) 100 50 50) viewport_800_600 [] eq_refl).
  - discriminate.
  - exact scene_partly_inside_bounds.
  - right. right. exists (mkPoint 10 110). unfold inRect. cbn. lra.
Defined.


(** * Rendering: the transform at every draw *)

Lemma drawnUnder_app (a b : list CtxCall) (s : CtxState) :
  drawnUnder (a ++ b) s = drawnUnder a s ++ drawnUnder b (ctxAfter a s).
Proof.
  revert s. induction a as [| c a IH]; intros s; [reflexivity |].
  cbn [app drawnUnder ctxAfter foldl]. rewrite IH, <- app_assoc. reflexivity.
Qed.

Lemma ctxAfter_app (a b : list CtxCall) (s : CtxState) :
  ctxAfter (a ++ b) s = ctxAfter b (ctxAfter a s).
Proof. unfold ctxAfter. apply foldl_app. Qed.

Lemma ctxAfter_keeps (a : list CtxCall) (s : CtxState) :
  forallb keepsStack a = true ->
  forallb (fun c => match c with Transform _ => false | _ => true end) a = true ->
  ctxAfter a s = s /\ (drawOrder a = [] -> drawnUnder a s = []).
Proof.
  revert s. induction a as [| c a IH]; intros s Hk Ht; [split; reflexivity |].
  cbn in Hk, Ht. apply andb_prop in Hk as [Hc Hk]. apply andb_prop in Ht as [Hc' Ht].
  destruct c; try discriminate; cbn [ctxAfter foldl ctxStep drawnUnder];
    try (destruct (IH s Hk Ht) as [Hs Hd]; split; [exact Hs | exact Hd]).
  destruct (IH s Hk Ht) as [Hs Hd]. split; [exact Hs | discriminate].
Qed.

Lemma styleCalls_plain (o : NodeObj) (s : CtxState) :
  ctxAfter (styleCalls o) s = s /\ drawnUnder (styleCalls o) s = [].
Proof.
  destruct (ctxAfter_keeps (styleCalls o) s (styleCalls_keeps o)) as [Hs Hd].
  - unfold styleCalls.
    destruct (truthy (props o !! "filter")), (truthy (props o !! "shadowColor"));
      reflexivity.
  - split; [exact Hs | apply Hd, drawOrder_styleCalls].
Qed.

Lemma leaf_draw_plain (o : NodeObj) (ctx : list CtxCall) :
  exists calls, leaf_draw o ctx = ctx ++ calls /\
                forall s, ctxAfter calls s = s /\ drawnUnder calls s = [].
Proof.
  unfold leaf_draw. destruct (kind o).
  - exists []. rewrite app_nil_r. auto.
  - eexists. split; [reflexivity |]. intros s. split; reflexivity.
  - eexists. split; [reflexivity |]. intros s. split; reflexivity.
  - exists []. rewrite app_nil_r. auto.
  - exists []. rewrite app_nil_r. auto.
Qed.

(** What [render] of a node does to the state around what its [draw]
    does: nothing is left of it after the [restore]. *)
Lemma wrapped_state (o : NodeObj) (r : ref) (inner : list CtxCall) (s : CtxState) :
  ctxAfter inner (mkCtxState (multiply (current s) (getTransform o)) (current s :: saved s))
  = mkCtxState (multiply (current s) (getTransform o)) (current s :: saved s) ->
  ctxAfter ([Save] ++ styleCalls o ++ [Transform (getTransform o)] ++ [Draw r]
              ++ inner ++ [Restore]) s = s /\
  drawnUnder ([Save] ++ styleCalls o ++ [Transform (getTransform o)] ++ [Draw r]
                ++ inner ++ [Restore]) s
  = (r, multiply (current s) (getTransform o))
    :: drawnUnder inner
         (mkCtxState (multiply (current s) (getTransform o)) (current s :: saved s)).
Proof.
  intros Hinner.
  set (s1 := mkCtxState (current s) (current s :: saved s)).
  set (s2 := mkCtxState (multiply (current s) (getTransform o)) (current s :: saved s))
    in *.
  destruct (styleCalls_plain o s1) as [Hst Hsd].
  split.
  - rewrite !ctxAfter_app. change (ctxAfter [Save] s) with s1. rewrite Hst.
    change (ctxAfter [Transform (getTransform o)] s1) with s2.
    change (ctxAfter [Draw r] s2) with s2. rewrite Hinner.
    destruct s. reflexivity.
  - rewrite !drawnUnder_app. change (ctxAfter [Save] s) with s1. rewrite Hst, Hsd.
    change (ctxAfter [Transform (getTransform o)] s1) with s2.
    change (ctxAfter [Draw r] s2) with s2. rewrite Hinner. cbn. rewrite app_nil_r.
    reflexivity.
Qed.

Lemma render_in_global_space (M0 : Matrix2D R) (d : nat) (h : gmap ref NodeObj) (r : ref) :
  subtreeWithin h d r -> parentsAgree h ->
  forall o fr Gr ctx s,
    h !! r = Some o ->
    getGlobalTransform fr h r = Some Gr ->
    multiply (current s) (getTransform o) = multiply M0 Gr ->
    exists calls,
      render d h r None ctx = Some (ctx ++ calls) /\
      ctxAfter calls s = s /\
      map fst (drawnUnder calls s) = preorder d h r /\
      forall n m, In (n, m) (drawnUnder calls s) ->
        exists f G, getGlobalTransform f h n = Some G /\ m = multiply M0 G.
Proof.
  intros Hsub Hagree.
  induction Hsub as [d r o' Hr Hk | d r o' Hr Hk Hsub IH];
    intros o fr Gr ctx s Ho Hg Hcur; rewrite Hr in Ho; injection Ho as <-.
  - rewrite render_S, Hr. cbn [mbind option_bind]. cbv zeta.
    assert (Hleaf : match kind o' with
                    | KContainer =>
                      Container_draw (render d h) o' None
                        (ctx ++ [Save] ++ styleCalls o' ++ [Transform (getTransform o')]
                             ++ [Draw r])
                    | _ => Some (leaf_draw o'
                        (ctx ++ [Save] ++ styleCalls o' ++ [Transform (getTransform o')]
                             ++ [Draw r]))
                    end
                    = Some (leaf_draw o'
                        (ctx ++ [Save] ++ styleCalls o' ++ [Transform (getTransform o')]
                             ++ [Draw r])))
      by (destruct (kind o'); congruence).
    rewrite Hleaf. cbn [mbind option_bind].
    destruct (leaf_draw_plain o'
                (ctx ++ [Save] ++ styleCalls o' ++ [Transform (getTransform o')]
                     ++ [Draw r])) as (inner & -> & Hplain).
    destruct (wrapped_state o' r inner s (proj1 (Hplain _))) as [Hstate Hdrawn].
    exists ([Save] ++ styleCalls o' ++ [Transform (getTransform o')] ++ [Draw r]
              ++ inner ++ [Restore]).
    split; [rewrite <- !app_assoc; reflexivity |]. split; [exact Hstate |].
    rewrite Hdrawn, (proj2 (Hplain _)).
    split.
    + cbn [map fst preorder]. rewrite Hr.
      assert (Hnone : match kind o' with
                      | KContainer => flat_map (preorder d h) (children o')
                      | _ => []
                      end = []) by (destruct (kind o'); congruence).
      rewrite Hnone. reflexivity.
    + intros n m [[= <- <-] | []]. exists fr, Gr. split; [exact Hg | exact Hcur].
  - rewrite render_S, Hr. cbn [mbind option_bind]. cbv zeta. rewrite Hk.
    unfold Container_draw.
    set (s2 := mkCtxState (multiply (current s) (getTransform o')) (current s :: saved s)).
    assert (Hchildren : forall l, (forall c, In c l -> In c (children o')) ->
               forall c0, exists calls,
                 foldl (fun acc child => c ← acc; render d h child None c) (Some c0) l
                 = Some (c0 ++ calls) /\
                 ctxAfter calls s2 = s2 /\
                 map fst (drawnUnder calls s2) = flat_map (preorder d h) l /\
                 forall n m, In (n, m) (drawnUnder calls s2) ->
                   exists f G, getGlobalTransform f h n = Some G /\ m = multiply M0 G).
    { induction l as [| x l IHl]; intros Hin c0; cbn [foldl flat_map].
      - exists []. rewrite app_nil_r. split; [reflexivity |]. split; [reflexivity |].
        split; [reflexivity | intros n m []].
      - destruct (Hagree r o' x Hr (Hin x (or_introl eq_refl))) as (xo & Hxo & Hxp).
        destruct (IH x (Hin x (or_introl eq_refl)) xo (S fr)
                    (multiply Gr (getTransform xo)) c0 s2 Hxo)
          as (k1 & Hx & Hs1 & Hp1 & Hg1).
        { exact (getGlobalTransform_child fr h x r xo _ Hxo Hxp Hg). }
        { cbn [current s2]. rewrite Hcur. apply multiply_assoc. }
        change (Some c0 ≫= _) with (render d h x None c0). rewrite Hx.
        destruct (IHl (fun c Hc => Hin c (or_intror Hc)) (c0 ++ k1))
          as (k2 & Hf & Hs2 & Hp2 & Hg2).
        exists (k1 ++ k2). rewrite app_assoc. split; [exact Hf |].
        rewrite ctxAfter_app, drawnUnder_app, Hs1, map_app, Hp1, Hp2.
        split; [exact Hs2 |]. split; [reflexivity |].
        intros n m Hin'. apply in_app_or in Hin' as [Hin' | Hin'];
          [exact (Hg1 n m Hin') | exact (Hg2 n m Hin')]. }
    assert (Hinner : exists inner,
               foldl (fun acc child => c ← acc; render d h child None c)
                 (Some (if truthy (props o' !! "clip")
                        then (ctx ++ [Save] ++ styleCalls o'
                                  ++ [Transform (getTransform o')] ++ [Draw r])
                               ++ [BeginPath;
                                   RectPath (rx (clipRect (props o')))
                                     (ry (clipRect (props o')))
                                     (rwidth (clipRect (props o')))
                                     (rheight (clipRect (props o')));
                                   Clip]
                        else ctx ++ [Save] ++ styleCalls o'
                                 ++ [Transform (getTransform o')] ++ [Draw r]))
                 (children o')
               = Some ((ctx ++ [Save] ++ styleCalls o' ++ [Transform (getTransform o')]
                            ++ [Draw r]) ++ inner) /\
               ctxAfter inner s2 = s2 /\
               map fst (drawnUnder inner s2) = flat_map (preorder d h) (children o') /\
               forall n m, In (n, m) (drawnUnder inner s2) ->
                 exists f G, getGlobalTransform f h n = Some G /\ m = multiply M0 G).
    { destruct (truthy (props o' !! "clip")).
      - destruct (Hchildren (children o') (fun c Hc => Hc)
                    ((ctx ++ [Save] ++ styleCalls o' ++ [Transform (getTransform o')]
                          ++ [Draw r])
                       ++ [BeginPath;
                           RectPath (rx (clipRect (props o'))) (ry (clipRect (props o')))
                             (rwidth (clipRect (props o'))) (rheight (clipRect (props o')));
                           Clip]))
          as (k & Hf & Hs & Hp & Hgs).
        exists ([BeginPath;
                 RectPath (rx (clipRect (props o'))) (ry (clipRect (props o')))
                   (rwidth (clipRect (props o'))) (rheight (clipRect (props o')));
                 Clip] ++ k).
        split; [rewrite (app_assoc _ _ k); exact Hf |].
        rewrite ctxAfter_app, drawnUnder_app. cbn [ctxAfter foldl ctxStep drawnUnder app].
        auto.
      - exact (Hchildren (children o') (fun c Hc => Hc) _). }
    destruct Hinner as (inner & Hf & Hs & Hp & Hgs).
    rewrite Hf. cbn [mbind option_bind].
    destruct (wrapped_state o' r inner s Hs) as [Hstate Hdrawn].
    exists ([Save] ++ styleCalls o' ++ [Transform (getTransform o')] ++ [Draw r]
              ++ inner ++ [Restore]).
    split; [rewrite <- !app_assoc; reflexivity |]. split; [exact Hstate |].
    rewrite Hdrawn. fold s2. split.
    + cbn [map fst preorder]. rewrite Hr, Hk, Hp. reflexivity.
    + intros n m [[= <- <-] | Hin]; [| exact (Hgs n m Hin)].
      exists fr, Gr. split; [exact Hg | exact Hcur].
Qed.

(** X26: [render] draws every node in the coordinates [hitTest] reads it
    in, in exact arithmetic.  For a root whose subtree resolves, holds no
    Transformer and in which every child names its container as parent,
    [render] without viewport returns; it leaves the context's transform
    and its stack of saved states as it found them; and, started with
    the context's transform at [M0], the [draw] of every node runs with
    the context's transform at [M0] followed by the node's global
    transform, the one [getGlobalTransform] computes from the chain of
    parents. *)
Theorem render_draws_in_global_space (M0 : Matrix2D R) (stack : list (Matrix2D R))
    (d : nat) (sc : Scene) (r : ref) (o : NodeObj) (ctx : list CtxCall) :
  subtreeWithin (heap (world sc)) d r -> plainBelow sc r ->
  parentsAgree (heap (world sc)) ->
  heap (world sc) !! r = Some o -> parent o = None ->
  exists calls,
    Scene_render d sc r None ctx = Some (ctx ++ calls) /\
    ctxAfter calls (mkCtxState M0 stack) = mkCtxState M0 stack /\
    map fst (drawnUnder calls (mkCtxState M0 stack)) = preorder d (heap (world sc)) r /\
    forall n m, In (n, m) (drawnUnder calls (mkCtxState M0 stack)) ->
      exists f G, getGlobalTransform f (heap (world sc)) n = Some G /\ m = multiply M0 G.
Proof.
  intros Hsub Hplain Hagree Hr Hroot.
  rewrite (Scene_render_plain d sc r Hplain None ctx).
  apply (render_in_global_space M0 d (heap (world sc)) r Hsub Hagree o 0%nat
           (getTransform o)).
  - exact Hr.
  - exact (getGlobalTransform_root 0 (heap (world sc)) r o Hr Hroot).
  - reflexivity.
Qed.

Lemma render_draws_in_global_space_witness :
  exists calls,
    Scene_render 2 scene_overlap_selected 0%nat None [] = Some ([] ++ calls) /\
    ctxAfter calls (mkCtxState identity []) = mkCtxState identity [] /\
    map fst (drawnUnder calls (mkCtxState identity []))
    = preorder 2 (heap (world scene_overlap_selected)) 0%nat /\
    forall n m, In (n, m) (drawnUnder calls (mkCtxState identity [])) ->
      exists f G,
        getGlobalTransform f (heap (world scene_overlap_selected)) n = Some G /\
        m = multiply identity G.
Proof.
  exact (render_draws_in_global_space identity [] 2 scene_overlap_selected 0%nat
           group_of_two [] scene_overlap_selected_subtree scene_overlap_selected_plain
           scene_overlap_selected_parents eq_refl eq_refl).
Defined.

(** * Container: the bounds of the children *)

Lemma corners_ordered (m : Matrix2D R) (b : Rect) :
  cornersMinX m b <= cornersMaxX m b /\ cornersMinY m b <= cornersMaxY m b.
Proof.
  unfold cornersMinX, cornersMaxX, cornersMinY, cornersMaxY. split.
  - destruct (min4_le (px (corner1 m b)) (px (corner2 m b)) (px (corner3 m b))
                (px (corner4 m b))) as (? & _).
    destruct (max4_ge (px (corner1 m b)) (px (corner2 m b)) (px (corner3 m b))
                (px (corner4 m b))) as (? & _). lra.
  - destruct (min4_le (py (corner1 m b)) (py (corner2 m b)) (py (corner3 m b))
                (py (corner4 m b))) as (? & _).
    destruct (max4_ge (py (corner1 m b)) (py (corner2 m b)) (py (corner3 m b))
                (py (corner4 m b))) as (? & _). lra.
Qed.

Lemma extend_reaches (acc : option Extent) (m : Matrix2D R) (b : Rect) :
  reaches (extend acc m b) m b /\
  (forall e, acc = Some e -> extentGrows e (extend acc m b)) /\
  extentOrdered (extend acc m b).
Proof.
  destruct (corners_ordered m b) as [Hx Hy].
  unfold reaches, extentGrows, extentOrdered. destruct acc as [e |]; cbn.
  - pose proof (Rmin_l (minX e) (cornersMinX m b)).
    pose proof (Rmin_r (minX e) (cornersMinX m b)).
    pose proof (Rmin_l (minY e) (cornersMinY m b)).
    pose proof (Rmin_r (minY e) (cornersMinY m b)).
    pose proof (Rmax_l (maxX e) (cornersMaxX m b)).
    pose proof (Rmax_r (maxX e) (cornersMaxX m b)).
    pose proof (Rmax_l (maxY e) (cornersMaxY m b)).
    pose proof (Rmax_r (maxY e) (cornersMaxY m b)).
    split; [lra |]. split; [| lra]. intros e0 [= <-]. lra.
  - split; [lra |]. split; [discriminate | lra].
Qed.

(** The loop of [Container.getSelfBounds] over children whose bounds are
    known. *)
Lemma getSelfBounds_loop (f : nat) (h : gmap ref NodeObj) (l : list ref) :
  (forall child, In child l ->
     exists co cb, h !! child = Some co /\ getSelfBounds f h child = Some cb) ->
  forall acc,
  exists e,
    foldl (fun acc child =>
             a ← acc;
             childBounds ← getSelfBounds f h child;
             co ← h !! child;
             Some (Some (extend a (getTransform co) childBounds)))
          (Some acc) l
    = Some e /\
    (l <> [] -> exists e', e = Some e' /\ extentOrdered e') /\
    (forall e0 e', acc = Some e0 -> e = Some e' -> extentGrows e0 e') /\
    (forall child co cb e', In child l -> h !! child = Some co ->
       getSelfBounds f h child = Some cb -> e = Some e' ->
       reaches e' (getTransform co) cb).
Proof.
  induction l as [| x l IH]; intros Hall acc; cbn [foldl].
  - exists acc. split; [reflexivity |]. split; [congruence |]. split.
    + intros e0 e' -> [= <-]. unfold extentGrows. lra.
    + intros child co cb e' [].
  - destruct (Hall x (or_introl eq_refl)) as (xo & xb & Hxo & Hxb).
    cbn [mbind option_bind]. rewrite Hxb, Hxo. cbn [mbind option_bind].
    destruct (extend_reaches acc (getTransform xo) xb) as (Hreach & Hgrow & Hord).
    set (a1 := extend acc (getTransform xo) xb) in *.
    destruct (IH (fun c Hc => Hall c (or_intror Hc)) (Some a1))
      as (e & Hfold & Hsome & Hgrows & Hreaches).
    exists e. split; [exact Hfold |].
    assert (He : exists e', e = Some e' /\ extentGrows a1 e').
    { destruct l as [| y l'].
      - cbn in Hfold. injection Hfold as <-. exists a1. split; [reflexivity |].
        unfold extentGrows. lra.
      - destruct Hsome as (e' & -> & _); [discriminate |]. exists e'.
        split; [reflexivity | exact (Hgrows a1 e' eq_refl eq_refl)]. }
    destruct He as (e' & -> & Hge).
    split; [| split].
    + intros _. exists e'. split; [reflexivity |].
      unfold extentGrows, extentOrdered in *. lra.
    + intros e0 e'' -> [= <-]. specialize (Hgrow e0 eq_refl).
      unfold extentGrows in *. lra.
    + intros child co cb e'' [<- | Hin] Hco Hcb [= <-].
      * rewrite Hxo in Hco. rewrite Hxb in Hcb. injection Hco as <-. injection Hcb as <-.
        unfold reaches, extentGrows in *. lra.
      * exact (Hreaches child co cb e' Hin Hco Hcb eq_refl).
Qed.

(** X13: the self-bounds of a container whose children all have bounds
    have a width and a height that are not negative, are the zero box when
    it has no child, and hold the box of every child taken through that
    child's local transform. *)
Theorem container_bounds_union (f : nat) (h : gmap ref NodeObj) (c : ref) (o : NodeObj) :
  h !! c = Some o -> kind o = KContainer ->
  (forall child, In child (children o) ->
     exists co cb, h !! child = Some co /\ getSelfBounds f h child = Some cb) ->
  exists b,
    getSelfBounds (S f) h c = Some b /\
    0 <= rwidth b /\ 0 <= rheight b /\
    (children o = [] -> b = zeroRect) /\
    forall child co cb, In child (children o) -> h !! child = Some co ->
      getSelfBounds f h child = Some cb ->
      withinRect (enclose (getTransform co) cb) b.
Proof.
  intros Hc Hk Hall. cbn [getSelfBounds]. rewrite Hc. cbn [mbind option_bind]. rewrite Hk.
  destruct (children o) as [| x l] eqn:Hch.
  - exists zeroRect. split; [reflexivity |]. cbn. split; [lra |]. split; [lra |].
    split; [reflexivity |]. intros child co cb [].
  - destruct (getSelfBounds_loop f h (x :: l) Hall None)
      as (e & Hfold & Hsome & _ & Hreaches).
    destruct Hsome as (e' & -> & Hord); [discriminate |].
    rewrite Hfold. cbn [mbind option_bind]. eexists. split; [reflexivity |].
    unfold extentOrdered in Hord. cbn [rx ry rwidth rheight].
    split; [lra |]. split; [lra |]. split; [discriminate |].
    intros child co cb Hin Hco Hcb.
    pose proof (Hreaches child co cb e' Hin Hco Hcb eq_refl) as Hr.
    unfold reaches in Hr. unfold withinRect, enclose. cbn [rx ry rwidth rheight]. lra.
Qed.

Lemma container_bounds_union_witness :
  exists b,
    getSelfBounds 2 scene_nested 0%nat = Some b /\
    0 <= rwidth b /\ 0 <= rheight b /\
    withinRect (enclose (getTransform rect_at_5) (mkRect 0 0 20 20)) b.
Proof.
  destruct (container_bounds_union 1 scene_nested 0%nat group_at_10 eq_refl eq_refl)
    as (b & Hb & Hw & Hh & _ & Hin).
  { intros child [<- | []]. exists rect_at_5, (mkRect 0 0 20 20). split; reflexivity. }
  exists b. split; [exact Hb |]. split; [exact Hw |]. split; [exact Hh |].
  exact (Hin 1%nat rect_at_5 (mkRect 0 0 20 20) (or_introl eq_refl) eq_refl eq_refl).
Defined.


(** * Container: add and remove *)


Lemma indexOf_here (n : ref) (l1 l2 : list ref) :
  ~ In n l1 ->
  indexOf n (l1 ++ n :: l2) = Some (length l1) /\
  delete (length l1) (l1 ++ n :: l2) = l1 ++ l2.
Proof.
  induction l1 as [| y l1 IH]; cbn; intros Hnot.
  - destruct (decide (n = n)); [auto | congruence].
  - destruct (decide (y = n)) as [-> | Hne]; [exfalso; apply Hnot; left; reflexivity |].
    destruct IH as [Hidx Hdel]; [intros Hin; apply Hnot; right; exact Hin |].
    rewrite Hidx. split; [reflexivity |]. f_equal. exact Hdel.
Qed.

Lemma indexOf_first (n : ref) (l : list ref) :
  In n l ->
  exists l1 l2, l = l1 ++ n :: l2 /\ ~ In n l1 /\
                indexOf n l = Some (length l1) /\ delete (length l1) l = l1 ++ l2.
Proof.
  induction l as [| y l IH]; cbn; [intros [] |].
  intros Hin. destruct (decide (y = n)) as [-> | Hne].
  - exists [], l. cbn. auto.
  - destruct Hin as [Heq | Hin]; [congruence |].
    destruct (IH Hin) as (l1 & l2 & -> & Hnot & Hidx & Hdel).
    exists (y :: l1), l2. cbn. rewrite Hidx. split; [reflexivity |].
    split; [intros [Heq | Hin1]; [congruence | exact (Hnot Hin1)] |].
    split; [reflexivity |]. f_equal. exact Hdel.
Qed.

Section SortedByKey.
Variable z : ref -> R.

Local Abbreviation byKey := (fun a b : ref => z a <= z b).

Lemma byKey_strongly (l : list ref) : Sorted byKey l -> StronglySorted byKey l.
Proof.
  apply Sorted_StronglySorted. intros a b c Hab Hbc. cbn in *. lra.
Qed.

Lemma sorted_without (l1 l2 : list ref) (n : ref) :
  Sorted byKey (l1 ++ n :: l2) -> Sorted byKey (l1 ++ l2).
Proof.
  intros Hs. apply StronglySorted_Sorted. apply byKey_strongly in Hs.
  induction l1 as [| x l1 IH]; cbn in *.
  - inversion Hs; assumption.
  - inversion Hs as [| ? ? Hrest Hall]; subst. constructor; [apply IH, Hrest |].
    rewrite Forall_app in Hall |- *. destruct Hall as [H1 H2].
    split; [exact H1 | inversion H2; assumption].
Qed.



End SortedByKey.








Lemma remove_heap (w : World) (c n : ref) (co no : NodeObj) (l1 l2 : list ref) :
  heap w !! c = Some co -> heap w !! n = Some no -> c <> n ->
  children co = l1 ++ n :: l2 -> ~ In n l1 ->
  heap (remove c n w)
  = <[n := with_parent None no]> (<[c := with_children (l1 ++ l2) co]> (heap w)) /\
  exists l, redraws (remove c n w) = redraws w ++ c :: l.
Proof.
  intros Hc Hn Hne Hl Hnot. unfold remove. rewrite Hc, Hl.
  destruct (indexOf_here n l1 l2 Hnot) as [-> ->]. cbv zeta.
  assert (Hn1 : heap (store c (with_children (l1 ++ l2) co) w) !! n = Some no)
    by (cbn; rewrite lookup_insert_ne by exact Hne; exact Hn).
  rewrite Hn1. split; [reflexivity |].
  unfold requestRedraw. cbn [redraws store heap].
  match goal with |- context [requestRedraw_chain ?f ?h c] =>
    assert (Hchain : exists l, requestRedraw_chain f h c = c :: l)
      by (destruct f; cbn; eauto)
  end.
  destruct Hchain as (l & ->). eauto.
Qed.

(** X15: [Container.remove] of a node that is in the child list takes out
    its first occurrence and keeps the others in their order (sorted
    children stay sorted), sets the node's parent to null, changes no
    other object, and requests a redraw on the container. *)
Theorem remove_detaches (w : World) (c n : ref) (co no : NodeObj) :
  heap w !! c = Some co -> heap w !! n = Some no -> c <> n -> In n (children co) ->
  exists co' no' l1 l2,
    children co = l1 ++ n :: l2 /\ ~ In n l1 /\
    heap (remove c n w) !! c = Some co' /\ children co' = l1 ++ l2 /\
    heap (remove c n w) !! n = Some no' /\ parent no' = None /\
    (forall k, k <> c -> k <> n -> heap (remove c n w) !! k = heap w !! k) /\
    (exists l, redraws (remove c n w) = redraws w ++ c :: l) /\
    (childrenSorted (heap w) (children co) ->
     childrenSorted (heap (remove c n w)) (children co')).
Proof.
  intros Hc Hn Hne Hin.
  destruct (indexOf_first n (children co) Hin) as (l1 & l2 & Hl & Hnot & _ & _).
  destruct (remove_heap w c n co no l1 l2 Hc Hn Hne Hl Hnot) as [Hheap Hlog].
  exists (with_children (l1 ++ l2) co), (with_parent None no), l1, l2.
  rewrite Hheap.
  split; [exact Hl |]. split; [exact Hnot |].
  split; [rewrite lookup_insert_ne by congruence; apply lookup_insert_eq |].
  split; [reflexivity |]. split; [apply lookup_insert_eq |]. split; [reflexivity |].
  split; [| split; [exact Hlog |]].
  - intros k Hkc Hkn. rewrite !lookup_insert_ne by congruence. reflexivity.
  - intros Hsorted. rewrite Hl in Hsorted. cbn [children with_children].
    unfold childrenSorted in *.
    apply (Sorted_weaken (fun a b => zIndexOf (heap w) a <= zIndexOf (heap w) b)).
    + intros a b.
      rewrite !(zIndexOf_insert_same _ n no) by
        (first [rewrite lookup_insert_ne by congruence; exact Hn | reflexivity]).
      rewrite !(zIndexOf_insert_same _ c co) by (first [exact Hc | reflexivity]).
      tauto.
    + exact (sorted_without (zIndexOf (heap w)) l1 l2 n Hsorted).
Qed.

Lemma remove_detaches_witness :
  exists co' no',
    heap (remove 0%nat 1%nat world_apart) !! 0%nat = Some co' /\
    ~ In 1%nat (children co') /\
    heap (remove 0%nat 1%nat world_apart) !! 1%nat = Some no' /\ parent no' = None.
Proof.
  destruct (remove_detaches world_apart 0%nat 1%nat
              (with_children [1%nat] (construct KContainer ∅))
              (with_parent (Some 0%nat) (construct KRect ∅))
              eq_refl eq_refl)
    as (co' & no' & l1 & l2 & Hl & Hnot & Hc & Hch & Hn & Hpar & _).
  - discriminate.
  - left. reflexivity.
  - exists co', no'. split; [exact Hc |]. split; [| split; [exact Hn | exact Hpar]].
    rewrite Hch. cbn in Hl.
    destruct l1 as [| x l1]; cbn in Hl.
    + injection Hl as <-. cbn. tauto.
    + injection Hl as <- Hrest. destruct l1; discriminate.
Defined.




(** * requestRedraw reaches the root *)

(** X17: [requestRedraw] on a node whose chain of parents ends changes no
    object and is received by the node and then by each ancestor, the
    nearest first; the last receiver is the root, the node without parent. *)
Theorem requestRedraw_bubbles (w : World) (r : ref) (l : list ref) :
  lineage (heap w) r l ->
  heap (requestRedraw r w) = heap w /\
  redraws (requestRedraw r w) = redraws w ++ l /\
  exists root o, last l = Some root /\ heap w !! root = Some o /\ parent o = None.
Proof.
  intros Hl. split; [reflexivity |]. split.
  - unfold requestRedraw. cbn [redraws]. f_equal.
    apply requestRedraw_chain_lineage; [exact Hl |].
    pose proof (lineage_length (heap w) r l Hl). lia.
  - clear -Hl. induction Hl as [r o Hr Hroot | r p o l Hr Hpar Hl IH].
    + exists r, o. auto.
    + destruct IH as (root & ro & Hlast & Hro & Hpr). exists root, ro.
      split; [| auto]. destruct l as [| x l']; [discriminate |]. exact Hlast.
Qed.

Lemma requestRedraw_bubbles_witness :
  redraws (requestRedraw 1%nat (mkWorld scene_nested [])) = [1%nat; 0%nat].
Proof.
  exact (proj1 (proj2
           (requestRedraw_bubbles (mkWorld scene_nested []) 1%nat [1%nat; 0%nat]
              (lineage_step scene_nested 1%nat 0%nat rect_at_5 [0%nat] eq_refl eq_refl
                 (lineage_root scene_nested 0%nat group_at_10 eq_refl eq_refl))))).
Defined.


(** * setProps: the fields and the property bag *)

Lemma sameFields_refl (o : NodeObj) : sameFields o o.
Proof. unfold sameFields. tauto. Qed.

Lemma sameFields_trans (o1 o2 o3 : NodeObj) :
  sameFields o1 o2 -> sameFields o2 o3 -> sameFields o1 o3.
Proof. unfold sameFields. intuition congruence. Qed.

Ltac same_fields :=
  unfold sameFields; cbn; intuition congruence.

Lemma sameFields_children (l : list ref) (o : NodeObj) : sameFields (with_children l o) o.
Proof. same_fields. Qed.

Lemma leaves_requestRedraw (r k : ref) (w : World) (o : NodeObj) :
  leaves r w o -> leaves r (requestRedraw k w) o.
Proof. intros H. exact H. Qed.

Lemma leaves_sortChildren (r c : ref) (w : World) (o : NodeObj) :
  leaves r w o -> leaves r (sortChildren c w) o.
Proof.
  intros (o1 & Ho1 & Hsame). unfold sortChildren.
  destruct (heap w !! c) as [co |] eqn:Hc; [| exists o1; auto].
  destruct (decide (c = r)) as [-> | Hne].
  - rewrite Ho1 in Hc. injection Hc as <-. eexists. split; [apply lookup_insert_eq |].
    eapply sameFields_trans; [apply sameFields_children | exact Hsame].
  - exists o1. split; [| exact Hsame]. cbn. rewrite lookup_insert_ne by exact Hne. exact Ho1.
Qed.

Lemma leaves_store (r : ref) (w : World) (o o' : NodeObj) :
  sameFields o o' -> leaves r (store r o w) o'.
Proof. intros Hsame. exists o. split; [apply lookup_insert_eq | exact Hsame]. Qed.

Section Setters.
Variables (w : World) (r : ref) (o1 o : NodeObj).
Hypothesis Hr : heap w !! r = Some o1.
Hypothesis Hsame : sameFields o1 o.

Lemma leaves_set_x (v : R) : leaves r (set_x r v w) (with_x v o).
Proof.
  unfold set_x. rewrite Hr. destruct (Req_dec_T (_x o1) v) as [Heq | Hne].
  - rewrite (Reqb_true _ _ Heq). cbn. exists o1. split; [exact Hr |].
    revert Hsame. subst v. same_fields.
  - rewrite (Reqb_false _ _ Hne). cbn. apply leaves_requestRedraw, leaves_store.
    revert Hsame. same_fields.
Qed.

Lemma leaves_set_y (v : R) : leaves r (set_y r v w) (with_y v o).
Proof.
  unfold set_y. rewrite Hr. destruct (Req_dec_T (_y o1) v) as [Heq | Hne].
  - rewrite (Reqb_true _ _ Heq). cbn. exists o1. split; [exact Hr |].
    revert Hsame. subst v. same_fields.
  - rewrite (Reqb_false _ _ Hne). cbn. apply leaves_requestRedraw, leaves_store.
    revert Hsame. same_fields.
Qed.

Lemma leaves_set_rotation (v : R) : leaves r (set_rotation r v w) (with_rotation v o).
Proof.
  unfold set_rotation. rewrite Hr. destruct (Req_dec_T (_rotation o1) v) as [Heq | Hne].
  - rewrite (Reqb_true _ _ Heq). cbn. exists o1. split; [exact Hr |].
    revert Hsame. subst v. same_fields.
  - rewrite (Reqb_false _ _ Hne). cbn. apply leaves_requestRedraw, leaves_store.
    revert Hsame. same_fields.
Qed.

Lemma leaves_set_scaleX (v : R) : leaves r (set_scaleX r v w) (with_scaleX v o).
Proof.
  unfold set_scaleX. rewrite Hr. destruct (Req_dec_T (_scaleX o1) v) as [Heq | Hne].
  - rewrite (Reqb_true _ _ Heq). cbn. exists o1. split; [exact Hr |].
    revert Hsame. subst v. same_fields.
  - rewrite (Reqb_false _ _ Hne). cbn. apply leaves_requestRedraw, leaves_store.
    revert Hsame. same_fields.
Qed.

Lemma leaves_set_scaleY (v : R) : leaves r (set_scaleY r v w) (with_scaleY v o).
Proof.
  unfold set_scaleY. rewrite Hr. destruct (Req_dec_T (_scaleY o1) v) as [Heq | Hne].
  - rewrite (Reqb_true _ _ Heq). cbn. exists o1. split; [exact Hr |].
    revert Hsame. subst v. same_fields.
  - rewrite (Reqb_false _ _ Hne). cbn. apply leaves_requestRedraw, leaves_store.
    revert Hsame. same_fields.
Qed.

Lemma leaves_set_zIndex (v : R) : leaves r (set_zIndex r v w) (with_zIndex v o).
Proof.
  unfold set_zIndex. rewrite Hr. destruct (Req_dec_T (_zIndex o1) v) as [Heq | Hne].
  - rewrite (Reqb_true _ _ Heq). cbn. exists o1. split; [exact Hr |].
    revert Hsame. subst v. same_fields.
  - rewrite (Reqb_false _ _ Hne). cbn [negb]. cbv zeta.
    assert (Hstored : leaves r (requestRedraw r (store r (with_zIndex v o1) w))
                        (with_zIndex v o)).
    { apply leaves_requestRedraw, leaves_store. revert Hsame. same_fields. }
    destruct (parent o1) as [p |]; [| exact Hstored].
    destruct (heap (requestRedraw r (store r (with_zIndex v o1) w)) !! p) as [po |];
      [| exact Hstored].
    destruct (kind po); try exact Hstored.
    apply leaves_sortChildren, Hstored.
Qed.

Lemma leaves_set_cursor (v : string) : leaves r (set_cursor r v w) (with_cursor v o).
Proof.
  unfold set_cursor. rewrite Hr. apply leaves_store. revert Hsame. same_fields.
Qed.

Lemma leaves_set_draggable (v : bool) :
  leaves r (set_draggable r v w) (with_draggable v o).
Proof.
  unfold set_draggable. rewrite Hr. apply leaves_store. revert Hsame. same_fields.
Qed.

End Setters.

Section Assign.
Variables (r : ref) (np : Props).

Lemma leaves_assignNum (key : string) (setter : ref -> R -> World -> World)
    (withField : R -> NodeObj -> NodeObj) :
  (forall w a o v, heap w !! r = Some a -> sameFields a o ->
     leaves r (setter r v w) (withField v o)) ->
  forall w o, leaves r w o ->
    leaves r (assignNum key setter np r w) (optNum (np !! key) withField o).
Proof.
  intros Hset w o Hw. unfold assignNum, optNum.
  destruct (np !! key) as [[v | | |] |]; try exact Hw.
  destruct Hw as (a & Ha & Hs). exact (Hset w a o v Ha Hs).
Qed.

Lemma leaves_assign_cursor (w : World) (o : NodeObj) :
  leaves r w o ->
  leaves r (match np !! "cursor" with Some (VStr s) => set_cursor r s w | _ => w end)
    (optStr (np !! "cursor") with_cursor o).
Proof.
  intros Hw. unfold optStr. destruct (np !! "cursor") as [[| | s |] |]; try exact Hw.
  destruct Hw as (a & Ha & Hs). exact (leaves_set_cursor w r a o Ha Hs s).
Qed.

Lemma leaves_assign_draggable (w : World) (o : NodeObj) :
  leaves r w o ->
  leaves r (match np !! "draggable" with
            | Some (VBool b) => set_draggable r b w | _ => w end)
    (optBool (np !! "draggable") with_draggable o).
Proof.
  intros Hw. unfold optBool. destruct (np !! "draggable") as [[| b | |] |]; try exact Hw.
  destruct Hw as (a & Ha & Hs). exact (leaves_set_draggable w r a o Ha Hs b).
Qed.

Lemma leaves_assignAccessors (w : World) (o : NodeObj) :
  heap w !! r = Some o -> leaves r (assignAccessors r np w) (assigned np o).
Proof.
  intros Hr. unfold assignAccessors, assigned. cbv zeta.
  apply leaves_assign_draggable, leaves_assign_cursor.
  apply (leaves_assignNum "zIndex" set_zIndex with_zIndex);
    [intros; apply leaves_set_zIndex with (o1 := a); assumption |].
  apply (leaves_assignNum "scaleY" set_scaleY with_scaleY);
    [intros; apply leaves_set_scaleY with (o1 := a); assumption |].
  apply (leaves_assignNum "scaleX" set_scaleX with_scaleX);
    [intros; apply leaves_set_scaleX with (o1 := a); assumption |].
  apply (leaves_assignNum "rotation" set_rotation with_rotation);
    [intros; apply leaves_set_rotation with (o1 := a); assumption |].
  apply (leaves_assignNum "y" set_y with_y);
    [intros; apply leaves_set_y with (o1 := a); assumption |].
  apply (leaves_assignNum "x" set_x with_x);
    [intros; apply leaves_set_x with (o1 := a); assumption |].
  exists o. split; [exact Hr | apply sameFields_refl].
Qed.

End Assign.

Section Assigned.
Context {A : Type} (field : NodeObj -> A).

Lemma keep_num (withField : R -> NodeObj -> NodeObj) (c : option Value) (o : NodeObj) :
  (forall v o, field (withField v o) = field o) ->
  field (optNum c withField o) = field o.
Proof. intros H. destruct c as [[v | | |] |]; cbn; auto. Qed.

Lemma keep_str (withField : string -> NodeObj -> NodeObj) (c : option Value)
    (o : NodeObj) :
  (forall v o, field (withField v o) = field o) ->
  field (optStr c withField o) = field o.
Proof. intros H. destruct c as [[| | v |] |]; cbn; auto. Qed.

Lemma keep_bool (withField : bool -> NodeObj -> NodeObj) (c : option Value)
    (o : NodeObj) :
  (forall v o, field (withField v o) = field o) ->
  field (optBool c withField o) = field o.
Proof. intros H. destruct c as [[| v | |] |]; cbn; auto. Qed.

End Assigned.

Lemma take_num (field : NodeObj -> R) (withField : R -> NodeObj -> NodeObj)
    (c : option Value) (o : NodeObj) :
  (forall v o, field (withField v o) = v) ->
  field (optNum c withField o) = match c with Some (VNum v) => v | _ => field o end.
Proof. intros H. destruct c as [[v | | |] |]; cbn; auto. Qed.

Ltac keep_fields :=
  repeat first
    [ rewrite keep_bool by reflexivity
    | rewrite keep_str by reflexivity
    | rewrite keep_num by reflexivity ].

Lemma assigned_props (np : Props) (o : NodeObj) : props (assigned np o) = props o.
Proof. unfold assigned. keep_fields. reflexivity. Qed.

Lemma assigned_kind (np : Props) (o : NodeObj) : kind (assigned np o) = kind o.
Proof. unfold assigned. keep_fields. reflexivity. Qed.

Lemma assigned_parent (np : Props) (o : NodeObj) : parent (assigned np o) = parent o.
Proof. unfold assigned. keep_fields. reflexivity. Qed.

Lemma assigned_field (np : Props) (o : NodeObj) (key : string) (field : NodeObj -> R) :
  transformField key = Some field ->
  field (assigned np o) = match np !! key with Some (VNum v) => v | _ => field o end.
Proof.
  unfold transformField. intros Hfield.
  repeat match type of Hfield with
         | (if String.eqb key ?s then _ else _) = _ =>
           destruct (String.eqb_spec key s) as [-> | _];
             [injection Hfield as <-; unfold assigned; keep_fields;
              rewrite take_num by reflexivity; keep_fields; reflexivity |]
         end.
  discriminate.
Qed.

Lemma transformField_cases (key : string) (field : NodeObj -> R) :
  transformField key = Some field ->
  forall o1 o2, sameFields o1 o2 -> field o1 = field o2.
Proof.
  unfold transformField, sameFields. intros Hfield o1 o2 H.
  repeat match type of Hfield with
         | (if String.eqb key ?s then _ else _) = _ =>
           destruct (String.eqb key s); [injection Hfield as <-; tauto |]
         end.
  discriminate.
Qed.

(** X18: on a node whose chain of parents ends, [setProps(newProps)]
    with a partial that holds numbers under the transform keys and has
    no key naming a field or a method of the node (and is no [src] or
    [image] for an Image) returns, and after it the property bag is the
    old one overridden by [newProps] (a key of [newProps] reads its new
    value, any other key what it read before), the event handlers are
    those of the merged bag, each of x, y, rotation, scaleX, scaleY and
    zIndex reads the number [newProps] gives for it, or its previous
    value when it gives none, and the class and the parent are
    unchanged. *)
Theorem setProps_merges (w : World) (r : ref) (o : NodeObj) (np : Props) (l : list ref) :
  heap w !! r = Some o -> lineage (heap w) r l ->
  followed np = true -> updatesImage (kind o) np = false ->
  exists w' o',
    setProps r np w = Some w' /\
    heap w' !! r = Some o' /\
    props o' = np ∪ props o /\
    (forall k v, np !! k = Some v -> props o' !! k = Some v) /\
    (forall k, np !! k = None -> props o' !! k = props o !! k) /\
    events o'
    = mkEvents (props o' !! "onClick") (props o' !! "onMouseEnter")
        (props o' !! "onMouseLeave") (props o' !! "onDragStart")
        (props o' !! "onDragMove") (props o' !! "onDragEnd") /\
    (forall key field, transformField key = Some field ->
       field o' = match np !! key with Some (VNum v) => v | _ => field o end) /\
    kind o' = kind o /\ parent o' = parent o /\
    exists l1, redraws w' = redraws w ++ l1 ++ l.
Proof.
  intros Hr Hl Hf Hi.
  destruct (leaves_assignAccessors r np w o Hr) as (o1 & Ho1 & Hsame).
  eexists. eexists. split; [exact (setProps_followed w r o np Hr Hf Hi) |].
  assert (Hlog : exists l1,
            redraws (storeProps r np (assignAccessors r np w)) = redraws w ++ l1 ++ l).
  { destruct (logGrows_assignAccessors r np w) as [[l1 Hl1] _]. exists l1.
    rewrite (redraws_storeProps _ r o1 np l Ho1), Hl1, app_assoc; [reflexivity |].
    exact (lineage_sameLinks _ _ r l (sameLinks_assignAccessors r np w) Hl). }
  revert Hlog. unfold storeProps. rewrite Ho1. cbv zeta. intros Hlog.
  split; [apply lookup_insert_eq |].
  assert (Hp : props o1 = props o).
  { destruct Hsame as (_ & _ & _ & _ & _ & _ & _ & _ & _ & Hprops & _).
    rewrite Hprops. apply assigned_props. }
  cbn [props events kind parent updateEvents with_events with_props].
  cbn [props with_props] in Hlog. rewrite Hp in Hlog.
  rewrite Hp. split; [reflexivity |]. split; [| split; [| split; [reflexivity |]]].
  - intros k v Hk. apply lookup_union_Some_l. exact Hk.
  - intros k Hk. apply lookup_union_r. exact Hk.
  - split; [| split; [| split; [| exact Hlog]]].
    + intros key field Hfield.
      rewrite <- (assigned_field np o key field Hfield).
      rewrite <- (transformField_cases key field Hfield o1 (assigned np o) Hsame).
      unfold transformField in Hfield.
      repeat match type of Hfield with
             | (if String.eqb key ?s then _ else _) = _ =>
               destruct (String.eqb key s); [injection Hfield as <-; reflexivity |]
             end.
      discriminate.
    + destruct Hsame as (_ & _ & _ & _ & _ & _ & _ & _ & _ & _ & _ & Hkind).
      rewrite Hkind. apply assigned_kind.
    + destruct Hsame as (_ & _ & _ & _ & _ & _ & _ & _ & Hpar & _).
      rewrite Hpar. apply assigned_parent.
Qed.

Lemma setProps_merges_witness :
  exists w' o',
    setProps 0%nat {[ "x" := VNum 50 ]} world_origin = Some w' /\
    heap w' !! 0%nat = Some o' /\
    _x o' = 50 /\ props o' !! "x" = Some (VNum 50).
Proof.
  pose proof (setProps_merges world_origin 0%nat node_origin {[ "x" := VNum 50 ]} [0%nat]
                eq_refl
                (lineage_root (heap world_origin) 0%nat node_origin eq_refl eq_refl))
    as Hmerged.
  destruct (Hmerged eq_refl eq_refl)
    as (w' & o' & Hw' & Ho' & _ & Hnew & _ & _ & Hfield & _).
  exists w', o'. split; [exact Hw' |]. split; [exact Ho' |]. split.
  - exact (Hfield "x" _x eq_refl).
  - exact (Hnew "x" (VNum 50) eq_refl).
Defined.

(** * Transformer: the cursor of a handle *)


Lemma Math_round_integer (k : Z) : Math_round (IZR k) = k.
Proof.
  unfold Math_round. symmetry. apply Int_part_spec. lra.
Qed.

Lemma finalIndex_range (i : nat) (steps : Z) :
  (0 <= Z.rem (Z.rem (Z.of_nat i + steps) 8 + 8) 8 < 8)%Z.
Proof. Z.to_euclidean_division_equations. lia. Qed.

Lemma finalIndex_mod (i : nat) (steps : Z) :
  Z.rem (Z.rem (Z.of_nat i + steps) 8 + 8) 8 = ((Z.of_nat i + steps) mod 8)%Z.
Proof. Z.to_euclidean_division_equations. lia. Qed.

Lemma arrayAt_cursors (j : Z) :
  (0 <= j < 8)%Z -> exists s, arrayAt cursors j = Some s /\ In s cursors.
Proof.
  intros Hj. unfold arrayAt. destruct (Z.ltb_spec j 0) as [Hneg | _]; [lia |].
  assert (Hn : (Z.to_nat j < 8)%nat) by lia.
  destruct (Z.to_nat j) as [| [| [| [| [| [| [| [| n]]]]]]]]; cbn; try lia;
    eexists; (split; [reflexivity |]); cbn; tauto.
Qed.

Lemma indexOfName_lookup (name : string) (l : list string) (i : nat) :
  indexOfName name l = Some i -> l !! i = Some name.
Proof.
  revert i. induction l as [| y l IH]; intros i; cbn; [discriminate |].
  destruct (String.eqb_spec y name) as [-> | Hne].
  - intros [= <-]. reflexivity.
  - destruct (indexOfName name l) as [j |]; cbn; [| discriminate].
    intros [= <-]. cbn. apply IH. reflexivity.
Qed.

Lemma indexOfName_range (name : string) (i : nat) :
  indexOfName name anchors = Some i -> (i < 8)%nat.
Proof.
  intros Hidx. apply indexOfName_lookup in Hidx.
  apply lookup_lt_Some in Hidx. exact Hidx.
Qed.


Lemma anchors_indexOfName (i : nat) (name : string) :
  anchors !! i = Some name ->
  indexOfName name anchors = Some i /\ String.eqb name "rotator" = false.
Proof.
  unfold anchors.
  destruct i as [| [| [| [| [| [| [| [| n]]]]]]]]; cbn; try discriminate;
    intros [= <-]; split; reflexivity.
Qed.

Lemma arrayAt_nonneg (l : list string) (j : Z) :
  (0 <= j)%Z -> arrayAt l j = l !! Z.to_nat j.
Proof. intros Hj. unfold arrayAt. destruct (Z.ltb_spec j 0); [lia | reflexivity]. Qed.

Lemma getCursorForAnchor_cases (fuel : nat) (t : Transformer) (anchorName : string)
    (w : World) :
  (forall tg, target t = Some tg -> is_Some (getGlobalTransform fuel (heap w) tg)) ->
  exists s, getCursorForAnchor fuel t anchorName w = Some s /\
            In s ("grab" :: "default" :: cursors).
Proof.
  intros Hres. unfold getCursorForAnchor.
  destruct (String.eqb anchorName "rotator"); [exists "grab"; cbn; auto |].
  destruct (indexOfName anchorName anchors) as [index |] eqn:Hidx;
    [| exists "default"; cbn; auto].
  pose proof (indexOfName_range anchorName index Hidx) as Hlt.
  destruct (target t) as [tg |].
  - destruct (Hres tg eq_refl) as [g ->]. cbn [mbind option_bind]. cbv zeta.
    destruct (arrayAt_cursors _ (finalIndex_range index
                (Math_round (d_rotation (decompose g) / (PI / 4))))) as (s & -> & Hin).
    exists s. split; [reflexivity |]. right. right. exact Hin.
  - destruct index as [| [| [| [| [| [| [| [| n]]]]]]]]; try lia;
      eexists; (split; [reflexivity |]); cbn; tauto.
Qed.

(** X19: [getCursorForAnchor] returns 'grab', 'default' or one of the
    eight resize cursors (never [undefined]) whenever the target's
    transform resolves; for a target without parent, with positive scales,
    rotated by k eighths of a turn (-4 < k <= 4), the cursor of the i-th
    anchor is the resize cursor of index (i + k) mod 8. *)
Theorem getCursorForAnchor_follows (fuel : nat) (t : Transformer) (w : World) :
  (forall anchorName,
     (forall tg, target t = Some tg -> is_Some (getGlobalTransform fuel (heap w) tg)) ->
     exists s, getCursorForAnchor fuel t anchorName w = Some s /\
               In s ("grab" :: "default" :: cursors)) /\
  (forall tg o k i name,
     target t = Some tg -> heap w !! tg = Some o -> parent o = None ->
     0 < _scaleX o -> 0 < _scaleY o ->
     (-4 < k <= 4)%Z -> _rotation o = IZR k * (PI / 4) ->
     anchors !! i = Some name ->
     getCursorForAnchor fuel t name w
     = cursors !! Z.to_nat ((Z.of_nat i + k) mod 8)).
Proof.
  split; [intros anchorName; apply getCursorForAnchor_cases |].
  intros tg o k i name Ht Ho Hroot Hsx Hsy Hk Hrot Hname.
  pose proof PI_RGT_0 as Hpi.
  destruct (anchors_indexOfName i name Hname) as [Hidx Hnr].
  unfold getCursorForAnchor. rewrite Hnr, Hidx, Ht.
  rewrite (getGlobalTransform_root fuel (heap w) tg o Ho Hroot).
  cbn [mbind option_bind]. cbv zeta.
  assert (Hrange : - PI < _rotation o <= PI).
  { rewrite Hrot. destruct Hk as [Hlo Hhi]. apply IZR_lt in Hlo. apply IZR_le in Hhi.
    split; nra. }
  rewrite (decompose_getTransform o Hsx Hsy Hrange). cbn [d_rotation].
  replace (_rotation o / (PI / 4)) with (IZR k) by (rewrite Hrot; field; lra).
  rewrite Math_round_integer, finalIndex_mod.
  apply arrayAt_nonneg. apply Z.mod_pos_bound. lia.
Qed.

Lemma getCursorForAnchor_follows_witness :
  getCursorForAnchor 0 (transformer_on "top-center") "top-center" world_quarter_turn
  = Some "e-resize".
Proof.
  assert (Hsx : 0 < _scaleX rect_quarter_turn)
    by (unfold rect_quarter_turn, construct; cbn; read_props; lra).
  assert (Hsy : 0 < _scaleY rect_quarter_turn)
    by (unfold rect_quarter_turn, construct; cbn; read_props; lra).
  assert (Hrot : _rotation rect_quarter_turn = IZR 2 * (PI / 4))
    by (unfold rect_quarter_turn, construct; cbn; read_props; lra).
  assert (Hk : (-4 < 2 <= 4)%Z) by lia.
  exact (proj2 (getCursorForAnchor_follows 0 (transformer_on "top-center")
                  world_quarter_turn)
           0%nat rect_quarter_turn 2%Z 1%nat "top-center"
           eq_refl eq_refl eq_refl Hsx Hsy Hk Hrot eq_refl).
Defined.


(** * Transformer: hit testing the handles *)


Lemma onHandle_true (q : Point R) (half x y : R) :
  x - half <= px q <= x + half -> y - half <= py q <= y + half ->
  onHandle q half x y = true.
Proof. intros [? ?] [? ?]. unfold onHandle. rewrite !Rleb_true by assumption. reflexivity. Qed.

Lemma onHandle_false (q : Point R) (half x y : R) :
  px q < x - half \/ x + half < px q \/ py q < y - half \/ y + half < py q ->
  onHandle q half x y = false.
Proof.
  unfold onHandle. intros [H | [H | [H | H]]];
    rewrite (Rleb_false _ _ H); rewrite ?andb_false_r; reflexivity.
Qed.

(** At the centre of a handle the search stops on that handle. *)
Lemma find_handle (b : Rect) (half : R) (h : Handle) :
  0 <= half -> 2 * half < rwidth b -> 2 * half < rheight b ->
  In h (handles b) ->
  find (fun h' => onHandle (mkPoint (hx h) (hy h)) half (hx h') (hy h')) (handles b)
  = Some h.
Proof.
  intros Hhalf Hw Hh Hin. unfold handles in *. cbn [In] in Hin.
  destruct Hin as [<- | [<- | [<- | [<- | [<- | [<- | [<- | [<- | []]]]]]]]];
    cbn [find hx hy];
    repeat first
      [ rewrite onHandle_true by (cbn [px py]; lra); reflexivity
      | rewrite onHandle_false by (cbn [px py]; lra) ].
Qed.

(** In the middle of the target no handle is under the pointer. *)
Lemma find_handle_centre (b : Rect) (half : R) :
  0 <= half -> 2 * half < rwidth b -> 2 * half < rheight b ->
  find (fun h' => onHandle (mkPoint (rx b + rwidth b / 2) (ry b + rheight b / 2)) half
                    (hx h') (hy h')) (handles b) = None /\
  onHandle (mkPoint (rx b + rwidth b / 2) (ry b + rheight b / 2)) half
    (rx b + rwidth b / 2) (ry b - 30) = false.
Proof.
  intros Hhalf Hw Hh. unfold handles. cbn [find hx hy].
  split; [| apply onHandle_false; cbn [px py]; lra].
  repeat rewrite onHandle_false by (cbn [px py]; lra). reflexivity.
Qed.

Lemma handles_named (b : Rect) (h : Handle) :
  In h (handles b) -> exists i, anchors !! i = Some (hname h).
Proof.
  unfold handles. cbn [In].
  intros [<- | [<- | [<- | [<- | [<- | [<- | [<- | [<- | []]]]]]]]].
  - exists 0%nat. reflexivity.
  - exists 1%nat. reflexivity.
  - exists 2%nat. reflexivity.
  - exists 3%nat. reflexivity.
  - exists 4%nat. reflexivity.
  - exists 5%nat. reflexivity.
  - exists 6%nat. reflexivity.
  - exists 7%nat. reflexivity.
Qed.

Lemma getCursorForAnchor_anchor (fuel : nat) (t : Transformer) (name : string)
    (w : World) (i : nat) (tg : ref) (g : Matrix2D R) :
  anchors !! i = Some name -> target t = Some tg ->
  getGlobalTransform fuel (heap w) tg = Some g ->
  exists s, getCursorForAnchor fuel t name w = Some s /\ In s cursors.
Proof.
  intros Hname Ht Hg. destruct (anchors_indexOfName i name Hname) as [Hidx Hnr].
  unfold getCursorForAnchor. rewrite Hnr, Hidx, Ht, Hg. cbn [mbind option_bind]. cbv zeta.
  apply arrayAt_cursors, finalIndex_range.
Qed.

Lemma Transformer_hitTest_on_handle (fuel : nat) (self tg : ref) (t : Transformer)
    (w : World) (g : Matrix2D R) (b : Rect) (this : NodeObj) (handleSize : R)
    (h : Handle) :
  target t = Some tg ->
  getGlobalTransform fuel (heap w) tg = Some g -> det g <> 0 ->
  getSelfBounds fuel (heap w) tg = Some b ->
  heap w !! self = Some this -> numOr (props this !! "handleSize") 10 = handleSize ->
  0 <= handleSize -> handleSize < rwidth b -> handleSize < rheight b ->
  In h (handles b) ->
  exists cursor,
    Transformer_hitTest fuel self t (transformPoint g (mkPoint (hx h) (hy h))) w
    = Some (Some self, with_activeAnchor (Some (hname h)) t, set_cursor self cursor w) /\
    In cursor cursors.
Proof.
  intros Ht Hg Hdet Hb Hself Hsize Hpos Hw Hh Hin.
  unfold Transformer_hitTest. rewrite Ht, Hg. cbn [mbind option_bind].
  rewrite Hb. cbn [mbind option_bind]. rewrite Hself. cbn [mbind option_bind].
  cbv zeta. rewrite Hsize, (invert_transformPoint g _ Hdet).
  rewrite (find_handle b (handleSize / 2) h) by (assumption || lra).
  destruct (handles_named b h Hin) as (i & Hname).
  destruct (getCursorForAnchor_anchor fuel (with_activeAnchor (Some (hname h)) t)
              (hname h) w i tg g Hname Ht Hg) as (cursor & Hcur & Hknown).
  rewrite Hcur. cbn [mbind option_bind]. exists cursor. split; [reflexivity | exact Hknown].
Qed.

(** X20: when the target's global transform can be inverted and its
    self-bounds are wider and higher than the handle size,
    [Transformer.hitTest] at the centre of each of the eight handles
    returns the transformer, records the name of that handle as the active
    anchor and sets a resize cursor; at the rotation handle, 30 above the
    top centre (handle size below 60), it records 'rotator' and sets the
    cursor 'grab'. *)
Theorem Transformer_hitTest_handle (fuel : nat) (self tg : ref) (t : Transformer)
    (w : World) (g : Matrix2D R) (b : Rect) (this : NodeObj) (handleSize : R) :
  target t = Some tg ->
  getGlobalTransform fuel (heap w) tg = Some g -> det g <> 0 ->
  getSelfBounds fuel (heap w) tg = Some b ->
  heap w !! self = Some this -> numOr (props this !! "handleSize") 10 = handleSize ->
  0 <= handleSize -> handleSize < rwidth b -> handleSize < rheight b ->
  (forall h, In h (handles b) ->
     exists cursor,
       Transformer_hitTest fuel self t (transformPoint g (mkPoint (hx h) (hy h))) w
       = Some (Some self, with_activeAnchor (Some (hname h)) t, set_cursor self cursor w) /\
       In cursor cursors) /\
  (handleSize < 60 ->
   Transformer_hitTest fuel self t
     (transformPoint g (mkPoint (rx b + rwidth b / 2) (ry b - 30))) w
   = Some (Some self, with_activeAnchor (Some "rotator") t, set_cursor self "grab" w)).
Proof.
  intros Ht Hg Hdet Hb Hself Hsize Hpos Hw Hh. split.
  - intros h Hin.
    exact (Transformer_hitTest_on_handle fuel self tg t w g b this handleSize h
             Ht Hg Hdet Hb Hself Hsize Hpos Hw Hh Hin).
  - intros H60. unfold Transformer_hitTest. rewrite Ht, Hg. cbn [mbind option_bind].
    rewrite Hb. cbn [mbind option_bind]. rewrite Hself. cbn [mbind option_bind].
    cbv zeta. rewrite Hsize, (invert_transformPoint g _ Hdet).
    unfold handles. cbn [find hx hy].
    repeat rewrite onHandle_false by (cbn [px py]; lra).
    rewrite onHandle_true by (cbn [px py]; lra). reflexivity.
Qed.

Lemma world_transformer_target :
  getGlobalTransform 1 (heap world_transformer) 0%nat = Some (getTransform rect_target) /\
  getSelfBounds 1 (heap world_transformer) 0%nat = Some (mkRect 0 0 100 100).
Proof.
  split; [| reflexivity].
  exact (getGlobalTransform_root 1 (heap world_transformer) 0%nat rect_target
           eq_refl eq_refl).
Qed.

Lemma Transformer_hitTest_handle_witness :
  Transformer_hitTest 1 1%nat transformer_attached
    (transformPoint (getTransform rect_target) (mkPoint (0 + 100 / 2) (0 - 30)))
    world_transformer
  = Some (Some 1%nat, with_activeAnchor (Some "rotator") transformer_attached,
          set_cursor 1%nat "grab" world_transformer).
Proof.
  assert (H0 : 0 <= 10) by lra. assert (H1 : 10 < 100) by lra.
  assert (H60 : 10 < 60) by lra.
  exact (proj2 (Transformer_hitTest_handle 1 1%nat 0%nat transformer_attached
                  world_transformer (getTransform rect_target) (mkRect 0 0 100 100)
                  transformer_node 10 eq_refl (proj1 world_transformer_target)
                  rect_target_regular (proj2 world_transformer_target)
                  eq_refl eq_refl H0 H1 H1) H60).
Defined.

(** X21: [Transformer.hitTest] returns null and changes nothing when the
    transformer has no target, as after [attachTo] and then [detach]; at
    the centre of a target larger than the handle size it returns null,
    sets the cursor to 'default' and leaves the active anchor as it was. *)
Theorem Transformer_hitTest_miss (fuel : nat) (self : ref) (t : Transformer) (w : World)
    (p : Point R) :
  (target t = None -> Transformer_hitTest fuel self t p w = Some (None, t, w)) /\
  (forall node,
     Transformer_hitTest fuel self
       (fst (detach self (fst (attachTo self node t w)) (snd (attachTo self node t w)))) p
       (snd (detach self (fst (attachTo self node t w)) (snd (attachTo self node t w))))
     = Some (None, with_target None t, requestRedraw self (requestRedraw self w))) /\
  (forall tg g b this handleSize,
     target t = Some tg ->
     getGlobalTransform fuel (heap w) tg = Some g -> det g <> 0 ->
     getSelfBounds fuel (heap w) tg = Some b ->
     heap w !! self = Some this -> numOr (props this !! "handleSize") 10 = handleSize ->
     0 <= handleSize -> handleSize < rwidth b -> handleSize < rheight b ->
     p = transformPoint g (mkPoint (rx b + rwidth b / 2) (ry b + rheight b / 2)) ->
     Transformer_hitTest fuel self t p w = Some (None, t, set_cursor self "default" w)).
Proof.
  split; [| split].
  - intros Ht. unfold Transformer_hitTest. rewrite Ht. reflexivity.
  - intros node. reflexivity.
  - intros tg g b this handleSize Ht Hg Hdet Hb Hself Hsize Hpos Hw Hh ->.
    unfold Transformer_hitTest. rewrite Ht, Hg. cbn [mbind option_bind].
    rewrite Hb. cbn [mbind option_bind]. rewrite Hself. cbn [mbind option_bind].
    cbv zeta. rewrite Hsize, (invert_transformPoint g _ Hdet).
    destruct (find_handle_centre b (handleSize / 2)) as [-> ->]; try lra.
    reflexivity.
Qed.

Lemma Transformer_hitTest_miss_witness :
  Transformer_hitTest 1 1%nat transformer_attached
    (transformPoint (getTransform rect_target) (mkPoint (0 + 100 / 2) (0 + 100 / 2)))
    world_transformer
  = Some (None, transformer_attached, set_cursor 1%nat "default" world_transformer).
Proof.
  assert (H0 : 0 <= 10) by lra. assert (H1 : 10 < 100) by lra.
  exact (proj2 (proj2 (Transformer_hitTest_miss 1 1%nat transformer_attached
                         world_transformer
                         (transformPoint (getTransform rect_target)
                            (mkPoint (0 + 100 / 2) (0 + 100 / 2)))))
           0%nat (getTransform rect_target) (mkRect 0 0 100 100) transformer_node 10
           eq_refl (proj1 world_transformer_target) rect_target_regular
           (proj2 world_transformer_target) eq_refl eq_refl H0 H1 H1 eq_refl).
Defined.


(** * Transformer: resizing in the target's axes *)


Lemma with_scaleX_same (o : NodeObj) : with_scaleX (_scaleX o) o = o.
Proof. destruct o. reflexivity. Qed.

Lemma with_scaleY_same (o : NodeObj) : with_scaleY (_scaleY o) o = o.
Proof. destruct o. reflexivity. Qed.

Lemma set_scaleX_heap (w : World) (r : ref) (o : NodeObj) (v : R) :
  heap w !! r = Some o -> heap (set_scaleX r v w) = <[r := with_scaleX v o]> (heap w).
Proof.
  intros Hr. unfold set_scaleX. rewrite Hr.
  destruct (Req_dec_T (_scaleX o) v) as [Heq | Hne].
  - rewrite (Reqb_true _ _ Heq). cbn. rewrite <- Heq, with_scaleX_same.
    symmetry. apply insert_id. exact Hr.
  - rewrite (Reqb_false _ _ Hne). reflexivity.
Qed.

Lemma set_scaleY_heap (w : World) (r : ref) (o : NodeObj) (v : R) :
  heap w !! r = Some o -> heap (set_scaleY r v w) = <[r := with_scaleY v o]> (heap w).
Proof.
  intros Hr. unfold set_scaleY. rewrite Hr.
  destruct (Req_dec_T (_scaleY o) v) as [Heq | Hne].
  - rewrite (Reqb_true _ _ Heq). cbn. rewrite <- Heq, with_scaleY_same.
    symmetry. apply insert_id. exact Hr.
  - rewrite (Reqb_false _ _ Hne). reflexivity.
Qed.

(** A bottom-right drag on a shape that has no parent. *)
Lemma handleDragMove_root_shape (fuel : nat) (t : Transformer) (e : InteractionEvent)
    (w : World) (tg : ref) (o : NodeObj) :
  target t = Some tg -> activeAnchor t = Some "bottom-right" ->
  heap w !! tg = Some o -> parent o = None -> kind o <> KContainer ->
  0 < _scaleX o -> 0 < _scaleY o -> - PI < _rotation o <= PI ->
  0 < rwidth (leaf_getSelfBounds o) -> 0 < rheight (leaf_getSelfBounds o) ->
  exists w',
    handleDragMove (S fuel) t e w = Some w' /\
    heap w'
    = <[tg := with_scaleY
                (resizedY (rheight (leaf_getSelfBounds o)) (startScaleY t) (_rotation o)
                   (globalX e - startX t) (globalY e - startY t))
                (with_scaleX
                   (resizedX (rwidth (leaf_getSelfBounds o)) (startScaleX t) (_rotation o)
                      (globalX e - startX t) (globalY e - startY t)) o)]> (heap w).
Proof.
  intros Ht Ha Ho Hroot Hk Hsx Hsy Hrot Hw Hh.
  unfold handleDragMove. rewrite Ht, Ha. cbn [noAnchor String.eqb Ascii.eqb Bool.eqb].
  destruct (decide (Some "bottom-right" = Some "bottom-right")) as [_ | Hne];
    [| congruence].
  rewrite (getGlobalTransform_root (S fuel) (heap w) tg o Ho Hroot).
  rewrite (getSelfBounds_leaf fuel (heap w) tg o Ho Hk).
  cbn [mbind option_bind]. cbv zeta.
  rewrite (decompose_getTransform o Hsx Hsy Hrot). cbn [d_rotation].
  rewrite cos_neg, sin_neg.
  rewrite (Rltb_true 0 _ Hw), (Rltb_true 0 _ Hh).
  match goal with
  | |- context [set_scaleY tg ?vy (set_scaleX tg ?vx w)] =>
    exists (set_scaleY tg vy (set_scaleX tg vx w)); split; [reflexivity |];
    rewrite (set_scaleY_heap (set_scaleX tg vx w) tg (with_scaleX vx o) vy)
      by (rewrite (set_scaleX_heap w tg o vx Ho); apply lookup_insert_eq);
    rewrite (set_scaleX_heap w tg o vx Ho), insert_insert_eq
  end.
  unfold resizedX, resizedY. f_equal. f_equal; [f_equal; f_equal; ring |].
  f_equal. f_equal. f_equal. ring.
Qed.

Lemma resized_floor (bw s theta dx dy : R) :
  0.1 <= resizedX bw s theta dx dy /\ 0.1 <= resizedY bw s theta dx dy.
Proof. unfold resizedX, resizedY. split; apply Rmax_l. Qed.

Lemma resized_at_start (bw s theta : R) :
  0 < bw -> 0.1 <= s ->
  resizedX bw s theta 0 0 = s /\ resizedY bw s theta 0 0 = s.
Proof.
  intros Hbw Hs. unfold resizedX, resizedY.
  replace ((bw * s + (0 * cos theta + 0 * sin theta)) / bw) with s by (field; lra).
  replace ((bw * s + (0 * cos theta - 0 * sin theta)) / bw) with s by (field; lra).
  rewrite Rmax_right by lra. auto.
Qed.

(** X22: for a shape without parent, with positive scales and a rotation t
    in (-PI, PI], a dragMove on 'bottom-right' sets scaleX to max(0.1, (w
    * startScaleX + dx * cos t + dy * sin t) / w) and scaleY to max(0.1,
    (h * startScaleY + dy * cos t - dx * sin t) / h), where (dx, dy) is
    the pointer's movement since the drag began and w, h are the sides of
    the self-bounds; it keeps the rotation and the position, gives the
    same store whatever dragMove came before it, and at the start point
    gives back start scales that are at least 0.1. *)
Theorem drag_resize_own_axes (fuel : nat) (t : Transformer) (e : InteractionEvent)
    (w : World) (tg : ref) (o : NodeObj) :
  target t = Some tg -> activeAnchor t = Some "bottom-right" ->
  heap w !! tg = Some o -> parent o = None -> kind o <> KContainer ->
  0 < _scaleX o -> 0 < _scaleY o -> - PI < _rotation o <= PI ->
  0 < rwidth (leaf_getSelfBounds o) -> 0 < rheight (leaf_getSelfBounds o) ->
  exists w' o',
    handleDragMove (S fuel) t e w = Some w' /\ heap w' !! tg = Some o' /\
    _scaleX o'
    = resizedX (rwidth (leaf_getSelfBounds o)) (startScaleX t) (_rotation o)
        (globalX e - startX t) (globalY e - startY t) /\
    _scaleY o'
    = resizedY (rheight (leaf_getSelfBounds o)) (startScaleY t) (_rotation o)
        (globalX e - startX t) (globalY e - startY t) /\
    0.1 <= _scaleX o' /\ 0.1 <= _scaleY o' /\
    _rotation o' = _rotation o /\ _x o' = _x o /\ _y o' = _y o /\
    (forall e1, exists w1,
       handleDragMove (S fuel) t e1 w = Some w1 /\
       exists w2, handleDragMove (S fuel) t e w1 = Some w2 /\ heap w2 = heap w') /\
    (globalX e = startX t -> globalY e = startY t ->
     0.1 <= startScaleX t -> 0.1 <= startScaleY t ->
     _scaleX o' = startScaleX t /\ _scaleY o' = startScaleY t).
Proof.
  intros Ht Ha Ho Hroot Hk Hsx Hsy Hrot Hw Hh.
  destruct (handleDragMove_root_shape fuel t e w tg o Ht Ha Ho Hroot Hk Hsx Hsy Hrot Hw Hh)
    as (w' & Hmove & Hheap).
  exists w'. eexists. split; [exact Hmove |].
  split; [rewrite Hheap; apply lookup_insert_eq |].
  cbn [_scaleX _scaleY _rotation _x _y with_scaleX with_scaleY].
  split; [reflexivity |]. split; [reflexivity |].
  split; [apply resized_floor |]. split; [apply resized_floor |].
  split; [reflexivity |]. split; [reflexivity |]. split; [reflexivity |]. split.
  - intros e1.
    destruct (handleDragMove_root_shape fuel t e1 w tg o Ht Ha Ho Hroot Hk Hsx Hsy Hrot
                Hw Hh) as (w1 & Hmove1 & Hheap1).
    exists w1. split; [exact Hmove1 |].
    set (o1 := with_scaleY
                 (resizedY (rheight (leaf_getSelfBounds o)) (startScaleY t) (_rotation o)
                    (globalX e1 - startX t) (globalY e1 - startY t))
                 (with_scaleX
                    (resizedX (rwidth (leaf_getSelfBounds o)) (startScaleX t)
                       (_rotation o) (globalX e1 - startX t) (globalY e1 - startY t))
                    o)) in *.
    assert (Ho1 : heap w1 !! tg = Some o1) by (rewrite Hheap1; apply lookup_insert_eq).
    assert (Hsx1 : 0 < _scaleX o1).
    { pose proof (proj1 (resized_floor (rwidth (leaf_getSelfBounds o)) (startScaleX t)
                           (_rotation o) (globalX e1 - startX t) (globalY e1 - startY t))).
      cbn. lra. }
    assert (Hsy1 : 0 < _scaleY o1).
    { pose proof (proj2 (resized_floor (rheight (leaf_getSelfBounds o)) (startScaleY t)
                           (_rotation o) (globalX e1 - startX t) (globalY e1 - startY t))).
      cbn. lra. }
    destruct (handleDragMove_root_shape fuel t e w1 tg o1 Ht Ha Ho1 Hroot Hk Hsx1 Hsy1
                Hrot Hw Hh) as (w2 & Hmove2 & Hheap2).
    exists w2. split; [exact Hmove2 |].
    rewrite Hheap2, Hheap1, Hheap, insert_insert_eq. reflexivity.
  - intros Hx Hy Hs1 Hs2. rewrite Hx, Hy, !Rminus_diag.
    split.
    + exact (proj1 (resized_at_start _ _ _ Hw Hs1)).
    + exact (proj2 (resized_at_start _ _ _ Hh Hs2)).
Qed.

Lemma quarter_turn_range : - PI < PI / 2 <= PI.
Proof. pose proof PI_RGT_0. lra. Qed.

Lemma drag_resize_own_axes_witness :
  exists w' o',
    handleDragMove 1 (transformer_on "bottom-right") (mkEvent 10 10) world_quarter_turn
    = Some w' /\
    heap w' !! 0%nat = Some o' /\ 0.1 <= _scaleX o' /\ 0.1 <= _scaleY o' /\
    _rotation o' = PI / 2.
Proof.
  assert (H100 : 0 < 100) by lra.
  destruct (drag_resize_own_axes 0 (transformer_on "bottom-right") (mkEvent 10 10)
              world_quarter_turn 0%nat rect_quarter_turn eq_refl eq_refl eq_refl eq_refl
              ltac:(discriminate) Rlt_0_1 Rlt_0_1 quarter_turn_range H100 H100)
    as (w' & o' & Hmove & Ho' & _ & _ & Hsx & Hsy & Hrot & _).
  exists w', o'. auto.
Defined.

(** X23: for a shape without parent that has positive scaleX and scaleY,
    a rotation in (-PI, PI] and a box wider and higher than the handles
    (whose size is not negative), pressing on the corner of the
    bottom-right handle ([hitTest], then [handleDragStart]) and moving
    the pointer by (dx, dy) ([handleDragMove]) rescales the shape from
    its current scale along its own axes, by the formula of X22; after
    [handleDragEnd], [handleDragMove] changes nothing.  The shape is not
    a container, and the Transformer is another object than its target. *)
Theorem Transformer_resize_gesture (fuel : nat) (self tg : ref) (t : Transformer)
    (w : World) (o this : NodeObj) (handleSize dx dy : R) (press : Point R) :
  target t = Some tg -> self <> tg ->
  heap w !! tg = Some o -> parent o = None -> kind o <> KContainer ->
  0 < _scaleX o -> 0 < _scaleY o -> - PI < _rotation o <= PI ->
  heap w !! self = Some this -> numOr (props this !! "handleSize") 10 = handleSize ->
  0 <= handleSize ->
  handleSize < rwidth (leaf_getSelfBounds o) ->
  handleSize < rheight (leaf_getSelfBounds o) ->
  press = transformPoint (getTransform o)
            (mkPoint (rx (leaf_getSelfBounds o) + rwidth (leaf_getSelfBounds o))
                     (ry (leaf_getSelfBounds o) + rheight (leaf_getSelfBounds o))) ->
  exists t1 w1 w2 o2,
    Transformer_hitTest (S fuel) self t press w = Some (Some self, t1, w1) /\
    activeAnchor t1 = Some "bottom-right" /\
    handleDragMove (S fuel)
      (handleDragStart t1 (mkEvent (px press) (py press)) w1)
      (mkEvent (px press + dx) (py press + dy)) w1 = Some w2 /\
    heap w2 !! tg = Some o2 /\
    _scaleX o2
    = resizedX (rwidth (leaf_getSelfBounds o)) (_scaleX o) (_rotation o) dx dy /\
    _scaleY o2
    = resizedY (rheight (leaf_getSelfBounds o)) (_scaleY o) (_rotation o) dx dy /\
    forall e, handleDragMove (S fuel)
                (handleDragEnd (handleDragStart t1 (mkEvent (px press) (py press)) w1))
                e w2 = Some w2.
Proof.
  intros Ht Hne Ho Hroot Hk Hsx Hsy Hrot Hself Hsize Hpos Hw Hh ->.
  set (b := leaf_getSelfBounds o) in *.
  set (press := transformPoint (getTransform o)
                  (mkPoint (rx b + rwidth b) (ry b + rheight b))).
  assert (Hdet : det (getTransform o) <> 0).
  { rewrite det_getTransform. apply Rmult_integral_contrapositive_currified; lra. }
  destruct (Transformer_hitTest_on_handle (S fuel) self tg t w (getTransform o) b this
              handleSize
              (mkHandle (rx b + rwidth b) (ry b + rheight b) "bottom-right") Ht
              (getGlobalTransform_root (S fuel) (heap w) tg o Ho Hroot) Hdet
              (getSelfBounds_leaf fuel (heap w) tg o Ho Hk) Hself Hsize Hpos Hw Hh)
    as (cursor & Hhit & _).
  { unfold handles. cbn. tauto. }
  cbn [hx hy hname] in Hhit. fold press in Hhit.
  set (t1 := with_activeAnchor (Some "bottom-right") t) in *.
  set (w1 := set_cursor self cursor w) in *.
  assert (Ho1 : heap w1 !! tg = Some o).
  { unfold w1, set_cursor. rewrite Hself. cbn. rewrite lookup_insert_ne by exact Hne.
    exact Ho. }
  set (t2 := handleDragStart t1 (mkEvent (px press) (py press)) w1).
  assert (Ht2 : t2 = mkTransformer (Some tg) (Some "bottom-right") (px press) (py press)
                       (numOr (props o !! "width") 0) (startHeight t)
                       (_scaleX o) (_scaleY o) (_rotation o) (_x o) (_y o)).
  { unfold t2, handleDragStart, t1. cbn. rewrite Ht. cbn. rewrite Ho1. reflexivity. }
  assert (Hw' : 0 < rwidth b) by lra. assert (Hh' : 0 < rheight b) by lra.
  destruct (handleDragMove_root_shape fuel t2 (mkEvent (px press + dx) (py press + dy))
              w1 tg o) as (w2 & Hmove & Hheap);
    try (rewrite Ht2; reflexivity); try assumption.
  exists t1, w1, w2. eexists.
  split; [exact Hhit |]. split; [reflexivity |]. split; [exact Hmove |].
  split; [rewrite Hheap; apply lookup_insert_eq |].
  cbn [_scaleX _scaleY with_scaleX with_scaleY]. rewrite Ht2.
  cbn [startX startY startScaleX startScaleY globalX globalY].
  replace (px press + dx - px press) with dx by ring.
  replace (py press + dy - py press) with dy by ring.
  split; [reflexivity |]. split; [reflexivity |].
  intros e. fold t2. rewrite Ht2. reflexivity.
Qed.

Lemma Transformer_resize_gesture_witness :
  exists t1 w1 w2 o2,
    Transformer_hitTest 1 1%nat transformer_attached
      (transformPoint (getTransform rect_target) (mkPoint (0 + 100) (0 + 100)))
      world_transformer = Some (Some 1%nat, t1, w1) /\
    activeAnchor t1 = Some "bottom-right" /\
    handleDragMove 1
      (handleDragStart t1
         (mkEvent
            (px (transformPoint (getTransform rect_target) (mkPoint (0 + 100) (0 + 100))))
            (py (transformPoint (getTransform rect_target) (mkPoint (0 + 100) (0 + 100)))))
         w1)
      (mkEvent
         (px (transformPoint (getTransform rect_target) (mkPoint (0 + 100) (0 + 100))) + 10)
         (py (transformPoint (getTransform rect_target) (mkPoint (0 + 100) (0 + 100))) + 10))
      w1 = Some w2 /\
    heap w2 !! 0%nat = Some o2 /\
    _scaleX o2 = resizedX 100 1 0 10 10 /\ _scaleY o2 = resizedY 100 1 0 10 10.
Proof.
  assert (H0 : 0 <= 10) by lra. assert (H1 : 10 < 100) by lra.
  assert (Hrot : - PI < 0 <= PI) by (pose proof PI_RGT_0; lra).
  destruct (Transformer_resize_gesture 0 1%nat 0%nat transformer_attached
              world_transformer rect_target transformer_node 10 10 10
              (transformPoint (getTransform rect_target) (mkPoint (0 + 100) (0 + 100)))
              eq_refl ltac:(discriminate) eq_refl eq_refl ltac:(discriminate)
              Rlt_0_1 Rlt_0_1 Hrot eq_refl eq_refl H0 H1 H1 eq_refl)
    as (t1 & w1 & w2 & o2 & Hhit & Ha & Hmove & Ho2 & Hsx & Hsy & _).
  exists t1, w1, w2, o2. auto 10.
Defined.


(** * Line: the bounds *)


Lemma vertices_coordinates (vs : list (R * R)) : vertices (coordinates vs) = Some vs.
Proof.
  induction vs as [| [x y] vs IH]; [reflexivity |].
  cbn. unfold coordinates in IH. rewrite IH. reflexivity.
Qed.

Lemma stretch_covers (vs : list (R * R)) :
  forall acc : option Extent,
  exists e,
    foldl stretch acc vs = match vs, acc with [], None => None | _, _ => Some e end /\
    (forall e0, acc = Some e0 ->
       minX e <= minX e0 /\ maxX e0 <= maxX e /\ minY e <= minY e0 /\ maxY e0 <= maxY e) /\
    (forall v, In v vs ->
       minX e <= fst v <= maxX e /\ minY e <= snd v <= maxY e).
Proof.
  induction vs as [| v vs IH]; intros acc.
  - destruct acc as [e0 |].
    + exists e0. split; [reflexivity |]. split; [intros ? [= <-]; lra | intros ? []].
    + exists (mkExtent 0 0 0 0). split; [reflexivity |].
      split; [discriminate | intros ? []].
  - cbn [foldl]. destruct (IH (stretch acc v)) as (e & Hfold & Hgrow & Hin).
    exists e. split.
    + rewrite Hfold. unfold stretch. destruct vs; reflexivity.
    + specialize (Hgrow _ eq_refl).
      split.
      * intros e0 ->. cbn in Hgrow.
        pose proof (Rmin_l (minX e0) (fst v)). pose proof (Rmin_l (minY e0) (snd v)).
        pose proof (Rmax_l (maxX e0) (fst v)). pose proof (Rmax_l (maxY e0) (snd v)).
        lra.
      * intros v' [<- | Hv']; [| exact (Hin v' Hv')].
        destruct acc as [e0 |]; cbn in Hgrow.
        -- pose proof (Rmin_r (minX e0) (fst v)). pose proof (Rmin_r (minY e0) (snd v)).
           pose proof (Rmax_r (maxX e0) (fst v)). pose proof (Rmax_r (maxY e0) (snd v)).
           lra.
        -- lra.
Qed.

(** X24: [Line.getSelfBounds] returns the zero box for fewer than two
    coordinates; for a list of vertices it returns a box at least
    [lineWidth] wide and high, in which every vertex lies at least
    [lineWidth / 2] from each side. *)
Theorem Line_bounds_hold_vertices (lineWidth : R) :
  (forall points, (length points < 2)%nat ->
     Line_getSelfBounds points lineWidth = Some zeroRect) /\
  (forall v vs,
     exists b,
       Line_getSelfBounds (coordinates (v :: vs)) lineWidth = Some b /\
       lineWidth <= rwidth b /\ lineWidth <= rheight b /\
       forall u, In u (v :: vs) ->
         rx b + lineWidth / 2 <= fst u <= rx b + rwidth b - lineWidth / 2 /\
         ry b + lineWidth / 2 <= snd u <= ry b + rheight b - lineWidth / 2).
Proof.
  split.
  - intros points Hlen. unfold Line_getSelfBounds.
    destruct (Nat.ltb_spec (length points) 2); [reflexivity | lia].
  - intros v vs. unfold Line_getSelfBounds.
    assert (Hlen : (length (coordinates (v :: vs)) <? 2)%nat = false).
    { apply Nat.ltb_ge. destruct v. cbn. lia. }
    rewrite Hlen, vertices_coordinates. cbn [mbind option_bind].
    destruct (stretch_covers (v :: vs) None) as (e & Hfold & _ & Hin).
    rewrite Hfold. eexists. split; [reflexivity |]. cbn [rx ry rwidth rheight].
    pose proof (Hin v (or_introl eq_refl)) as Hv.
    split; [lra |]. split; [lra |].
    intros u Hu. pose proof (Hin u Hu). lra.
Qed.


(** * Text: wrapping into lines *)


Section TextProperties.

(** [ctx.measureText(s).width], which the host supplies. *)
Variable measureText : string -> R.

Lemma append_assoc (a b c : string) :
  String.append (String.append a b) c = String.append a (String.append b c).
Proof.
  induction a as [| x a IH]; [reflexivity |].
  change (String x (String.append (String.append a b) c)
          = String x (String.append a (String.append b c))).
  rewrite IH. reflexivity.
Qed.

Lemma join_space_cons (line : string) (rest : list string) :
  rest <> [] ->
  join_space (line :: rest) = String.append line (String Ascii.Space (join_space rest)).
Proof. destruct rest; [congruence | reflexivity]. Qed.

Lemma split_space_nonempty (text : string) : split_space text <> [].
Proof.
  induction text as [| c rest IH]; cbn; [discriminate |].
  destruct (Ascii.eqb c Ascii.Space); [discriminate |].
  destruct (split_space rest); discriminate.
Qed.

Lemma join_split_space (text : string) : join_space (split_space text) = text.
Proof.
  induction text as [| c rest IH]; [reflexivity |]. cbn [split_space].
  destruct (Ascii.eqb_spec c Ascii.Space) as [-> | Hne].
  - rewrite join_space_cons by apply split_space_nonempty. rewrite IH. reflexivity.
  - destruct (split_space rest) as [| word words] eqn:Hs;
      [exfalso; exact (split_space_nonempty rest Hs) |].
    destruct words as [| w2 ws].
    + cbn in *. rewrite IH. reflexivity.
    + rewrite join_space_cons by discriminate.
      rewrite join_space_cons in IH by discriminate.
      rewrite <- IH. reflexivity.
Qed.

Lemma wrapWords_nonempty (words : list string) (line : string) (mw : R) :
  wrapWords measureText words line mw <> [].
Proof.
  revert line. induction words as [| word rest IH]; intros line; cbn; [discriminate |].
  destruct (Rltb _ mw); [apply IH | discriminate].
Qed.

Lemma join_wrapWords (words : list string) (line : string) (mw : R) :
  join_space (wrapWords measureText words line mw) = join_space (line :: words).
Proof.
  revert line. induction words as [| word rest IH]; intros line; [reflexivity |].
  cbn [wrapWords]. destruct (Rltb _ mw).
  - rewrite IH. destruct rest as [| w2 ws]; [reflexivity |].
    rewrite !join_space_cons by discriminate.
    rewrite append_assoc. reflexivity.
  - rewrite join_space_cons by apply wrapWords_nonempty.
    rewrite IH. rewrite (join_space_cons line) by discriminate. reflexivity.
Qed.

Lemma wrapWords_fits (words : list string) (mw : R) :
  forall line l,
    In l (wrapWords measureText words line mw) ->
    l = line \/ In l words \/ measureText l < mw.
Proof.
  induction words as [| word rest IH]; intros line l; cbn [wrapWords].
  - intros [<- | []]. left. reflexivity.
  - destruct (Rltb _ mw) eqn:Hfit.
    + intros Hin. destruct (IH _ l Hin) as [-> | [Hw | Hm]].
      * right. right. apply Rltb_lt. exact Hfit.
      * right. left. right. exact Hw.
      * right. right. exact Hm.
    + intros [<- | Hin]; [left; reflexivity |].
      destruct (IH _ l Hin) as [-> | [Hw | Hm]].
      * right. left. left. reflexivity.
      * right. left. right. exact Hw.
      * right. right. exact Hm.
Qed.

Lemma wrapWords_length (words : list string) (mw : R) :
  forall line, (length (wrapWords measureText words line mw) <= S (length words))%nat.
Proof.
  induction words as [| word rest IH]; intros line; cbn [wrapWords]; [cbn; lia |].
  destruct (Rltb _ mw); cbn [length].
  - specialize (IH (String.append line (String Ascii.Space word))). lia.
  - specialize (IH word). lia.
Qed.

(** X25: [Text.getLines] loses no text: joining the lines with a space
    gives the text back; there is at least one line and there are no more
    lines than words; with a [maxWidth] that is not zero every line is a
    single word of the text or measures less than [maxWidth]. *)
Theorem getLines_keeps_text (text : string) (maxWidth : option R) :
  join_space (getLines measureText text maxWidth) = text /\
  getLines measureText text maxWidth <> [] /\
  (length (getLines measureText text maxWidth) <= length (split_space text))%nat /\
  forall mw line,
    maxWidth = Some mw -> mw <> 0 -> In line (getLines measureText text maxWidth) ->
    In line (split_space text) \/ measureText line < mw.
Proof.
  unfold getLines. destruct maxWidth as [mw |].
  - destruct (Req_dec_T mw 0) as [-> | Hne].
    + rewrite Reqb_true by reflexivity.
      split; [reflexivity |]. split; [discriminate |].
      split; [| intros ? ? [= <-]; congruence].
      pose proof (split_space_nonempty text). destruct (split_space text); cbn; [congruence | lia].
    + rewrite (Reqb_false _ _ Hne).
      pose proof (join_split_space text) as Hjoin.
      destruct (split_space text) as [| word words] eqn:Hs;
        [exfalso; exact (split_space_nonempty text Hs) |].
      split; [rewrite join_wrapWords; exact Hjoin |].
      split; [apply wrapWords_nonempty |].
      split; [apply wrapWords_length |].
      intros mw' line [= <-] _ Hin.
      destruct (wrapWords_fits words mw word line Hin) as [-> | [Hw | Hm]].
      * left. left. reflexivity.
      * left. right. exact Hw.
      * right. exact Hm.
  - split; [reflexivity |]. split; [discriminate |].
    split; [| discriminate].
    pose proof (split_space_nonempty text). destruct (split_space text); cbn; [congruence | lia].
Qed.

End TextProperties.

(** * Text: drawing inside the bounds *)

Section TextBoxProperties.

Variable measureText : string -> R.

(** Where [draw] puts a line of measure [m] in a text of width [w]. *)
Lemma aligned_within (align : string) (w m : R) :
  0 <= m -> m <= w ->
  0 <= (if String.eqb align "center" then (w - m) / 2
        else if String.eqb align "right" then w - m else 0)
  /\ (if String.eqb align "center" then (w - m) / 2
      else if String.eqb align "right" then w - m else 0) + m <= w.
Proof.
  intros Hm Hw. destruct (String.eqb align "center"); [lra |].
  destruct (String.eqb align "right"); lra.
Qed.

Lemma getLines_line (text : string) (w : R) (line : string) :
  w <> 0 -> In line (getLines measureText text (Some w)) ->
  In line (split_space text) \/ measureText line < w.
Proof.
  intros Hw. unfold getLines. rewrite (Reqb_false _ _ Hw).
  destruct (split_space text) as [| word words]; [intros [] |].
  intros Hin. destruct (wrapWords_fits measureText words w word line Hin) as [-> | [H | H]].
  - left. left. reflexivity.
  - left. right. exact H.
  - right. exact H.
Qed.

(** X28: [Text.draw] writes inside the box [Text.getSelfBounds] gives,
    the box culling and hit testing go by.  With measures that are not
    negative and a line height that is not negative, the line [draw]
    writes at index [i] has its top at [i] line heights and ends within
    the height of the bounds; across, either the line is a single word of
    the text that measures more than the bounds are wide, or it lies
    between the left and the right side of the bounds whatever the
    alignment, and then every point of the line's box is in the shape. *)
Theorem Text_draw_within_bounds (p : Props) (i : nat) (c : FillText) :
  (forall s, 0 <= measureText s) ->
  0 <= numOr (p !! "fontSize") 16 * numOr (p !! "lineHeight") 1.2 ->
  Text_draw measureText p !! i = Some c ->
  ft_y c = INR i * (numOr (p !! "fontSize") 16 * numOr (p !! "lineHeight") 1.2) /\
  0 <= ft_y c /\
  ft_y c + numOr (p !! "fontSize") 16 * numOr (p !! "lineHeight") 1.2
    <= rheight (Text_getSelfBounds measureText p) /\
  ((In (ft_line c) (split_space (strOr (p !! "text") "")) /\
    rwidth (Text_getSelfBounds measureText p) < measureText (ft_line c)) \/
   (0 <= ft_x c /\
    ft_x c + measureText (ft_line c) <= rwidth (Text_getSelfBounds measureText p) /\
    forall x y,
      ft_x c <= x <= ft_x c + measureText (ft_line c) ->
      ft_y c <= y
        <= ft_y c + numOr (p !! "fontSize") 16 * numOr (p !! "lineHeight") 1.2 ->
      Text_isPointInShape measureText p x y = true)).
Proof.
  intros Hmeasure Hlh Hdraw.
  unfold Text_draw in Hdraw. cbv zeta in Hdraw.
  rewrite list_lookup_imap in Hdraw.
  set (text := strOr (p !! "text") "") in *.
  set (lh := numOr (p !! "fontSize") 16 * numOr (p !! "lineHeight") 1.2) in *.
  destruct (getLines measureText text (widthOf p) !! i) as [line |] eqn:Hline;
    [| discriminate].
  cbn in Hdraw. injection Hdraw as <-. cbn [ft_line ft_x ft_y].
  pose proof (lookup_lt_Some _ _ _ Hline) as Hlt.
  assert (Hi : INR i + 1 <= INR (length (getLines measureText text (widthOf p)))).
  { rewrite <- S_INR. apply le_INR. lia. }
  assert (Hy : 0 <= INR i * lh) by (pose proof (pos_INR i); nra).
  assert (Hbottom : INR i * lh + lh
                    <= rheight (Text_getSelfBounds measureText p)).
  { unfold Text_getSelfBounds. cbv zeta. cbn [rheight]. fold text. fold lh. nra. }
  split; [reflexivity |]. split; [exact Hy |]. split; [exact Hbottom |].
  assert (Hin : In line (getLines measureText text (widthOf p)))
    by (apply list_elem_of_In, (list_elem_of_lookup_2 _ i); exact Hline).
  assert (Hbox : forall bx,
             0 <= bx -> bx + measureText line <= rwidth (Text_getSelfBounds measureText p) ->
             forall x y, bx <= x <= bx + measureText line ->
                         INR i * lh <= y <= INR i * lh + lh ->
                         Text_isPointInShape measureText p x y = true).
  { intros bx Hbx Hright x y Hx Hyy. unfold Text_isPointInShape. cbv zeta.
    assert (Hrx : rx (Text_getSelfBounds measureText p) = 0) by reflexivity.
    assert (Hry : ry (Text_getSelfBounds measureText p) = 0) by reflexivity.
    rewrite Hrx, Hry, !Rleb_true by lra. reflexivity. }
  assert (Hflat : getLines measureText text (widthOf p) = [text] ->
                  rwidth (Text_getSelfBounds measureText p) = widest measureText [text] ->
                  0 <= 0 /\
                  0 + measureText line <= rwidth (Text_getSelfBounds measureText p)).
  { intros Hone Hw. rewrite Hone in Hin. destruct Hin as [<- | []].
    rewrite Hw. unfold widest. cbn [foldl]. cbv zeta.
    destruct (Rltb 0 (measureText text)) eqn:Hcmp; [lra |].
    apply Rltb_ge in Hcmp. lra. }
  destruct (widthOf p) as [w |] eqn:Hwidth.
  - destruct (Req_dec_T w 0) as [-> | Hne].
    + rewrite (Reqb_true 0 0 eq_refl). cbn [negb andb]. right.
      destruct Hflat as [H0 Hr].
      * unfold getLines. rewrite (Reqb_true 0 0 eq_refl). reflexivity.
      * unfold Text_getSelfBounds. cbv zeta. cbn [rwidth]. rewrite Hwidth.
        rewrite (Reqb_true 0 0 eq_refl). cbn [negb]. fold text.
        unfold getLines. rewrite (Reqb_true 0 0 eq_refl). reflexivity.
      * split; [exact H0 |]. split; [exact Hr | exact (Hbox 0 H0 Hr)].
    + assert (Hbw : rwidth (Text_getSelfBounds measureText p) = w).
      { unfold Text_getSelfBounds. cbv zeta. cbn [rwidth]. rewrite Hwidth.
        rewrite (Reqb_false _ _ Hne). reflexivity. }
      rewrite (Reqb_false _ _ Hne). cbn [negb andb]. rewrite Hbw.
      destruct (Rle_dec (measureText line) w) as [Hfit | Hwide].
      * right.
        assert (Hx : 0 <= (if negb (String.eqb (strOr (p !! "align") "left") "left")
                           then if String.eqb (strOr (p !! "align") "left") "center"
                                then (w - measureText line) / 2
                                else if String.eqb (strOr (p !! "align") "left") "right"
                                     then w - measureText line else 0
                           else 0)
                     /\ (if negb (String.eqb (strOr (p !! "align") "left") "left")
                         then if String.eqb (strOr (p !! "align") "left") "center"
                              then (w - measureText line) / 2
                              else if String.eqb (strOr (p !! "align") "left") "right"
                                   then w - measureText line else 0
                         else 0) + measureText line <= w).
        { destruct (String.eqb (strOr (p !! "align") "left") "left"); cbn [negb].
          - lra.
          - apply aligned_within; [apply Hmeasure | exact Hfit]. }
        destruct Hx as [Hx0 Hx1]. split; [exact Hx0 |]. split; [exact Hx1 |].
        apply Hbox; [exact Hx0 | rewrite Hbw; exact Hx1].
      * left. destruct (getLines_line text w line Hne Hin) as [Hword | Hless]; [| lra].
        split; [exact Hword | lra].
  - right. destruct Hflat as [H0 Hr].
    + reflexivity.
    + unfold Text_getSelfBounds. cbv zeta. cbn [rwidth]. rewrite Hwidth. reflexivity.
    + split; [exact H0 |]. split; [exact Hr | exact (Hbox 0 H0 Hr)].
Qed.

End TextBoxProperties.

Lemma measure_fixed_nonneg (s : string) : 0 <= measure_fixed s.
Proof. unfold measure_fixed. pose proof (pos_INR (String.length s)). lra. Qed.

Lemma Text_draw_within_bounds_witness :
  ft_y (mkFillText "hello world" 0 (INR 0 * (16 * 1.2))) = INR 0 * (16 * 1.2) /\
  0 <= ft_y (mkFillText "hello world" 0 (INR 0 * (16 * 1.2))) /\
  ft_y (mkFillText "hello world" 0 (INR 0 * (16 * 1.2))) + 16 * 1.2
    <= rheight (Text_getSelfBounds measure_fixed text_plain) /\
  ((In "hello world" (split_space "hello world") /\
    rwidth (Text_getSelfBounds measure_fixed text_plain) < measure_fixed "hello world") \/
   (0 <= 0 /\
    0 + measure_fixed "hello world"
      <= rwidth (Text_getSelfBounds measure_fixed text_plain) /\
    forall x y,
      0 <= x <= 0 + measure_fixed "hello world" ->
      INR 0 * (16 * 1.2) <= y <= INR 0 * (16 * 1.2) + 16 * 1.2 ->
      Text_isPointInShape measure_fixed text_plain x y = true)).
Proof.
  apply (Text_draw_within_bounds measure_fixed text_plain 0
           (mkFillText "hello world" 0 (INR 0 * (16 * 1.2))) measure_fixed_nonneg).
  - change (0 <= 16 * 1.2). lra.
  - reflexivity.
Defined.
